(** * Martens: a column-oriented table engine (martens.py)

    A shallow embedding of the [Dataset] class of [martens/martens.py]
    (constructor, sort, group_by, merge, full_outer_merge, rename) and the
    proofs of its specification.  A [Dataset] is a Python [dict] from column
    names to lists of values; Python dictionaries keep insertion order, so
    they are modelled by association lists with Python's update discipline.
    Python exceptions are modelled by the [result] monad, Python's partial
    order on values by an optional boolean.  Arguments that the source only
    tests with [isinstance] are typed here. *)

From Stdlib Require Import String Ascii.
From Stdlib Require Import List ZArith Bool Lia Arith.
From Stdlib Require Import Permutation Sorted.
Import ListNotations.

Set Implicit Arguments.

(** ** Exceptions *)

Inductive error : Type :=
| AssertionError
| KeyError
| TypeError
| IndexError
| AttributeError.

Inductive result (A : Type) : Type :=
| Ok (a : A)
| Err (e : error).

Arguments Ok {A} a.
Arguments Err {A} e.

Definition bind {A B : Type} (m : result A) (f : A -> result B) : result B :=
  match m with
  | Ok a => f a
  | Err e => Err e
  end.

Notation "x <- m ;; k" := (bind m (fun x => k))
  (at level 61, m at next level, right associativity).
Notation "'assert!' b ;; k" := (if b then k else Err AssertionError)
  (at level 61, b at next level, right associativity).

(** A comprehension whose body may raise. *)
Fixpoint mapM {A B : Type} (f : A -> result B) (l : list A) : result (list B) :=
  match l with
  | [] => Ok []
  | x :: l' => y <- f x ;; ys <- mapM f l' ;; Ok (y :: ys)
  end.

(** A [for] loop that updates a state and may raise. *)
Fixpoint foldM {S A : Type} (f : S -> A -> result S) (l : list A) (s : S) : result S :=
  match l with
  | [] => Ok s
  | x :: l' => s' <- f s x ;; foldM f l' s'
  end.

(** ** Values

    Cells are opaque Python values; the ones the engine itself creates or
    inspects are [None], numbers, strings and lists (group_by builds lists
    of cells). *)

Unset Elimination Schemes.
Inductive value : Type :=
| VNone
| VInt (z : Z)
| VStr (s : string)
| VList (l : list value).
Set Elimination Schemes.

(** Python's [==] on these values is structural equality. *)
Fixpoint value_eqb (a b : value) : bool :=
  match a, b with
  | VNone, VNone => true
  | VInt x, VInt y => Z.eqb x y
  | VStr x, VStr y => String.eqb x y
  | VList xs, VList ys =>
      (fix seq_eqb (xs ys : list value) {struct xs} : bool :=
         match xs, ys with
         | [], [] => true
         | x :: xs', y :: ys' => value_eqb x y && seq_eqb xs' ys'
         | _, _ => false
         end) xs ys
  | _, _ => false
  end.

(** Python's [<].  Numbers compare with numbers, strings with strings, and
    sequences lexicographically: the first position where the two sequences
    differ (by [==]) decides, and a proper prefix is smaller.  Every other
    pair raises [TypeError], here [None]. *)
Fixpoint py_lt (a b : value) : option bool :=
  match a, b with
  | VInt x, VInt y => Some (Z.ltb x y)
  | VStr x, VStr y => Some (String.ltb x y)
  | VList xs, VList ys =>
      (fix seq_lt (xs ys : list value) {struct xs} : option bool :=
         match xs, ys with
         | [], [] => Some false
         | [], _ :: _ => Some true
         | _ :: _, [] => Some false
         | x :: xs', y :: ys' =>
             if value_eqb x y then seq_lt xs' ys' else py_lt x y
         end) xs ys
  | _, _ => None
  end.

(** Tuples (sort keys, join keys) compare as sequences. *)
Definition tuple_eqb (a b : list value) : bool := value_eqb (VList a) (VList b).
Definition tuple_lt (a b : list value) : option bool := py_lt (VList a) (VList b).

(** Only lists are unhashable among these values. *)
Definition hashable (v : value) : bool :=
  match v with VList _ => false | _ => true end.

(** ** Python dictionaries, in insertion order *)

Section Dict.
Variable V : Type.

Definition dict : Type := list (string * V).

Fixpoint dict_get (d : dict) (k : string) : option V :=
  match d with
  | [] => None
  | (k', v) :: d' => if String.eqb k' k then Some v else dict_get d' k
  end.

(** [d[k] = v]: an existing key keeps its position, a new one goes last. *)
Fixpoint dict_set (d : dict) (k : string) (v : V) : dict :=
  match d with
  | [] => [(k, v)]
  | (k', v') :: d' =>
      if String.eqb k' k then (k', v) :: d' else (k', v') :: dict_set d' k v
  end.

Definition dict_update (d : dict) (kvs : list (string * V)) : dict :=
  fold_left (fun acc kv => dict_set acc (fst kv) (snd kv)) kvs d.

(** A dict display or comprehension [{k: v for ...}]. *)
Definition dict_of_list (kvs : list (string * V)) : dict := dict_update [] kvs.

Definition dict_keys (d : dict) : list string := map fst d.

Definition getitem (d : dict) (k : string) : result V :=
  match dict_get d k with
  | Some v => Ok v
  | None => Err KeyError
  end.
End Dict.

Arguments dict_get {V} d k.
Arguments dict_set {V} d k v.
Arguments dict_update {V} d kvs.
Arguments dict_of_list {V} kvs.
Arguments dict_keys {V} d.
Arguments getitem {V} d k.

Definition mem (k : string) (l : list string) : bool := existsb (String.eqb k) l.

(** ** The Dataset class *)

Abbreviation Dataset := (dict (list value)).

(** [Dataset.__init__] on a dict template (lines 23-32, [sanitise_names]
    left at [False]): the columns must have at most one distinct length;
    every entry is then copied in. *)
Definition Dataset_init (template : dict (list value)) : result Dataset :=
  assert! (length (nodup Nat.eq_dec (map (fun kv => length (snd kv)) template)) <=? 1)%nat ;;
  Ok (dict_update [] template).

Definition columns (self : Dataset) : list string := dict_keys self.

Definition column_length (self : Dataset) : nat := length (columns self).

(** [zip] of the unpacked columns: the rows, as many as the shortest column
    has cells; no column at all gives no row. *)
Fixpoint zip_star (cols : list (list value)) : list (list value) :=
  match cols with
  | [] => []
  | c :: cs =>
      match cs with
      | [] => map (fun x => [x]) c
      | _ :: _ => map (fun xr => fst xr :: snd xr) (combine c (zip_star cs))
      end
  end.

(** The properties [rows], [records] and [record_length] (lines 411-430). *)
Definition rows (self : Dataset) : list (list value) := zip_star (map snd self).

Definition records (self : Dataset) : list (dict value) :=
  map (fun row => dict_of_list (combine (columns self) row)) (rows self).

Definition record_length (self : Dataset) : nat := length (records self).

(** Every cell list of a table has [n] cells. *)
Definition rectangular (self : Dataset) : Prop :=
  exists n, Forall (fun kv => length (snd kv) = n) self.

Definition rectangularb (self : Dataset) : bool :=
  match self with
  | [] => true
  | (_, c) :: rest => forallb (fun kv => Nat.eqb (length (snd kv)) (length c)) rest
  end.

Definition valid (self : Dataset) : Prop :=
  NoDup (columns self) /\ rectangular self.

(** ** rename (lines 370-371) *)

(** [rename_map[c] if c in rename_map else c] *)
Definition rename_name (rename_map : dict string) (c : string) : string :=
  match dict_get rename_map c with
  | Some n => n
  | None => c
  end.

Definition rename (self : Dataset) (rename_map : dict string) : result Dataset :=
  template <- mapM (fun c => v <- getitem self c ;; Ok (rename_name rename_map c, v))
                   (columns self) ;;
  Dataset_init (dict_of_list template).

(** ** full_outer_merge (lines 361-368) *)

Definition full_outer_merge (self right : Dataset) : result Dataset :=
  assert! (column_length self + column_length right =?
           length (nodup string_dec (columns self ++ columns right)))%nat ;;
  let left_length := record_length self in
  let right_length := record_length right in
  l <- mapM (fun col => v <- getitem self col ;;
                        Ok (col, flat_map (fun val => repeat val right_length) v))
            (columns self) ;;
  r <- mapM (fun col => v <- getitem right col ;;
                        Ok (col, concat (repeat v left_length)))
            (columns right) ;;
  Dataset_init (dict_update (dict_of_list l) r).

(** ** The constructor on a list of records (lines 33-38)

    [record_profiles = list(set(tuple(record) for record in template))]
    lists the distinct key tuples of the records in the iteration order of a
    set, which Python leaves unspecified; the columns are those of
    [record_profiles[0]].  The constructor is therefore a relation: any key
    tuple of the template may come first. *)

Definition Dataset_of_profile (profile : list string) (template : list (dict value))
  : Dataset :=
  dict_update []
    (map (fun col =>
            (col, map (fun record =>
                         match dict_get record col with
                         | Some v => v
                         | None => VNone
                         end) template))
         profile).

Definition Dataset_init_records (template : list (dict value)) (self : Dataset) : Prop :=
  exists profile,
    In profile (map dict_keys template) /\ self = Dataset_of_profile profile template.

(** ** sorted

    [sorted(iterable, key=..., reverse=...)] is stable and asks only [<] of
    two keys; a comparison that raises aborts the sort.  It is modelled by a
    stable insertion sort; with [reverse] the list is reversed before and
    after, which is how [list.sort] keeps equal elements in their original
    order. *)

Section Sorted.
Variable A : Type.
Variable key : A -> list value.

Fixpoint insert (x : A) (l : list A) : result (list A) :=
  match l with
  | [] => Ok [x]
  | y :: l' =>
      match tuple_lt (key y) (key x) with
      | None => Err TypeError
      | Some true => r <- insert x l' ;; Ok (y :: r)
      | Some false => Ok (x :: l)
      end
  end.

Fixpoint isort (l : list A) : result (list A) :=
  match l with
  | [] => Ok []
  | x :: l' => s <- isort l' ;; insert x s
  end.

Definition sorted (l : list A) (reverse : bool) : result (list A) :=
  if reverse then r <- isort (rev l) ;; Ok (rev r) else isort l.
End Sorted.

(** ** sort (lines 232-238) *)

Definition sort (self : Dataset) (names : list string) (reverse : bool)
  : result Dataset :=
  assert! forallb (fun name => mem name (columns self)) names ;;
  let sort_order := names ++ filter (fun col => negb (mem col names)) (columns self) in
  cols <- mapM (getitem self) sort_order ;;
  sorted_data <- sorted (fun x => firstn (length names) x) (zip_star cols) reverse ;;
  let rtn := dict_of_list (combine sort_order (zip_star sorted_data)) in
  template <- mapM (fun col => v <- getitem rtn col ;; Ok (col, v)) sort_order ;;
  Dataset_init (dict_of_list template).

(** ** group_by (lines 240-271) *)

(** [rtn[col].append(v)] *)
Definition col_append (rtn : dict (list value)) (col : string) (v : value)
  : result (dict (list value)) :=
  l <- getitem rtn col ;; Ok (dict_set rtn col (l ++ [v])).

(** [rtn[col][-1].append(v)] *)
Definition col_last_append (rtn : dict (list value)) (col : string) (v : value)
  : result (dict (list value)) :=
  l <- getitem rtn col ;;
  match rev l with
  | [] => Err IndexError
  | VList xs :: before => Ok (dict_set rtn col (rev before ++ [VList (xs ++ [v])]))
  | _ :: _ => Err AttributeError
  end.

(** [rtn[col][-1] = rtn[col][-1] + 1] *)
Definition col_last_incr (rtn : dict (list value)) (col : string)
  : result (dict (list value)) :=
  l <- getitem rtn col ;;
  match rev l with
  | [] => Err IndexError
  | VInt n :: before => Ok (dict_set rtn col (rev before ++ [VInt (n + 1)]))
  | _ :: _ => Err TypeError
  end.

(** The body of the loop over [sorts.records]; the state is [rtn] and
    [last_grouped]. *)
Definition group_step (grouping_cols other_cols : list string) (count : option string)
    (st : dict (list value) * option (list value)) (rec : dict value)
  : result (dict (list value) * option (list value)) :=
  let (rtn, last_grouped) := st in
  grouped <- mapM (getitem rec) grouping_cols ;;
  rtn' <-
    (if match last_grouped with
        | Some lg => tuple_eqb grouped lg
        | None => false
        end
     then
       r1 <- foldM (fun r o => v <- getitem rec o ;; col_last_append r o v) other_cols rtn ;;
       match count with
       | Some c => col_last_incr r1 c
       | None => Ok r1
       end
     else
       r1 <- foldM (fun r g => v <- getitem rec g ;; col_append r g v) grouping_cols rtn ;;
       r2 <- foldM (fun r o => v <- getitem rec o ;; col_append r o (VList [v]))
                   other_cols r1 ;;
       match count with
       | Some c => col_append r2 c (VInt 1)
       | None => Ok r2
       end) ;;
  Ok (rtn', Some grouped).

Definition group_by (self : Dataset) (grouping_cols : list string)
    (other_cols : option (list string)) (count : option string) : result Dataset :=
  let other_cols :=
    match other_cols with
    | Some o => o
    | None => filter (fun col => negb (mem col grouping_cols)) (columns self)
    end in
  sorts <- sort self grouping_cols false ;;
  let rtn :=
    dict_update []
      (map (fun col => (col, []))
           (grouping_cols ++ other_cols ++
            match count with Some c => [c] | None => [] end)) in
  st <- foldM (group_step grouping_cols other_cols count) (records sorts) (rtn, None) ;;
  Dataset_init (fst st).

(** ** merge (lines 280-359) *)

(** [seq[i]] for a non-negative [i] *)
Definition index (l : list value) (i : nat) : result value :=
  match nth_error l i with
  | Some v => Ok v
  | None => Err IndexError
  end.

Definition enumerate {A : Type} (l : list A) : list (nat * A) :=
  combine (seq 0 (length l)) l.

(** [set(...)] of key tuples: the elements must be hashable; the order in
    which the set is later iterated does not matter, since every use sorts
    it first. *)
Fixpoint dedup (l : list (list value)) : list (list value) :=
  match l with
  | [] => []
  | x :: l' => if existsb (tuple_eqb x) l' then dedup l' else x :: dedup l'
  end.

Definition set_of (l : list (list value)) : result (list (list value)) :=
  if forallb (forallb hashable) l then Ok (dedup l) else Err TypeError.

Definition set_inter (a b : list (list value)) : list (list value) :=
  filter (fun x => existsb (tuple_eqb x) b) a.

Definition set_union (a b : list (list value)) : list (list value) :=
  a ++ filter (fun x => negb (existsb (tuple_eqb x) a)) b.

(** [tuple_key(cols)] *)
Definition tuple_key (on : list string) (cols : list value) : result (list value) :=
  mapM (index cols) (seq 0 (length on)).

(** The inner [while] loop for one key.  The loop index is modelled by the
    rows not yet consumed, [zipped[index:]]; the result is [to_add] and the
    rows left for the next key. *)
Fixpoint gather (on : list string) (key : list value) (zipped to_add : list (list value))
  : result (list (list value) * list (list value)) :=
  match zipped with
  | [] => Ok (to_add, [])
  | row :: rest =>
      key_tuple <- tuple_key on row ;;
      match tuple_lt key_tuple key with
      | None => Err TypeError
      | Some true => gather on key rest to_add
      | Some false =>
          if tuple_eqb key_tuple key
          then gather on key rest (to_add ++ [row])
          else Ok (to_add, zipped)
      end
  end.

Definition is_nil {A : Type} (l : list A) : bool :=
  match l with [] => true | _ :: _ => false end.

(** The loop over [all_keys] for one side ([which]). *)
Fixpoint organise (on : list string) (how which : string) (pad : list value)
    (all_keys : list (list value)) (zipped : list (list value))
  : result (list (list (list value))) :=
  match all_keys with
  | [] => Ok []
  | key :: keys =>
      g <- gather on key zipped [] ;;
      let to_add :=
        if is_nil (fst g) && negb (mem how [which; "inner"%string])
        then [pad] else fst g in
      more <- organise on how which pad keys (snd g) ;;
      Ok (to_add :: more)
  end.

(** The body of the innermost emission loop: one output row. *)
Definition emit_row (on left_columns right_columns : list string)
    (key left_add right_add : list value) (rtn : Dataset) : result Dataset :=
  r1 <- foldM (fun r ic => v <- index key (fst ic) ;; col_append r (snd ic) v)
              (enumerate on) rtn ;;
  r2 <- foldM (fun r ic =>
                 if mem (snd ic) on then Ok r
                 else v <- index left_add (fst ic) ;; col_append r (snd ic) v)
              (enumerate left_columns) r1 ;;
  foldM (fun r ic =>
           if mem (snd ic) on then Ok r
           else v <- index right_add (fst ic) ;; col_append r (snd ic) v)
        (enumerate right_columns) r2.

(** The two loops over [left_to_add] and [right_to_add] for one key. *)
Definition emit_key (on left_columns right_columns : list string)
    (rtn : Dataset)
    (klr : list value * (list (list value) * list (list value))) : result Dataset :=
  let key := fst klr in
  foldM (fun r left_add =>
           foldM (fun r' right_add =>
                    emit_row on left_columns right_columns key left_add right_add r')
                 (snd (snd klr)) r)
        (fst (snd klr)) rtn.

Definition merge (self right : Dataset) (on : option (list string)) (how : string)
  : result Dataset :=
  assert! mem how ["inner"; "left"; "right"; "full"]%string ;;
  match on with
  | None => full_outer_merge self right
  | Some on =>
      left_sorted <- sort self on false ;;
      right_sorted <- sort right on false ;;
      lk <- mapM (fun rec => mapM (getitem rec) on) (records left_sorted) ;;
      left_keys <- set_of lk ;;
      rk <- mapM (fun rec => mapM (getitem rec) on) (records right_sorted) ;;
      right_keys <- set_of rk ;;
      let left_columns := columns left_sorted in
      let right_columns := columns right_sorted in
      lz <- mapM (getitem left_sorted) left_columns ;;
      let left_zipped := zip_star lz in
      rz <- mapM (getitem right_sorted) right_columns ;;
      let right_zipped := zip_star rz in
      rtn <- Dataset_init
               (dict_of_list
                  (map (fun col => (col, []))
                       (left_columns ++
                        filter (fun c => negb (mem c left_columns)) right_columns))) ;;
      all_keys <-
        (if String.eqb how "inner" then
           sorted (fun k => k) (set_inter left_keys right_keys) false
         else if String.eqb how "right" then
           sorted (fun k => k) right_keys false
         else if String.eqb how "left" then
           sorted (fun k => k) left_keys false
         else
           sorted (fun k => k) (set_union left_keys right_keys) false) ;;
      let pad := repeat VNone (length left_columns) in
      left_organised <- organise on how "left" pad all_keys left_zipped ;;
      right_organised <- organise on how "right" pad all_keys right_zipped ;;
      foldM (emit_key on left_columns right_columns)
            (combine all_keys (combine left_organised right_organised)) rtn
  end.

(** ** Vocabulary of the specification *)

(** [self[c]] as a total function: the cells of column [c]. *)
Definition col (self : Dataset) (c : string) : list value :=
  match dict_get self c with
  | Some v => v
  | None => []
  end.

(** The columns of [self] under their new names, before they are collected
    into a dict. *)
Definition renamed (self : Dataset) (rename_map : dict string) : list (string * list value) :=
  map (fun kv => (rename_name rename_map (fst kv), snd kv)) self.

(** The names of [l] in order, each at its first occurrence only: the key
    order of a dict filled from left to right. *)
Fixpoint first_occurrences (l : list string) : list string :=
  match l with
  | [] => []
  | x :: l' => x :: filter (fun y => negb (String.eqb y x)) (first_occurrences l')
  end.

Fixpoint nodupb (l : list string) : bool :=
  match l with
  | [] => true
  | x :: l' => negb (mem x l') && nodupb l'
  end.

(** Decidable form of [valid]. *)
Definition validb (self : Dataset) : bool := nodupb (columns self) && rectangularb self.

(** The number of cells of the first column (0 without columns): on a
    rectangular table, its number of rows. *)
Definition height (self : Dataset) : nat :=
  match self with
  | [] => 0%nat
  | (_, c) :: _ => length c
  end.

(** The cartesian product of two tables as the specification words it:
    every left cell repeated once per right row, every right column tiled
    once per left row. *)
Definition cartesian (left right : Dataset) : Dataset :=
  map (fun kv => (fst kv, flat_map (fun val => repeat val (record_length right)) (snd kv))) left
  ++ map (fun kv => (fst kv, concat (repeat (snd kv) (record_length left)))) right.

(** Induction on values, through the cells of a list value. *)
Fixpoint value_ind' (P : value -> Prop)
    (HN : P VNone) (HI : forall z, P (VInt z)) (HS : forall s, P (VStr s))
    (HL : forall l, Forall P l -> P (VList l)) (v : value) : P v :=
  match v with
  | VNone => HN
  | VInt z => HI z
  | VStr s => HS s
  | VList l =>
      HL l ((fix all (l : list value) : Forall P l :=
               match l with
               | [] => Forall_nil P
               | x :: l' => Forall_cons x (value_ind' HN HI HS HL x) (all l')
               end) l)
  end.

(** [a <= b] on keys: equal, or smaller by Python's [<]. *)
Definition key_le (a b : list value) : Prop := a = b \/ tuple_lt a b = Some true.

(** Python can order the two keys (no [TypeError]). *)
Definition comparable (a b : list value) : bool :=
  match tuple_lt a b with
  | Some _ => true
  | None => false
  end.

Definition all_comparable (ks : list (list value)) : bool :=
  forallb (fun a => forallb (comparable a) ks) ks.

(** Order and selection of rows by their key. *)
Definition le_by {A : Type} (key : A -> list value) (x y : A) : Prop :=
  key_le (key x) (key y).

Definition has_key {A : Type} (key : A -> list value) (k : list value) (x : A) : bool :=
  tuple_eqb (key x) k.

(** The rows of [self] read over the columns [cs], in their original order. *)
Definition rows_in (self : Dataset) (cs : list string) : list (list value) :=
  zip_star (map (col self) cs).

(** The column order [sort] works in: the keys, then the other columns. *)
Definition sort_order (self : Dataset) (names : list string) : list string :=
  names ++ filter (fun col => negb (mem col names)) (columns self).

(** The sort key of a row laid out in [sort_order]. *)
Definition row_key (names : list string) (row : list value) : list value :=
  firstn (length names) row.

(** The sort keys of the rows of [self], in row order. *)
Definition keys_of (self : Dataset) (names : list string) : list (list value) :=
  map (row_key names) (rows_in self (sort_order self names)).

Definition inclb (l1 l2 : list string) : bool := forallb (fun x => mem x l2) l1.

(** [rec[c]] as a total function. *)
Definition cell (rec : dict value) (c : string) : value :=
  match dict_get rec c with
  | Some v => v
  | None => VNone
  end.

(** The cell of column [c] in a row laid out over the columns [cs]. *)
Definition cell_in (cs : list string) (row : list value) (c : string) : value :=
  cell (combine cs row) c.

(** [rtn[c] = u(rtn[c])], the common shape of the three column updates. *)
Definition col_modify (rtn : dict (list value)) (c : string)
    (u : list value -> result (list value)) : result (dict (list value)) :=
  l <- getitem rtn c ;; l' <- u l ;; Ok (dict_set rtn c l').

Definition modify_cols (cs : list string) (f : string -> list value -> list value)
    (d : dict (list value)) : dict (list value) :=
  map (fun kv => if mem (fst kv) cs then (fst kv, f (fst kv) (snd kv)) else kv) d.

(** ** Grouping, as the specification words it *)

(** A group: its key and its rows, in order. *)
Abbreviation group := (list value * list (list value))%type.

(** The columns group_by names when [other_cols] is left out. *)
Definition others (self : Dataset) (grouping_cols : list string)
    (other_cols : option (list string)) : list string :=
  match other_cols with
  | Some o => o
  | None => filter (fun col => negb (mem col grouping_cols)) (columns self)
  end.

Definition count_col (count : option string) : list string :=
  match count with Some c => [c] | None => [] end.

(** One output row per group: the grouping columns hold the cells of the
    key, every other column the list of the group's cells, the count column
    the number of rows of the group.  Rows are laid out over [so]. *)
Definition group_table (gs os : list string) (count : option string) (so : list string)
    (R : list group) : Dataset :=
  map (fun ig => (snd ig, map (fun kg : group => nth (fst ig) (fst kg) VNone) R))
      (enumerate gs)
  ++ map (fun o => (o, map (fun kg : group =>
                              VList (map (fun r => cell_in so r o) (snd kg))) R)) os
  ++ map (fun c => (c, map (fun kg : group => VInt (Z.of_nat (length (snd kg)))) R))
         (count_col count).

(** The groups of the keys [ks]: for each key, the rows of [inp] that carry
    it, in the order of [inp]. *)
Definition groups_of (gs : list string) (ks : list (list value)) (inp : list (list value))
  : list group :=
  map (fun k => (k, filter (has_key (row_key gs) k) inp)) ks.

(** The scan of group_by, one row further: a row whose key is that of the
    last group joins it, any other row opens a group. *)
Definition push (gs : list string) (R : list group) (r : list value) : list group :=
  match rev R with
  | (k, grp) :: before =>
      if tuple_eqb (row_key gs r) k
      then rev before ++ [(k, grp ++ [r])]
      else R ++ [(row_key gs r, [r])]
  | [] => [(row_key gs r, [r])]
  end.

Definition last_key (R : list group) : option (list value) :=
  match rev R with
  | (k, _) :: _ => Some k
  | [] => None
  end.

(** Strictly ascending keys. *)
Definition key_lt (a b : list value) : Prop := tuple_lt a b = Some true.

(** ** Joining, as the specification words it *)

(** What one pass of the innermost loop of merge emits: the key, the left
    row and the right row (a real row, or the null-filled pseudo-row). *)
Abbreviation emitted := (list value * (list value * list value))%type.

(** The columns of [self] outside the keys. *)
Definition rest_of (self : Dataset) (on : list string) : list string :=
  filter (fun col => negb (mem col on)) (columns self).

(** One output row per emission: a key column holds the cell of the key, a
    left column the cell of the left row, a right column the cell of the
    right row.  Left rows are laid out over [soL], right rows over [soR]. *)
Definition merge_table (on lrest rrest soL soR : list string) (E : list emitted)
  : Dataset :=
  map (fun c => (c, map (fun e : emitted => cell_in on (fst e) c) E)) on
  ++ map (fun c => (c, map (fun e : emitted => cell_in soL (fst (snd e)) c) E)) lrest
  ++ map (fun c => (c, map (fun e : emitted => cell_in soR (snd (snd e)) c) E)) rrest.

(** The rows one side contributes to key [k]: the rows of [inp] that carry
    [k], or the pseudo-row when there is none and the mode keeps the key. *)
Definition side (how which : string) (pad : list value) (on : list string)
    (inp : list (list value)) (k : list value) : list (list value) :=
  if is_nil (filter (has_key (row_key on) k) inp)
     && negb (mem how [which; "inner"%string])
  then [pad]
  else filter (has_key (row_key on) k) inp.

(** The cartesian product of the two runs of one key. *)
Definition emit (k : list value) (ls rs : list (list value)) : list emitted :=
  flat_map (fun la => map (fun ra => (k, (la, ra))) rs) ls.

(** The pseudo-row: as many nulls as the left table has columns. *)
Definition pad_row (left : Dataset) (on : list string) : list value :=
  repeat VNone (length (sort_order left on)).

(** Everything a merge over the keys [ak] emits, in order. *)
Definition merged (on : list string) (how : string) (left right : Dataset)
    (ak : list (list value)) : list emitted :=
  flat_map (fun k =>
              emit k
                (side how "left" (pad_row left on) on (rows_in left (sort_order left on)) k)
                (side how "right" (pad_row left on) on (rows_in right (sort_order right on)) k))
           ak.

(** The keys a mode works on. *)
Definition key_in (how : string) (lk rk : list (list value)) (k : list value) : Prop :=
  if String.eqb how "inner" then In k lk /\ In k rk
  else if String.eqb how "right" then In k rk
  else if String.eqb how "left" then In k lk
  else In k lk \/ In k rk.

(** The inputs on which the join is specified: two rectangular tables with
    at least one row each, distinct key names present on both sides, no
    column name shared outside the keys, and keys that Python can order and
    hash. *)
Definition mergeableb (left right : Dataset) (on : list string) : bool :=
  validb left && validb right && nodupb on
  && inclb on (columns left) && inclb on (columns right)
  && (0 <? height left)%nat && (0 <? height right)%nat
  && nodupb (on ++ rest_of left on ++ rest_of right on)
  && all_comparable (keys_of left on ++ keys_of right on)
  && forallb (forallb hashable) (keys_of left on ++ keys_of right on).

(** The pseudo-row is as long as the left table is wide and is indexed by
    the positions of the right columns when it stands for the right side:
    that works when the right table is not wider than the left, or when the
    pseudo-row is never needed on the right. *)
Definition pad_fitsb (how : string) (left right : Dataset) (on : list string) : bool :=
  negb (mem how ["left"; "full"]%string)
  || (length (columns right) <=? length (columns left))%nat
  || forallb (fun k => existsb (tuple_eqb k) (keys_of right on)) (keys_of left on).

(** The emissions of key [k], and the number of rows that carry [k]. *)
Definition emitted_for (k : list value) (E : list emitted) : list emitted :=
  filter (fun e : emitted => tuple_eqb (fst e) k) E.

Definition key_count (on : list string) (k : list value) (inp : list (list value)) : nat :=
  length (filter (has_key (row_key on) k) inp).

(** ** Example tables *)

Definition people : Dataset :=
  [("id", [VInt 2; VInt 1; VInt 2]); ("x", [VInt 10; VInt 20; VInt 30]);
   ("y", [VStr "a"; VStr "b"; VStr "c"])]%string.

Definition no_rows : Dataset := [("id", []); ("x", [])]%string.

Definition orders : Dataset :=
  [("id", [VInt 1; VInt 2; VInt 2]); ("v", [VStr "a"; VStr "b"; VStr "c"])]%string.

Definition prices : Dataset :=
  [("id", [VInt 2; VInt 3]); ("w", [VInt 7; VInt 8])]%string.

(** * The other operations of the table engine

    The methods of [Dataset] and the module functions around the ones above.
    Strings are held as their UTF-8 bytes. *)

(** ** Callables

    A function handed to the engine is known by its [__name__], by the names
    of its parameters ([inspect.signature(func).parameters], in order) and
    by what a call returns or raises on given arguments, listed in the order
    of the parameters.  [A] is what one argument is: a cell, or a list of
    cells.  Functions are taken to be pure: a call reads its arguments and
    changes nothing. *)

Record callable (A R : Type) : Type := {
  __name__ : string;
  parameters : list string;
  call : list A -> result R
}.

(** ** __existing__ and __with__ (lines 220-221, 448-450) *)

Definition __existing__ (self : Dataset) : result (dict (list value)) :=
  kvs <- mapM (fun col => v <- getitem self col ;; Ok (col, v)) (columns self) ;;
  Ok (dict_of_list kvs).

Definition __with__ (self : Dataset) (new : dict (list value)) : result Dataset :=
  existing <- __existing__ self ;;
  Dataset_init (dict_update existing new).

(** ** select, drop, rename_and_select, fill_none
    (lines 223-229, 373-374, 386-387) *)

Definition select (self : Dataset) (names : list string) : result Dataset :=
  template <- mapM (fun name => v <- getitem self name ;; Ok (name, v)) names ;;
  Dataset_init (dict_of_list template).

Definition drop (self : Dataset) (names : list string) : result Dataset :=
  template <- mapM (fun name => v <- getitem self name ;; Ok (name, v))
                   (filter (fun name => negb (mem name names)) (columns self)) ;;
  Dataset_init (dict_of_list template).

Definition rename_and_select (self : Dataset) (rename_map : dict string)
  : result Dataset :=
  template <- mapM (fun c => n <- getitem rename_map c ;;
                             v <- getitem self c ;; Ok (n, v))
                   (dict_keys rename_map) ;;
  Dataset_init (dict_of_list template).

(** [value if val is None else val] *)
Definition fill (value' val : value) : value :=
  match val with VNone => value' | _ => val end.

Definition fill_none (self : Dataset) (value' : value) : result Dataset :=
  template <- mapM (fun col => v <- getitem self col ;; Ok (col, map (fill value') v))
                   (columns self) ;;
  Dataset_init (dict_of_list template).

(** ** with_id, with_constant, with_constants
    (lines 205-218, 444-446) *)

(** [list(range(n))] *)
Definition range (n : Z) : list value :=
  map (fun i => VInt (Z.of_nat i)) (seq 0 (Z.to_nat n)).

Definition __entry_length__ (self : Dataset) : result nat :=
  match columns self with
  | [] => Err IndexError
  | x :: _ => v <- getitem self x ;; Ok (length v)
  end.

Definition with_id (self : Dataset) (name : string) : result Dataset :=
  n <- __entry_length__ self ;;
  __with__ self [(name, range (Z.of_nat n))].

Definition with_constant (self : Dataset) (value' : value) (name : string)
  : result Dataset :=
  __with__ self [(name, repeat value' (record_length self))].

Definition with_constants (self : Dataset) (input_dict : dict value) : result Dataset :=
  foldM (fun rtn key => v <- getitem input_dict key ;; with_constant rtn v key)
        (dict_keys input_dict) self.

(** ** first (lines 424-426) *)

Definition first (self : Dataset) : result (dict value) :=
  kvs <- mapM (fun col => v <- getitem self col ;; x <- index v 0 ;; Ok (col, x))
              (columns self) ;;
  Ok (dict_of_list kvs).

(** ** apply and the mutate family (lines 52-72, 94-106) *)

Definition apply {R : Type} (self : Dataset) (func : callable value R)
  : result (list R) :=
  let params := parameters func in
  assert! forallb (fun param => mem param (columns self)) params ;;
  cols <- mapM (getitem self) params ;;
  mapM (call func) (zip_star cols).

Definition long_apply {R : Type} (self : Dataset) (func : callable (list value) R)
  : result R :=
  let params := parameters func in
  assert! forallb (fun param => mem param (columns self)) params ;;
  args <- mapM (getitem self) params ;;
  call func args.

(** [l[a:b]] for non-negative [a] and [b] *)
Definition between {A : Type} (l : list A) (a b : nat) : list A :=
  firstn (b - a) (skipn a l).

Definition window_apply {R : Type} (self : Dataset) (func : callable (list value) R)
    (window : Z) : result (list R) :=
  let params := parameters func in
  assert! (length params =? 1)%nat ;;
  match params with
  | [] => Err AssertionError
  | name :: _ =>
      mapM (fun i => l <- getitem self name ;;
                     call func [between l (Z.to_nat (Z.max 0 (Z.of_nat i - window + 1)))
                                        (i + 1)])
           (seq 0 (record_length self))
  end.

(** [name if name is not None else mutation.__name__] *)
Definition name_or {A R : Type} (name : option string) (mutation : callable A R)
  : string :=
  match name with Some name => name | None => __name__ mutation end.

Definition mutate (self : Dataset) (mutation : callable value value)
    (name : option string) : result Dataset :=
  applied <- apply self mutation ;;
  __with__ self [(name_or name mutation, applied)].

(** The mutation returns any object; only a list of the right length is
    accepted. *)
Definition long_mutate (self : Dataset) (mutation : callable (list value) value)
    (name : option string) : result Dataset :=
  result <- long_apply self mutation ;;
  match result with
  | VList result =>
      assert! (length result =? record_length self)%nat ;;
      __with__ self [(name_or name mutation, result)]
  | _ => Err AssertionError
  end.

Definition window_mutate (self : Dataset) (mutation : callable (list value) value)
    (window : Z) (name : option string) : result Dataset :=
  result <- window_apply self mutation window ;;
  __with__ self [(name_or name mutation, result)].

(** ** replace (lines 112-119) *)

Definition replace (self : Dataset) (mutation : value -> result value)
    (included_names excluded_names : option (list string)) : result Dataset :=
  let go names :=
    new <- mapM (fun name => l <- getitem self name ;;
                             l' <- mapM mutation l ;; Ok (name, l'))
                names ;;
    __with__ self (dict_of_list new) in
  match included_names, excluded_names with
  | Some names, _ => go names
  | None, Some excluded_names =>
      go (filter (fun n => negb (mem n excluded_names)) (columns self))
  | None, None => Ok self
  end.

(** ** filter (lines 43-50)

    [filter_by] is a callable or a value; a callable returns any object, of
    which only a [bool] is accepted. *)

Inductive returned : Type :=
| Bool (b : bool)
| Other (v : value).

Definition is_bool (item : returned) : bool :=
  match item with Bool _ => true | Other _ => false end.

Definition truth (item : returned) : bool :=
  match item with Bool b => b | Other _ => false end.

Definition Dataset_filter (self : Dataset) (filter_by : callable value returned + value)
    (var : option string) : result Dataset :=
  match filter_by with
  | inl func =>
      applied <- apply self func ;;
      assert! forallb is_bool applied ;;
      template <- mapM (fun col =>
                          v <- getitem self col ;;
                          Ok (col, map fst (filter (fun x => truth (snd x))
                                                   (combine v applied))))
                       (columns self) ;;
      Dataset_init (dict_of_list template)
  | inr filter_by =>
      match var with
      | None => Err AssertionError
      | Some var =>
          template <- mapM (fun col =>
                              v <- getitem self col ;;
                              w <- getitem self var ;;
                              Ok (col, map fst (filter (fun x => value_eqb (snd x) filter_by)
                                                       (combine v w))))
                           (columns self) ;;
          Dataset_init (dict_of_list template)
      end
  end.

(** ** unique_by (lines 273-274) *)

Definition unique_by (self : Dataset) (names : list string) : result Dataset :=
  cols <- mapM (getitem self) names ;;
  keys <- set_of (zip_star cols) ;;
  sorted_keys <- sorted (fun k => k) keys false ;;
  Dataset_init (dict_of_list (combine names (zip_star sorted_keys))).

(** ** stack (lines 548-553)

    Column names are sorted as strings; [sorted] sees each name as a
    one-cell key. *)

Definition sorted_names (names : list string) : result (list string) :=
  sorted (fun x => [VStr x]) names false.

Definition names_eqb (a b : list string) : bool :=
  if list_eq_dec string_dec a b then true else false.

Definition stack (list_of_datasets : list Dataset) : result Dataset :=
  match list_of_datasets with
  | [] => Err IndexError
  | first :: _ =>
      cols <- sorted_names (columns first) ;;
      same <- mapM (fun y => s <- sorted_names (columns y) ;; Ok (names_eqb cols s))
                   list_of_datasets ;;
      assert! forallb (fun b => b) same ;;
      template <- mapM (fun col =>
                          vs <- mapM (fun element => getitem element col)
                                     list_of_datasets ;;
                          Ok (col, concat vs))
                       cols ;;
      Dataset_init (dict_of_list template)
  end.

(** ** headings_squish (lines 136-141) *)

Definition headings_squish (self : Dataset) (grouping_cols headings : list string)
    (value_name heading_name : string) : result Dataset :=
  tables <- mapM (fun h =>
                    gs <- mapM (fun g => v <- getitem self g ;; Ok (g, v)) grouping_cols ;;
                    hs <- getitem self h ;;
                    vs <- getitem self h ;;
                    Dataset_init
                      (dict_update (dict_of_list gs)
                                   [(heading_name, repeat (VStr h) (length hs));
                                    (value_name, vs)]))
                 headings ;;
  stack tables.

(** ** slice (lines 40-41)

    [seq[start:stop:step]] follows the rules of [slice.indices]: a missing
    bound is the end the step walks from or to, a negative bound counts from
    the end of the sequence, and bounds are clipped to the sequence.  A zero
    step raises [ValueError], which the engine itself never raises: [None]
    stands for it. *)

Definition clip (length step i : Z) : Z :=
  if (i <? 0)%Z then
    if (i + length <? 0)%Z then (if (step <? 0)%Z then (-1)%Z else 0%Z)
    else (i + length)%Z
  else if (length <=? i)%Z then (if (step <? 0)%Z then (length - 1)%Z else length)
  else i.

(** The first index, the step and the number of elements of a slice. *)
Definition slice_indices (start stop step : option Z) (length : Z)
  : option (Z * Z * nat) :=
  let step := match step with Some s => s | None => 1%Z end in
  if (step =? 0)%Z then None
  else
    let start := match start with
                 | Some i => clip length step i
                 | None => if (step <? 0)%Z then (length - 1)%Z else 0%Z
                 end in
    let stop := match stop with
                | Some i => clip length step i
                | None => if (step <? 0)%Z then (-1)%Z else length
                end in
    let n := if (step <? 0)%Z
             then (if (stop <? start)%Z then ((start - stop - 1) / (- step) + 1)%Z else 0%Z)
             else (if (start <? stop)%Z then ((stop - start - 1) / step + 1)%Z else 0%Z) in
    Some (start, step, Z.to_nat n).

Definition item (l : list value) (i : Z) : list value :=
  if (i <? 0)%Z then []
  else match nth_error l (Z.to_nat i) with Some x => [x] | None => [] end.

Definition getslice (l : list value) (start stop step : option Z) : option (list value) :=
  match slice_indices start stop step (Z.of_nat (length l)) with
  | None => None
  | Some (first, step, n) =>
      Some (flat_map (fun i => item l (first + Z.of_nat i * step)) (seq 0 n))
  end.

(** The dict comprehension of [slice], column after column. *)
Fixpoint slice_columns (self : Dataset) (cols : list string) (start stop step : option Z)
  : option (result (list (string * list value))) :=
  match cols with
  | [] => Some (Ok [])
  | col :: cols' =>
      match getitem self col with
      | Err e => Some (Err e)
      | Ok v =>
          match getslice v start stop step with
          | None => None
          | Some v' =>
              match slice_columns self cols' start stop step with
              | None => None
              | Some (Err e) => Some (Err e)
              | Some (Ok template) => Some (Ok ((col, v') :: template))
              end
          end
      end
  end.

Definition slice (self : Dataset) (start stop step : option Z) : option (result Dataset) :=
  match slice_columns self (columns self) start stop step with
  | None => None
  | Some template => Some (template <- template ;; Dataset_init (dict_of_list template))
  end.

(** ** __sanitise_column_name__ (lines 516-533) *)

(** [s.replace(old, new)] for a non-empty [old]: the occurrences of [old]
    are replaced from left to right; [skip] counts the characters of the
    current occurrence that are still to be passed over. *)
Fixpoint replace_from (old new : string) (skip : nat) (s : string) : string :=
  match s with
  | EmptyString => EmptyString
  | String c s' =>
      match skip with
      | S k => replace_from old new k s'
      | O =>
          if prefix old s
          then (new ++ replace_from old new (String.length old - 1) s')%string
          else String c (replace_from old new 0 s')
      end
  end.

Definition str_replace (old new s : string) : string := replace_from old new 0 s.

(** The byte order mark U+FEFF, and the double quote. *)
Definition bom : string :=
  String "239"%char (String "187"%char (String "191"%char EmptyString)).

Definition double_quote : string := String "034"%char EmptyString.

Definition replace_map : list (string * string) :=
  [(":", EmptyString); (" ", "_"); (")", EmptyString); ("(", "_"); (".", "_");
   ("'", EmptyString); ("%", "pct"); ("+", "plus"); ("-", "_");
   (bom, EmptyString); (double_quote, EmptyString)]%string.

Definition __sanitise_column_name__ (column_name : string) : string :=
  fold_left (fun column_name kv => str_replace (fst kv) (snd kv) column_name)
            replace_map column_name.

(** ** column_stack (lines 179-188)

    A cell of the stacked column is iterated: a list gives its elements, a
    string its characters (the code points of its UTF-8 bytes); any other
    cell raises [TypeError].  [col not in name] is Python's test on strings:
    a column is left out when its name occurs inside [name].  Unpacking no
    triple at all raises [ValueError]; [None] stands for it, as in
    [slice]. *)

Definition is_continuation (c : ascii) : bool :=
  (128 <=? nat_of_ascii c)%nat && (nat_of_ascii c <? 192)%nat.

(** The continuation bytes a string starts with, and the characters after
    them. *)
Fixpoint split_points (s : string) : string * list string :=
  match s with
  | EmptyString => (EmptyString, [])
  | String c s' =>
      let (pending, points) := split_points s' in
      if is_continuation c then (String c pending, points)
      else (EmptyString, String c pending :: points)
  end.

Definition code_points (s : string) : list string :=
  let (pending, points) := split_points s in
  match pending with
  | EmptyString => points
  | String _ _ => pending :: points
  end.

(** [a in b] on strings *)
Fixpoint substring_of (a b : string) : bool :=
  prefix a b
  || match b with
     | EmptyString => false
     | String _ b' => substring_of a b'
     end.

(** [iter(v)] *)
Definition iter_value (v : value) : result (list value) :=
  match v with
  | VList l => Ok l
  | VStr s => Ok (map VStr (code_points s))
  | _ => Err TypeError
  end.

Definition column_stack (self : Dataset) (name : string)
    (new_name save_len enumeration : option string) : option (result Dataset) :=
  let parts :=
    existing <- mapM (fun col =>
                        c <- getitem self col ;;
                        n <- getitem self name ;;
                        cells <- mapM (fun vr => res <- iter_value (snd vr) ;;
                                                 Ok (map (fun _ => fst vr) res))
                                      (combine c n) ;;
                        Ok (col, concat cells))
                     (filter (fun col => negb (substring_of col name)) (columns self)) ;;
    n <- getitem self name ;;
    triples <- mapM (fun rec =>
                       items <- iter_value rec ;;
                       Ok (map (fun iv => (VInt (Z.of_nat (fst iv)), snd iv,
                                           VInt (Z.of_nat (length items))))
                               (enumerate items)))
                    n ;;
    Ok (dict_of_list existing, concat triples) in
  match parts with
  | Err e => Some (Err e)
  | Ok (_, []) => None
  | Ok (existing, triples) =>
      let new := [(match new_name with Some new_name => new_name | None => name end,
                   map (fun t => snd (fst t)) triples)] in
      let new := match save_len with
                 | Some save_len => dict_set new save_len (map snd triples)
                 | None => new
                 end in
      let new := match enumeration with
                 | Some enumeration =>
                     dict_set new enumeration (map (fun t => fst (fst t)) triples)
                 | None => new
                 end in
      Some (Dataset_init (dict_update existing new))
  end.

(** ** column_squish (lines 122-133)

    [sorted(set(self[headings]))] asks the cells to be hashable and sorts
    them by [<]; as in [merge] the order in which the set is iterated does
    not matter.  [sorted] sees each cell as a one-cell key. *)

Fixpoint unique (l : list value) : list value :=
  match l with
  | [] => []
  | x :: l' => if existsb (value_eqb x) l' then unique l' else x :: unique l'
  end.

Definition set_of_values (l : list value) : result (list value) :=
  if forallb hashable l then Ok (unique l) else Err TypeError.

(** [prefix + heading] *)
Definition str_add (prefix : string) (heading : value) : result string :=
  match heading with
  | VStr s => Ok (prefix ++ s)%string
  | _ => Err TypeError
  end.

(** [next((value for heading_inner, value in pairs if heading_inner == heading), None)] *)
Definition next_value (heading : value) (pairs : list (value * value)) : value :=
  match find (fun hv => value_eqb (fst hv) heading) pairs with
  | Some hv => snd hv
  | None => VNone
  end.

Definition column_squish (self : Dataset) (grouping_cols : list string)
    (headings values prefix : string) : result Dataset :=
  assert! mem headings (columns self) ;;
  assert! mem values (columns self) ;;
  rtn <- group_by self grouping_cols (Some [headings; values]) None ;;
  cells <- getitem self headings ;;
  heading_set <- set_of_values cells ;;
  new_headings <- sorted (fun x => [x]) heading_set false ;;
  rtn <- foldM (fun rtn heading =>
                  column <- mapM (fun rec =>
                                    hl <- getitem rec headings ;;
                                    vl <- getitem rec values ;;
                                    hs <- iter_value hl ;;
                                    vs <- iter_value vl ;;
                                    Ok (next_value heading (combine hs vs)))
                                 (records rtn) ;;
                  name <- str_add prefix heading ;;
                  Ok (dict_set rtn name column))
               new_headings rtn ;;
  names <- mapM (str_add prefix) new_headings ;;
  select rtn (grouping_cols ++ names).

(** ** Vocabulary for the properties of these operations *)

(** The rename map read backwards. *)
Definition inverse (rename_map : dict string) : dict string :=
  map (fun kv => (snd kv, fst kv)) rename_map.

(** The table with [f] applied to every cell. *)
Definition map_cells (f : value -> value) (self : Dataset) : Dataset :=
  map (fun kv => (fst kv, map f (snd kv))) self.

(** The last [n] elements of a list (all of it when it is shorter). *)
Definition lastn {A : Type} (n : nat) (l : list A) : list A :=
  skipn (length l - n) l.

(** The elements of [l] whose mask is [true]. *)
Definition keep {A : Type} (l : list A) (mask : list bool) : list A :=
  map fst (filter (fun x => snd x) (combine l mask)).

(** Python's [<] on column names. *)
Definition name_lt (a b : string) : Prop := String.ltb a b = true.

(** The table with [f] applied to every column. *)
Definition map_columns (f : list value -> list value) (self : Dataset) : Dataset :=
  map (fun kv => (fst kv, f (snd kv))) self.

(** One table of [headings_squish]: the grouping columns, the heading [h]
    once per row, and the cells of column [h]. *)
Definition squished (self : Dataset) (grouping_cols : list string)
    (value_name heading_name : string) (h : string) : Dataset :=
  map (fun c => (c, if String.eqb c heading_name then repeat (VStr h) (height self)
                    else if String.eqb c value_name then col self h
                    else col self c))
      (grouping_cols ++ [heading_name; value_name]).

(** The characters of a string, and the ASCII characters that
    [__sanitise_column_name__] replaces. *)
Definition chars (s : string) : list ascii := list_ascii_of_string s.

Definition specials : list ascii :=
  [":"; " "; ")"; "("; "."; "'"; "%"; "+"; "-"; "034"]%char.

Definition absentb (k : ascii) (s : string) : bool :=
  negb (existsb (Ascii.eqb k) (chars s)).

(** The elements of a list cell. *)
Definition is_list (v : value) : bool :=
  match v with VList _ => true | _ => false end.

Definition elements (v : value) : list value :=
  match v with VList l => l | _ => [] end.

(** The cells of a column, each repeated once per element of the list
    beside it. *)
Definition stretch (cells lists : list value) : list value :=
  flat_map (fun vl => repeat (fst vl) (length (elements (snd vl)))) (combine cells lists).

(** The columns that [column_stack] makes of a column of lists: the
    elements, then (when asked for) the length of the list each element
    comes from and its position in that list. *)
Definition stacked (name : string) (new_name save_len enumeration : option string)
    (lists : list value) : dict (list value) :=
  let new := [(match new_name with Some new_name => new_name | None => name end,
               flat_map elements lists)] in
  let new := match save_len with
             | Some save_len =>
                 dict_set new save_len
                   (flat_map (fun l => repeat (VInt (Z.of_nat (length (elements l))))
                                              (length (elements l))) lists)
             | None => new
             end in
  match enumeration with
  | Some enumeration =>
      dict_set new enumeration
        (flat_map (fun l => map (fun i => VInt (Z.of_nat i)) (seq 0 (length (elements l))))
                  lists)
  | None => new
  end.

(** What [column_stack] returns on a column of lists: the columns it keeps,
    stretched, then updated with the stacked columns. *)
Definition stacked_table (self : Dataset) (name : string)
    (new_name save_len enumeration : option string) : Dataset :=
  dict_update
    (map (fun c => (c, stretch (col self c) (col self name)))
         (filter (fun c => negb (substring_of c name)) (columns self)))
    (stacked name new_name save_len enumeration (col self name)).

(** The value of the first row of a group whose heading cell is [heading]
    ([None] without such a row); rows are laid out over [so]. *)
Definition found (so : list string) (headings values : string) (heading : value)
    (grp : list (list value)) : value :=
  next_value heading (map (fun r => (cell_in so r headings, cell_in so r values)) grp).

(** The pivot of a table: one row per key of [ks], the grouping columns,
    then one column per heading of [hs] holding the value found in the
    group of the key. *)
Definition pivot_table (self : Dataset) (grouping_cols : list string)
    (headings values prefix : string) (ks : list (list value)) (hs : list string)
  : Dataset :=
  map (fun ig => (snd ig, map (fun k => nth (fst ig) k VNone) ks))
      (enumerate grouping_cols)
  ++ map (fun s =>
            ((prefix ++ s)%string,
             map (fun k => found (sort_order self grouping_cols) headings values (VStr s)
                                 (filter (has_key (row_key grouping_cols) k)
                                         (rows_in self (sort_order self grouping_cols))))
                 ks))
         hs.

(** * Proofs *)

Unset Implicit Arguments.

(** ** The error monad *)

Lemma bind_ok {A B : Type} (m : result A) (f : A -> result B) (b : B) :
  bind m f = Ok b -> exists a, m = Ok a /\ f a = Ok b.
Proof. destruct m as [a|e]; simpl; intros H; [eauto | discriminate]. Qed.

Lemma mapM_ok {A B : Type} (f : A -> result B) (g : A -> B) (l : list A) :
  (forall x, In x l -> f x = Ok (g x)) -> mapM f l = Ok (map g l).
Proof.
  induction l as [|x l IH]; simpl; intros H; [reflexivity|].
  rewrite (H x (or_introl eq_refl)); simpl.
  rewrite IH by auto. reflexivity.
Qed.

(** ** Dictionaries *)

Lemma mem_In (k : string) (l : list string) : mem k l = true <-> In k l.
Proof.
  unfold mem. rewrite existsb_exists. split.
  - intros [x [Hx He]]. apply String.eqb_eq in He. subst. assumption.
  - intros H. exists k. split; [assumption | apply String.eqb_refl].
Qed.

Lemma mem_false (k : string) (l : list string) : mem k l = false <-> ~ In k l.
Proof.
  rewrite <- mem_In. destruct (mem k l); split; intros; congruence.
Qed.

Section DictFacts.
Context {V : Type}.
Implicit Types (d : dict V) (k : string) (v : V).

Lemma dict_get_None d k : dict_get d k = None <-> ~ In k (dict_keys d).
Proof.
  induction d as [|[k' v'] d IH]; simpl; [tauto|].
  destruct (String.eqb_spec k' k) as [->|Hne].
  - split; [discriminate | intros H; exfalso; apply H; auto].
  - rewrite IH. tauto.
Qed.

Lemma dict_get_In d k v : NoDup (dict_keys d) -> In (k, v) d -> dict_get d k = Some v.
Proof.
  induction d as [|[k' v'] d IH]; simpl; intros Hnd Hin; [contradiction|].
  inversion Hnd as [|? ? Hnotin Hnd']; subst.
  destruct Hin as [Heq|Hin].
  - inversion Heq; subst. rewrite String.eqb_refl. reflexivity.
  - destruct (String.eqb_spec k' k) as [->|Hne]; [|auto].
    exfalso. apply Hnotin. apply (in_map fst) in Hin. exact Hin.
Qed.

Lemma dict_set_new d k v : ~ In k (dict_keys d) -> dict_set d k v = d ++ [(k, v)].
Proof.
  induction d as [|[k' v'] d IH]; simpl; intros H; [reflexivity|].
  destruct (String.eqb_spec k' k) as [->|Hne]; [tauto|].
  rewrite IH by tauto. reflexivity.
Qed.

Lemma dict_set_keys_old d k v : In k (dict_keys d) -> dict_keys (dict_set d k v) = dict_keys d.
Proof.
  induction d as [|[k' v'] d IH]; simpl; intros H; [contradiction|].
  destruct (String.eqb_spec k' k) as [->|Hne]; simpl; [reflexivity|].
  rewrite IH; [reflexivity|]. destruct H; [contradiction|assumption].
Qed.

Lemma dict_get_set_same d k v : dict_get (dict_set d k v) k = Some v.
Proof.
  induction d as [|[k' v'] d IH]; simpl.
  - rewrite String.eqb_refl. reflexivity.
  - destruct (String.eqb_spec k' k) as [->|Hne]; simpl.
    + rewrite String.eqb_refl. reflexivity.
    + destruct (String.eqb_spec k' k); [contradiction|assumption].
Qed.

Lemma dict_get_set_other d k k' v : k' <> k -> dict_get (dict_set d k v) k' = dict_get d k'.
Proof.
  intros Hne. induction d as [|[k0 v0] d IH]; simpl.
  - destruct (String.eqb_spec k k'); [congruence|reflexivity].
  - destruct (String.eqb_spec k0 k) as [->|Hne0]; simpl.
    + destruct (String.eqb_spec k k'); [congruence|reflexivity].
    + destruct (String.eqb_spec k0 k'); [reflexivity|assumption].
Qed.

Lemma dict_update_new d (kvs : list (string * V)) :
  NoDup (dict_keys d ++ map fst kvs) -> dict_update d kvs = d ++ kvs.
Proof.
  revert d. induction kvs as [|[k v] kvs IH]; simpl; intros d Hnd.
  - rewrite app_nil_r. reflexivity.
  - assert (Hk : ~ In k (dict_keys d)).
    { intros Hin. apply NoDup_remove_2 in Hnd. apply Hnd. apply in_or_app. auto. }
    unfold dict_update in *. simpl. rewrite dict_set_new by assumption.
    rewrite IH.
    + rewrite <- app_assoc. reflexivity.
    + unfold dict_keys. rewrite map_app, <- app_assoc. simpl. exact Hnd.
Qed.

Lemma dict_of_list_nodup (kvs : list (string * V)) :
  NoDup (map fst kvs) -> dict_of_list kvs = kvs.
Proof. intros H. unfold dict_of_list. rewrite dict_update_new; auto. Qed.
End DictFacts.

(** ** Tables *)

Lemma nodup_const (l : list nat) (n : nat) :
  (forall x, In x l -> x = n) -> (length (nodup Nat.eq_dec l) <= 1)%nat.
Proof.
  induction l as [|x l IH]; simpl; intros H; [lia|].
  destruct (in_dec Nat.eq_dec x l) as [Hin|Hnin]; [auto|].
  destruct l as [|y l]; simpl; [lia|].
  exfalso. apply Hnin. left.
  rewrite (H x), (H y); simpl; auto.
Qed.

Lemma nodup_le1 (l : list nat) :
  (length (nodup Nat.eq_dec l) <= 1)%nat -> forall x y, In x l -> In y l -> x = y.
Proof.
  intros Hlen x y Hx Hy.
  apply (nodup_In Nat.eq_dec) in Hx, Hy.
  destruct (nodup Nat.eq_dec l) as [|a [|b r]]; simpl in *; try lia; try contradiction.
Qed.

Lemma rectangular_lengths (t : Dataset) :
  rectangular t <->
  (length (nodup Nat.eq_dec (map (fun kv => length (snd kv)) t)) <= 1)%nat.
Proof.
  split.
  - intros [n Hn]. apply nodup_const with (n := n).
    intros x Hx. apply in_map_iff in Hx. destruct Hx as [kv [<- Hkv]].
    rewrite Forall_forall in Hn. auto.
  - intros Hlen. destruct t as [|[c0 v0] t].
    + exists 0%nat. constructor.
    + exists (length v0). apply Forall_forall. intros kv Hkv.
      apply (nodup_le1 _ Hlen).
      * apply in_map_iff. exists kv. auto.
      * simpl. auto.
Qed.

Lemma Dataset_init_rect (d : dict (list value)) :
  rectangular d -> Dataset_init d = Ok (dict_update [] d).
Proof.
  intros H. unfold Dataset_init.
  apply rectangular_lengths in H. apply Nat.leb_le in H. rewrite H. reflexivity.
Qed.

Lemma Dataset_init_valid (d : dict (list value)) :
  valid d -> Dataset_init d = Ok d.
Proof.
  intros [Hnd Hr]. rewrite Dataset_init_rect by assumption.
  f_equal. apply dict_of_list_nodup. exact Hnd.
Qed.

Lemma Dataset_init_not_rect (d : dict (list value)) :
  ~ rectangular d -> Dataset_init d = Err AssertionError.
Proof.
  intros H. unfold Dataset_init.
  destruct (Nat.leb_spec (length (nodup Nat.eq_dec (map (fun kv => length (snd kv)) d))) 1)
    as [Hle|Hgt]; [|reflexivity].
  exfalso. apply H. apply rectangular_lengths. exact Hle.
Qed.

Lemma getitem_col (t : Dataset) (c : string) :
  In c (columns t) -> getitem t c = Ok (col t c).
Proof.
  intros Hin. unfold getitem, col.
  destruct (dict_get t c) eqn:E; [reflexivity|].
  apply dict_get_None in E. contradiction.
Qed.

Lemma col_In (t : Dataset) (c : string) (v : list value) :
  NoDup (columns t) -> In (c, v) t -> col t c = v.
Proof.
  intros Hnd Hin. unfold col.
  erewrite dict_get_In; [reflexivity | exact Hnd | exact Hin].
Qed.

Lemma table_eta (t : Dataset) :
  NoDup (columns t) -> map (fun c => (c, col t c)) (columns t) = t.
Proof.
  intros Hnd. unfold columns, dict_keys. rewrite map_map.
  rewrite <- (map_id t) at 2. apply map_ext_in.
  intros [c v] Hin. simpl. f_equal. apply col_In; assumption.
Qed.

Lemma map_snd_cols (t : Dataset) :
  NoDup (columns t) -> map (col t) (columns t) = map snd t.
Proof.
  intros Hnd. unfold columns, dict_keys. rewrite map_map.
  apply map_ext_in. intros [c v] Hin. simpl. apply col_In; assumption.
Qed.

Lemma dict_update_values {V : Type} (P : V -> Prop) (d : dict V) (kvs : list (string * V)) :
  Forall (fun kv => P (snd kv)) d -> Forall (fun kv => P (snd kv)) kvs ->
  Forall (fun kv => P (snd kv)) (dict_update d kvs).
Proof.
  revert d. induction kvs as [|[k v] kvs IH]; simpl; intros d Hd Hk; [assumption|].
  inversion Hk; subst. apply IH; [|assumption].
  clear IH Hk. induction d as [|[k' v'] d IHd]; simpl.
  - constructor; auto.
  - inversion Hd; subst.
    destruct (String.eqb k' k); constructor; simpl in *; auto.
Qed.

Lemma dict_set_keys_nodup {V : Type} (d : dict V) (k : string) (v : V) :
  NoDup (dict_keys d) -> NoDup (dict_keys (dict_set d k v)).
Proof.
  intros Hnd. destruct (in_dec string_dec k (dict_keys d)) as [Hin|Hnin].
  - rewrite dict_set_keys_old; assumption.
  - rewrite dict_set_new by assumption. unfold dict_keys. rewrite map_app. simpl.
    apply NoDup_app; [exact Hnd | repeat constructor; auto |].
    intros x Hx [<-|[]]. contradiction.
Qed.

Lemma dict_update_keys_nodup {V : Type} (d : dict V) (kvs : list (string * V)) :
  NoDup (dict_keys d) -> NoDup (dict_keys (dict_update d kvs)).
Proof.
  revert d. induction kvs as [|[k v] kvs IH]; simpl; intros d Hnd; [assumption|].
  apply IH. apply dict_set_keys_nodup. assumption.
Qed.

(** A dict comprehension keeps, for every key, the value given last. *)
Lemma dict_get_update {V : Type} (d : dict V) (kvs : list (string * V)) (k : string) :
  dict_get (dict_update d kvs) k =
  match dict_get (rev kvs) k with
  | Some v => Some v
  | None => dict_get d k
  end.
Proof.
  revert d. induction kvs as [|[k' v'] kvs IH]; simpl; intros d; [reflexivity|].
  unfold dict_update in *. simpl. rewrite IH.
  assert (Hget : forall (a b : dict V), dict_get (a ++ b) k =
            match dict_get a k with Some v => Some v | None => dict_get b k end).
  { intros a b. induction a as [|[ka va] a IHa]; simpl; [reflexivity|].
    destruct (String.eqb ka k); auto. }
  rewrite Hget. destruct (dict_get (rev kvs) k); [reflexivity|].
  simpl. destruct (String.eqb_spec k' k) as [->|Hne].
  - apply dict_get_set_same.
  - apply dict_get_set_other. congruence.
Qed.

Lemma nodupb_NoDup (l : list string) : nodupb l = true <-> NoDup l.
Proof.
  induction l as [|x l IH]; simpl.
  - split; [constructor | reflexivity].
  - rewrite andb_true_iff, negb_true_iff, mem_false, IH. split.
    + intros [H1 H2]. constructor; assumption.
    + intros H. inversion H; auto.
Qed.

Lemma rectangularb_rectangular (t : Dataset) : rectangularb t = true <-> rectangular t.
Proof.
  destruct t as [|[c0 v0] t]; simpl.
  - split; [intros _; exists 0%nat; constructor | reflexivity].
  - rewrite forallb_forall. split.
    + intros H. exists (length v0). constructor; [reflexivity|].
      apply Forall_forall. intros kv Hkv. apply Nat.eqb_eq. auto.
    + intros [n Hn] kv Hkv. inversion Hn as [|? ? H0 Hrest]; subst.
      rewrite Forall_forall in Hrest. apply Nat.eqb_eq. simpl. auto.
Qed.

Lemma validb_valid (t : Dataset) : validb t = true -> valid t.
Proof.
  unfold validb, valid. rewrite andb_true_iff, nodupb_NoDup, rectangularb_rectangular.
  tauto.
Qed.

(** ** rename *)

Lemma rename_template (t : Dataset) (m : dict string) :
  NoDup (columns t) ->
  mapM (fun c => v <- getitem t c ;; Ok (rename_name m c, v)) (columns t)
  = Ok (renamed t m).
Proof.
  intros Hnd.
  rewrite mapM_ok with (g := fun c => (rename_name m c, col t c)).
  - f_equal. unfold renamed. rewrite <- (table_eta t Hnd) at 2.
    rewrite map_map. reflexivity.
  - intros c Hc. rewrite getitem_col by assumption. reflexivity.
Qed.

Lemma rename_eq (t : Dataset) (m : dict string) :
  valid t -> rename t m = Ok (dict_of_list (renamed t m)).
Proof.
  intros [Hnd [n Hn]]. unfold rename. rewrite rename_template by assumption. simpl.
  rewrite Dataset_init_valid; [reflexivity|]. split.
  - apply dict_update_keys_nodup. constructor.
  - exists n. apply dict_update_values with (P := fun v => length v = n); [constructor|].
    unfold renamed. apply Forall_forall. intros kv Hkv.
    apply in_map_iff in Hkv. destruct Hkv as [kv' [<- Hkv']]. simpl.
    rewrite Forall_forall in Hn. auto.
Qed.

Lemma filter_twice {A : Type} (f g : A -> bool) (l : list A) :
  filter f (filter g l) = filter (fun x => g x && f x) l.
Proof.
  induction l as [|x l IH]; [reflexivity|]. cbn [filter].
  destruct (g x); cbn [filter andb]; [destruct (f x)|]; rewrite IH; reflexivity.
Qed.

(** The keys of a dict filled from left to right: those it had, then the
    new ones in the order of their first occurrence. *)
Lemma dict_update_keys {V : Type} (d : dict V) (kvs : list (string * V)) :
  dict_keys (dict_update d kvs) =
  dict_keys d ++ filter (fun y => negb (mem y (dict_keys d)))
                        (first_occurrences (map fst kvs)).
Proof.
  revert d. induction kvs as [|[k v] kvs IH]; intros d.
  - simpl. rewrite app_nil_r. reflexivity.
  - change (dict_update d ((k, v) :: kvs)) with (dict_update (dict_set d k v) kvs).
    rewrite IH. cbn [map fst first_occurrences filter].
    destruct (mem k (dict_keys d)) eqn:Hk.
    + apply mem_In in Hk. rewrite dict_set_keys_old by exact Hk.
      cbn [negb]. f_equal. rewrite filter_twice. apply filter_ext_in.
      intros y _. destruct (String.eqb_spec y k) as [->|Hne]; cbn [negb andb].
      * apply mem_In in Hk. rewrite Hk. reflexivity.
      * reflexivity.
    + apply mem_false in Hk. rewrite dict_set_new by exact Hk.
      unfold dict_keys at 1 2. rewrite map_app, <- app_assoc. cbn [map fst app negb].
      f_equal. f_equal. rewrite filter_twice. apply filter_ext.
      intros y. unfold mem. rewrite existsb_app. cbn [existsb].
      rewrite orb_false_r, negb_orb. apply andb_comm.
Qed.

Lemma dict_of_list_keys {V : Type} (kvs : list (string * V)) :
  dict_keys (dict_of_list kvs) = first_occurrences (map fst kvs).
Proof.
  unfold dict_of_list. rewrite dict_update_keys. cbn [dict_keys map app].
  apply forallb_filter_id. apply forallb_forall. reflexivity.
Qed.

(** A dict comprehension gives a key the value of its last occurrence. *)
Lemma dict_of_list_last {V : Type} (pre post : list (string * V)) (k : string) (v : V) :
  ~ In k (map fst post) ->
  dict_get (dict_of_list (pre ++ (k, v) :: post)) k = Some v.
Proof.
  intros Hnot. unfold dict_of_list. rewrite dict_get_update.
  rewrite rev_app_distr. cbn [rev]. rewrite <- app_assoc. cbn [app].
  assert (Hget : forall (a b : dict V), ~ In k (map fst a) ->
                   dict_get (a ++ b) k = dict_get b k).
  { intros a b. induction a as [|[ka va] a IHa]; intros Ha; [reflexivity|].
    cbn [app dict_get]. destruct (String.eqb_spec ka k) as [->|Hne].
    - exfalso. apply Ha. left. reflexivity.
    - apply IHa. intros Hin. apply Ha. right. exact Hin. }
  rewrite Hget.
  - cbn [dict_get]. rewrite String.eqb_refl. reflexivity.
  - rewrite map_rev. intros Hin. apply Hnot. apply in_rev. exact Hin.
Qed.

(** C6, as amended: [rename] performs no collision check.  On a valid table
    it always returns a valid table.  The columns of the result are the new
    names of the columns of the input, in order, each name at its first
    occurrence only: when several columns receive one name, the result has
    one column of that name, at the position of the first of them.  A column
    of the input to whose new name no later column is renamed is found under
    that name with its cells unchanged: a column of the result holds the
    cells of the last column that received its name.  When the new names
    are pairwise distinct the result is the input with every column renamed
    in place, cells unchanged and none lost. *)
Theorem rename_overwrites (t : Dataset) (m : dict string) :
  valid t ->
  exists t',
    rename t m = Ok t' /\
    valid t' /\
    columns t' = first_occurrences (map (rename_name m) (columns t)) /\
    (forall pre c v post,
       t = pre ++ (c, v) :: post ->
       (forall c', In c' (columns post) -> rename_name m c' <> rename_name m c) ->
       dict_get t' (rename_name m c) = Some v) /\
    (NoDup (map (rename_name m) (columns t)) -> t' = renamed t m).
Proof.
  intros Hv. exists (dict_of_list (renamed t m)).
  assert (Hnames : map fst (renamed t m) = map (rename_name m) (columns t)).
  { unfold renamed, columns, dict_keys. rewrite !map_map. reflexivity. }
  split; [apply rename_eq; exact Hv|]. split; [|split; [|split]].
  - destruct Hv as [_ [n Hn]]. split.
    + apply dict_update_keys_nodup. constructor.
    + exists n. apply dict_update_values with (P := fun v => length v = n); [constructor|].
      unfold renamed. apply Forall_forall. intros kv Hkv.
      apply in_map_iff in Hkv. destruct Hkv as [kv' [<- Hkv']]. cbn [snd].
      rewrite Forall_forall in Hn. auto.
  - unfold columns at 1. rewrite dict_of_list_keys, Hnames. reflexivity.
  - intros pre c v post -> Hlast.
    unfold renamed. rewrite map_app. cbn [map fst snd].
    apply dict_of_list_last. rewrite map_map. cbn [fst].
    intros Hin. apply in_map_iff in Hin. destruct Hin as [kv [Heq Hkv]].
    apply (Hlast (fst kv)); [|exact Heq].
    unfold columns, dict_keys. apply in_map. exact Hkv.
  - intros Hnd. apply dict_of_list_nodup. rewrite Hnames. exact Hnd.
Qed.

Lemma rename_overwrites_witness :
  exists t',
    rename people [("id", "y")]%string = Ok t' /\
    valid t' /\
    columns t' = first_occurrences
                   (map (rename_name [("id", "y")]%string) (columns people)) /\
    (forall pre c v post,
       people = pre ++ (c, v) :: post ->
       (forall c', In c' (columns post) ->
                   rename_name [("id", "y")]%string c' <> rename_name [("id", "y")]%string c) ->
       dict_get t' (rename_name [("id", "y")]%string c) = Some v) /\
    (NoDup (map (rename_name [("id", "y")]%string) (columns people)) ->
     t' = renamed people [("id", "y")]%string).
Proof.
  apply (rename_overwrites people [("id", "y")]%string).
  apply validb_valid. reflexivity.
Defined.

(** C6 as stated fails: renaming [a] to the name of the untouched column [b]
    does not fail; it returns a table in which the cells of [a] are gone. *)
Lemma rename_collision_counterexample :
  let t := [("a", [VInt 1]); ("b", [VInt 2])]%string in
  let m := [("a", "b")]%string in
  valid t /\ In "b"%string (columns t) /\ dict_get m "b"%string = None /\
  rename_name m "a"%string = "b"%string /\
  rename t m = Ok [("b"%string, [VInt 2])].
Proof.
  simpl. split; [apply validb_valid; reflexivity|].
  split; [right; left; reflexivity|].
  repeat split; reflexivity.
Qed.

(** ** Rows of a rectangular table *)

Lemma zip_star_length (cols : list (list value)) (n : nat) :
  cols <> [] -> Forall (fun c => length c = n) cols -> length (zip_star cols) = n.
Proof.
  induction cols as [|c cs IH]; intros Hne Hall; [congruence|].
  inversion Hall as [|? ? Hc Hcs]; subst. simpl.
  destruct cs as [|c' cs'].
  - rewrite length_map. reflexivity.
  - rewrite length_map, length_combine, IH; [lia | discriminate | assumption].
Qed.

Lemma record_length_rows (t : Dataset) : record_length t = length (rows t).
Proof. unfold record_length, records. apply length_map. Qed.

Lemma record_length_height (t : Dataset) : rectangular t -> record_length t = height t.
Proof.
  intros [n Hn]. rewrite record_length_rows. unfold rows.
  destruct t as [|[c v] t]; [reflexivity|].
  inversion Hn; subst. simpl height.
  apply zip_star_length; [discriminate|].
  apply Forall_forall. intros x Hx. apply in_map_iff in Hx.
  destruct Hx as [kv [<- Hkv]]. rewrite Forall_forall in Hn. apply Hn. exact Hkv.
Qed.

Lemma column_height (t : Dataset) (kv : string * list value) :
  rectangular t -> In kv t -> length (snd kv) = record_length t.
Proof.
  intros Hr Hin. rewrite record_length_height by assumption.
  destruct Hr as [n Hn]. rewrite Forall_forall in Hn.
  destruct t as [|[c v] t]; [contradiction|].
  simpl. rewrite (Hn kv Hin). symmetry. apply (Hn (c, v)). left. reflexivity.
Qed.

(** ** full_outer_merge *)

Lemma nodup_length_le (l : list string) : (length (nodup string_dec l) <= length l)%nat.
Proof.
  induction l as [|x l IH]; simpl; [lia|].
  destruct (in_dec string_dec x l); simpl; lia.
Qed.

Lemma nodup_length_eq (l : list string) :
  length (nodup string_dec l) = length l <-> NoDup l.
Proof.
  split.
  - induction l as [|x l IH]; simpl; intros H; [constructor|].
    destruct (in_dec string_dec x l) as [Hin|Hnin].
    + pose proof (nodup_length_le l). lia.
    + simpl in H. constructor; [assumption | apply IH; lia].
  - intros H. rewrite nodup_fixed_point; auto.
Qed.

Lemma flat_map_repeat_length (l : list value) (m : nat) :
  length (flat_map (fun val => repeat val m) l) = (length l * m)%nat.
Proof.
  induction l as [|x l IH]; simpl; [reflexivity|].
  rewrite length_app, repeat_length, IH. reflexivity.
Qed.

Lemma concat_repeat_length (v : list value) (n : nat) :
  length (concat (repeat v n)) = (n * length v)%nat.
Proof.
  induction n as [|n IH]; simpl; [reflexivity|].
  rewrite length_app, IH. reflexivity.
Qed.

Lemma cartesian_rectangular (left right : Dataset) :
  rectangular left -> rectangular right ->
  Forall (fun kv => length (snd kv) = (record_length left * record_length right)%nat)
         (cartesian left right).
Proof.
  intros Hl Hr. unfold cartesian. apply Forall_app. split.
  - apply Forall_forall. intros kv Hkv. apply in_map_iff in Hkv.
    destruct Hkv as [kv' [<- Hkv']]. simpl.
    rewrite flat_map_repeat_length, (column_height left kv' Hl Hkv'). reflexivity.
  - apply Forall_forall. intros kv Hkv. apply in_map_iff in Hkv.
    destruct Hkv as [kv' [<- Hkv']]. simpl.
    rewrite concat_repeat_length, (column_height right kv' Hr Hkv'). reflexivity.
Qed.

Lemma cartesian_columns (left right : Dataset) :
  columns (cartesian left right) = columns left ++ columns right.
Proof.
  unfold cartesian, columns, dict_keys. rewrite map_app, !map_map. reflexivity.
Qed.

Lemma full_outer_merge_templates (self right : Dataset) :
  NoDup (columns self) -> NoDup (columns right) ->
  mapM (fun col => v <- getitem self col ;;
                   Ok (col, flat_map (fun val => repeat val (record_length right)) v))
       (columns self)
  = Ok (map (fun kv => (fst kv, flat_map (fun val => repeat val (record_length right)) (snd kv)))
            self) /\
  mapM (fun col => v <- getitem right col ;;
                   Ok (col, concat (repeat v (record_length self))))
       (columns right)
  = Ok (map (fun kv => (fst kv, concat (repeat (snd kv) (record_length self)))) right).
Proof.
  intros Hs Hr. split.
  - rewrite mapM_ok with
      (g := fun c => (c, flat_map (fun val => repeat val (record_length right)) (col self c))).
    + f_equal. rewrite <- (table_eta self Hs) at 2. rewrite map_map. reflexivity.
    + intros c Hc. rewrite getitem_col by assumption. reflexivity.
  - rewrite mapM_ok with
      (g := fun c => (c, concat (repeat (col right c) (record_length self)))).
    + f_equal. rewrite <- (table_eta right Hr) at 2. rewrite map_map. reflexivity.
    + intros c Hc. rewrite getitem_col by assumption. reflexivity.
Qed.

Lemma full_outer_merge_disjoint (self right : Dataset) :
  valid self -> valid right ->
  (forall c, In c (columns self) -> ~ In c (columns right)) ->
  full_outer_merge self right = Ok (cartesian self right).
Proof.
  intros [Hs Hrs] [Hr Hrr] Hdisj.
  assert (Hnd : NoDup (columns self ++ columns right)).
  { apply NoDup_app; auto. }
  unfold full_outer_merge, column_length.
  rewrite (proj2 (nodup_length_eq _) Hnd), length_app, Nat.eqb_refl.
  destruct (full_outer_merge_templates self right Hs Hr) as [-> ->]. simpl.
  assert (Hl : dict_of_list
                 (map (fun kv => (fst kv, flat_map (fun val => repeat val (record_length right))
                                                   (snd kv))) self)
               = map (fun kv => (fst kv, flat_map (fun val => repeat val (record_length right))
                                                  (snd kv))) self).
  { apply dict_of_list_nodup. rewrite map_map. exact Hs. }
  rewrite Hl. rewrite dict_update_new.
  - apply Dataset_init_valid. split.
    + rewrite cartesian_columns. exact Hnd.
    + eexists. apply cartesian_rectangular; assumption.
  - unfold dict_keys. rewrite !map_map. exact Hnd.
Qed.

Lemma full_outer_merge_overlap (self right : Dataset) :
  valid self -> valid right ->
  (exists c, In c (columns self) /\ In c (columns right)) ->
  full_outer_merge self right = Err AssertionError.
Proof.
  intros [Hs _] [Hr _] [c [H1 H2]].
  unfold full_outer_merge, column_length.
  destruct (Nat.eqb_spec (length (columns self) + length (columns right))
              (length (nodup string_dec (columns self ++ columns right)))) as [E|E];
    [|reflexivity].
  exfalso. rewrite <- length_app in E. symmetry in E.
  apply nodup_length_eq in E.
  apply in_split in H1. destruct H1 as [l1 [l2 H1]].
  rewrite H1, <- app_assoc in E. apply NoDup_remove_2 in E.
  apply E. rewrite app_assoc. apply in_or_app. right. exact H2.
Qed.

(** C10, as amended: [merge] checks [how] before it looks at [on].  With
    [on=None] it raises [AssertionError] for every [how] outside the four
    accepted values, and for each of the four it returns [full_outer_merge]
    of the two tables, the same whichever of them is given; that call fails
    when the tables share a column name and otherwise returns the cartesian
    product, of [|left| * |right|] rows, each left cell repeated once per
    right row and each right column tiled once per left row. *)
Theorem merge_on_none (self right : Dataset) (how : string) :
  valid self -> valid right ->
  (~ In how ["inner"; "left"; "right"; "full"]%string ->
   merge self right None how = Err AssertionError) /\
  (In how ["inner"; "left"; "right"; "full"]%string ->
   merge self right None how = full_outer_merge self right) /\
  ((exists c, In c (columns self) /\ In c (columns right)) ->
   full_outer_merge self right = Err AssertionError) /\
  ((forall c, In c (columns self) -> ~ In c (columns right)) ->
   full_outer_merge self right = Ok (cartesian self right) /\
   rectangular (cartesian self right) /\
   record_length (cartesian self right) = (record_length self * record_length right)%nat).
Proof.
  intros Hs Hr. split; [|split; [|split]].
  - intros Hhow. unfold merge. apply mem_false in Hhow. rewrite Hhow. reflexivity.
  - intros Hhow. unfold merge. apply mem_In in Hhow. rewrite Hhow. reflexivity.
  - apply full_outer_merge_overlap; assumption.
  - intros Hdisj. split; [apply full_outer_merge_disjoint; assumption|].
    pose proof (cartesian_rectangular self right (proj2 Hs) (proj2 Hr)) as Hc.
    split; [eexists; exact Hc|].
    rewrite record_length_height by (eexists; exact Hc).
    destruct (cartesian self right) as [|[c v] rest] eqn:E.
    + unfold cartesian in E. apply app_eq_nil in E. destruct E as [E1 E2].
      apply map_eq_nil in E1. subst self. reflexivity.
    + inversion Hc; subst. simpl in *. assumption.
Qed.

Lemma merge_on_none_witness :
  merge orders [("w", [VInt 7; VInt 8])]%string None "outer" = Err AssertionError /\
  merge orders [("w", [VInt 7; VInt 8])]%string None "left"
  = full_outer_merge orders [("w", [VInt 7; VInt 8])]%string /\
  full_outer_merge orders [("w", [VInt 7; VInt 8])]%string
  = Ok (cartesian orders [("w", [VInt 7; VInt 8])]%string) /\
  record_length (cartesian orders [("w", [VInt 7; VInt 8])]%string) = 6%nat /\
  full_outer_merge orders prices = Err AssertionError.
Proof.
  assert (Hhow : In "left"%string ["inner"; "left"; "right"; "full"]%string)
    by (apply mem_In; reflexivity).
  assert (Hout : ~ In "outer"%string ["inner"; "left"; "right"; "full"]%string)
    by (apply mem_false; reflexivity).
  assert (Hv1 : valid orders) by (apply validb_valid; reflexivity).
  assert (Hv2 : valid [("w", [VInt 7; VInt 8])]%string) by (apply validb_valid; reflexivity).
  assert (Hv3 : valid prices) by (apply validb_valid; reflexivity).
  destruct (merge_on_none orders [("w", [VInt 7; VInt 8])]%string "outer"%string
              Hv1 Hv2) as [H0 _].
  destruct (merge_on_none orders [("w", [VInt 7; VInt 8])]%string "left"%string
              Hv1 Hv2) as [_ [H1 [_ H3]]].
  destruct (merge_on_none orders prices "left"%string Hv1 Hv3) as [_ [_ [H2 _]]].
  assert (Hdisj : forall c, In c (columns orders) ->
                            ~ In c (columns [("w", [VInt 7; VInt 8])]%string)).
  { intros c Hc Hw. apply mem_In in Hc. apply mem_In in Hw.
    simpl in Hw. rewrite orb_false_r in Hw. apply String.eqb_eq in Hw. subst c.
    discriminate Hc. }
  destruct (H3 Hdisj) as [H4 [_ H5]].
  split; [exact (H0 Hout)|]. split; [exact (H1 Hhow)|].
  split; [exact H4|]. split; [exact H5|].
  apply H2. exists "id"%string. split; left; reflexivity.
Defined.

(** C10 as stated fails: [how] is not ignored.  On two tables without a
    common column name, [full_outer_merge] returns the product, and so does
    [merge] with [on=None] and an accepted [how]; with [how="outer"] the
    same call raises [AssertionError]. *)
Lemma merge_on_none_how_counterexample :
  let l := [("a", [VInt 1; VInt 2])]%string in
  let r := [("b", [VInt 3])]%string in
  valid l /\ valid r /\
  full_outer_merge l r = Ok [("a", [VInt 1; VInt 2]); ("b", [VInt 3; VInt 3])]%string /\
  merge l r None "full" = Ok [("a", [VInt 1; VInt 2]); ("b", [VInt 3; VInt 3])]%string /\
  merge l r None "outer" = Err AssertionError.
Proof.
  simpl. split; [apply validb_valid; reflexivity|].
  split; [apply validb_valid; reflexivity|].
  repeat split; reflexivity.
Qed.

(** ** The constructor on records *)

(** C5, at the input [[{a: 1}, {b: 2}]]: whichever key tuple the set yields
    first, the table gets the columns of that one record only; the union of
    the keys has two columns, and the value of the other record is dropped. *)
Theorem records_constructor_single_profile (t : Dataset) :
  Dataset_init_records [[("a", VInt 1)]; [("b", VInt 2)]]%string t ->
  t = [("a", [VInt 1; VNone])]%string \/ t = [("b", [VNone; VInt 2])]%string.
Proof.
  intros [profile [Hin ->]]. simpl in Hin.
  destruct Hin as [<-|[<-|[]]]; [left | right]; reflexivity.
Qed.

Lemma records_constructor_single_profile_witness :
  [("a", [VInt 1; VNone])]%string = [("a", [VInt 1; VNone])]%string \/
  [("a", [VInt 1; VNone])]%string = [("b", [VNone; VInt 2])]%string.
Proof.
  apply (records_constructor_single_profile [("a", [VInt 1; VNone])]%string).
  exists ["a"%string]. split; [left; reflexivity | reflexivity].
Defined.

(** ** merge on tables that share a column outside the keys *)

(** C1, at a failing input: both tables have the column [v], which is not a
    key; every output row appends to [v] twice, once from each side, and
    the table [merge] returns has a column [id] of one cell and a column
    [v] of two. *)
Theorem merge_shared_column_not_rectangular :
  let l := [("id", [VInt 1]); ("v", [VInt 10])]%string in
  let r := [("id", [VInt 1]); ("v", [VInt 20])]%string in
  valid l /\ valid r /\
  merge l r (Some ["id"%string]) "inner" =
    Ok [("id", [VInt 1]); ("v", [VInt 10; VInt 20])]%string /\
  ~ rectangular [("id", [VInt 1]); ("v", [VInt 10; VInt 20])]%string.
Proof.
  simpl. split; [apply validb_valid; reflexivity|].
  split; [apply validb_valid; reflexivity|].
  split; [reflexivity|].
  intros H. apply rectangularb_rectangular in H. discriminate H.
Qed.

(** ** Python's equality and order on values *)

Lemma tuple_eqb_cons (x y : value) (xs ys : list value) :
  tuple_eqb (x :: xs) (y :: ys) = value_eqb x y && tuple_eqb xs ys.
Proof. reflexivity. Qed.

Lemma tuple_lt_cons (x y : value) (xs ys : list value) :
  tuple_lt (x :: xs) (y :: ys) = if value_eqb x y then tuple_lt xs ys else py_lt x y.
Proof. reflexivity. Qed.

Lemma value_eqb_eq (a b : value) : value_eqb a b = true <-> a = b.
Proof.
  revert b. induction a as [| x | x | xs IH] using value_ind'; intros [| y | y | ys];
    simpl; try (split; [discriminate | congruence]); try (split; reflexivity).
  - rewrite Z.eqb_eq. split; congruence.
  - rewrite String.eqb_eq. split; congruence.
  - change (tuple_eqb xs ys = true <-> VList xs = VList ys).
    revert ys. induction IH as [|x xs Hx _ IHxs]; intros [|y ys].
    + split; reflexivity.
    + split; [discriminate | congruence].
    + split; [discriminate | congruence].
    + rewrite tuple_eqb_cons, andb_true_iff, Hx, IHxs. split.
      * intros [-> H]. inversion H. reflexivity.
      * intros H. inversion H. auto.
Qed.

Lemma value_eqb_refl (a : value) : value_eqb a a = true.
Proof. apply value_eqb_eq. reflexivity. Qed.

Lemma value_eqb_neq (a b : value) : value_eqb a b = false <-> a <> b.
Proof.
  rewrite <- value_eqb_eq. destruct (value_eqb a b); split; congruence.
Qed.

Lemma value_eqb_sym (a b : value) : value_eqb a b = value_eqb b a.
Proof.
  destruct (value_eqb a b) eqn:E1, (value_eqb b a) eqn:E2; try reflexivity.
  - apply value_eqb_eq in E1. subst. rewrite value_eqb_refl in E2. discriminate.
  - apply value_eqb_eq in E2. subst. rewrite value_eqb_refl in E1. discriminate.
Qed.

Lemma tuple_eqb_eq (a b : list value) : tuple_eqb a b = true <-> a = b.
Proof. unfold tuple_eqb. rewrite value_eqb_eq. split; congruence. Qed.

Lemma tuple_eqb_refl (a : list value) : tuple_eqb a a = true.
Proof. apply tuple_eqb_eq. reflexivity. Qed.

Lemma tuple_eqb_sym (a b : list value) : tuple_eqb a b = tuple_eqb b a.
Proof. apply value_eqb_sym. Qed.

Lemma value_eq_dec (a b : value) : {a = b} + {a <> b}.
Proof.
  destruct (value_eqb a b) eqn:E.
  - left. apply value_eqb_eq. exact E.
  - right. apply value_eqb_neq. exact E.
Qed.

Lemma tuple_eq_dec (a b : list value) : {a = b} + {a <> b}.
Proof. apply list_eq_dec. apply value_eq_dec. Qed.

(** Strings: [String.compare] is a strict total order. *)

Lemma ascii_compare_refl (x : ascii) : Ascii.compare x x = Eq.
Proof. unfold Ascii.compare. apply N.compare_refl. Qed.

Lemma string_compare_lt_trans (a b c : string) :
  String.compare a b = Lt -> String.compare b c = Lt -> String.compare a c = Lt.
Proof.
  revert b c. induction a as [|x a IH]; intros [|y b] [|z c]; simpl; try congruence.
  intros H1 H2.
  destruct (Ascii.compare x y) eqn:Exy; try discriminate;
    destruct (Ascii.compare y z) eqn:Eyz; try discriminate.
  - apply Ascii.compare_eq_iff in Exy, Eyz. subst.
    rewrite ascii_compare_refl. eapply IH; eassumption.
  - apply Ascii.compare_eq_iff in Exy. subst. rewrite Eyz. reflexivity.
  - apply Ascii.compare_eq_iff in Eyz. subst. rewrite Exy. reflexivity.
  - unfold Ascii.compare in *. rewrite N.compare_lt_iff in *.
    assert (Hxz : (N_of_ascii x < N_of_ascii z)%N) by lia.
    apply N.compare_lt_iff in Hxz. rewrite Hxz. reflexivity.
Qed.

Lemma string_ltb_asym (a b : string) : String.ltb a b = true -> String.ltb b a = false.
Proof.
  unfold String.ltb. rewrite (String.compare_antisym a b).
  destruct (String.compare b a); simpl; congruence.
Qed.

Lemma string_ltb_total (a b : string) :
  String.ltb a b = false -> a = b \/ String.ltb b a = true.
Proof.
  unfold String.ltb. rewrite (String.compare_antisym a b).
  destruct (String.compare b a) eqn:E; simpl; try congruence; auto.
  intros _. left. symmetry. apply String.compare_eq_iff. exact E.
Qed.

Lemma string_ltb_trans (a b c : string) :
  String.ltb a b = true -> String.ltb b c = true -> String.ltb a c = true.
Proof.
  unfold String.ltb.
  destruct (String.compare a b) eqn:E1; try discriminate.
  destruct (String.compare b c) eqn:E2; try discriminate.
  rewrite (string_compare_lt_trans a b c E1 E2). reflexivity.
Qed.

(** [py_lt] is a strict order wherever it is defined. *)

Lemma py_lt_asym (a b : value) : py_lt a b = Some true -> py_lt b a = Some false.
Proof.
  revert b. induction a as [| x | x | xs IH] using value_ind'; intros [| y | y | ys];
    simpl; try discriminate.
  - intros H. inversion H as [H']. f_equal. apply Z.ltb_lt in H'. apply Z.ltb_ge. lia.
  - intros H. inversion H as [H']. f_equal. apply string_ltb_asym. exact H'.
  - change (tuple_lt xs ys = Some true -> tuple_lt ys xs = Some false).
    revert ys. induction IH as [|x xs Hx _ IHxs]; intros [|y ys]; try (cbn; congruence).
    rewrite !tuple_lt_cons, (value_eqb_sym y x).
    destruct (value_eqb x y); auto.
Qed.

Lemma py_lt_total (a b : value) :
  py_lt a b = Some false -> a = b \/ py_lt b a = Some true.
Proof.
  revert b. induction a as [| x | x | xs IH] using value_ind'; intros [| y | y | ys];
    simpl; try discriminate.
  - intros H. inversion H as [H']. apply Z.ltb_ge in H'.
    destruct (Z.eq_dec x y) as [->|Hne]; [left; reflexivity|].
    right. f_equal. apply Z.ltb_lt. lia.
  - intros H. inversion H as [H'].
    destruct (string_ltb_total x y H') as [->|Hlt]; [left; reflexivity|].
    right. f_equal. exact Hlt.
  - change (tuple_lt xs ys = Some false -> VList xs = VList ys \/ tuple_lt ys xs = Some true).
    revert ys. induction IH as [|x xs Hx _ IHxs]; intros [|y ys]; try (cbn; congruence).
    + auto.
    + intros _. right. reflexivity.
    + rewrite !tuple_lt_cons, (value_eqb_sym y x).
      destruct (value_eqb x y) eqn:E.
      * apply value_eqb_eq in E. subst y. intros H.
        destruct (IHxs ys H) as [Heq|Hlt]; [left; congruence | right; exact Hlt].
      * intros H. destruct (Hx y H) as [Heq|Hlt]; [|right; exact Hlt].
        apply value_eqb_neq in E. contradiction.
Qed.

Lemma py_lt_irrefl (a : value) : py_lt a a <> Some true.
Proof.
  intros H. pose proof (py_lt_asym a a H) as H'. congruence.
Qed.

Lemma py_lt_trans (a b c : value) :
  py_lt a b = Some true -> py_lt b c = Some true -> py_lt a c = Some true.
Proof.
  revert b c. induction a as [| x | x | xs IH] using value_ind';
    intros [| y | y | ys] [| z | z | zs]; simpl; try discriminate.
  - intros H1 H2. injection H1 as H1'. injection H2 as H2'.
    f_equal. apply Z.ltb_lt in H1', H2'. apply Z.ltb_lt. lia.
  - intros H1 H2. injection H1 as H1'. injection H2 as H2'.
    f_equal. eapply string_ltb_trans; eassumption.
  - change (tuple_lt xs ys = Some true -> tuple_lt ys zs = Some true ->
            tuple_lt xs zs = Some true).
    revert ys zs.
    induction IH as [|x xs Hx _ IHxs]; intros [|y ys] [|z zs]; try (cbn; congruence).
    rewrite !tuple_lt_cons.
    destruct (value_eqb x y) eqn:Exy; destruct (value_eqb y z) eqn:Eyz.
    + apply value_eqb_eq in Exy, Eyz. subst. rewrite value_eqb_refl. apply IHxs.
    + apply value_eqb_eq in Exy. subst. rewrite Eyz. auto.
    + apply value_eqb_eq in Eyz. subst. rewrite Exy. auto.
    + intros H1 H2. destruct (value_eqb x z) eqn:Exz.
      * apply value_eqb_eq in Exz. subst z.
        pose proof (py_lt_asym x y H1). congruence.
      * eapply Hx; eassumption.
Qed.

Lemma tuple_lt_asym (a b : list value) :
  tuple_lt a b = Some true -> tuple_lt b a = Some false.
Proof. apply py_lt_asym. Qed.

Lemma tuple_lt_total (a b : list value) :
  tuple_lt a b = Some false -> a = b \/ tuple_lt b a = Some true.
Proof.
  intros H. destruct (py_lt_total (VList a) (VList b) H) as [Heq|Hlt]; [left|right; exact Hlt].
  congruence.
Qed.

Lemma tuple_lt_trans (a b c : list value) :
  tuple_lt a b = Some true -> tuple_lt b c = Some true -> tuple_lt a c = Some true.
Proof. apply py_lt_trans. Qed.

Lemma tuple_lt_irrefl (a : list value) : tuple_lt a a <> Some true.
Proof. apply py_lt_irrefl. Qed.

Lemma key_le_trans (a b c : list value) : key_le a b -> key_le b c -> key_le a c.
Proof.
  intros [->|H1] [->|H2]; try (left; reflexivity); try (right; assumption).
  right. eapply tuple_lt_trans; eassumption.
Qed.

Lemma key_le_of_not_lt (a b : list value) : tuple_lt b a = Some false -> key_le a b.
Proof.
  intros H. destruct (tuple_lt_total b a H) as [->|Hlt]; [left | right]; auto.
Qed.

Lemma all_comparable_spec (ks : list (list value)) :
  all_comparable ks = true <->
  (forall a b, In a ks -> In b ks -> tuple_lt a b <> None).
Proof.
  unfold all_comparable. rewrite forallb_forall. split.
  - intros H a b Ha Hb. specialize (H a Ha). rewrite forallb_forall in H.
    specialize (H b Hb). unfold comparable in H. destruct (tuple_lt a b); congruence.
  - intros H a Ha. apply forallb_forall. intros b Hb. unfold comparable.
    specialize (H a b Ha Hb). destruct (tuple_lt a b); congruence.
Qed.

(** ** The stable sort *)

Section IsortFacts.
Context {A : Type}.
Variable key : A -> list value.

Local Abbreviation le := (le_by key).
Local Abbreviation has := (has_key key).

Lemma insert_perm (x : A) (l r : list A) : insert key x l = Ok r -> Permutation (x :: l) r.
Proof.
  revert r. induction l as [|y l IH]; simpl; intros r H.
  - inversion H. apply Permutation_refl.
  - destruct (tuple_lt (key y) (key x)) as [[|]|]; try discriminate.
    + apply bind_ok in H. destruct H as [r' [Hr' H]]. inversion H; subst.
      eapply perm_trans; [apply perm_swap|]. apply perm_skip. apply IH. exact Hr'.
    + inversion H. apply Permutation_refl.
Qed.

Lemma isort_perm (l s : list A) : isort key l = Ok s -> Permutation l s.
Proof.
  revert s. induction l as [|x l IH]; simpl; intros s H.
  - inversion H. apply Permutation_refl.
  - apply bind_ok in H. destruct H as [s' [Hs' H]].
    eapply perm_trans; [apply perm_skip, IH, Hs'|]. apply insert_perm. exact H.
Qed.

Lemma insert_sorted (x : A) (l r : list A) :
  StronglySorted le l -> insert key x l = Ok r -> StronglySorted le r.
Proof.
  revert r. induction l as [|y l IH]; simpl; intros r Hs H.
  - inversion H. repeat constructor.
  - inversion Hs as [|? ? Hs' Hall]; subst.
    destruct (tuple_lt (key y) (key x)) as [[|]|] eqn:E; try discriminate.
    + apply bind_ok in H. destruct H as [r' [Hr' H]]. inversion H; subst.
      constructor; [apply IH; assumption|].
      apply Forall_forall. intros z Hz.
      apply (Permutation_in _ (Permutation_sym (insert_perm _ _ _ Hr'))) in Hz.
      destruct Hz as [<-|Hz].
      * right. exact E.
      * rewrite Forall_forall in Hall. auto.
    + inversion H; subst. constructor; [assumption|].
      assert (Hxy : le x y) by (apply key_le_of_not_lt; exact E).
      constructor; [exact Hxy|].
      apply Forall_forall. intros z Hz. rewrite Forall_forall in Hall.
      eapply key_le_trans; [exact Hxy | apply Hall; exact Hz].
Qed.

Lemma isort_sorted (l s : list A) : isort key l = Ok s -> StronglySorted le s.
Proof.
  revert s. induction l as [|x l IH]; simpl; intros s H.
  - inversion H. constructor.
  - apply bind_ok in H. destruct H as [s' [Hs' H]].
    eapply insert_sorted; [apply IH; exact Hs' | exact H].
Qed.

(** Stability: the rows of any one key keep their order. *)
Lemma insert_filter (x : A) (l r : list A) (k : list value) :
  insert key x l = Ok r -> filter (has k) r = filter (has k) (x :: l).
Proof.
  revert r. induction l as [|y l IH]; simpl; intros r H.
  - inversion H. reflexivity.
  - destruct (tuple_lt (key y) (key x)) as [[|]|] eqn:E; try discriminate.
    + apply bind_ok in H. destruct H as [r' [Hr' H]]. inversion H; subst.
      simpl. rewrite (IH _ Hr'). simpl.
      destruct (has k x) eqn:Hx, (has k y) eqn:Hy; try reflexivity.
      exfalso. unfold has_key in Hx, Hy. apply tuple_eqb_eq in Hx, Hy.
      rewrite Hx, Hy in E. exact (tuple_lt_irrefl k E).
    + inversion H. reflexivity.
Qed.

Lemma isort_filter (l s : list A) (k : list value) :
  isort key l = Ok s -> filter (has k) s = filter (has k) l.
Proof.
  revert s. induction l as [|x l IH]; simpl; intros s H.
  - inversion H. reflexivity.
  - apply bind_ok in H. destruct H as [s' [Hs' H]].
    rewrite (insert_filter _ _ _ k H). simpl. rewrite (IH _ Hs'). reflexivity.
Qed.

Lemma insert_defined (x : A) (l : list A) :
  (forall y, In y l -> tuple_lt (key y) (key x) <> None) ->
  exists r, insert key x l = Ok r.
Proof.
  induction l as [|y l IH]; simpl; intros H; [eauto|].
  destruct (tuple_lt (key y) (key x)) as [[|]|] eqn:E.
  - destruct IH as [r Hr]; [auto|]. rewrite Hr. simpl. eauto.
  - eauto.
  - exfalso. apply (H y); auto.
Qed.

Lemma isort_defined (l : list A) :
  (forall x y, In x l -> In y l -> tuple_lt (key x) (key y) <> None) ->
  exists s, isort key l = Ok s.
Proof.
  induction l as [|x l IH]; simpl; intros H; [eauto|].
  destruct IH as [s Hs]; [auto|]. rewrite Hs. simpl.
  apply insert_defined. intros y Hy. apply H; [right|left; reflexivity].
  apply (Permutation_in _ (Permutation_sym (isort_perm _ _ Hs))). exact Hy.
Qed.

(** A failed sort met two keys that Python cannot order. *)
Lemma isort_error (l : list A) (e : error) :
  isort key l = Err e ->
  e = TypeError /\ exists x y, In x l /\ In y l /\ tuple_lt (key x) (key y) = None.
Proof.
  intros H.
  assert (Hins : forall x s, insert key x s = Err e ->
            e = TypeError /\ exists y, In y s /\ tuple_lt (key y) (key x) = None).
  { intros x s. induction s as [|y s IHs]; simpl; [discriminate|].
    destruct (tuple_lt (key y) (key x)) as [[|]|] eqn:E.
    - destruct (insert key x s); simpl; [discriminate|].
      intros H'. inversion H'; subst. destruct IHs as [-> [z [Hz Hz']]]; [reflexivity|].
      split; [reflexivity|]. exists z. auto.
    - discriminate.
    - intros H'. inversion H'. split; [reflexivity|]. exists y. auto. }
  induction l as [|x l IH]; simpl in H; [discriminate|].
  destruct (isort key l) as [s|e'] eqn:Es; simpl in H.
  - destruct (Hins _ _ H) as [-> [y [Hy Hy']]]. split; [reflexivity|].
    exists y, x. split; [right|split; [left; reflexivity | exact Hy']].
    apply (Permutation_in _ (Permutation_sym (isort_perm _ _ Es))). exact Hy.
  - inversion H; subst. destruct (IH eq_refl) as [-> [a [b [Ha [Hb Hab]]]]].
    split; [reflexivity|]. exists a, b. simpl. auto.
Qed.
End IsortFacts.

(** ** Transposition *)

Lemma zip_star_cons (c c' : list value) (cs : list (list value)) :
  zip_star (c :: c' :: cs) =
  map (fun xr => fst xr :: snd xr) (combine c (zip_star (c' :: cs))).
Proof. reflexivity. Qed.

Lemma zip_star_width (cols : list (list value)) :
  Forall (fun r => length r = length cols) (zip_star cols).
Proof.
  induction cols as [|c cs IH]; [constructor|].
  destruct cs as [|c' cs].
  - simpl. apply Forall_forall. intros r Hr. apply in_map_iff in Hr.
    destruct Hr as [x [<- _]]. reflexivity.
  - rewrite zip_star_cons. apply Forall_forall. intros r Hr.
    apply in_map_iff in Hr. destruct Hr as [[x r'] [<- Hin]].
    apply in_combine_r in Hin. rewrite Forall_forall in IH.
    simpl. f_equal. apply IH. exact Hin.
Qed.

Lemma zip_star_singletons (c : list value) :
  c <> [] -> zip_star (map (fun x => [x]) c) = [c].
Proof.
  induction c as [|x c IH]; intros Hne; [congruence|].
  destruct c as [|y c]; [reflexivity|].
  change (map (fun x => [x]) (x :: y :: c))
    with ([x] :: [y] :: map (fun x => [x]) c).
  rewrite zip_star_cons.
  change ([y] :: map (fun x => [x]) c) with (map (fun x => [x]) (y :: c)).
  rewrite IH by discriminate. reflexivity.
Qed.

Lemma zip_star_conses (c : list value) (rs : list (list value)) (w : nat) :
  rs <> [] -> length c = length rs -> Forall (fun r => length r = S w) rs ->
  zip_star (map (fun xr => fst xr :: snd xr) (combine c rs)) = c :: zip_star rs.
Proof.
  revert c. induction rs as [|r rs IH]; intros c Hne Hlen Hw; [congruence|].
  destruct c as [|x c]; [discriminate|].
  inversion Hw as [|? ? Hr Hrs]; subst.
  destruct rs as [|r' rs].
  - destruct c; [|discriminate]. simpl. reflexivity.
  - destruct c as [|x' c]; [discriminate|].
    change (map (fun xr => fst xr :: snd xr) (combine (x :: x' :: c) (r :: r' :: rs)))
      with ((x :: r) :: map (fun xr => fst xr :: snd xr) (combine (x' :: c) (r' :: rs))).
    assert (Hstep : forall a b l, zip_star (a :: b :: l) =
              map (fun xr : value * list value => fst xr :: snd xr)
                  (combine a (zip_star (b :: l)))) by reflexivity.
    change (map (fun xr => fst xr :: snd xr) (combine (x' :: c) (r' :: rs)))
      with ((x' :: r') :: map (fun xr => fst xr :: snd xr) (combine c rs)).
    rewrite Hstep.
    change ((x' :: r') :: map (fun xr => fst xr :: snd xr) (combine c rs))
      with (map (fun xr => fst xr :: snd xr) (combine (x' :: c) (r' :: rs))).
    rewrite IH; [| discriminate | simpl in *; lia | assumption].
    rewrite (Hstep r r' rs). reflexivity.
Qed.

Lemma zip_star_involutive (cols : list (list value)) (n : nat) :
  Forall (fun c => length c = S n) cols -> zip_star (zip_star cols) = cols.
Proof.
  induction cols as [|c cs IH]; intros Hall; [reflexivity|].
  inversion Hall as [|? ? Hc Hcs]; subst.
  destruct cs as [|c' cs].
  - simpl. apply zip_star_singletons. destruct c; [discriminate | discriminate].
  - rewrite zip_star_cons.
    assert (Hlen : length (zip_star (c' :: cs)) = S n)
      by (apply zip_star_length; [discriminate | assumption]).
    rewrite zip_star_conses with (w := length cs).
    + rewrite IH by assumption. reflexivity.
    + intros E. rewrite E in Hlen. discriminate.
    + lia.
    + apply (zip_star_width (c' :: cs)).
Qed.

Lemma zip_star_nil_column (cols : list (list value)) :
  Forall (fun c => length c = 0%nat) cols -> zip_star cols = [].
Proof.
  intros H. destruct cols as [|c cs]; [reflexivity|].
  apply length_zero_iff_nil. apply zip_star_length; [discriminate | exact H].
Qed.

(** ** sort *)

Lemma sort_order_nodup (t : Dataset) (names : list string) :
  NoDup (columns t) -> NoDup names -> NoDup (sort_order t names).
Proof.
  intros Ht Hn. unfold sort_order. apply NoDup_app; auto.
  - apply NoDup_filter. exact Ht.
  - intros x Hx Hf. apply filter_In in Hf. destruct Hf as [_ Hf].
    apply negb_true_iff, mem_false in Hf. contradiction.
Qed.

Lemma sort_order_incl (t : Dataset) (names : list string) :
  incl names (columns t) -> incl (sort_order t names) (columns t).
Proof.
  intros Hn c Hc. unfold sort_order in Hc. apply in_app_or in Hc.
  destruct Hc as [Hc|Hc]; [auto|]. apply filter_In in Hc. tauto.
Qed.

Lemma sort_order_complete (t : Dataset) (names : list string) (c : string) :
  In c (columns t) -> In c (sort_order t names).
Proof.
  intros Hc. unfold sort_order. apply in_or_app.
  destruct (mem c names) eqn:E.
  - left. apply mem_In. exact E.
  - right. apply filter_In. split; [exact Hc|]. rewrite E. reflexivity.
Qed.

Lemma sort_order_length (t : Dataset) (names : list string) :
  NoDup (columns t) -> NoDup names -> incl names (columns t) ->
  length (sort_order t names) = length (columns t).
Proof.
  intros Ht Hn Hincl. apply Nat.le_antisymm.
  - apply NoDup_incl_length; [apply sort_order_nodup | apply sort_order_incl]; assumption.
  - apply NoDup_incl_length; [exact Ht|]. intros c Hc. apply sort_order_complete. exact Hc.
Qed.

Lemma col_length (t : Dataset) (c : string) :
  valid t -> In c (columns t) -> length (col t c) = height t.
Proof.
  intros [Hnd Hr] Hc. apply in_map_iff in Hc. destruct Hc as [[c' v] [<- Hin]].
  simpl. rewrite (col_In t c' v Hnd Hin).
  rewrite <- (record_length_height t Hr). apply (column_height t (c', v) Hr Hin).
Qed.

Lemma sort_columns_shape (t : Dataset) (names : list string) :
  valid t -> incl names (columns t) ->
  Forall (fun c => length c = height t) (map (col t) (sort_order t names)).
Proof.
  intros Hv Hincl. apply Forall_forall. intros v Hv'. apply in_map_iff in Hv'.
  destruct Hv' as [c [<- Hc]]. apply col_length; [exact Hv|].
  apply (sort_order_incl t names Hincl). exact Hc.
Qed.

Lemma sort_getitems (t : Dataset) (names : list string) :
  incl names (columns t) ->
  mapM (getitem t) (sort_order t names) = Ok (map (col t) (sort_order t names)).
Proof.
  intros Hincl. apply mapM_ok. intros c Hc. apply getitem_col.
  apply (sort_order_incl t names Hincl). exact Hc.
Qed.

Lemma sort_names_check (t : Dataset) (names : list string) :
  incl names (columns t) -> forallb (fun name => mem name (columns t)) names = true.
Proof.
  intros Hincl. apply forallb_forall. intros c Hc. apply mem_In. auto.
Qed.

Lemma sorted_perm {A : Type} (key : A -> list value) (l s : list A) (reverse : bool) :
  sorted key l reverse = Ok s -> Permutation l s.
Proof.
  unfold sorted. destruct reverse; intros H.
  - apply bind_ok in H. destruct H as [r [Hr H]]. inversion H; subst.
    apply isort_perm in Hr.
    eapply perm_trans; [apply Permutation_rev|].
    eapply perm_trans; [exact Hr|]. apply Permutation_rev.
  - apply isort_perm in H. exact H.
Qed.

Lemma dict_items (d : dict (list value)) :
  NoDup (dict_keys d) ->
  mapM (fun c => v <- getitem d c ;; Ok (c, v)) (dict_keys d) = Ok d.
Proof.
  intros Hnd. rewrite mapM_ok with (g := fun c => (c, col d c)).
  - change (dict_keys d) with (columns d). rewrite (table_eta d Hnd). reflexivity.
  - intros c Hc. rewrite getitem_col by exact Hc. reflexivity.
Qed.

Lemma combine_keys {V : Type} (cs : list string) (vs : list V) :
  length cs = length vs -> dict_keys (combine cs vs) = cs.
Proof.
  revert vs. induction cs as [|c cs IH]; intros [|v vs] H; simpl in *; try congruence.
  f_equal. apply IH. lia.
Qed.

Lemma combine_values {V : Type} (cs : list string) (vs : list V) :
  length cs = length vs -> map snd (combine cs vs) = vs.
Proof.
  revert vs. induction cs as [|c cs IH]; intros [|v vs] H; simpl in *; try congruence.
  f_equal. apply IH. lia.
Qed.

(** The table rebuilt from rows [s], all [|cs|] cells wide, of which there is
    at least one. *)
Lemma rebuilt_table (cs : list string) (s : list (list value)) (w : nat) :
  NoDup cs -> length cs = S w -> s <> [] -> Forall (fun r => length r = S w) s ->
  let t' := combine cs (zip_star s) in
  columns t' = cs /\ valid t' /\ rows t' = s /\ height t' = length s.
Proof.
  intros Hnd Hcs Hs Hw t'.
  assert (Hlen : length (zip_star s) = S w)
    by (apply zip_star_length; [exact Hs | exact Hw]).
  assert (Hcols : columns t' = cs)
    by (apply combine_keys; rewrite Hlen; exact Hcs).
  assert (Hvals : map snd t' = zip_star s)
    by (apply combine_values; rewrite Hlen; exact Hcs).
  assert (Hshape : Forall (fun kv : string * list value => length (snd kv) = length s) t').
  { apply Forall_forall. intros kv Hkv. apply (in_map snd) in Hkv. rewrite Hvals in Hkv.
    pose proof (zip_star_width s) as Hz. rewrite Forall_forall in Hz. apply Hz. exact Hkv. }
  split; [exact Hcols|]. split; [|split].
  - split; [rewrite Hcols; exact Hnd | exists (length s); exact Hshape].
  - unfold rows. rewrite Hvals. apply zip_star_involutive with (n := w). exact Hw.
  - destruct t' as [|[c v] rest] eqn:E.
    + destruct cs; discriminate.
    + inversion Hshape; subst. simpl in *. assumption.
Qed.

Lemma sort_eq (t : Dataset) (names : list string) (reverse : bool) :
  valid t -> NoDup names -> incl names (columns t) -> (0 < height t)%nat ->
  sort t names reverse =
  (s <- sorted (row_key names) (rows_in t (sort_order t names)) reverse ;;
   Ok (combine (sort_order t names) (zip_star s))).
Proof.
  intros Hv Hn Hincl Hpos.
  unfold sort. rewrite (sort_names_check t names Hincl).
  fold (sort_order t names). rewrite (sort_getitems t names Hincl). simpl.
  fold (row_key names). fold (rows_in t (sort_order t names)).
  destruct (sorted (row_key names) (rows_in t (sort_order t names)) reverse)
    as [s|e] eqn:Es; simpl; [|reflexivity].
  pose proof (sorted_perm _ _ _ _ Es) as Hperm.
  assert (Hso : NoDup (sort_order t names))
    by (apply sort_order_nodup; [apply Hv | exact Hn]).
  assert (Hne : sort_order t names <> []).
  { intros E. destruct t as [|[c v] t]; [simpl in Hpos; lia|].
    pose proof (sort_order_complete ((c, v) :: t) names c (or_introl eq_refl)) as Hin.
    rewrite E in Hin. contradiction. }
  destruct (sort_order t names) as [|c0 so'] eqn:Eso; [congruence|].
  rewrite <- Eso in *.
  assert (Hrows : length (rows_in t (sort_order t names)) = height t).
  { unfold rows_in. apply zip_star_length.
    - rewrite Eso. discriminate.
    - apply sort_columns_shape; assumption. }
  assert (Hs : s <> []).
  { intros ->. apply Permutation_length in Hperm. simpl in Hperm. lia. }
  assert (Hw : Forall (fun r => length r = S (length so')) s).
  { apply Forall_forall. intros r Hr.
    apply (Permutation_in _ (Permutation_sym Hperm)) in Hr.
    pose proof (zip_star_width (map (col t) (sort_order t names))) as Hz.
    rewrite Forall_forall in Hz. rewrite (Hz r Hr), length_map, Eso. reflexivity. }
  destruct (rebuilt_table (sort_order t names) s (length so') Hso
              ltac:(rewrite Eso; reflexivity) Hs Hw) as [Hcols [Hvalid _]].
  rewrite (dict_of_list_nodup (combine (sort_order t names) (zip_star s)))
    by (fold (dict_keys (combine (sort_order t names) (zip_star s)));
        fold (columns (combine (sort_order t names) (zip_star s)));
        rewrite Hcols; exact Hso).
  rewrite <- Hcols at 1. unfold columns.
  rewrite dict_items by (apply Hvalid). simpl.
  rewrite (dict_of_list_nodup (combine (sort_order t names) (zip_star s)))
    by (apply Hvalid).
  apply Dataset_init_valid. exact Hvalid.
Qed.

(** The missed case: a table with columns but no row. *)
Lemma sort_no_rows (t : Dataset) (names : list string) (reverse : bool) :
  valid t -> incl names (columns t) -> t <> [] -> height t = 0%nat ->
  sort t names reverse = Err KeyError.
Proof.
  intros Hv Hincl Hne Hz.
  unfold sort. rewrite (sort_names_check t names Hincl).
  fold (sort_order t names). rewrite (sort_getitems t names Hincl). simpl.
  rewrite zip_star_nil_column
    by (rewrite <- Hz; apply sort_columns_shape; assumption).
  assert (Hsorted : sorted (fun x : list value => firstn (length names) x) [] reverse = Ok [])
    by (destruct reverse; reflexivity).
  rewrite Hsorted. simpl.
  destruct (sort_order t names) as [|c0 so'] eqn:Eso.
  - destruct t as [|[c v] t]; [congruence|].
    pose proof (sort_order_complete ((c, v) :: t) names c (or_introl eq_refl)) as Hin.
    rewrite Eso in Hin. contradiction.
  - reflexivity.
Qed.

Lemma inclb_incl (l1 l2 : list string) : inclb l1 l2 = true -> incl l1 l2.
Proof.
  unfold inclb. rewrite forallb_forall. intros H c Hc. apply mem_In. auto.
Qed.

Lemma sort_order_nonempty (t : Dataset) (names : list string) :
  t <> [] -> sort_order t names <> [].
Proof.
  intros Hne E. destruct t as [|[c v] t]; [congruence|].
  pose proof (sort_order_complete ((c, v) :: t) names c (or_introl eq_refl)) as Hin.
  rewrite E in Hin. contradiction.
Qed.

Lemma rows_in_shape (t : Dataset) (names : list string) :
  valid t -> incl names (columns t) -> t <> [] ->
  length (rows_in t (sort_order t names)) = height t /\
  Forall (fun r => length r = length (sort_order t names)) (rows_in t (sort_order t names)).
Proof.
  intros Hv Hincl Hne. split.
  - unfold rows_in. apply zip_star_length.
    + intros E. apply map_eq_nil in E. exact (sort_order_nonempty t names Hne E).
    + apply sort_columns_shape; assumption.
  - pose proof (zip_star_width (map (col t) (sort_order t names))) as Hz.
    rewrite length_map in Hz. exact Hz.
Qed.

(** What a successful [sort] returns. *)
Lemma sort_ok (t : Dataset) (names : list string) (reverse : bool) (t' : Dataset) :
  valid t -> NoDup names -> incl names (columns t) -> (0 < height t)%nat ->
  sort t names reverse = Ok t' ->
  exists s,
    sorted (row_key names) (rows_in t (sort_order t names)) reverse = Ok s /\
    t' = combine (sort_order t names) (zip_star s) /\
    columns t' = sort_order t names /\ valid t' /\ rows t' = s /\
    height t' = height t.
Proof.
  intros Hv Hn Hincl Hpos H.
  rewrite sort_eq in H by assumption.
  apply bind_ok in H. destruct H as [s [Hs H]]. inversion H; subst t'. clear H.
  exists s. split; [exact Hs|]. split; [reflexivity|].
  assert (Hne : t <> []) by (intros ->; simpl in Hpos; lia).
  destruct (rows_in_shape t names Hv Hincl Hne) as [Hlen Hw].
  pose proof (sorted_perm _ _ _ _ Hs) as Hperm.
  destruct (sort_order t names) as [|c0 so'] eqn:Eso;
    [exact (False_ind _ (sort_order_nonempty t names Hne Eso))|].
  rewrite <- Eso in *.
  assert (Hso : NoDup (sort_order t names))
    by (apply sort_order_nodup; [apply Hv | exact Hn]).
  assert (Hs' : s <> []).
  { intros ->. apply Permutation_length in Hperm. simpl in Hperm. lia. }
  assert (Hw' : Forall (fun r => length r = S (length so')) s).
  { apply Forall_forall. intros r Hr.
    apply (Permutation_in _ (Permutation_sym Hperm)) in Hr.
    rewrite Forall_forall in Hw. rewrite (Hw r Hr), Eso. reflexivity. }
  destruct (rebuilt_table (sort_order t names) s (length so') Hso
              ltac:(rewrite Eso; reflexivity) Hs' Hw') as [Hc [Hval [Hrows Hh]]].
  repeat split; try assumption; try apply Hval.
  rewrite Hh, <- Hlen. symmetry. apply Permutation_length. exact Hperm.
Qed.

Lemma sort_defined (t : Dataset) (names : list string) :
  valid t -> NoDup names -> incl names (columns t) -> (0 < height t)%nat ->
  all_comparable (keys_of t names) = true ->
  exists t', sort t names false = Ok t'.
Proof.
  intros Hv Hn Hincl Hpos Hcmp.
  rewrite sort_eq by assumption. unfold sorted.
  destruct (isort_defined (row_key names) (rows_in t (sort_order t names))) as [s Hs].
  - intros x y Hx Hy. apply (proj1 (all_comparable_spec (keys_of t names)) Hcmp);
      unfold keys_of; apply in_map; assumption.
  - rewrite Hs. simpl. eauto.
Qed.




(** What [sort] returns on a table with a row: the rows in key order, a
    stable rearrangement of the input rows. *)
Lemma sort_rows (t : Dataset) (names : list string) (t' : Dataset) :
  valid t -> NoDup names -> incl names (columns t) -> (0 < height t)%nat ->
  sort t names false = Ok t' ->
  columns t' = sort_order t names /\ valid t' /\ height t' = height t /\
  Permutation (rows_in t (sort_order t names)) (rows t') /\
  StronglySorted (le_by (row_key names)) (rows t') /\
  (forall k, filter (has_key (row_key names) k) (rows t') =
             filter (has_key (row_key names) k) (rows_in t (sort_order t names))).
Proof.
  intros Hv Hn Hincl Hpos H.
  destruct (sort_ok t names false t' Hv Hn Hincl Hpos H)
    as [s [Hs [_ [Hc [Hval [Hrows Hh]]]]]].
  unfold sorted in Hs. rewrite Hrows.
  repeat split; try assumption; try apply Hval.
  - apply (isort_perm _ _ _ Hs).
  - apply (isort_sorted _ _ _ Hs).
  - intros k. apply (isort_filter _ _ _ k Hs).
Qed.

(** C7: on a table with at least one row whose keys Python can order, [sort]
    returns the rows in ascending key order, as a permutation of the whole
    input rows in which the rows of any one key keep their relative order.
    On a table with columns but no row it raises [KeyError]: the columns are
    rebuilt from the sorted rows, and there are none. *)
Theorem sort_stable (t : Dataset) (names : list string) :
  valid t -> NoDup names -> incl names (columns t) ->
  (t <> [] -> height t = 0%nat -> sort t names false = Err KeyError) /\
  ((0 < height t)%nat -> all_comparable (keys_of t names) = true ->
   exists t',
     sort t names false = Ok t' /\ valid t' /\
     Permutation (rows_in t (columns t')) (rows t') /\
     StronglySorted (le_by (row_key names)) (rows t') /\
     (forall k, filter (has_key (row_key names) k) (rows t') =
                filter (has_key (row_key names) k) (rows_in t (columns t')))).
Proof.
  intros Hv Hn Hincl. split.
  - intros Hne Hz. apply sort_no_rows; assumption.
  - intros Hpos Hcmp.
    destruct (sort_defined t names Hv Hn Hincl Hpos Hcmp) as [t' Ht'].
    exists t'. split; [exact Ht'|].
    destruct (sort_rows t names t' Hv Hn Hincl Hpos Ht')
      as [Hc [Hval [_ [Hperm [Hsorted Hstable]]]]].
    rewrite Hc. auto.
Qed.

Lemma sort_stable_witness :
  sort no_rows ["id"%string] false = Err KeyError /\
  exists t',
    sort people ["id"%string] false = Ok t' /\ valid t' /\
    Permutation (rows_in people (columns t')) (rows t') /\
    StronglySorted (le_by (row_key ["id"%string])) (rows t') /\
    (forall k, filter (has_key (row_key ["id"%string]) k) (rows t') =
               filter (has_key (row_key ["id"%string]) k) (rows_in people (columns t'))).
Proof.
  assert (Hn : NoDup ["id"%string]) by (apply nodupb_NoDup; reflexivity).
  split.
  - assert (Hv : valid no_rows) by (apply validb_valid; reflexivity).
    assert (Hi : incl ["id"%string] (columns no_rows)) by (apply inclb_incl; reflexivity).
    apply (proj1 (sort_stable no_rows ["id"%string] Hv Hn Hi));
      [discriminate | reflexivity].
  - assert (Hv : valid people) by (apply validb_valid; reflexivity).
    assert (Hi : incl ["id"%string] (columns people)) by (apply inclb_incl; reflexivity).
    apply (proj2 (sort_stable people ["id"%string] Hv Hn Hi));
      [apply Nat.ltb_lt | ]; reflexivity.
Defined.

(** ** Column updates *)

Lemma foldM_ext {S A : Type} (f g : S -> A -> result S) (l : list A) (s : S) :
  (forall s' x, In x l -> f s' x = g s' x) -> foldM f l s = foldM g l s.
Proof.
  revert s. induction l as [|x l IH]; simpl; intros s H; [reflexivity|].
  rewrite (H s x (or_introl eq_refl)). destruct (g s x); simpl; auto.
Qed.

Lemma dict_set_map (d : dict (list value)) (c : string) (v : list value) :
  NoDup (dict_keys d) -> In c (dict_keys d) ->
  dict_set d c v = map (fun kv => if String.eqb (fst kv) c then (c, v) else kv) d.
Proof.
  induction d as [|[k w] d IH]; simpl; intros Hnd Hin; [contradiction|].
  inversion Hnd as [|? ? Hk Hnd']; subst.
  destruct (String.eqb_spec k c) as [->|Hne].
  - f_equal. rewrite <- (map_id d) at 1. apply map_ext_in. intros [k' w'] Hin'. simpl.
    destruct (String.eqb_spec k' c) as [->|]; [|reflexivity].
    exfalso. apply Hk. apply (in_map fst) in Hin'. exact Hin'.
  - f_equal. apply IH; [exact Hnd'|]. destruct Hin; [contradiction | assumption].
Qed.

Lemma modify_cols_keys (cs : list string) (f : string -> list value -> list value)
    (d : dict (list value)) :
  dict_keys (modify_cols cs f d) = dict_keys d.
Proof.
  unfold modify_cols, dict_keys. rewrite map_map. apply map_ext.
  intros [k v]. simpl. destruct (mem k cs); reflexivity.
Qed.

Lemma col_map_other (d : dict (list value)) (c c' : string) (v : list value) :
  c' <> c ->
  col (map (fun kv => if String.eqb (fst kv) c then (c, v) else kv) d) c' = col d c'.
Proof.
  intros Hne. unfold col. induction d as [|[k w] d IH]; simpl; [reflexivity|].
  destruct (String.eqb_spec k c) as [->|Hkc]; simpl.
  - destruct (String.eqb_spec c c'); [congruence|]. exact IH.
  - destruct (String.eqb_spec k c'); [reflexivity|]. exact IH.
Qed.

Lemma fold_modify (cs : list string) (u : string -> list value -> result (list value))
    (f : string -> list value -> list value) (d : dict (list value)) :
  NoDup (dict_keys d) -> NoDup cs -> incl cs (dict_keys d) ->
  (forall c, In c cs -> u c (col d c) = Ok (f c (col d c))) ->
  foldM (fun r c => col_modify r c (u c)) cs d = Ok (modify_cols cs f d).
Proof.
  revert d. induction cs as [|c cs IH]; intros d Hd Hcs Hincl Hu.
  - simpl. f_equal. unfold modify_cols. rewrite <- (map_id d) at 1.
    apply map_ext. intros kv. reflexivity.
  - inversion Hcs as [|? ? Hc Hcs']; subst.
    assert (Hin : In c (dict_keys d)) by (apply Hincl; left; reflexivity).
    simpl. unfold col_modify at 1.
    rewrite (getitem_col d c Hin). simpl.
    rewrite (Hu c (or_introl eq_refl)). simpl.
    rewrite (dict_set_map d c _ Hd Hin).
    set (d1 := map (fun kv => if String.eqb (fst kv) c then (c, f c (col d c)) else kv) d).
    assert (Hk1 : dict_keys d1 = dict_keys d).
    { unfold d1, dict_keys. rewrite map_map. apply map_ext_in. intros [k v] _. simpl.
      destruct (String.eqb_spec k c); simpl; congruence. }
    rewrite IH.
    + f_equal. unfold modify_cols, d1. rewrite map_map. apply map_ext_in.
      intros [k v] Hkv. simpl.
      destruct (String.eqb_spec k c) as [->|Hne]; simpl.
      * apply mem_false in Hc. rewrite Hc. f_equal. f_equal.
        apply col_In; assumption.
      * destruct (String.eqb_spec c k); [congruence|]. reflexivity.
    + rewrite Hk1. exact Hd.
    + exact Hcs'.
    + rewrite Hk1. intros x Hx. apply Hincl. right. exact Hx.
    + intros c' Hc'. unfold d1. rewrite col_map_other.
      * apply Hu. right. exact Hc'.
      * intros ->. contradiction.
Qed.

(** ** Records of a table laid out over known columns *)

Lemma combine_keys_prefix {V : Type} (cs : list string) (vs : list V) :
  NoDup cs -> NoDup (map fst (combine cs vs)).
Proof.
  revert vs. induction cs as [|c cs IH]; intros vs Hnd; [constructor|].
  destruct vs as [|v vs]; [constructor|]. simpl.
  inversion Hnd as [|? ? Hc Hcs]; subst. constructor; [|apply IH; exact Hcs].
  intros Hin. apply Hc. apply in_map_iff in Hin. destruct Hin as [[c' v'] [<- Hin]].
  apply in_combine_l in Hin. exact Hin.
Qed.

Lemma records_rows (t : Dataset) :
  NoDup (columns t) -> records t = map (fun row => combine (columns t) row) (rows t).
Proof.
  intros Hnd. unfold records. apply map_ext. intros row.
  apply dict_of_list_nodup. apply combine_keys_prefix. exact Hnd.
Qed.

Lemma getitem_cell (cs : list string) (row : list value) (c : string) :
  length row = length cs -> In c cs -> getitem (combine cs row) c = Ok (cell_in cs row c).
Proof.
  intros Hlen Hin. unfold getitem, cell_in, cell.
  destruct (dict_get (combine cs row) c) eqn:E; [reflexivity|].
  apply dict_get_None in E. rewrite combine_keys in E by (symmetry; exact Hlen).
  contradiction.
Qed.

Lemma cell_in_app_nth (gs rest : list string) (row : list value) (i : nat) (g : string) :
  NoDup (gs ++ rest) -> length row = length (gs ++ rest) ->
  nth_error gs i = Some g ->
  cell_in (gs ++ rest) row g = nth i (row_key gs row) VNone.
Proof.
  unfold cell_in, cell, row_key.
  revert row i. induction gs as [|g0 gs IH]; intros row i Hnd Hlen Hi.
  - destruct i; discriminate.
  - destruct row as [|v row]; [discriminate|].
    simpl in Hnd. inversion Hnd as [|? ? Hg0 Hnd']; subst.
    destruct i as [|i]; simpl in Hi.
    + inversion Hi; subst. simpl. rewrite String.eqb_refl. reflexivity.
    + simpl. destruct (String.eqb_spec g0 g) as [->|Hne].
      * exfalso. apply Hg0. apply in_or_app. left. eapply nth_error_In. exact Hi.
      * apply IH; [exact Hnd' | simpl in Hlen; lia | exact Hi].
Qed.

Lemma row_key_cells (gs rest : list string) (row : list value) :
  NoDup (gs ++ rest) -> length row = length (gs ++ rest) ->
  mapM (getitem (combine (gs ++ rest) row)) gs = Ok (row_key gs row).
Proof.
  intros Hnd Hlen.
  rewrite mapM_ok with (g := cell_in (gs ++ rest) row).
  - f_equal. unfold row_key.
    apply nth_ext with (d := VNone) (d' := VNone).
    + rewrite length_map, length_firstn, Hlen, length_app. lia.
    + intros i Hi. rewrite length_map in Hi.
      destruct (nth_error gs i) as [g|] eqn:Eg.
      * rewrite (nth_indep _ VNone (cell_in (gs ++ rest) row g))
          by (rewrite length_map; exact Hi).
        rewrite map_nth.
        rewrite (nth_error_nth _ _ g Eg).
        apply (cell_in_app_nth gs rest row i g Hnd Hlen Eg).
      * apply nth_error_None in Eg. lia.
  - intros c Hc. apply getitem_cell; [exact Hlen | apply in_or_app; left; exact Hc].
Qed.

Lemma modify_cols_app (cs : list string) (f : string -> list value -> list value)
    (d1 d2 : dict (list value)) :
  modify_cols cs f (d1 ++ d2) = modify_cols cs f d1 ++ modify_cols cs f d2.
Proof. unfold modify_cols. apply map_app. Qed.

Lemma modify_cols_skip (cs : list string) (f : string -> list value -> list value)
    (d : dict (list value)) :
  (forall c, In c (dict_keys d) -> ~ In c cs) -> modify_cols cs f d = d.
Proof.
  intros H. unfold modify_cols. rewrite <- (map_id d) at 2. apply map_ext_in.
  intros [k v] Hkv. simpl.
  assert (Hk : ~ In k cs) by (apply H; apply (in_map fst) in Hkv; exact Hkv).
  apply mem_false in Hk. rewrite Hk. reflexivity.
Qed.

Lemma modify_cols_hit (cs : list string) (f : string -> list value -> list value)
    (d : dict (list value)) :
  (forall c, In c (dict_keys d) -> In c cs) ->
  modify_cols cs f d = map (fun kv => (fst kv, f (fst kv) (snd kv))) d.
Proof.
  intros H. unfold modify_cols. apply map_ext_in. intros [k v] Hkv. simpl.
  assert (Hk : In k cs) by (apply H; apply (in_map fst) in Hkv; exact Hkv).
  apply mem_In in Hk. rewrite Hk. reflexivity.
Qed.

Lemma enumerate_snd {A : Type} (l : list A) : map snd (enumerate l) = l.
Proof.
  unfold enumerate. generalize 0%nat. induction l as [|x l IH]; intros n; simpl;
    [reflexivity|]. f_equal. apply IH.
Qed.

Lemma enumerate_nth {A : Type} (l : list A) (i : nat) (x : A) :
  In (i, x) (enumerate l) -> nth_error l i = Some x.
Proof.
  unfold enumerate.
  assert (H : forall n, In (i, x) (combine (seq n (length l)) l) ->
                        (n <= i)%nat /\ nth_error l (i - n) = Some x).
  { induction l as [|y l IH]; intros n Hin; simpl in Hin; [contradiction|].
    destruct Hin as [Heq|Hin].
    - inversion Heq; subst. rewrite Nat.sub_diag. auto.
    - destruct (IH (S n) Hin) as [Hle Hnth]. split; [lia|].
      replace (i - n)%nat with (S (i - S n)) by lia. exact Hnth. }
  intros Hin. destruct (H 0%nat Hin) as [_ Hnth]. rewrite Nat.sub_0_r in Hnth. exact Hnth.
Qed.

Lemma modify_cols_id (cs : list string) (d : dict (list value)) :
  modify_cols cs (fun _ l => l) d = d.
Proof.
  unfold modify_cols. rewrite <- (map_id d) at 2. apply map_ext.
  intros [k v]. simpl. destruct (mem k cs); reflexivity.
Qed.

Lemma col_modify_cols_other (cs : list string) (f : string -> list value -> list value)
    (d : dict (list value)) (c : string) :
  ~ In c cs -> col (modify_cols cs f d) c = col d c.
Proof.
  intros Hc. unfold col, modify_cols. induction d as [|[k v] d IH]; simpl; [reflexivity|].
  destruct (mem k cs) eqn:E; simpl.
  - destruct (String.eqb_spec k c) as [->|Hne]; [|exact IH].
    apply mem_In in E. contradiction.
  - destruct (String.eqb_spec k c); [reflexivity | exact IH].
Qed.

Lemma col_modify_one (d : dict (list value)) (c : string)
    (u : list value -> result (list value)) (f : string -> list value -> list value) :
  NoDup (dict_keys d) -> In c (dict_keys d) -> u (col d c) = Ok (f c (col d c)) ->
  col_modify d c u = Ok (modify_cols [c] f d).
Proof.
  intros Hd Hc Hu.
  assert (H1 : NoDup [c]) by (repeat constructor; intros []).
  assert (H2 : incl [c] (dict_keys d)) by (intros x [<-|[]]; exact Hc).
  assert (H3 : forall c0, In c0 [c] -> u (col d c0) = Ok (f c0 (col d c0)))
    by (intros x [<-|[]]; exact Hu).
  pose proof (fold_modify [c] (fun _ => u) f d Hd H1 H2 H3) as H. simpl in H.
  destruct (col_modify d c u) as [d'|e]; simpl in H; [exact H | discriminate H].
Qed.

Lemma col_append_modify (d : dict (list value)) (c : string) (v : value) :
  col_append d c v = col_modify d c (fun l => Ok (l ++ [v])).
Proof. unfold col_append, col_modify. destruct (getitem d c); reflexivity. Qed.

Lemma col_last_append_modify (d : dict (list value)) (c : string) (v : value) :
  col_last_append d c v =
  col_modify d c (fun l => match rev l with
                           | [] => Err IndexError
                           | VList xs :: before => Ok (rev before ++ [VList (xs ++ [v])])
                           | _ :: _ => Err AttributeError
                           end).
Proof.
  unfold col_last_append, col_modify. destruct (getitem d c) as [l|]; simpl; [|reflexivity].
  destruct (rev l) as [|[| | |xs] before]; reflexivity.
Qed.

Lemma col_last_incr_modify (d : dict (list value)) (c : string) :
  col_last_incr d c =
  col_modify d c (fun l => match rev l with
                           | [] => Err IndexError
                           | VInt n :: before => Ok (rev before ++ [VInt (n + 1)])
                           | _ :: _ => Err TypeError
                           end).
Proof.
  unfold col_last_incr, col_modify. destruct (getitem d c) as [l|]; simpl; [|reflexivity].
  destruct (rev l) as [|[| | |xs] before]; reflexivity.
Qed.

(** Three disjoint runs of columns, each updated by its own function. *)
Lemma modify_three (gs os cc : list string) (f1 f2 f3 : string -> list value -> list value)
    (A B C : dict (list value)) :
  NoDup (gs ++ os ++ cc) ->
  dict_keys A = gs -> dict_keys B = os -> dict_keys C = cc ->
  modify_cols cc f3 (modify_cols os f2 (modify_cols gs f1 (A ++ B ++ C))) =
  map (fun kv => (fst kv, f1 (fst kv) (snd kv))) A
  ++ map (fun kv => (fst kv, f2 (fst kv) (snd kv))) B
  ++ map (fun kv => (fst kv, f3 (fst kv) (snd kv))) C.
Proof.
  intros Hnd HA HB HC.
  assert (Hgo : forall c, In c gs -> ~ In c os).
  { intros c H1 H2. apply NoDup_app_remove_r in Hnd as Hnd'.
    rewrite app_assoc in Hnd. apply NoDup_app_remove_r in Hnd.
    apply in_split in H1. destruct H1 as [l1 [l2 ->]].
    rewrite <- app_assoc in Hnd. apply NoDup_remove_2 in Hnd.
    apply Hnd. rewrite app_assoc. apply in_or_app. right. exact H2. }
  assert (Hgc : forall c, In c gs -> ~ In c cc).
  { intros c H1 H2. apply in_split in H1. destruct H1 as [l1 [l2 ->]].
    rewrite <- app_assoc in Hnd. apply NoDup_remove_2 in Hnd.
    apply Hnd. rewrite !app_assoc. apply in_or_app. right. exact H2. }
  assert (Hoc : forall c, In c os -> ~ In c cc).
  { intros c H1 H2. apply NoDup_app_remove_l in Hnd.
    apply in_split in H1. destruct H1 as [l1 [l2 ->]].
    rewrite <- app_assoc in Hnd. apply NoDup_remove_2 in Hnd.
    apply Hnd. rewrite app_assoc. apply in_or_app. right. exact H2. }
  rewrite !modify_cols_app.
  rewrite (modify_cols_hit gs f1 A) by (rewrite HA; auto).
  rewrite (modify_cols_skip gs f1 B) by (rewrite HB; intros c H1 H2; exact (Hgo c H2 H1)).
  rewrite (modify_cols_skip gs f1 C) by (rewrite HC; intros c H1 H2; exact (Hgc c H2 H1)).
  assert (HA' : dict_keys (map (fun kv => (fst kv, f1 (fst kv) (snd kv))) A) = gs)
    by (unfold dict_keys in *; rewrite map_map; exact HA).
  rewrite (modify_cols_skip os f2 (map _ A)) by (rewrite HA'; exact Hgo).
  rewrite (modify_cols_hit os f2 B) by (rewrite HB; auto).
  rewrite (modify_cols_skip os f2 C) by (rewrite HC; intros c H1 H2; exact (Hoc c H2 H1)).
  assert (HB' : dict_keys (map (fun kv => (fst kv, f2 (fst kv) (snd kv))) B) = os)
    by (unfold dict_keys in *; rewrite map_map; exact HB).
  rewrite (modify_cols_skip cc f3 (map _ A)) by (rewrite HA'; exact Hgc).
  rewrite (modify_cols_skip cc f3 (map _ B)) by (rewrite HB'; exact Hoc).
  rewrite (modify_cols_hit cc f3 C) by (rewrite HC; auto).
  reflexivity.
Qed.

(** ** group_by: the scan *)

Section GroupFacts.
Variables (gs rest os : list string) (count : option string).
Hypothesis Hso : NoDup (gs ++ rest).
Hypothesis Hnames : NoDup (gs ++ os ++ count_col count).
Hypothesis Hos : incl os (gs ++ rest).

Local Abbreviation so := (gs ++ rest).
Local Abbreviation T := (group_table gs os count (gs ++ rest)).

Lemma group_table_keys (R : list group) :
  dict_keys (T R) = gs ++ os ++ count_col count.
Proof.
  unfold group_table, dict_keys. rewrite !map_app, !map_map. simpl.
  rewrite !map_id. f_equal. apply (enumerate_snd gs).
Qed.

Lemma group_table_nil :
  dict_update [] (map (fun col => (col, [])) (gs ++ os ++ count_col count)) = T [].
Proof.
  change (dict_update [] (map (fun col : string => (col, @nil value))
                              (gs ++ os ++ count_col count)))
    with (dict_of_list (map (fun col : string => (col, @nil value))
                            (gs ++ os ++ count_col count))).
  rewrite dict_of_list_nodup by (rewrite map_map; simpl; rewrite map_id; exact Hnames).
  unfold group_table. rewrite !map_app. simpl. f_equal.
  rewrite <- (enumerate_snd gs) at 1. rewrite map_map. reflexivity.
Qed.

Lemma group_table_snoc (R : list group) (r : list value) :
  length r = length so ->
  map (fun kv => (fst kv, snd kv ++ [cell_in so r (fst kv)]))
      (map (fun ig => (snd ig, map (fun kg : group => nth (fst ig) (fst kg) VNone) R))
           (enumerate gs))
  ++ map (fun kv => (fst kv, snd kv ++ [VList [cell_in so r (fst kv)]]))
         (map (fun o => (o, map (fun kg : group =>
                                   VList (map (fun r => cell_in so r o) (snd kg))) R)) os)
  ++ map (fun kv => (fst kv, snd kv ++ [VInt 1]))
         (map (fun c => (c, map (fun kg : group => VInt (Z.of_nat (length (snd kg)))) R))
              (count_col count))
  = T (R ++ [(row_key gs r, [r])]).
Proof.
  intros Hlen. unfold group_table. rewrite !map_map. f_equal; [|f_equal].
  - apply map_ext_in. intros [i g] Hig. simpl. rewrite map_app. simpl. f_equal. f_equal.
    f_equal. apply (cell_in_app_nth gs rest r i g Hso Hlen).
    apply enumerate_nth. exact Hig.
  - apply map_ext. intros o. simpl. rewrite map_app. reflexivity.
  - apply map_ext. intros c. simpl. rewrite map_app. reflexivity.
Qed.

Lemma group_table_nodup (R : list group) : NoDup (dict_keys (T R)).
Proof. rewrite group_table_keys. exact Hnames. Qed.

Lemma gs_nodup : NoDup gs.
Proof. apply NoDup_app_remove_r in Hso. exact Hso. Qed.

Lemma os_nodup : NoDup os.
Proof.
  pose proof Hnames as H. apply NoDup_app_remove_l in H.
  apply NoDup_app_remove_r in H. exact H.
Qed.

Lemma count_modify (d : dict (list value)) (u : list value -> result (list value))
    (f : string -> list value -> list value) :
  NoDup (dict_keys d) -> incl (count_col count) (dict_keys d) ->
  (forall c, In c (count_col count) -> u (col d c) = Ok (f c (col d c))) ->
  match count with
  | Some c => col_modify d c u
  | None => Ok d
  end = Ok (modify_cols (count_col count) f d).
Proof.
  intros Hd Hincl Hu. destruct count as [c|]; simpl in *.
  - apply col_modify_one; [exact Hd | apply Hincl; left; reflexivity |].
    apply Hu. left. reflexivity.
  - f_equal. symmetry. apply modify_cols_skip. intros c _ [].
Qed.

Lemma group_step_new (R : list group) (r : list value) :
  length r = length so ->
  match last_key R with
  | Some lg => tuple_eqb (row_key gs r) lg
  | None => false
  end = false ->
  group_step gs os count (T R, last_key R) (combine so r)
  = Ok (T (R ++ [(row_key gs r, [r])]), Some (row_key gs r)).
Proof.
  intros Hlen Hneq. unfold group_step.
  rewrite (row_key_cells gs rest r Hso Hlen). cbn [bind]. rewrite Hneq.
  rewrite (foldM_ext _ (fun r0 g => col_modify r0 g (fun l => Ok (l ++ [cell_in so r g])))).
  2:{ intros d g Hg. rewrite getitem_cell; [|exact Hlen | apply in_or_app; left; exact Hg].
      cbn [bind]. apply col_append_modify. }
  rewrite (fold_modify gs (fun g l => Ok (l ++ [cell_in so r g]))
             (fun g l => l ++ [cell_in so r g])).
  2: apply group_table_nodup.
  2: apply gs_nodup.
  2:{ rewrite group_table_keys. intros c Hc. apply in_or_app. left. exact Hc. }
  2:{ intros c _. reflexivity. }
  cbn [bind].
  set (d1 := modify_cols gs (fun g l => l ++ [cell_in so r g]) (T R)).
  assert (Hk1 : dict_keys d1 = gs ++ os ++ count_col count)
    by (unfold d1; rewrite modify_cols_keys; apply group_table_keys).
  rewrite (foldM_ext _ (fun r0 o => col_modify r0 o
                                      (fun l => Ok (l ++ [VList [cell_in so r o]])))).
  2:{ intros d o Ho. rewrite getitem_cell; [|exact Hlen | apply Hos; exact Ho].
      cbn [bind]. apply col_append_modify. }
  rewrite (fold_modify os (fun o l => Ok (l ++ [VList [cell_in so r o]]))
             (fun o l => l ++ [VList [cell_in so r o]])).
  2:{ rewrite Hk1. exact Hnames. }
  2: apply os_nodup.
  2:{ rewrite Hk1. intros c Hc. apply in_or_app. right. apply in_or_app. left. exact Hc. }
  2:{ intros c _. reflexivity. }
  cbn [bind].
  set (d2 := modify_cols os (fun o l => l ++ [VList [cell_in so r o]]) d1).
  assert (Hk2 : dict_keys d2 = gs ++ os ++ count_col count)
    by (unfold d2; rewrite modify_cols_keys; exact Hk1).
  assert (Hcount : match count with
                   | Some c => col_append d2 c (VInt 1)
                   | None => Ok d2
                   end = Ok (modify_cols (count_col count) (fun _ l => l ++ [VInt 1]) d2)).
  { rewrite <- (count_modify d2 (fun l => Ok (l ++ [VInt 1])) (fun _ l => l ++ [VInt 1])).
    - destruct count; [apply col_append_modify | reflexivity].
    - rewrite Hk2. exact Hnames.
    - rewrite Hk2. intros c Hc. apply in_or_app. right. apply in_or_app. right. exact Hc.
    - intros c _. reflexivity. }
  rewrite Hcount. cbn [bind]. f_equal. f_equal.
  unfold d2, d1. unfold group_table at 1.
  rewrite modify_three; try exact Hnames.
  - apply (group_table_snoc R r Hlen).
  - unfold dict_keys. rewrite map_map. simpl. apply enumerate_snd.
  - unfold dict_keys. rewrite map_map. simpl. apply map_id.
  - unfold dict_keys. rewrite map_map. simpl. apply map_id.
Qed.

Lemma col_group_other (R : list group) (o : string) :
  In o os ->
  col (T R) o = map (fun kg : group => VList (map (fun r => cell_in so r o) (snd kg))) R.
Proof.
  intros Ho. apply col_In; [apply group_table_nodup|].
  unfold group_table. apply in_or_app. right. apply in_or_app. left.
  apply in_map_iff. exists o. split; [reflexivity | exact Ho].
Qed.

Lemma col_group_count (R : list group) (c : string) :
  In c (count_col count) ->
  col (T R) c = map (fun kg : group => VInt (Z.of_nat (length (snd kg)))) R.
Proof.
  intros Hc. apply col_In; [apply group_table_nodup|].
  unfold group_table. apply in_or_app. right. apply in_or_app. right.
  apply in_map_iff. exists c. split; [reflexivity | exact Hc].
Qed.

Lemma count_not_other (c : string) : In c (count_col count) -> ~ In c os.
Proof.
  intros Hc Ho. pose proof Hnames as H. apply NoDup_app_remove_l in H.
  apply in_split in Ho. destruct Ho as [l1 [l2 ->]].
  rewrite <- app_assoc in H. apply NoDup_remove_2 in H.
  apply H. rewrite app_assoc. apply in_or_app. right. exact Hc.
Qed.

Lemma group_table_extend (R0 : list group) (k : list value) (grp : list (list value))
    (r : list value) :
  map (fun kv => (fst kv, snd kv))
      (map (fun ig => (snd ig, map (fun kg : group => nth (fst ig) (fst kg) VNone)
                                   (R0 ++ [(k, grp)])))
           (enumerate gs))
  ++ map (fun kv => (fst kv,
                     match rev (snd kv) with
                     | VList xs :: before =>
                         rev before ++ [VList (xs ++ [cell_in so r (fst kv)])]
                     | _ => snd kv
                     end))
         (map (fun o => (o, map (fun kg : group =>
                                   VList (map (fun r => cell_in so r o) (snd kg)))
                                (R0 ++ [(k, grp)]))) os)
  ++ map (fun kv => (fst kv,
                     match rev (snd kv) with
                     | VInt n :: before => rev before ++ [VInt (n + 1)]
                     | _ => snd kv
                     end))
         (map (fun c => (c, map (fun kg : group => VInt (Z.of_nat (length (snd kg))))
                                (R0 ++ [(k, grp)])))
              (count_col count))
  = T (R0 ++ [(k, grp ++ [r])]).
Proof.
  unfold group_table. rewrite !map_map. f_equal; [|f_equal].
  - apply map_ext. intros [i g]. simpl. rewrite !map_app. reflexivity.
  - apply map_ext. intros o. simpl. rewrite !map_app. simpl.
    rewrite rev_app_distr. simpl. rewrite rev_involutive, map_app. reflexivity.
  - apply map_ext. intros c. simpl. rewrite !map_app. simpl.
    rewrite rev_app_distr. simpl. rewrite rev_involutive, length_app. simpl.
    replace (Z.of_nat (length grp + 1)) with (Z.of_nat (length grp) + 1)%Z by lia.
    reflexivity.
Qed.

Lemma group_step_same (R0 : list group) (k : list value) (grp : list (list value))
    (r : list value) :
  length r = length so -> row_key gs r = k ->
  group_step gs os count (T (R0 ++ [(k, grp)]), Some k) (combine so r)
  = Ok (T (R0 ++ [(k, grp ++ [r])]), Some k).
Proof.
  intros Hlen Hk. unfold group_step.
  rewrite (row_key_cells gs rest r Hso Hlen). cbn [bind].
  rewrite Hk, tuple_eqb_refl.
  set (R := R0 ++ [(k, grp)]).
  set (f2 := fun (o : string) (l : list value) =>
               match rev l with
               | VList xs :: before => rev before ++ [VList (xs ++ [cell_in so r o])]
               | _ => l
               end).
  set (f3 := fun (c : string) (l : list value) =>
               match rev l with
               | VInt n :: before => rev before ++ [VInt (n + 1)]
               | _ => l
               end).
  rewrite (foldM_ext _ (fun r0 o => col_modify r0 o
             (fun l => match rev l with
                       | [] => Err IndexError
                       | VList xs :: before =>
                           Ok (rev before ++ [VList (xs ++ [cell_in so r o])])
                       | _ :: _ => Err AttributeError
                       end))).
  2:{ intros d o Ho. rewrite getitem_cell; [|exact Hlen | apply Hos; exact Ho].
      cbn [bind]. apply col_last_append_modify. }
  rewrite (fold_modify os _ f2).
  2: apply group_table_nodup.
  2: apply os_nodup.
  2:{ rewrite group_table_keys. intros c Hc. apply in_or_app. right.
      apply in_or_app. left. exact Hc. }
  2:{ intros o Ho. rewrite (col_group_other R o Ho). unfold f2, R.
      rewrite map_app. simpl. rewrite rev_app_distr. reflexivity. }
  cbn [bind].
  set (d2 := modify_cols os f2 (T R)).
  assert (Hk2 : dict_keys d2 = gs ++ os ++ count_col count)
    by (unfold d2; rewrite modify_cols_keys; apply group_table_keys).
  assert (Hcount : match count with
                   | Some c => col_last_incr d2 c
                   | None => Ok d2
                   end = Ok (modify_cols (count_col count) f3 d2)).
  { rewrite <- (count_modify d2
                  (fun l => match rev l with
                            | [] => Err IndexError
                            | VInt n :: before => Ok (rev before ++ [VInt (n + 1)])
                            | _ :: _ => Err TypeError
                            end) f3).
    - destruct count; [apply col_last_incr_modify | reflexivity].
    - rewrite Hk2. exact Hnames.
    - rewrite Hk2. intros c Hc. apply in_or_app. right. apply in_or_app. right. exact Hc.
    - intros c Hc. unfold d2.
      rewrite (col_modify_cols_other os f2 (T R) c (count_not_other c Hc)).
      rewrite (col_group_count R c Hc). unfold f3, R.
      rewrite map_app. simpl. rewrite rev_app_distr. reflexivity. }
  rewrite Hcount. cbn [bind]. f_equal. f_equal.
  unfold d2. rewrite <- (modify_cols_id gs (T R)). unfold group_table at 1.
  rewrite modify_three; try exact Hnames.
  - apply (group_table_extend R0 k grp r).
  - unfold dict_keys. rewrite map_map. simpl. apply enumerate_snd.
  - unfold dict_keys. rewrite map_map. simpl. apply map_id.
  - unfold dict_keys. rewrite map_map. simpl. apply map_id.
Qed.
End GroupFacts.

Lemma last_key_snoc (R0 : list group) (k : list value) (grp : list (list value)) :
  last_key (R0 ++ [(k, grp)]) = Some k.
Proof. unfold last_key. rewrite rev_app_distr. reflexivity. Qed.

Lemma rev_cons_inv {A : Type} (l : list A) (x : A) (before : list A) :
  rev l = x :: before -> l = rev before ++ [x].
Proof.
  intros H. rewrite <- (rev_involutive l), H. reflexivity.
Qed.

Lemma rev_nil_inv {A : Type} (l : list A) : rev l = [] -> l = [].
Proof. intros H. rewrite <- (rev_involutive l), H. reflexivity. Qed.

Lemma group_scan (gs rest os : list string) (count : option string)
    (s : list (list value)) (R : list group) :
  NoDup (gs ++ rest) -> NoDup (gs ++ os ++ count_col count) -> incl os (gs ++ rest) ->
  Forall (fun r => length r = length (gs ++ rest)) s ->
  foldM (group_step gs os count) (map (fun r => combine (gs ++ rest) r) s)
        (group_table gs os count (gs ++ rest) R, last_key R)
  = Ok (group_table gs os count (gs ++ rest) (fold_left (push gs) s R),
        last_key (fold_left (push gs) s R)).
Proof.
  intros Hso Hnames Hos Hw. revert R.
  induction Hw as [|r s Hr _ IH]; intros R; [reflexivity|].
  cbn [foldM map fold_left].
  assert (Hstep : group_step gs os count
                    (group_table gs os count (gs ++ rest) R, last_key R)
                    (combine (gs ++ rest) r)
                  = Ok (group_table gs os count (gs ++ rest) (push gs R r),
                        last_key (push gs R r))).
  { unfold push. destruct (rev R) as [|[k grp] before] eqn:E.
    - apply rev_nil_inv in E. subst R.
      rewrite (group_step_new gs rest os count Hso Hnames Hos [] r Hr eq_refl).
      reflexivity.
    - apply rev_cons_inv in E. subst R.
      destruct (tuple_eqb (row_key gs r) k) eqn:Ek.
      + apply tuple_eqb_eq in Ek. rewrite !last_key_snoc.
        apply (group_step_same gs rest os count Hso Hnames Hos (rev before) k grp r Hr Ek).
      + rewrite (group_step_new gs rest os count Hso Hnames Hos _ r Hr).
        * rewrite (last_key_snoc _ (row_key gs r)). reflexivity.
        * rewrite last_key_snoc. exact Ek. }
  rewrite Hstep. cbn [bind]. apply IH.
Qed.

(** ** The scan on sorted rows *)

Lemma StronglySorted_snoc {A : Type} (R : A -> A -> Prop) (l : list A) (a : A) :
  StronglySorted R l -> (forall x, In x l -> R x a) -> StronglySorted R (l ++ [a]).
Proof.
  induction l as [|y l IH]; simpl; intros Hs Ha.
  - repeat constructor.
  - inversion Hs as [|? ? Hs' Hall]; subst. constructor; [apply IH; auto|].
    apply Forall_app. split; [exact Hall|]. repeat constructor. apply Ha. left. reflexivity.
Qed.

Lemma StronglySorted_snoc_inv {A : Type} (R : A -> A -> Prop) (l : list A) (a : A) :
  StronglySorted R (l ++ [a]) -> StronglySorted R l /\ (forall x, In x l -> R x a).
Proof.
  induction l as [|y l IH]; simpl; intros Hs.
  - split; [constructor | intros x []].
  - inversion Hs as [|? ? Hs' Hall]; subst. destruct (IH Hs') as [Hl Ha].
    apply Forall_app in Hall. destruct Hall as [Hall Hya]. split.
    + constructor; assumption.
    + intros x [<-|Hx]; [inversion Hya; assumption | auto].
Qed.

Lemma filter_has_key_none (gs : list string) (k : list value) (p : list (list value)) :
  ~ In k (map (row_key gs) p) -> filter (has_key (row_key gs) k) p = [].
Proof.
  intros H. induction p as [|r p IH]; simpl; [reflexivity|].
  unfold has_key at 1. destruct (tuple_eqb (row_key gs r) k) eqn:E.
  - apply tuple_eqb_eq in E. exfalso. apply H. left. exact E.
  - apply IH. intros Hin. apply H. right. exact Hin.
Qed.

Lemma groups_of_snoc_other (gs : list string) (ks : list (list value))
    (p : list (list value)) (r : list value) :
  ~ In (row_key gs r) ks -> groups_of gs ks (p ++ [r]) = groups_of gs ks p.
Proof.
  intros H. unfold groups_of. apply map_ext_in. intros k Hk.
  rewrite filter_app. simpl. unfold has_key at 2.
  destruct (tuple_eqb (row_key gs r) k) eqn:E.
  - apply tuple_eqb_eq in E. subst k. contradiction.
  - rewrite app_nil_r. reflexivity.
Qed.

Lemma key_lt_sorted_last (ks : list (list value)) (k k' : list value) :
  StronglySorted key_lt (ks ++ [k]) -> In k' ks -> key_lt k' k.
Proof.
  intros Hs Hin. apply StronglySorted_snoc_inv in Hs. destruct Hs as [_ H]. auto.
Qed.

Lemma groups_of_app (gs : list string) (ks1 ks2 : list (list value))
    (p : list (list value)) :
  groups_of gs (ks1 ++ ks2) p = groups_of gs ks1 p ++ groups_of gs ks2 p.
Proof. unfold groups_of. apply map_app. Qed.

Lemma key_lt_neq (a b : list value) : key_lt a b -> a <> b.
Proof. intros H ->. exact (tuple_lt_irrefl b H). Qed.

(** On rows in key order the scan builds, for the distinct keys in ascending
    order, the rows that carry each key. *)
Lemma scan_sorted (gs : list string) (s : list (list value)) :
  StronglySorted (le_by (row_key gs)) s ->
  fold_left (push gs) s [] = groups_of gs (map fst (fold_left (push gs) s [])) s /\
  StronglySorted key_lt (map fst (fold_left (push gs) s [])) /\
  (forall k, In k (map fst (fold_left (push gs) s [])) <-> In k (map (row_key gs) s)).
Proof.
  induction s as [|r p IH] using rev_ind; intros Hs.
  - simpl. split; [reflexivity|]. split; [constructor | tauto].
  - apply StronglySorted_snoc_inv in Hs. destruct Hs as [Hp Hle].
    destruct (IH Hp) as [I1 [I2 I3]]. clear IH.
    rewrite fold_left_app. cbn [fold_left].
    set (R := fold_left (push gs) p []) in *.
    unfold push. destruct (rev R) as [|[k grp] before] eqn:E.
    + apply rev_nil_inv in E. rewrite E in I3. simpl in I3.
      assert (Hp0 : p = []).
      { destruct p as [|x p]; [reflexivity|]. exfalso.
        apply (proj2 (I3 (row_key gs x))). left. reflexivity. }
      subst p. simpl. unfold has_key. rewrite tuple_eqb_refl.
      split; [reflexivity|]. split; [repeat constructor | tauto].
    + apply rev_cons_inv in E. set (R0 := rev before) in *.
      assert (Hks : map fst R = map fst R0 ++ [k]) by (rewrite E, map_app; reflexivity).
      rewrite Hks in I2, I3.
      rewrite E, map_app, groups_of_app in I1. simpl in I1.
      apply app_inj_tail in I1. destruct I1 as [I1 Hgrp].
      injection Hgrp as Hgrp. subst grp.
      assert (Hlt0 : forall k', In k' (map fst R0) -> key_lt k' k)
        by (intros k' Hk'; apply (key_lt_sorted_last _ _ _ I2 Hk')).
      assert (Hkr : key_le k (row_key gs r)).
      { assert (Hin : In k (map (row_key gs) p))
          by (apply I3; apply in_or_app; right; left; reflexivity).
        apply in_map_iff in Hin. destruct Hin as [x [<- Hx]]. apply (Hle x Hx). }
      destruct (tuple_eqb (row_key gs r) k) eqn:Ek.
      * apply tuple_eqb_eq in Ek.
        assert (Hnot : ~ In (row_key gs r) (map fst R0)).
        { rewrite Ek. intros Hin. exact (key_lt_neq _ _ (Hlt0 k Hin) eq_refl). }
        rewrite map_app. simpl. split; [|split].
        -- rewrite groups_of_app, (groups_of_snoc_other gs _ p r Hnot), <- I1.
           simpl. rewrite filter_app. simpl. unfold has_key.
           rewrite Ek, tuple_eqb_refl. reflexivity.
        -- exact I2.
        -- intros k'. rewrite map_app, (in_app_iff (map (row_key gs) p)), <- I3.
           simpl. rewrite Ek. split; [tauto|].
           intros [H|[<-|[]]]; [exact H | apply in_or_app; right; left; reflexivity].
      * assert (Hlt : key_lt k (row_key gs r)).
        { destruct Hkr as [Heq|Hlt]; [|exact Hlt].
          rewrite <- Heq, tuple_eqb_refl in Ek. discriminate. }
        assert (Hall : forall k', In k' (map fst R0 ++ [k]) -> key_lt k' (row_key gs r)).
        { intros k' Hk'. apply in_app_or in Hk'. destruct Hk' as [Hk'|[<-|[]]].
          - unfold key_lt in *. eapply tuple_lt_trans; [apply Hlt0; exact Hk' | exact Hlt].
          - exact Hlt. }
        assert (Hnot : ~ In (row_key gs r) (map fst R0 ++ [k]))
          by (intros Hin; exact (key_lt_neq _ _ (Hall _ Hin) eq_refl)).
        rewrite map_app, Hks. simpl. split; [|split].
        -- rewrite groups_of_app, (groups_of_snoc_other gs _ p r Hnot).
           rewrite groups_of_app. f_equal.
           ++ rewrite <- I1. exact E.
           ++ unfold groups_of. simpl. rewrite filter_app, filter_has_key_none.
              ** simpl. unfold has_key. rewrite tuple_eqb_refl. reflexivity.
              ** intros Hin. apply Hnot. apply I3. exact Hin.
        -- apply StronglySorted_snoc; assumption.
        -- intros k'. rewrite map_app, !in_app_iff, <- I3, in_app_iff. simpl. tauto.
Qed.

(** ** group_by *)

Lemma group_table_valid (gs os : list string) (count : option string) (so : list string)
    (R : list group) :
  NoDup (gs ++ os ++ count_col count) ->
  valid (group_table gs os count so R) /\
  Forall (fun kv => length (snd kv) = length R) (group_table gs os count so R).
Proof.
  intros Hnames.
  assert (Hshape : Forall (fun kv : string * list value => length (snd kv) = length R)
                          (group_table gs os count so R)).
  { unfold group_table. rewrite !Forall_app. repeat split;
      apply Forall_forall; intros kv Hkv; apply in_map_iff in Hkv;
      destruct Hkv as [x [<- _]]; simpl; apply length_map. }
  split; [|exact Hshape]. split.
  - assert (Hk : columns (group_table gs os count so R) = gs ++ os ++ count_col count).
    { unfold columns, group_table, dict_keys. rewrite !map_app, !map_map. simpl.
      rewrite !map_id. f_equal. apply (enumerate_snd gs). }
    rewrite Hk. exact Hnames.
  - exists (length R). exact Hshape.
Qed.

Lemma rows_width (t : Dataset) :
  Forall (fun r => length r = length (columns t)) (rows t).
Proof.
  unfold rows, columns, dict_keys. rewrite length_map.
  rewrite <- (length_map snd t). apply zip_star_width.
Qed.

Lemma group_by_eq (t : Dataset) (gs : list string) (other_cols : option (list string))
    (count : option string) :
  group_by t gs other_cols count =
  (sorts <- sort t gs false ;;
   st <- foldM (group_step gs (others t gs other_cols) count) (records sorts)
               (dict_update [] (map (fun col => (col, []))
                                    (gs ++ others t gs other_cols ++ count_col count)),
                None) ;;
   Dataset_init (fst st)).
Proof. reflexivity. Qed.

(** What group_by returns once [sort] has returned. *)
Lemma group_by_sorted (t : Dataset) (gs : list string) (other_cols : option (list string))
    (count : option string) (sorts : Dataset) :
  valid t -> NoDup gs -> incl gs (columns t) -> (0 < height t)%nat ->
  NoDup (gs ++ others t gs other_cols ++ count_col count) ->
  incl (others t gs other_cols) (columns t) ->
  sort t gs false = Ok sorts ->
  exists ks,
    group_by t gs other_cols count =
      Ok (group_table gs (others t gs other_cols) count (sort_order t gs)
            (groups_of gs ks (rows_in t (sort_order t gs)))) /\
    StronglySorted key_lt ks /\
    (forall k, In k ks <-> In k (keys_of t gs)).
Proof.
  intros Hv Hgs Hincl Hpos Hnames Hos Hsort.
  destruct (sort_rows t gs sorts Hv Hgs Hincl Hpos Hsort)
    as [Hc [Hval [_ [Hperm [Hsorted Hstable]]]]].
  set (os := others t gs other_cols) in *.
  set (s := rows sorts) in *.
  set (R := fold_left (push gs) s []).
  destruct (scan_sorted gs s Hsorted) as [HR [Hks Hkeys]]. fold R in HR, Hks, Hkeys.
  exists (map fst R). split; [|split].
  - rewrite group_by_eq. fold os. rewrite Hsort. cbn [bind].
    assert (Hso : NoDup (sort_order t gs))
      by (apply sort_order_nodup; [apply Hv | exact Hgs]).
    assert (Hos' : incl os (sort_order t gs))
      by (intros c Hc'; apply sort_order_complete; apply Hos; exact Hc').
    unfold sort_order in Hso, Hos'.
    rewrite (group_table_nil gs (filter (fun col => negb (mem col gs)) (columns t))
               os count Hnames).
    rewrite (records_rows sorts (proj1 Hval)), Hc. fold s.
    change (@None (list value)) with (last_key []).
    unfold sort_order.
    rewrite (group_scan gs (filter (fun col => negb (mem col gs)) (columns t)) os count
               s [] Hso Hnames Hos').
    + cbn [bind fst]. fold R.
      rewrite (Dataset_init_valid _ (proj1 (group_table_valid gs os count _ R Hnames))).
      f_equal. f_equal. etransitivity; [exact HR|].
      unfold groups_of. apply map_ext. intros k. f_equal. apply Hstable.
    + pose proof (rows_width sorts) as Hw. rewrite Hc in Hw. exact Hw.
  - exact Hks.
  - intros k. rewrite Hkeys. unfold keys_of. split; intros Hin.
    + apply (Permutation_in _ (Permutation_map (row_key gs) (Permutation_sym Hperm))).
      exact Hin.
    + apply (Permutation_in _ (Permutation_map (row_key gs) Hperm)). exact Hin.
Qed.

Lemma group_by_no_rows (t : Dataset) (gs : list string) (other_cols : option (list string))
    (count : option string) :
  valid t -> incl gs (columns t) -> t <> [] -> height t = 0%nat ->
  group_by t gs other_cols count = Err KeyError.
Proof.
  intros Hv Hincl Hne Hz. rewrite group_by_eq.
  rewrite (sort_no_rows t gs false Hv Hincl Hne Hz). reflexivity.
Qed.

(** C4: on a table with at least one row whose keys Python can order,
    group_by returns one row per distinct key tuple, the keys in strictly
    ascending order; a grouping column holds the cells of the key, every
    other column the list of the cells of the rows that carry the key, in
    their original order, and the count column their number.  On a table
    with columns but no row it raises [KeyError], as [sort] does.  The
    scenario of the specification is the last conjunct. *)
Theorem group_by_groups (t : Dataset) (gs : list string) (other_cols : option (list string))
    (count : option string) :
  valid t -> gs <> [] -> NoDup gs -> incl gs (columns t) ->
  NoDup (gs ++ others t gs other_cols ++ count_col count) ->
  incl (others t gs other_cols) (columns t) ->
  (height t = 0%nat -> group_by t gs other_cols count = Err KeyError) /\
  ((0 < height t)%nat -> all_comparable (keys_of t gs) = true ->
   exists ks,
     group_by t gs other_cols count =
       Ok (group_table gs (others t gs other_cols) count (sort_order t gs)
             (groups_of gs ks (rows_in t (sort_order t gs)))) /\
     StronglySorted key_lt ks /\
     (forall k, In k ks <-> In k (keys_of t gs))) /\
  group_by [("id", [VInt 1; VInt 1; VInt 2]); ("x", [VInt 10; VInt 20; VInt 30])]%string
           ["id"%string] (Some ["x"%string]) None
  = Ok [("id", [VInt 1; VInt 2]);
        ("x", [VList [VInt 10; VInt 20]; VList [VInt 30]])]%string.
Proof.
  intros Hv Hne Hgs Hincl Hnames Hos. split; [|split].
  - intros Hz. apply group_by_no_rows; try assumption.
    intros ->. destruct gs as [|g gs']; [congruence|].
    apply (Hincl g). left. reflexivity.
  - intros Hpos Hcmp.
    destruct (sort_defined t gs Hv Hgs Hincl Hpos Hcmp) as [sorts Hsort].
    apply (group_by_sorted t gs other_cols count sorts); assumption.
  - reflexivity.
Qed.

Lemma group_by_groups_witness :
  group_by no_rows ["id"%string] None None = Err KeyError /\
  exists ks,
    group_by people ["id"%string] None (Some "n"%string) =
      Ok (group_table ["id"%string] (others people ["id"%string] None) (Some "n"%string)
            (sort_order people ["id"%string])
            (groups_of ["id"%string] ks (rows_in people (sort_order people ["id"%string])))) /\
    StronglySorted key_lt ks /\
    (forall k, In k ks <-> In k (keys_of people ["id"%string])).
Proof.
  assert (Hn : NoDup ["id"%string]) by (apply nodupb_NoDup; reflexivity).
  assert (Hne : ["id"%string] <> []) by discriminate.
  split.
  - assert (Hv : valid no_rows) by (apply validb_valid; reflexivity).
    assert (Hi : incl ["id"%string] (columns no_rows)) by (apply inclb_incl; reflexivity).
    assert (Hnames : NoDup (["id"%string] ++ others no_rows ["id"%string] None
                            ++ count_col None))
      by (apply nodupb_NoDup; reflexivity).
    assert (Ho : incl (others no_rows ["id"%string] None) (columns no_rows))
      by (apply inclb_incl; reflexivity).
    apply (proj1 (group_by_groups no_rows ["id"%string] None None Hv Hne Hn Hi Hnames Ho)).
    reflexivity.
  - assert (Hv : valid people) by (apply validb_valid; reflexivity).
    assert (Hi : incl ["id"%string] (columns people)) by (apply inclb_incl; reflexivity).
    assert (Hnames : NoDup (["id"%string] ++ others people ["id"%string] None
                            ++ count_col (Some "n"%string)))
      by (apply nodupb_NoDup; reflexivity).
    assert (Ho : incl (others people ["id"%string] None) (columns people))
      by (apply inclb_incl; reflexivity).
    apply (proj1 (proj2 (group_by_groups people ["id"%string] None (Some "n"%string)
                           Hv Hne Hn Hi Hnames Ho)));
      [apply Nat.ltb_lt | ]; reflexivity.
Defined.

Lemma sort_unknown_name (t : Dataset) (names : list string) (reverse : bool) :
  (exists g, In g names /\ ~ In g (columns t)) -> sort t names reverse = Err AssertionError.
Proof.
  intros [g [Hg Hnot]]. unfold sort.
  destruct (forallb (fun name => mem name (columns t)) names) eqn:E; [|reflexivity].
  exfalso. rewrite forallb_forall in E. apply Hnot. apply mem_In. apply E. exact Hg.
Qed.

Lemma filter_all {A : Type} (f : A -> bool) (l : list A) :
  (forall x, In x l -> f x = true) -> filter f l = l.
Proof.
  induction l as [|x l IH]; simpl; intros H; [reflexivity|].
  rewrite (H x (or_introl eq_refl)). f_equal. apply IH. auto.
Qed.

Lemma sort_order_no_keys (t : Dataset) : sort_order t [] = columns t.
Proof. unfold sort_order. simpl. apply filter_all. reflexivity. Qed.

Lemma rows_in_columns (t : Dataset) : NoDup (columns t) -> rows_in t (columns t) = rows t.
Proof. intros Hnd. unfold rows_in, rows. rewrite (map_snd_cols t Hnd). reflexivity. Qed.

Lemma keys_of_no_keys (t : Dataset) (k : list value) : In k (keys_of t []) -> k = [].
Proof.
  unfold keys_of. intros Hin. apply in_map_iff in Hin. destruct Hin as [r [<- _]].
  reflexivity.
Qed.

(** With no grouping column every row has the empty key: one group. *)
Lemma group_by_no_keys (t : Dataset) (count : option string) :
  valid t -> (0 < height t)%nat -> NoDup (columns t ++ count_col count) ->
  group_by t [] None count =
  Ok (group_table [] (columns t) count (columns t) [([], rows t)]).
Proof.
  intros Hv Hpos Hnames.
  assert (Hoth : others t [] None = columns t) by (apply (sort_order_no_keys t)).
  assert (Hne : t <> []) by (intros ->; simpl in Hpos; lia).
  assert (Hkeys : keys_of t [] <> []).
  { unfold keys_of. intros E. apply map_eq_nil in E.
    destruct (rows_in_shape t [] Hv ltac:(intros x []) Hne) as [Hlen _].
    rewrite E in Hlen. simpl in Hlen. lia. }
  assert (Hcmp : all_comparable (keys_of t []) = true).
  { apply all_comparable_spec. intros a b Ha Hb.
    rewrite (keys_of_no_keys t a Ha), (keys_of_no_keys t b Hb). discriminate. }
  destruct (sort_defined t [] Hv ltac:(constructor) ltac:(intros x []) Hpos Hcmp)
    as [sorts Hsort].
  destruct (group_by_sorted t [] None count sorts Hv ltac:(constructor)
              ltac:(intros x []) Hpos) as [ks [Hg [Hks Hin]]].
  - rewrite Hoth. exact Hnames.
  - rewrite Hoth. apply incl_refl.
  - exact Hsort.
  - rewrite Hg, Hoth, sort_order_no_keys, (rows_in_columns t (proj1 Hv)).
    assert (Hks1 : ks = [[]]).
    { destruct ks as [|k ks].
      - destruct (keys_of t []) as [|k0 l] eqn:E; [congruence|].
        exfalso. apply (proj2 (Hin k0)). left. reflexivity.
      - assert (Hk : k = []) by (apply (keys_of_no_keys t); apply Hin; left; reflexivity).
        subst k. destruct ks as [|k' ks]; [reflexivity|].
        assert (Hk' : k' = [])
          by (apply (keys_of_no_keys t); apply Hin; right; left; reflexivity).
        subst k'. inversion Hks as [|? ? _ Hall]; subst.
        inversion Hall as [|? ? Hlt _]; subst. discriminate Hlt. }
    subst ks. do 2 f_equal. unfold groups_of. simpl. do 2 f_equal.
    apply filter_all. reflexivity.
Qed.

(** C8, as amended: group_by fails, with the assertion of [sort], when a
    grouping column is not a column of the table; it has no check for an
    empty list of grouping columns, and on a table with at least one row an
    empty list makes one group of all the rows. *)
Theorem group_by_grouping_cols (t : Dataset) (gs : list string)
    (other_cols : option (list string)) (count : option string) :
  ((exists g, In g gs /\ ~ In g (columns t)) ->
   group_by t gs other_cols count = Err AssertionError) /\
  (valid t -> (0 < height t)%nat -> NoDup (columns t ++ count_col count) ->
   group_by t [] None count =
   Ok (group_table [] (columns t) count (columns t) [([], rows t)])).
Proof.
  split.
  - intros H. rewrite group_by_eq, (sort_unknown_name t gs false H). reflexivity.
  - apply group_by_no_keys.
Qed.

(** C8 as stated fails: group_by with no grouping column returns a table. *)
Lemma group_by_empty_list_counterexample :
  group_by [("x", [VInt 10; VInt 20])]%string [] None None
  = Ok [("x", [VList [VInt 10; VInt 20]])]%string.
Proof. reflexivity. Qed.

(** ** merge: gathering the run of a key *)

Lemma mapM_index_seq_from (m : nat) (pre row : list value) :
  (m <= length row)%nat ->
  mapM (index (pre ++ row)) (seq (length pre) m) = Ok (firstn m row).
Proof.
  revert pre row. induction m as [|m IH]; intros pre row Hm; [reflexivity|].
  destruct row as [|v row]; [simpl in Hm; lia|].
  simpl. unfold index at 1. rewrite nth_error_app2 by lia.
  rewrite Nat.sub_diag. simpl.
  replace (pre ++ v :: row) with ((pre ++ [v]) ++ row)
    by (rewrite <- app_assoc; reflexivity).
  replace (S (length pre)) with (length (pre ++ [v]))
    by (rewrite length_app; simpl; lia).
  rewrite IH; [reflexivity | simpl in Hm; lia].
Qed.

Lemma mapM_index_seq (row : list value) (n : nat) :
  (n <= length row)%nat -> mapM (index row) (seq 0 n) = Ok (firstn n row).
Proof. intros Hn. apply (mapM_index_seq_from n [] row Hn). Qed.

Lemma tuple_key_row (on : list string) (row : list value) :
  (length on <= length row)%nat -> tuple_key on row = Ok (row_key on row).
Proof. intros H. apply mapM_index_seq. exact H. Qed.

Lemma not_lt_not_eq (a b : list value) :
  tuple_lt a b = Some false -> tuple_eqb a b = false -> key_lt b a.
Proof.
  intros Hlt Hne. destruct (tuple_lt_total a b Hlt) as [->|H]; [|exact H].
  rewrite tuple_eqb_refl in Hne. discriminate.
Qed.

Lemma filter_none_above (on : list string) (k : list value) (s : list (list value)) :
  Forall (fun r => key_lt k (row_key on r)) s -> filter (has_key (row_key on) k) s = [].
Proof.
  intros H. apply filter_has_key_none. intros Hin.
  apply in_map_iff in Hin. destruct Hin as [r [Hr Hin]].
  rewrite Forall_forall in H. specialize (H r Hin). rewrite Hr in H.
  exact (tuple_lt_irrefl k H).
Qed.

Lemma filter_has_key_cons (on : list string) (k r : list value) (s : list (list value)) :
  filter (has_key (row_key on) k) (r :: s) =
  if tuple_eqb (row_key on r) k
  then r :: filter (has_key (row_key on) k) s
  else filter (has_key (row_key on) k) s.
Proof. reflexivity. Qed.

(** The inner loop on rows in key order: it collects the rows of key [k] and
    leaves rows among which every larger key still has all its rows. *)
Lemma gather_sorted (on : list string) (k : list value) (s acc : list (list value)) :
  StronglySorted (le_by (row_key on)) s ->
  Forall (fun r => (length on <= length r)%nat /\ tuple_lt (row_key on r) k <> None) s ->
  exists s',
    gather on k s acc = Ok (acc ++ filter (has_key (row_key on) k) s, s') /\
    StronglySorted (le_by (row_key on)) s' /\ incl s' s /\
    (forall k', key_lt k k' ->
                filter (has_key (row_key on) k') s' = filter (has_key (row_key on) k') s).
Proof.
  revert acc. induction s as [|r s IH]; intros acc Hs Hall.
  - exists []. simpl. rewrite app_nil_r. repeat split; auto using incl_refl; constructor.
  - inversion Hs as [|? ? Hs' Hle]; subst.
    inversion Hall as [|? ? [Hw Hcmp] Hall']; subst.
    cbn [gather]. rewrite (tuple_key_row on r Hw). cbn [bind].
    destruct (tuple_lt (row_key on r) k) as [[|]|] eqn:Elt; [| |congruence].
    + destruct (IH acc Hs' Hall') as [s' [Hg [Hs'' [Hincl Hk']]]].
      exists s'. split; [|split; [exact Hs''|split]].
      * rewrite Hg, filter_has_key_cons.
        destruct (tuple_eqb (row_key on r) k) eqn:E; [|reflexivity].
        apply tuple_eqb_eq in E. rewrite E in Elt.
        exfalso. exact (tuple_lt_irrefl k Elt).
      * intros x Hx. right. apply Hincl. exact Hx.
      * intros k' Hlt. rewrite (Hk' k' Hlt), filter_has_key_cons.
        destruct (tuple_eqb (row_key on r) k') eqn:E; [|reflexivity].
        apply tuple_eqb_eq in E. rewrite E in Elt.
        exfalso. pose proof (tuple_lt_asym _ _ Elt) as Ha. unfold key_lt in Hlt. congruence.
    + destruct (tuple_eqb (row_key on r) k) eqn:E.
      * destruct (IH (acc ++ [r]) Hs' Hall') as [s' [Hg [Hs'' [Hincl Hk']]]].
        exists s'. split; [|split; [exact Hs''|split]].
        -- rewrite Hg, filter_has_key_cons, E, <- app_assoc. reflexivity.
        -- intros x Hx. right. apply Hincl. exact Hx.
        -- intros k' Hlt. rewrite (Hk' k' Hlt), filter_has_key_cons.
           destruct (tuple_eqb (row_key on r) k') eqn:E'; [|reflexivity].
           apply tuple_eqb_eq in E, E'. rewrite E in E'. subst k'.
           exfalso. exact (tuple_lt_irrefl k Hlt).
      * exists (r :: s). split; [|split; [exact Hs|split]].
        -- f_equal. f_equal. rewrite filter_none_above; [rewrite app_nil_r; reflexivity|].
           pose proof (not_lt_not_eq _ _ Elt E) as Hkr.
           constructor; [exact Hkr|].
           apply Forall_forall. intros x Hx. rewrite Forall_forall in Hle.
           destruct (Hle x Hx) as [Heq|Hlt]; unfold key_lt in *.
           ++ rewrite <- Heq. exact Hkr.
           ++ eapply tuple_lt_trans; eassumption.
        -- apply incl_refl.
        -- reflexivity.
Qed.

(** The loop over the keys of one side, on rows in key order: each key gets
    its rows, or the pseudo-row. *)
Lemma organise_sorted (on : list string) (how which : string) (pad : list value)
    (s : list (list value)) (ak : list (list value)) (z : list (list value)) :
  StronglySorted key_lt ak ->
  StronglySorted (le_by (row_key on)) z -> incl z s ->
  Forall (fun r => (length on <= length r)%nat) s ->
  (forall r k, In r s -> In k ak -> tuple_lt (row_key on r) k <> None) ->
  (forall k, In k ak ->
             filter (has_key (row_key on) k) z = filter (has_key (row_key on) k) s) ->
  organise on how which pad ak z = Ok (map (side how which pad on s) ak).
Proof.
  revert z. induction ak as [|k ks IH]; intros z Hak Hz Hincl Hw Hcmp Hinv; [reflexivity|].
  inversion Hak as [|? ? Hks Hlt]; subst.
  destruct (gather_sorted on k z [] Hz) as [s' [Hg [Hs' [Hincl' Hk']]]].
  { apply Forall_forall. intros r Hr. split.
    - rewrite Forall_forall in Hw. apply Hw. apply Hincl. exact Hr.
    - apply Hcmp; [apply Hincl; exact Hr | left; reflexivity]. }
  cbn [organise]. rewrite Hg. cbn [bind fst snd app].
  rewrite (Hinv k (or_introl eq_refl)).
  rewrite (IH s').
  - reflexivity.
  - exact Hks.
  - exact Hs'.
  - intros x Hx. apply Hincl. apply Hincl'. exact Hx.
  - exact Hw.
  - intros r k' Hr Hk. apply Hcmp; [exact Hr | right; exact Hk].
  - intros k' Hin. rewrite Forall_forall in Hlt.
    rewrite (Hk' k' (Hlt k' Hin)). apply Hinv. right. exact Hin.
Qed.

(** ** merge: emitting a row *)

Lemma foldM_filter {S A : Type} (F : S -> A -> result S) (keep : A -> bool)
    (l : list A) (s : S) :
  (forall s' x, In x l -> keep x = false -> F s' x = Ok s') ->
  foldM F l s = foldM F (filter keep l) s.
Proof.
  revert s. induction l as [|x l IH]; intros s H; [reflexivity|].
  simpl. destruct (keep x) eqn:E.
  - simpl. destruct (F s x); simpl; [|reflexivity].
    apply IH. intros s' y Hy. apply H. right. exact Hy.
  - rewrite (H s x (or_introl eq_refl) E). simpl.
    apply IH. intros s' y Hy. apply H. right. exact Hy.
Qed.

Lemma foldM_map {S A B : Type} (F : S -> B -> result S) (h : A -> B)
    (l : list A) (s : S) :
  foldM F (map h l) s = foldM (fun s' x => F s' (h x)) l s.
Proof.
  revert s. induction l as [|x l IH]; intros s; [reflexivity|].
  simpl. destruct (F s (h x)); simpl; auto.
Qed.

Lemma cell_in_nth (cs : list string) (row : list value) (i : nat) (c : string) (v : value) :
  NoDup cs -> nth_error cs i = Some c -> nth_error row i = Some v ->
  cell_in cs row c = v.
Proof.
  unfold cell_in, cell. revert row i.
  induction cs as [|c0 cs IH]; intros row i Hnd Hc Hv.
  - destruct i; discriminate.
  - inversion Hnd as [|? ? Hc0 Hnd']; subst.
    destruct row as [|v0 row]; [destruct i; discriminate|].
    destruct i as [|i]; simpl in Hc, Hv.
    + inversion Hc; inversion Hv; subst. simpl. rewrite String.eqb_refl. reflexivity.
    + simpl. destruct (String.eqb_spec c0 c) as [->|Hne].
      * exfalso. apply Hc0. eapply nth_error_In. exact Hc.
      * apply (IH row i Hnd' Hc Hv).
Qed.

Lemma index_cell (cs : list string) (row : list value) (i : nat) (c : string) :
  NoDup cs -> In (i, c) (enumerate cs) -> (length cs <= length row)%nat ->
  index row i = Ok (cell_in cs row c).
Proof.
  intros Hnd Hin Hlen. apply enumerate_nth in Hin.
  assert (Hi : (i < length row)%nat).
  { apply Nat.lt_le_trans with (m := length cs); [|exact Hlen].
    apply nth_error_Some. congruence. }
  unfold index. destruct (nth_error row i) as [v|] eqn:E.
  - f_equal. symmetry. apply (cell_in_nth cs row i c v Hnd Hin E).
  - apply nth_error_None in E. lia.
Qed.

Lemma enumerate_filter_snd (keep : string -> bool) (cs : list string) :
  map snd (filter (fun ic : nat * string => keep (snd ic)) (enumerate cs)) = filter keep cs.
Proof.
  unfold enumerate. generalize 0%nat.
  induction cs as [|c cs IH]; intros n; [reflexivity|].
  simpl. destruct (keep c); simpl; [f_equal|]; apply IH.
Qed.

Lemma foldM_enumerate {S : Type} (F : S -> nat * string -> result S)
    (G : S -> string -> result S) (keep : string -> bool) (cs : list string) (s : S) :
  (forall s' ic, In ic (enumerate cs) ->
                 F s' ic = if keep (snd ic) then G s' (snd ic) else Ok s') ->
  foldM F (enumerate cs) s = foldM G (filter keep cs) s.
Proof.
  intros H.
  rewrite (foldM_filter F (fun ic => keep (snd ic))).
  - rewrite <- enumerate_filter_snd, foldM_map. apply foldM_ext.
    intros s' ic Hic. apply filter_In in Hic. destruct Hic as [Hic Hk].
    rewrite (H s' ic Hic), Hk. reflexivity.
  - intros s' ic Hic Hk. rewrite (H s' ic Hic), Hk. reflexivity.
Qed.

Lemma filter_rest (on rest : list string) :
  NoDup (on ++ rest) -> filter (fun c => negb (mem c on)) (on ++ rest) = rest.
Proof.
  intros Hnd. rewrite filter_app.
  assert (H1 : filter (fun c => negb (mem c on)) on = []).
  { assert (H : forall l, incl l on -> filter (fun c => negb (mem c on)) l = []).
    { induction l as [|c l IH]; intros Hincl; [reflexivity|]. simpl.
      assert (Hc : mem c on = true) by (apply mem_In; apply Hincl; left; reflexivity).
      rewrite Hc. simpl. apply IH. intros x Hx. apply Hincl. right. exact Hx. }
    apply H. apply incl_refl. }
  rewrite H1. simpl. apply filter_all. intros c Hc.
  apply negb_true_iff, mem_false. intros Hon.
  apply in_split in Hon. destruct Hon as [l1 [l2 ->]].
  rewrite <- app_assoc in Hnd. apply NoDup_remove_2 in Hnd.
  apply Hnd. rewrite app_assoc. apply in_or_app. right. exact Hc.
Qed.

Section MergeFacts.
Variables (on lrest rrest : list string).
Hypothesis HsoL : NoDup (on ++ lrest).
Hypothesis HsoR : NoDup (on ++ rrest).
Hypothesis Hout : NoDup (on ++ lrest ++ rrest).

Local Abbreviation MT := (merge_table on lrest rrest (on ++ lrest) (on ++ rrest)).

Lemma merge_table_keys (E : list emitted) : dict_keys (MT E) = on ++ lrest ++ rrest.
Proof.
  unfold merge_table, dict_keys. rewrite !map_app, !map_map. simpl.
  rewrite !map_id. reflexivity.
Qed.

Lemma on_nodup : NoDup on.
Proof. apply NoDup_app_remove_r in HsoL. exact HsoL. Qed.

Lemma lrest_nodup : NoDup lrest.
Proof. apply NoDup_app_remove_l in HsoL. exact HsoL. Qed.

Lemma rrest_nodup : NoDup rrest.
Proof. apply NoDup_app_remove_l in HsoR. exact HsoR. Qed.

(** One pass of the innermost loop adds one row to the table. *)
Lemma emit_row_ok (E : list emitted) (k la ra : list value) :
  length k = length on ->
  (length (on ++ lrest) <= length la)%nat ->
  (length (on ++ rrest) <= length ra)%nat ->
  emit_row on (on ++ lrest) (on ++ rrest) k la ra (MT E)
  = Ok (MT (E ++ [(k, (la, ra))])).
Proof.
  intros Hk Hla Hra. unfold emit_row.
  (* the key columns *)
  rewrite (foldM_enumerate _
             (fun r c => col_modify r c (fun l => Ok (l ++ [cell_in on k c])))
             (fun _ => true)).
  2:{ intros d [i c] Hic. simpl.
      rewrite (index_cell on k i c on_nodup Hic) by lia.
      cbn [bind]. apply col_append_modify. }
  rewrite filter_all by reflexivity.
  rewrite (fold_modify on _ (fun c l => l ++ [cell_in on k c])).
  2:{ rewrite merge_table_keys. exact Hout. }
  2: exact on_nodup.
  2:{ rewrite merge_table_keys. intros c Hc. apply in_or_app. left. exact Hc. }
  2:{ intros c _. reflexivity. }
  cbn [bind].
  set (d1 := modify_cols on (fun c l => l ++ [cell_in on k c]) (MT E)).
  assert (Hk1 : dict_keys d1 = on ++ lrest ++ rrest)
    by (unfold d1; rewrite modify_cols_keys; apply merge_table_keys).
  (* the left columns *)
  rewrite (foldM_enumerate _
             (fun r c => col_modify r c (fun l => Ok (l ++ [cell_in (on ++ lrest) la c])))
             (fun c => negb (mem c on))).
  2:{ intros d [i c] Hic. simpl. destruct (mem c on); simpl; [reflexivity|].
      rewrite (index_cell (on ++ lrest) la i c HsoL Hic Hla).
      cbn [bind]. apply col_append_modify. }
  rewrite (filter_rest on lrest HsoL).
  rewrite (fold_modify lrest _ (fun c l => l ++ [cell_in (on ++ lrest) la c])).
  2:{ rewrite Hk1. exact Hout. }
  2: exact lrest_nodup.
  2:{ rewrite Hk1. intros c Hc. apply in_or_app. right. apply in_or_app. left. exact Hc. }
  2:{ intros c _. reflexivity. }
  cbn [bind].
  set (d2 := modify_cols lrest (fun c l => l ++ [cell_in (on ++ lrest) la c]) d1).
  assert (Hk2 : dict_keys d2 = on ++ lrest ++ rrest)
    by (unfold d2; rewrite modify_cols_keys; exact Hk1).
  (* the right columns *)
  rewrite (foldM_enumerate _
             (fun r c => col_modify r c (fun l => Ok (l ++ [cell_in (on ++ rrest) ra c])))
             (fun c => negb (mem c on))).
  2:{ intros d [i c] Hic. simpl. destruct (mem c on); simpl; [reflexivity|].
      rewrite (index_cell (on ++ rrest) ra i c HsoR Hic Hra).
      cbn [bind]. apply col_append_modify. }
  rewrite (filter_rest on rrest HsoR).
  rewrite (fold_modify rrest _ (fun c l => l ++ [cell_in (on ++ rrest) ra c])).
  2:{ rewrite Hk2. exact Hout. }
  2: exact rrest_nodup.
  2:{ rewrite Hk2. intros c Hc. apply in_or_app. right. apply in_or_app. right. exact Hc. }
  2:{ intros c _. reflexivity. }
  f_equal. unfold d2, d1. unfold merge_table at 1.
  rewrite modify_three; try exact Hout.
  - unfold merge_table. rewrite !map_map. simpl.
    f_equal; [|f_equal]; apply map_ext; intros c; rewrite map_app; reflexivity.
  - unfold dict_keys. rewrite map_map. simpl. apply map_id.
  - unfold dict_keys. rewrite map_map. simpl. apply map_id.
  - unfold dict_keys. rewrite map_map. simpl. apply map_id.
Qed.
End MergeFacts.

Lemma emit_rows_ok (on lrest rrest : list string) (E : list emitted)
    (k la : list value) (rs : list (list value)) :
  NoDup (on ++ lrest) -> NoDup (on ++ rrest) -> NoDup (on ++ lrest ++ rrest) ->
  length k = length on -> (length (on ++ lrest) <= length la)%nat ->
  Forall (fun ra => (length (on ++ rrest) <= length ra)%nat) rs ->
  foldM (fun r' ra => emit_row on (on ++ lrest) (on ++ rrest) k la ra r') rs
        (merge_table on lrest rrest (on ++ lrest) (on ++ rrest) E)
  = Ok (merge_table on lrest rrest (on ++ lrest) (on ++ rrest)
          (E ++ map (fun ra => (k, (la, ra))) rs)).
Proof.
  intros HL HR Hout Hk Hla Hrs. revert E.
  induction Hrs as [|ra rs Hra _ IH]; intros E.
  - simpl. rewrite app_nil_r. reflexivity.
  - cbn [foldM map].
    rewrite (emit_row_ok on lrest rrest HL HR Hout E k la ra Hk Hla Hra). cbn [bind].
    rewrite IH, <- app_assoc. reflexivity.
Qed.

Lemma emit_key_ok (on lrest rrest : list string) (E : list emitted)
    (k : list value) (ls rs : list (list value)) :
  NoDup (on ++ lrest) -> NoDup (on ++ rrest) -> NoDup (on ++ lrest ++ rrest) ->
  length k = length on ->
  Forall (fun la => (length (on ++ lrest) <= length la)%nat) ls ->
  Forall (fun ra => (length (on ++ rrest) <= length ra)%nat) rs ->
  emit_key on (on ++ lrest) (on ++ rrest)
           (merge_table on lrest rrest (on ++ lrest) (on ++ rrest) E) (k, (ls, rs))
  = Ok (merge_table on lrest rrest (on ++ lrest) (on ++ rrest) (E ++ emit k ls rs)).
Proof.
  intros HL HR Hout Hk Hls Hrs. unfold emit_key. cbn [fst snd]. revert E.
  induction Hls as [|la ls Hla _ IH]; intros E.
  - simpl. rewrite app_nil_r. reflexivity.
  - cbn [foldM].
    rewrite (emit_rows_ok on lrest rrest E k la rs HL HR Hout Hk Hla Hrs). cbn [bind].
    rewrite IH. unfold emit. simpl. rewrite <- app_assoc. reflexivity.
Qed.

Lemma emit_keys_ok (on lrest rrest : list string) (E : list emitted)
    (fL fR : list value -> list (list value)) (ak : list (list value)) :
  NoDup (on ++ lrest) -> NoDup (on ++ rrest) -> NoDup (on ++ lrest ++ rrest) ->
  Forall (fun k => length k = length on /\
                   Forall (fun la => (length (on ++ lrest) <= length la)%nat) (fL k) /\
                   Forall (fun ra => (length (on ++ rrest) <= length ra)%nat) (fR k)) ak ->
  foldM (emit_key on (on ++ lrest) (on ++ rrest))
        (combine ak (combine (map fL ak) (map fR ak)))
        (merge_table on lrest rrest (on ++ lrest) (on ++ rrest) E)
  = Ok (merge_table on lrest rrest (on ++ lrest) (on ++ rrest)
          (E ++ flat_map (fun k => emit k (fL k) (fR k)) ak)).
Proof.
  intros HL HR Hout Hak. revert E.
  induction Hak as [|k ak [Hk [Hls Hrs]] _ IH]; intros E.
  - simpl. rewrite app_nil_r. reflexivity.
  - cbn [map combine foldM flat_map].
    rewrite (emit_key_ok on lrest rrest E k (fL k) (fR k) HL HR Hout Hk Hls Hrs).
    cbn [bind]. rewrite IH, <- app_assoc. reflexivity.
Qed.

(** ** merge: the key sets *)

Lemma dedup_In (l : list (list value)) (x : list value) : In x (dedup l) <-> In x l.
Proof.
  induction l as [|y l IH]; simpl; [tauto|].
  destruct (existsb (tuple_eqb y) l) eqn:E.
  - rewrite IH. split; [auto|]. intros [<-|H]; [|exact H].
    apply existsb_exists in E. destruct E as [z [Hz Heq]].
    apply tuple_eqb_eq in Heq. subst z. exact Hz.
  - simpl. rewrite IH. tauto.
Qed.

Lemma dedup_NoDup (l : list (list value)) : NoDup (dedup l).
Proof.
  induction l as [|y l IH]; simpl; [constructor|].
  destruct (existsb (tuple_eqb y) l) eqn:E; [exact IH|].
  constructor; [|exact IH]. intros Hin. apply (proj1 (dedup_In l y)) in Hin.
  assert (Ht : existsb (tuple_eqb y) l = true).
  { apply existsb_exists. exists y. split; [exact Hin | apply tuple_eqb_refl]. }
  congruence.
Qed.

Lemma existsb_tuple_In (x : list value) (l : list (list value)) :
  existsb (tuple_eqb x) l = true <-> In x l.
Proof.
  rewrite existsb_exists. split.
  - intros [y [Hy He]]. apply tuple_eqb_eq in He. subst. exact Hy.
  - intros H. exists x. split; [exact H | apply tuple_eqb_refl].
Qed.

Lemma set_inter_In (a b : list (list value)) (x : list value) :
  In x (set_inter a b) <-> In x a /\ In x b.
Proof. unfold set_inter. rewrite filter_In, existsb_tuple_In. tauto. Qed.

Lemma set_union_In (a b : list (list value)) (x : list value) :
  In x (set_union a b) <-> In x a \/ In x b.
Proof.
  unfold set_union. rewrite in_app_iff, filter_In, negb_true_iff.
  destruct (existsb (tuple_eqb x) a) eqn:E.
  - apply existsb_tuple_In in E. intuition congruence.
  - intuition.
Qed.

Lemma set_inter_NoDup (a b : list (list value)) : NoDup a -> NoDup (set_inter a b).
Proof. intros H. apply NoDup_filter. exact H. Qed.

Lemma set_union_NoDup (a b : list (list value)) :
  NoDup a -> NoDup b -> NoDup (set_union a b).
Proof.
  intros Ha Hb. unfold set_union. apply NoDup_app; [exact Ha | apply NoDup_filter; exact Hb|].
  intros x Hx Hf. apply filter_In in Hf. destruct Hf as [_ Hf].
  apply negb_true_iff in Hf. apply existsb_tuple_In in Hx. congruence.
Qed.

Lemma sorted_strict (l : list (list value)) :
  NoDup l -> StronglySorted (le_by (fun k => k)) l -> StronglySorted key_lt l.
Proof.
  induction l as [|x l IH]; intros Hnd Hs; [constructor|].
  inversion Hnd as [|? ? Hx Hnd']; subst. inversion Hs as [|? ? Hs' Hall]; subst.
  constructor; [apply IH; assumption|].
  apply Forall_forall. intros y Hy. rewrite Forall_forall in Hall.
  destruct (Hall y Hy) as [Heq|Hlt]; [|exact Hlt].
  exfalso. apply Hx. rewrite Heq. exact Hy.
Qed.

Lemma key_lt_sorted_NoDup (l : list (list value)) : StronglySorted key_lt l -> NoDup l.
Proof.
  induction l as [|x l IH]; intros Hs; [constructor|].
  inversion Hs as [|? ? Hs' Hall]; subst. constructor; [|apply IH; exact Hs'].
  intros Hin. rewrite Forall_forall in Hall. exact (tuple_lt_irrefl x (Hall x Hin)).
Qed.

(** ** merge: the pieces *)

Lemma mapM_getitem_columns (t : Dataset) :
  NoDup (columns t) -> mapM (getitem t) (columns t) = Ok (map snd t).
Proof.
  intros Hnd. rewrite mapM_ok with (g := col t).
  - rewrite (map_snd_cols t Hnd). reflexivity.
  - intros c Hc. apply getitem_col. exact Hc.
Qed.

Lemma record_keys (t : Dataset) (on rest : list string) :
  valid t -> columns t = on ++ rest ->
  mapM (fun rec => mapM (getitem rec) on) (records t) = Ok (map (row_key on) (rows t)).
Proof.
  intros [Hnd _] Hc. rewrite (records_rows t Hnd), Hc.
  pose proof (rows_width t) as Hw. rewrite Hc in Hw. rewrite Hc in Hnd.
  induction Hw as [|r rs Hr _ IH]; [reflexivity|].
  cbn [map mapM]. rewrite (row_key_cells on rest r Hnd Hr). cbn [bind].
  rewrite IH. reflexivity.
Qed.

Lemma filter_other_side (on lrest rrest : list string) :
  NoDup (on ++ lrest ++ rrest) ->
  filter (fun c => negb (mem c (on ++ lrest))) (on ++ rrest) = rrest.
Proof.
  intros Hnd. rewrite filter_app.
  assert (H1 : filter (fun c => negb (mem c (on ++ lrest))) on = []).
  { assert (H : forall l, incl l on -> filter (fun c => negb (mem c (on ++ lrest))) l = []).
    { induction l as [|c l IH]; intros Hincl; [reflexivity|]. simpl.
      assert (Hc : mem c (on ++ lrest) = true).
      { apply mem_In. apply in_or_app. left. apply Hincl. left. reflexivity. }
      rewrite Hc. simpl. apply IH. intros x Hx. apply Hincl. right. exact Hx. }
    apply H. apply incl_refl. }
  rewrite H1. simpl. apply filter_all. intros c Hc.
  apply negb_true_iff, mem_false. intros Hin.
  rewrite app_assoc in Hnd.
  apply in_split in Hin. destruct Hin as [l1 [l2 E]]. rewrite E in Hnd.
  rewrite <- app_assoc in Hnd. apply NoDup_remove_2 in Hnd.
  apply Hnd. rewrite app_assoc. apply in_or_app. right. exact Hc.
Qed.

Lemma merge_rtn (on lrest rrest : list string) :
  NoDup (on ++ lrest ++ rrest) ->
  Dataset_init
    (dict_of_list
       (map (fun col => (col, []))
            ((on ++ lrest) ++ filter (fun c => negb (mem c (on ++ lrest))) (on ++ rrest))))
  = Ok (merge_table on lrest rrest (on ++ lrest) (on ++ rrest) []).
Proof.
  intros Hnd. rewrite (filter_other_side on lrest rrest Hnd), <- app_assoc.
  assert (Ht : map (fun col : string => (col, @nil value)) (on ++ lrest ++ rrest)
               = merge_table on lrest rrest (on ++ lrest) (on ++ rrest) []).
  { unfold merge_table. rewrite !map_app. reflexivity. }
  rewrite Ht.
  assert (Hk : columns (merge_table on lrest rrest (on ++ lrest) (on ++ rrest) [])
               = on ++ lrest ++ rrest).
  { rewrite <- Ht. unfold columns, dict_keys. rewrite map_map. simpl. apply map_id. }
  rewrite dict_of_list_nodup by (fold (dict_keys (merge_table on lrest rrest (on ++ lrest) (on ++ rrest) []));
                                 fold (columns (merge_table on lrest rrest (on ++ lrest) (on ++ rrest) []));
                                 rewrite Hk; exact Hnd).
  apply Dataset_init_valid. split; [rewrite Hk; exact Hnd|].
  exists 0%nat. rewrite <- Ht. apply Forall_forall. intros kv Hkv.
  apply in_map_iff in Hkv. destruct Hkv as [c [<- _]]. reflexivity.
Qed.

(** The sorted working key set of each mode. *)
Lemma merge_all_keys (how : string) (lk rk : list (list value)) :
  (forall a b, In a (lk ++ rk) -> In b (lk ++ rk) -> tuple_lt a b <> None) ->
  exists ak,
    (if String.eqb how "inner" then
       sorted (fun k => k) (set_inter (dedup lk) (dedup rk)) false
     else if String.eqb how "right" then
       sorted (fun k => k) (dedup rk) false
     else if String.eqb how "left" then
       sorted (fun k => k) (dedup lk) false
     else
       sorted (fun k => k) (set_union (dedup lk) (dedup rk)) false) = Ok ak /\
    StronglySorted key_lt ak /\
    (forall k, In k ak <-> key_in how lk rk k).
Proof.
  intros Hcmp.
  assert (Hsort : forall set,
             NoDup set -> incl set (lk ++ rk) ->
             exists ak, sorted (fun k : list value => k) set false = Ok ak /\
                        StronglySorted key_lt ak /\ (forall k, In k ak <-> In k set)).
  { intros set Hnd Hincl. unfold sorted.
    destruct (isort_defined (fun k : list value => k) set) as [ak Hak].
    - intros x y Hx Hy. apply Hcmp; apply Hincl; assumption.
    - exists ak. split; [exact Hak|].
      pose proof (isort_perm _ _ _ Hak) as Hperm. split.
      + apply sorted_strict.
        * apply (Permutation_NoDup Hperm Hnd).
        * apply (isort_sorted _ _ _ Hak).
      + intros k. split; intros H.
        * apply (Permutation_in _ (Permutation_sym Hperm)). exact H.
        * apply (Permutation_in _ Hperm). exact H. }
  unfold key_in.
  destruct (String.eqb how "inner"); [|destruct (String.eqb how "right");
                                       [|destruct (String.eqb how "left")]].
  - destruct (Hsort (set_inter (dedup lk) (dedup rk))) as [ak [H1 [H2 H3]]].
    + apply set_inter_NoDup, dedup_NoDup.
    + intros k Hk. apply set_inter_In in Hk. apply in_or_app. left.
      apply dedup_In. tauto.
    + exists ak. split; [exact H1|]. split; [exact H2|].
      intros k. rewrite H3, set_inter_In, !dedup_In. tauto.
  - destruct (Hsort (dedup rk)) as [ak [H1 [H2 H3]]].
    + apply dedup_NoDup.
    + intros k Hk. apply in_or_app. right. apply dedup_In. exact Hk.
    + exists ak. split; [exact H1|]. split; [exact H2|].
      intros k. rewrite H3, dedup_In. tauto.
  - destruct (Hsort (dedup lk)) as [ak [H1 [H2 H3]]].
    + apply dedup_NoDup.
    + intros k Hk. apply in_or_app. left. apply dedup_In. exact Hk.
    + exists ak. split; [exact H1|]. split; [exact H2|].
      intros k. rewrite H3, dedup_In. tauto.
  - destruct (Hsort (set_union (dedup lk) (dedup rk))) as [ak [H1 [H2 H3]]].
    + apply set_union_NoDup; apply dedup_NoDup.
    + intros k Hk. apply set_union_In in Hk. apply in_or_app.
      rewrite !dedup_In in Hk. exact Hk.
    + exists ak. split; [exact H1|]. split; [exact H2|].
      intros k. rewrite H3, set_union_In, !dedup_In. tauto.
Qed.

Lemma mergeableb_spec (left right : Dataset) (on : list string) :
  mergeableb left right on = true ->
  valid left /\ valid right /\ NoDup on /\
  incl on (columns left) /\ incl on (columns right) /\
  (0 < height left)%nat /\ (0 < height right)%nat /\
  NoDup (on ++ rest_of left on ++ rest_of right on) /\
  (forall a b, In a (keys_of left on ++ keys_of right on) ->
               In b (keys_of left on ++ keys_of right on) -> tuple_lt a b <> None) /\
  forallb (forallb hashable) (keys_of left on ++ keys_of right on) = true.
Proof.
  unfold mergeableb. rewrite !andb_true_iff.
  intros [[[[[[[[[H1 H2] H3] H4] H5] H6] H7] H8] H9] H10].
  repeat split.
  - apply (proj1 (validb_valid left H1)).
  - apply (proj2 (validb_valid left H1)).
  - apply (proj1 (validb_valid right H2)).
  - apply (proj2 (validb_valid right H2)).
  - apply nodupb_NoDup. exact H3.
  - apply inclb_incl. exact H4.
  - apply inclb_incl. exact H5.
  - apply Nat.ltb_lt. exact H6.
  - apply Nat.ltb_lt. exact H7.
  - apply nodupb_NoDup. exact H8.
  - apply all_comparable_spec. exact H9.
  - exact H10.
Qed.

Lemma forallb_perm {A : Type} (f : A -> bool) (l l' : list A) :
  Permutation l l' -> forallb f l = true -> forallb f l' = true.
Proof.
  intros Hp H. rewrite forallb_forall in *. intros x Hx.
  apply H. apply (Permutation_in _ (Permutation_sym Hp)). exact Hx.
Qed.

Lemma all_comparable_app_l (a b : list (list value)) :
  all_comparable (a ++ b) = true -> all_comparable a = true.
Proof.
  rewrite !all_comparable_spec. intros H x y Hx Hy.
  apply H; apply in_or_app; left; assumption.
Qed.

Lemma all_comparable_app_r (a b : list (list value)) :
  all_comparable (a ++ b) = true -> all_comparable b = true.
Proof.
  rewrite !all_comparable_spec. intros H x y Hx Hy.
  apply H; apply in_or_app; right; assumption.
Qed.

Lemma side_stable (how which : string) (pad : list value) (on : list string)
    (s inp : list (list value)) (k : list value) :
  (forall k', filter (has_key (row_key on) k') s = filter (has_key (row_key on) k') inp) ->
  side how which pad on s k = side how which pad on inp k.
Proof. intros H. unfold side. rewrite (H k). reflexivity. Qed.

Lemma row_key_length (on : list string) (r : list value) :
  (length on <= length r)%nat -> length (row_key on r) = length on.
Proof. intros H. unfold row_key. rewrite length_firstn. lia. Qed.

Lemma sorted_table_facts (t : Dataset) (on : list string) :
  valid t -> NoDup on -> incl on (columns t) -> (0 < height t)%nat ->
  all_comparable (keys_of t on) = true ->
  exists ts,
    sort t on false = Ok ts /\ columns ts = on ++ rest_of t on /\ valid ts /\
    StronglySorted (le_by (row_key on)) (rows ts) /\
    Permutation (rows_in t (sort_order t on)) (rows ts) /\
    (forall k, filter (has_key (row_key on) k) (rows ts) =
               filter (has_key (row_key on) k) (rows_in t (sort_order t on))) /\
    Forall (fun r => length r = length (on ++ rest_of t on)) (rows ts).
Proof.
  intros Hv Hn Hincl Hpos Hcmp.
  destruct (sort_defined t on Hv Hn Hincl Hpos Hcmp) as [ts Hts].
  destruct (sort_rows t on ts Hv Hn Hincl Hpos Hts) as [Hc [Hval [_ [Hp [Hs Hst]]]]].
  exists ts. repeat split; try assumption; try apply Hval.
  pose proof (rows_width ts) as Hw. rewrite Hc in Hw. exact Hw.
Qed.

Lemma key_in_either (how : string) (lk rk : list (list value)) (k : list value) :
  key_in how lk rk k -> In k (lk ++ rk).
Proof.
  unfold key_in. rewrite in_app_iff.
  destruct (String.eqb how "inner"); [|destruct (String.eqb how "right");
                                       [|destruct (String.eqb how "left")]]; tauto.
Qed.

Lemma filter_has_key_some (on : list string) (k : list value) (s : list (list value)) :
  In k (map (row_key on) s) -> filter (has_key (row_key on) k) s <> [].
Proof.
  intros Hin E. apply in_map_iff in Hin. destruct Hin as [r [Hr Hin]].
  assert (H : In r (filter (has_key (row_key on) k) s)).
  { apply filter_In. split; [exact Hin|]. unfold has_key. rewrite Hr. apply tuple_eqb_refl. }
  rewrite E in H. exact H.
Qed.

Lemma is_nil_false {A : Type} (l : list A) : l <> [] -> is_nil l = false.
Proof. destruct l; [congruence | reflexivity]. Qed.

(** [merge] up to its emission loop: the sorted key list [ak], the rows
    [sL] and [sR] of the two sorted tables, and the loop over the keys, each
    with the rows (or the pseudo-row) of either side. *)
Lemma merge_loop (left right : Dataset) (on : list string) (how : string) :
  mergeableb left right on = true ->
  In how ["inner"; "left"; "right"; "full"]%string ->
  exists ak sL sR,
    merge left right (Some on) how =
      foldM (emit_key on (on ++ rest_of left on) (on ++ rest_of right on))
            (combine ak
               (combine (map (side how "left" (pad_row left on) on sL) ak)
                        (map (side how "right" (pad_row left on) on sR) ak)))
            (merge_table on (rest_of left on) (rest_of right on)
               (on ++ rest_of left on) (on ++ rest_of right on) []) /\
    StronglySorted key_lt ak /\
    (forall k, In k ak <-> key_in how (keys_of left on) (keys_of right on) k) /\
    (forall k, filter (has_key (row_key on) k) sL =
               filter (has_key (row_key on) k) (rows_in left (sort_order left on))) /\
    (forall k, filter (has_key (row_key on) k) sR =
               filter (has_key (row_key on) k) (rows_in right (sort_order right on))) /\
    Forall (fun r => length r = length (on ++ rest_of left on)) sL /\
    Forall (fun r => length r = length (on ++ rest_of right on)) sR /\
    Forall (fun k => length k = length on) ak.
Proof.
  intros Hm Hhow.
  destruct (mergeableb_spec left right on Hm)
    as [HvL [HvR [Hon [HinL [HinR [HposL [HposR [Hout [Hcmp Hhash]]]]]]]]].
  assert (HcmpB : all_comparable (keys_of left on ++ keys_of right on) = true)
    by (apply all_comparable_spec; exact Hcmp).
  destruct (sorted_table_facts left on HvL Hon HinL HposL (all_comparable_app_l _ _ HcmpB))
    as [ls [HsL [HcL [HvalL [HsortedL [HpermL [HstL HwL]]]]]]].
  destruct (sorted_table_facts right on HvR Hon HinR HposR (all_comparable_app_r _ _ HcmpB))
    as [rs [HsR [HcR [HvalR [HsortedR [HpermR [HstR HwR]]]]]]].
  set (lrest := rest_of left on) in *. set (rrest := rest_of right on) in *.
  set (sL := rows ls) in *. set (sR := rows rs) in *.
  assert (HsoL : NoDup (on ++ lrest)) by (rewrite <- HcL; apply HvalL).
  assert (HsoR : NoDup (on ++ rrest)) by (rewrite <- HcR; apply HvalR).
  assert (HkL : forall k, In k (map (row_key on) sL) <-> In k (keys_of left on)).
  { intros k. unfold keys_of. split; intros H.
    - apply (Permutation_in _ (Permutation_map _ (Permutation_sym HpermL))). exact H.
    - apply (Permutation_in _ (Permutation_map _ HpermL)). exact H. }
  assert (HkR : forall k, In k (map (row_key on) sR) <-> In k (keys_of right on)).
  { intros k. unfold keys_of. split; intros H.
    - apply (Permutation_in _ (Permutation_map _ (Permutation_sym HpermR))). exact H.
    - apply (Permutation_in _ (Permutation_map _ HpermR)). exact H. }
  rewrite forallb_app, andb_true_iff in Hhash. destruct Hhash as [HhL HhR].
  assert (HhL' : forallb (forallb hashable) (map (row_key on) sL) = true)
    by (apply (forallb_perm _ _ _ (Permutation_map _ HpermL)); exact HhL).
  assert (HhR' : forallb (forallb hashable) (map (row_key on) sR) = true)
    by (apply (forallb_perm _ _ _ (Permutation_map _ HpermR)); exact HhR).
  destruct (merge_all_keys how (map (row_key on) sL) (map (row_key on) sR))
    as [ak [Hak [Hstrict Hkeys]]].
  { intros a b Ha Hb. apply Hcmp.
    - apply in_app_or in Ha. apply in_or_app.
      destruct Ha as [Ha|Ha]; [left; apply HkL | right; apply HkR]; exact Ha.
    - apply in_app_or in Hb. apply in_or_app.
      destruct Hb as [Hb|Hb]; [left; apply HkL | right; apply HkR]; exact Hb. }
  assert (Hkeys' : forall k, In k ak <-> key_in how (keys_of left on) (keys_of right on) k).
  { intros k. rewrite Hkeys. unfold key_in.
    destruct (String.eqb how "inner"); [|destruct (String.eqb how "right");
                                         [|destruct (String.eqb how "left")]];
      rewrite ?HkL, ?HkR; tauto. }
  exists ak, sL, sR.
  split; [|split; [exact Hstrict|split; [exact Hkeys'|split; [exact HstL|split; [exact HstR|
          split; [exact HwL|split; [exact HwR|]]]]]]].
  2:{ apply Forall_forall. intros k Hk.
      assert (Hin : In k (map (row_key on) sL ++ map (row_key on) sR))
        by (apply (key_in_either how); apply Hkeys; exact Hk).
      apply in_app_or in Hin.
      destruct Hin as [H|H]; apply in_map_iff in H; destruct H as [r [<- Hr]];
        apply row_key_length.
      - rewrite Forall_forall in HwL. rewrite (HwL r Hr), length_app. lia.
      - rewrite Forall_forall in HwR. rewrite (HwR r Hr), length_app. lia. }
  unfold merge. apply mem_In in Hhow. rewrite Hhow, HsL. cbn [bind]. rewrite HsR. cbn [bind].
  rewrite (record_keys ls on lrest HvalL HcL). cbn [bind].
  unfold set_of at 1. fold sL. rewrite HhL'. cbn [bind].
  rewrite (record_keys rs on rrest HvalR HcR). cbn [bind].
  unfold set_of at 1. fold sR. rewrite HhR'. cbn [bind].
  rewrite (mapM_getitem_columns ls (proj1 HvalL)). cbn [bind].
  rewrite (mapM_getitem_columns rs (proj1 HvalR)). cbn [bind].
  fold (rows ls). fold (rows rs). fold sL. fold sR.
  rewrite HcL, HcR.
  rewrite (merge_rtn on lrest rrest Hout). cbn [bind].
  rewrite Hak. cbn [bind].
  assert (HwL' : Forall (fun r => (length on <= length r)%nat) sL).
  { apply Forall_forall. intros r Hr. rewrite Forall_forall in HwL.
    rewrite (HwL r Hr), length_app. lia. }
  assert (HwR' : Forall (fun r => (length on <= length r)%nat) sR).
  { apply Forall_forall. intros r Hr. rewrite Forall_forall in HwR.
    rewrite (HwR r Hr), length_app. lia. }
  assert (Hak_in : forall k, In k ak ->
                   In k (map (row_key on) sL ++ map (row_key on) sR))
    by (intros k Hk; apply (key_in_either how); apply Hkeys; exact Hk).
  assert (Hcmp' : forall a b,
             In a (map (row_key on) sL ++ map (row_key on) sR) ->
             In b (map (row_key on) sL ++ map (row_key on) sR) -> tuple_lt a b <> None).
  { intros a b Ha Hb. apply Hcmp.
    - apply in_app_or in Ha. apply in_or_app.
      destruct Ha as [Ha|Ha]; [left; apply HkL | right; apply HkR]; exact Ha.
    - apply in_app_or in Hb. apply in_or_app.
      destruct Hb as [Hb|Hb]; [left; apply HkL | right; apply HkR]; exact Hb. }
  rewrite (organise_sorted on how "left" _ sL ak sL Hstrict HsortedL (incl_refl _) HwL').
  2:{ intros r k Hr Hk. apply Hcmp'; [|apply Hak_in; exact Hk].
      apply in_or_app. left. apply in_map. exact Hr. }
  2:{ reflexivity. }
  cbn [bind].
  rewrite (organise_sorted on how "right" _ sR ak sR Hstrict HsortedR (incl_refl _) HwR').
  2:{ intros r k Hr Hk. apply Hcmp'; [|apply Hak_in; exact Hk].
      apply in_or_app. right. apply in_map. exact Hr. }
  2:{ reflexivity. }
  cbn [bind].
  reflexivity.
Qed.

(** What merge returns on a key list. *)
Lemma merge_spec (left right : Dataset) (on : list string) (how : string) :
  mergeableb left right on = true ->
  In how ["inner"; "left"; "right"; "full"]%string ->
  pad_fitsb how left right on = true ->
  exists ak,
    merge left right (Some on) how =
      Ok (merge_table on (rest_of left on) (rest_of right on)
            (sort_order left on) (sort_order right on) (merged on how left right ak)) /\
    StronglySorted key_lt ak /\
    (forall k, In k ak <-> key_in how (keys_of left on) (keys_of right on) k).
Proof.
  intros Hm Hhow Hpad.
  destruct (mergeableb_spec left right on Hm)
    as [HvL [HvR [Hon [HinL [HinR [_ [_ [Hout _]]]]]]]].
  destruct (merge_loop left right on how Hm Hhow)
    as [ak [sL [sR [Hmerge [Hs [Hk [HstL [HstR [HwL [HwR Hlen]]]]]]]]]].
  exists ak. split; [|split; assumption].
  rewrite Hmerge.
  rewrite (emit_keys_ok on (rest_of left on) (rest_of right on) [] _ _ ak
             (sort_order_nodup left on (proj1 HvL) Hon)
             (sort_order_nodup right on (proj1 HvR) Hon) Hout).
  - f_equal. cbn [app]. change (on ++ rest_of left on) with (sort_order left on).
    change (on ++ rest_of right on) with (sort_order right on).
    f_equal. unfold merged. apply flat_map_ext. intros k.
    rewrite (side_stable how "left" _ on sL _ k HstL).
    rewrite (side_stable how "right" _ on sR _ k HstR). reflexivity.
  - apply Forall_forall. intros k Hin. split; [|split].
    + rewrite Forall_forall in Hlen. apply Hlen. exact Hin.
    + unfold side.
      destruct (is_nil (filter (has_key (row_key on) k) sL)
                && negb (mem how ["left"; "inner"]%string)).
      * repeat constructor. unfold pad_row. rewrite repeat_length. apply Nat.le_refl.
      * apply Forall_forall. intros r Hr. apply filter_In in Hr.
        rewrite Forall_forall in HwL. rewrite (HwL r (proj1 Hr)). apply Nat.le_refl.
    + unfold side.
      destruct (is_nil (filter (has_key (row_key on) k) sR)
                && negb (mem how ["right"; "inner"]%string)) eqn:Eside.
      * repeat constructor. unfold pad_row. rewrite repeat_length.
        apply andb_true_iff in Eside. destruct Eside as [Enil Ehow].
        unfold pad_fitsb in Hpad. rewrite !orb_true_iff in Hpad.
        destruct Hpad as [[Hp|Hp]|Hp].
        -- exfalso. apply negb_true_iff in Ehow, Hp. apply mem_In in Hhow.
           simpl in Hhow, Ehow, Hp.
           destruct (String.eqb how "inner"), (String.eqb how "left"),
             (String.eqb how "right"), (String.eqb how "full"); simpl in *; congruence.
        -- apply Nat.leb_le in Hp.
           rewrite <- (sort_order_length left on (proj1 HvL) Hon HinL) in Hp.
           rewrite <- (sort_order_length right on (proj1 HvR) Hon HinR) in Hp.
           exact Hp.
        -- exfalso. rewrite forallb_forall in Hp.
           assert (HnotR : ~ In k (keys_of right on)).
           { intros HinR'. apply (filter_has_key_some on k) in HinR'.
             rewrite <- HstR in HinR'. apply is_nil_false in HinR'. congruence. }
           apply HnotR. apply Hk, key_in_either, in_app_or in Hin.
           destruct Hin as [H|H]; [|exact H].
           apply existsb_tuple_In. apply Hp. exact H.
      * apply Forall_forall. intros r Hr. apply filter_In in Hr.
        rewrite Forall_forall in HwR. rewrite (HwR r (proj1 Hr)). apply Nat.le_refl.
Qed.

(** ** merge: counting the emissions *)

Lemma emit_length (k : list value) (ls rs : list (list value)) :
  length (emit k ls rs) = (length ls * length rs)%nat.
Proof.
  unfold emit. induction ls as [|la ls IH]; simpl; [reflexivity|].
  rewrite length_app, length_map, IH. reflexivity.
Qed.

Lemma emitted_for_row (k k' la : list value) (rs : list (list value)) :
  emitted_for k (map (fun ra => (k', (la, ra))) rs) =
  if tuple_eqb k' k then map (fun ra => (k', (la, ra))) rs else [].
Proof.
  unfold emitted_for. induction rs as [|ra rs IHrs]; cbn [map filter fst].
  - destruct (tuple_eqb k' k); reflexivity.
  - rewrite IHrs. destruct (tuple_eqb k' k); reflexivity.
Qed.

Lemma emitted_for_emit (k k' : list value) (ls rs : list (list value)) :
  emitted_for k (emit k' ls rs) = if tuple_eqb k' k then emit k' ls rs else [].
Proof.
  unfold emit. induction ls as [|la ls IH]; cbn [flat_map].
  - unfold emitted_for. simpl. destruct (tuple_eqb k' k); reflexivity.
  - unfold emitted_for in *. rewrite filter_app, IH.
    fold (emitted_for k (map (fun ra => (k', (la, ra))) rs)).
    rewrite emitted_for_row. destruct (tuple_eqb k' k); reflexivity.
Qed.

Lemma emitted_for_flat_map (k : list value) (f : list value -> list emitted)
    (ak : list (list value)) :
  (forall k', emitted_for k (f k') = if tuple_eqb k' k then f k' else []) ->
  NoDup ak ->
  emitted_for k (flat_map f ak) = if existsb (tuple_eqb k) ak then f k else [].
Proof.
  intros Hf Hnd. induction ak as [|k' ak IH]; [reflexivity|].
  inversion Hnd as [|? ? Hk' Hnd']; subst.
  cbn [flat_map existsb]. unfold emitted_for in *. rewrite filter_app, Hf, (IH Hnd').
  rewrite (tuple_eqb_sym k k').
  destruct (tuple_eqb k' k) eqn:E; cbn [orb].
  - apply tuple_eqb_eq in E. subst k'.
    assert (Hn : existsb (tuple_eqb k) ak = false).
    { destruct (existsb (tuple_eqb k) ak) eqn:Ex; [|reflexivity].
      apply existsb_tuple_In in Ex. contradiction. }
    rewrite Hn. apply app_nil_r.
  - reflexivity.
Qed.

Lemma emitted_for_merged (on : list string) (how : string) (left right : Dataset)
    (ak : list (list value)) (k : list value) :
  NoDup ak ->
  emitted_for k (merged on how left right ak) =
  if existsb (tuple_eqb k) ak
  then emit k
         (side how "left" (pad_row left on) on (rows_in left (sort_order left on)) k)
         (side how "right" (pad_row left on) on (rows_in right (sort_order right on)) k)
  else [].
Proof.
  intros Hnd. unfold merged.
  apply (emitted_for_flat_map k
           (fun k => emit k
              (side how "left" (pad_row left on) on (rows_in left (sort_order left on)) k)
              (side how "right" (pad_row left on) on (rows_in right (sort_order right on)) k))).
  - intros k'. apply emitted_for_emit.
  - exact Hnd.
Qed.

Lemma merged_length (on : list string) (how : string) (left right : Dataset)
    (ak : list (list value)) :
  length (merged on how left right ak) =
  list_sum (map (fun k =>
                   length (side how "left" (pad_row left on) on
                             (rows_in left (sort_order left on)) k)
                   * length (side how "right" (pad_row left on) on
                               (rows_in right (sort_order right on)) k))%nat ak).
Proof.
  unfold merged. induction ak as [|k ak IH]; [reflexivity|].
  simpl. rewrite length_app, emit_length, IH. reflexivity.
Qed.

Lemma list_sum_incl {A : Type} (f g : A -> nat) (l1 l2 : list A) :
  NoDup l1 -> incl l1 l2 -> (forall x, In x l1 -> (f x <= g x)%nat) ->
  (list_sum (map f l1) <= list_sum (map g l2))%nat.
Proof.
  revert l2. induction l1 as [|a l1 IH]; intros l2 Hnd Hincl Hle; simpl; [lia|].
  inversion Hnd as [|? ? Ha Hnd']; subst.
  assert (Hin : In a l2) by (apply Hincl; left; reflexivity).
  apply in_split in Hin. destruct Hin as [x [y ->]].
  rewrite map_app, list_sum_app. simpl.
  assert (H : (list_sum (map f l1) <= list_sum (map g (x ++ y)))%nat).
  { apply IH; [exact Hnd' | | intros z Hz; apply Hle; right; exact Hz].
    intros z Hz. assert (Hz' : In z (x ++ a :: y)) by (apply Hincl; right; exact Hz).
    apply in_app_or in Hz'. apply in_or_app.
    destruct Hz' as [Hz'|[->|Hz']]; [left; exact Hz' | contradiction | right; exact Hz']. }
  rewrite map_app, list_sum_app in H.
  pose proof (Hle a (or_introl eq_refl)). lia.
Qed.

Lemma cell_in_nones (cs : list string) (n : nat) (c : string) :
  cell_in cs (repeat VNone n) c = VNone.
Proof.
  unfold cell_in, cell. revert n. induction cs as [|c0 cs IH]; intros n; [reflexivity|].
  destruct n as [|n]; [reflexivity|]. simpl.
  destruct (String.eqb c0 c); [reflexivity | apply IH].
Qed.

Lemma merge_table_record_length (on lrest rrest soL soR : list string) (E : list emitted) :
  on ++ lrest ++ rrest <> [] ->
  rectangular (merge_table on lrest rrest soL soR E) /\
  record_length (merge_table on lrest rrest soL soR E) = length E.
Proof.
  intros Hne.
  assert (Hshape : Forall (fun kv : string * list value => length (snd kv) = length E)
                          (merge_table on lrest rrest soL soR E)).
  { unfold merge_table. rewrite !Forall_app. repeat split;
      apply Forall_forall; intros kv Hkv; apply in_map_iff in Hkv;
      destruct Hkv as [x [<- _]]; simpl; apply length_map. }
  split; [exists (length E); exact Hshape|].
  rewrite record_length_height by (exists (length E); exact Hshape).
  destruct (merge_table on lrest rrest soL soR E) as [|[c v] rest] eqn:Et.
  - exfalso. apply Hne. unfold merge_table in Et.
    apply app_eq_nil in Et. destruct Et as [E1 Et].
    apply app_eq_nil in Et. destruct Et as [E2 E3].
    apply map_eq_nil in E1, E2, E3. subst. reflexivity.
  - inversion Hshape; subst. simpl in *. assumption.
Qed.

Lemma side_filter (how which : string) (pad : list value) (on : list string)
    (inp : list (list value)) (k : list value) :
  mem how [which; "inner"%string] = true ->
  side how which pad on inp k = filter (has_key (row_key on) k) inp.
Proof. intros H. unfold side. rewrite H, andb_false_r. reflexivity. Qed.

Lemma side_real (how which : string) (pad : list value) (on : list string)
    (inp : list (list value)) (k : list value) :
  filter (has_key (row_key on) k) inp <> [] ->
  side how which pad on inp k = filter (has_key (row_key on) k) inp.
Proof. intros H. unfold side. rewrite (is_nil_false _ H). reflexivity. Qed.

Lemma side_pad (how which : string) (pad : list value) (on : list string)
    (inp : list (list value)) (k : list value) :
  mem how [which; "inner"%string] = false ->
  filter (has_key (row_key on) k) inp = [] ->
  side how which pad on inp k = [pad].
Proof. intros H E. unfold side. rewrite E, H. reflexivity. Qed.

Lemma side_nonempty (how which : string) (pad : list value) (on : list string)
    (inp : list (list value)) (k : list value) :
  mem how [which; "inner"%string] = false -> side how which pad on inp k <> [].
Proof.
  intros H. unfold side. rewrite H.
  destruct (filter (has_key (row_key on) k) inp) eqn:E; simpl; discriminate.
Qed.

Lemma side_le_full (how which : string) (pad : list value) (on : list string)
    (inp : list (list value)) (k : list value) :
  mem "full"%string [which; "inner"%string] = false ->
  (length (side how which pad on inp k) <= length (side "full" which pad on inp k))%nat.
Proof.
  intros H. unfold side. rewrite H.
  destruct (negb (mem how [which; "inner"%string]));
    destruct (filter (has_key (row_key on) k) inp); simpl; lia.
Qed.

Lemma in_emit (k la ra : list value) (ls rs : list (list value)) :
  In la ls -> In ra rs -> In (k, (la, ra)) (emit k ls rs).
Proof.
  intros Hla Hra. unfold emit. apply in_flat_map. exists la. split; [exact Hla|].
  apply in_map_iff. exists ra. split; [reflexivity | exact Hra].
Qed.

Lemma key_count_zero (on : list string) (k : list value) (inp : list (list value)) :
  ~ In k (map (row_key on) inp) -> key_count on k inp = 0%nat.
Proof. intros H. unfold key_count. rewrite filter_has_key_none by exact H. reflexivity. Qed.

Lemma key_in_full (how : string) (lk rk : list (list value)) (k : list value) :
  key_in how lk rk k -> key_in "full" lk rk k.
Proof.
  intros H. apply key_in_either in H. apply in_app_or in H. exact H.
Qed.

(** The emissions of an inner merge. *)
Lemma merge_inner_counts (left right : Dataset) (on : list string) :
  mergeableb left right on = true ->
  exists Ei,
    merge left right (Some on) "inner" =
      Ok (merge_table on (rest_of left on) (rest_of right on)
            (sort_order left on) (sort_order right on) Ei) /\
    forall k, length (emitted_for k Ei) =
              (key_count on k (rows_in left (sort_order left on))
               * key_count on k (rows_in right (sort_order right on)))%nat.
Proof.
  intros Hm.
  destruct (merge_spec left right on "inner" Hm) as [ak [Hmerge [Hs Hkeys]]].
  - apply mem_In. reflexivity.
  - reflexivity.
  - exists (merged on "inner" left right ak). split; [exact Hmerge|].
    intros k. rewrite (emitted_for_merged on "inner" left right ak k
                         (key_lt_sorted_NoDup ak Hs)).
    destruct (existsb (tuple_eqb k) ak) eqn:E.
    + rewrite emit_length, !side_filter by reflexivity. reflexivity.
    + assert (Hnot : ~ In k ak).
      { intros Hin. apply existsb_tuple_In in Hin. congruence. }
      rewrite Hkeys in Hnot. unfold key_in in Hnot. simpl in Hnot.
      destruct (in_dec tuple_eq_dec k (keys_of left on)) as [HL|HL].
      * rewrite (key_count_zero on k (rows_in right (sort_order right on))); [simpl; lia|].
        intros HR. apply Hnot. split; [exact HL | exact HR].
      * rewrite (key_count_zero on k (rows_in left (sort_order left on)) HL). reflexivity.
Qed.

Lemma merge_columns_nonempty (left : Dataset) (on : list string) (rrest : list string) :
  (0 < height left)%nat -> on ++ rest_of left on ++ rrest <> [].
Proof.
  intros Hpos E. rewrite app_assoc in E. apply app_eq_nil in E. destruct E as [E _].
  assert (Hne : left <> []) by (intros ->; simpl in Hpos; lia).
  exact (sort_order_nonempty left on Hne E).
Qed.

(** The number of rows of a merge result, by key. *)
Lemma merge_row_count (left right : Dataset) (on : list string) (how : string)
    (ak : list (list value)) :
  (0 < height left)%nat ->
  record_length (merge_table on (rest_of left on) (rest_of right on)
                   (sort_order left on) (sort_order right on)
                   (merged on how left right ak))
  = list_sum (map (fun k =>
                     length (side how "left" (pad_row left on) on
                               (rows_in left (sort_order left on)) k)
                     * length (side how "right" (pad_row left on) on
                                 (rows_in right (sort_order right on)) k))%nat ak).
Proof.
  intros Hpos.
  rewrite (proj2 (merge_table_record_length on (rest_of left on) (rest_of right on)
                    (sort_order left on) (sort_order right on) (merged on how left right ak)
                    (merge_columns_nonempty left on (rest_of right on) Hpos))).
  apply merged_length.
Qed.

(** A full merge has at least as many rows as a merge of any other mode. *)
Lemma merge_full_largest (left right : Dataset) (on : list string) (how : string)
    (ak akf : list (list value)) :
  (0 < height left)%nat ->
  StronglySorted key_lt ak ->
  (forall k, In k ak <-> key_in how (keys_of left on) (keys_of right on) k) ->
  (forall k, In k akf <-> key_in "full" (keys_of left on) (keys_of right on) k) ->
  (record_length (merge_table on (rest_of left on) (rest_of right on)
                    (sort_order left on) (sort_order right on)
                    (merged on how left right ak))
   <= record_length (merge_table on (rest_of left on) (rest_of right on)
                       (sort_order left on) (sort_order right on)
                       (merged on "full" left right akf)))%nat.
Proof.
  intros Hpos Hs Hk Hkf. rewrite !merge_row_count by exact Hpos.
  apply list_sum_incl.
  - apply key_lt_sorted_NoDup. exact Hs.
  - intros k Hin. apply Hkf. apply (key_in_full how). apply Hk. exact Hin.
  - intros k _. apply Nat.mul_le_mono; apply side_le_full; reflexivity.
Qed.

(** A left merge emits every left row, with its own key. *)
Lemma merge_left_keeps_rows (left right : Dataset) (on : list string)
    (ak : list (list value)) (la : list value) :
  (forall k, In k ak <-> key_in "left" (keys_of left on) (keys_of right on) k) ->
  In la (rows_in left (sort_order left on)) ->
  exists ra, In (row_key on la, (la, ra)) (merged on "left" left right ak).
Proof.
  intros Hk Hla.
  set (k := row_key on la).
  assert (Hin : In k ak).
  { apply Hk. unfold key_in. simpl. unfold keys_of. apply in_map. exact Hla. }
  destruct (side "left" "right" (pad_row left on) on
              (rows_in right (sort_order right on)) k) as [|ra rs] eqn:Er.
  - exfalso. revert Er. apply side_nonempty. reflexivity.
  - exists ra. unfold merged. apply in_flat_map. exists k. split; [exact Hin|].
    apply in_emit.
    + rewrite side_filter by reflexivity. apply filter_In. split; [exact Hla|].
      unfold has_key. apply tuple_eqb_refl.
    + rewrite Er. left. reflexivity.
Qed.

(** C3: on two tables with a row each, keys Python can order and hash and no
    column shared outside the keys, an inner merge emits for every key as
    many rows as the product of the numbers of left and right rows that
    carry it.  When the pseudo-row fits, the four modes return tables, the
    left merge emits every left row, and the full merge has at least as many
    rows as each of the others.  The pseudo-row has the width of the left
    table for both sides: on a wider right table with an unmatched left key
    the left merge raises [IndexError], the last conjunct. *)
Theorem merge_multiplicity (left right : Dataset) (on : list string) :
  mergeableb left right on = true ->
  (exists Ei,
     merge left right (Some on) "inner" =
       Ok (merge_table on (rest_of left on) (rest_of right on)
             (sort_order left on) (sort_order right on) Ei) /\
     forall k, length (emitted_for k Ei) =
               (key_count on k (rows_in left (sort_order left on))
                * key_count on k (rows_in right (sort_order right on)))%nat) /\
  (pad_fitsb "left" left right on = true ->
   exists ti tl tr tf El,
     merge left right (Some on) "inner" = Ok ti /\
     merge left right (Some on) "left" = Ok tl /\
     merge left right (Some on) "right" = Ok tr /\
     merge left right (Some on) "full" = Ok tf /\
     tl = merge_table on (rest_of left on) (rest_of right on)
            (sort_order left on) (sort_order right on) El /\
     (forall la, In la (rows_in left (sort_order left on)) ->
                 exists ra, In (row_key on la, (la, ra)) El) /\
     (Nat.max (record_length ti) (Nat.max (record_length tl) (record_length tr))
      <= record_length tf)%nat) /\
  merge [("id", [VInt 1]); ("v", [VInt 10])]%string
        [("id", [VInt 2]); ("w", [VInt 20]); ("z", [VInt 30])]%string
        (Some ["id"%string]) "left" = Err IndexError.
Proof.
  intros Hm. split; [apply merge_inner_counts; exact Hm|]. split; [|reflexivity].
  intros Hpad.
  destruct (mergeableb_spec left right on Hm) as [_ [_ [_ [_ [_ [Hpos _]]]]]].
  destruct (merge_spec left right on "inner" Hm) as [aki [Hi [Hsi Hki]]];
    [apply mem_In; reflexivity | reflexivity |].
  destruct (merge_spec left right on "left" Hm) as [akl [Hl [Hsl Hkl]]];
    [apply mem_In; reflexivity | exact Hpad |].
  destruct (merge_spec left right on "right" Hm) as [akr [Hr [Hsr Hkr]]];
    [apply mem_In; reflexivity | reflexivity |].
  destruct (merge_spec left right on "full" Hm) as [akf [Hf [Hsf Hkf]]];
    [apply mem_In; reflexivity | exact Hpad |].
  eexists _, _, _, _, (merged on "left" left right akl).
  split; [exact Hi|]. split; [exact Hl|]. split; [exact Hr|]. split; [exact Hf|].
  split; [reflexivity|]. split.
  - intros la Hla. apply (merge_left_keeps_rows left right on akl la Hkl Hla).
  - pose proof (merge_full_largest left right on "inner" aki akf Hpos Hsi Hki Hkf).
    pose proof (merge_full_largest left right on "left" akl akf Hpos Hsl Hkl Hkf).
    pose proof (merge_full_largest left right on "right" akr akf Hpos Hsr Hkr Hkf).
    lia.
Qed.

Lemma emit_single_right (k p : list value) (ls : list (list value)) :
  emit k ls [p] = map (fun la => (k, (la, p))) ls.
Proof.
  unfold emit. induction ls as [|la ls IH]; simpl; [reflexivity|].
  rewrite <- IH. reflexivity.
Qed.

(** The emissions of a key that one side lacks. *)
Lemma merge_unmatched (left right : Dataset) (on : list string) (how : string)
    (ak : list (list value)) (k : list value) :
  StronglySorted key_lt ak -> In k ak ->
  (mem how ["left"; "inner"]%string = false ->
   ~ In k (keys_of left on) ->
   emitted_for k (merged on how left right ak) =
   map (fun ra => (k, (pad_row left on, ra)))
       (side how "right" (pad_row left on) on (rows_in right (sort_order right on)) k)) /\
  (mem how ["right"; "inner"]%string = false ->
   ~ In k (keys_of right on) ->
   emitted_for k (merged on how left right ak) =
   map (fun la => (k, (la, pad_row left on)))
       (side how "left" (pad_row left on) on (rows_in left (sort_order left on)) k)).
Proof.
  intros Hs Hin.
  assert (Hex : existsb (tuple_eqb k) ak = true) by (apply existsb_tuple_In; exact Hin).
  split; intros Hhow Hnot;
    rewrite (emitted_for_merged on how left right ak k (key_lt_sorted_NoDup ak Hs)), Hex.
  - rewrite (side_pad how "left" _ on _ k Hhow (filter_has_key_none on k _ Hnot)).
    unfold emit. simpl. apply app_nil_r.
  - rewrite (side_pad how "right" _ on _ k Hhow (filter_has_key_none on k _ Hnot)).
    apply emit_single_right.
Qed.

(** ** merge: the pseudo-row on a wider right table *)

(** A loop whose steps keep an invariant, or fail with [e]. *)
Lemma foldM_invariant {S A : Type} (F : S -> A -> result S) (Inv : S -> Prop)
    (e : error) (l : list A) (s : S) :
  (forall s' x, In x l -> Inv s' ->
                (exists s'', F s' x = Ok s'' /\ Inv s'') \/ F s' x = Err e) ->
  Inv s ->
  (exists s', foldM F l s = Ok s' /\ Inv s') \/ foldM F l s = Err e.
Proof.
  revert s. induction l as [|x l IH]; intros s Hstep Hs.
  - left. exists s. split; [reflexivity | exact Hs].
  - cbn [foldM]. destruct (Hstep s x (or_introl eq_refl) Hs) as [[s1 [E1 H1]]|E1];
      rewrite E1; cbn [bind]; [|right; reflexivity].
    apply IH; [|exact H1]. intros s' y Hy. apply Hstep. right. exact Hy.
Qed.

(** Such a loop fails when one of its steps fails in every state. *)
Lemma foldM_fails {S A : Type} (F : S -> A -> result S) (Inv : S -> Prop)
    (e : error) (l : list A) (s : S) :
  (forall s' x, In x l -> Inv s' ->
                (exists s'', F s' x = Ok s'' /\ Inv s'') \/ F s' x = Err e) ->
  (exists x, In x l /\ forall s', Inv s' -> F s' x = Err e) ->
  Inv s ->
  foldM F l s = Err e.
Proof.
  revert s. induction l as [|x l IH]; intros s Hstep [y [Hy Hfail]] Hs; [contradiction|].
  cbn [foldM]. destruct (Hstep s x (or_introl eq_refl) Hs) as [[s1 [E1 H1]]|E1];
    rewrite E1; cbn [bind]; [|reflexivity].
  destruct Hy as [->|Hy].
  - rewrite (Hfail s Hs) in E1. discriminate E1.
  - apply IH; [|exists y; split; assumption|exact H1].
    intros s' z Hz. apply Hstep. right. exact Hz.
Qed.

Lemma enumerate_In {A : Type} (l : list A) (i : nat) (x : A) :
  nth_error l i = Some x -> In (i, x) (enumerate l).
Proof.
  unfold enumerate.
  assert (H : forall n, nth_error l i = Some x ->
                        In ((n + i)%nat, x) (combine (seq n (length l)) l)).
  { revert i. induction l as [|y l IH]; intros i n Hnth; [destruct i; discriminate|].
    destruct i as [|i]; cbn [nth_error] in Hnth.
    - inversion Hnth; subst. rewrite Nat.add_0_r. left. reflexivity.
    - right. replace (n + S i)%nat with (S n + i)%nat by lia. apply IH. exact Hnth. }
  intros Hnth. apply (H 0%nat Hnth).
Qed.

Section MergeFailure.
Variables (on lrest rrest : list string).
Hypothesis HsoR : NoDup (on ++ rrest).

Local Abbreviation K := (on ++ lrest ++ rrest).

(** Appending a cell to a column of the table keeps its columns. *)
Lemma col_append_keys (r : Dataset) (c : string) (v : value) :
  dict_keys r = K -> In c K ->
  exists r', col_append r c v = Ok r' /\ dict_keys r' = K.
Proof.
  intros Hr Hc. unfold col_append.
  rewrite getitem_col by (unfold columns; rewrite Hr; exact Hc). cbn [bind].
  eexists. split; [reflexivity|].
  rewrite dict_set_keys_old; [exact Hr | rewrite Hr; exact Hc].
Qed.

(** One of the three loops of [emit_row]: a step reads a cell of [row] and
    appends it, and fails only on an index outside [row]. *)
Lemma emit_cells_step (cs : list string) (row : list value) (skip : bool)
    (r : Dataset) (ic : nat * string) :
  incl cs K -> In ic (enumerate cs) -> dict_keys r = K ->
  (exists r', (if skip && mem (snd ic) on then Ok r
               else v <- index row (fst ic) ;; col_append r (snd ic) v) = Ok r' /\
              dict_keys r' = K) \/
  (if skip && mem (snd ic) on then Ok r
   else v <- index row (fst ic) ;; col_append r (snd ic) v) = Err IndexError.
Proof.
  intros Hcs Hic Hr.
  destruct (skip && mem (snd ic) on); [left; exists r; split; [reflexivity | exact Hr]|].
  unfold index. destruct (nth_error row (fst ic)) as [v|]; cbn [bind]; [|right; reflexivity].
  left. apply col_append_keys; [exact Hr|].
  apply Hcs. rewrite <- (enumerate_snd cs). apply in_map. exact Hic.
Qed.

(** A pass of the innermost loop keeps the columns of the table, or fails
    on an index. *)
Lemma emit_row_keys (k la ra : list value) (r : Dataset) :
  dict_keys r = K ->
  (exists r', emit_row on (on ++ lrest) (on ++ rrest) k la ra r = Ok r' /\
              dict_keys r' = K) \/
  emit_row on (on ++ lrest) (on ++ rrest) k la ra r = Err IndexError.
Proof.
  intros Hr. unfold emit_row.
  destruct (foldM_invariant
              (fun r ic => v <- index k (fst ic) ;; col_append r (snd ic) v)
              (fun r => dict_keys r = K) IndexError (enumerate on) r)
    as [[r1 [E1 H1]]|E1]; [|exact Hr| |rewrite E1; right; reflexivity].
  { intros s' ic Hic Hs'. apply (emit_cells_step on k false s' ic); [|exact Hic|exact Hs'].
    intros c Hc. apply in_or_app. left. exact Hc. }
  rewrite E1. cbn [bind].
  destruct (foldM_invariant
              (fun r ic => if mem (snd ic) on then Ok r
                           else v <- index la (fst ic) ;; col_append r (snd ic) v)
              (fun r => dict_keys r = K) IndexError (enumerate (on ++ lrest)) r1)
    as [[r2 [E2 H2]]|E2]; [|exact H1| |rewrite E2; right; reflexivity].
  { intros s' ic Hic Hs'.
    apply (emit_cells_step (on ++ lrest) la true s' ic); [|exact Hic|exact Hs'].
    intros c Hc. rewrite app_assoc. apply in_or_app. left. exact Hc. }
  rewrite E2. cbn [bind].
  apply foldM_invariant; [|exact H2].
  intros s' ic Hic Hs'.
  apply (emit_cells_step (on ++ rrest) ra true s' ic); [|exact Hic|exact Hs'].
  intros c Hc. apply in_app_or in Hc. apply in_or_app.
  destruct Hc as [Hc|Hc]; [left; exact Hc|right; apply in_or_app; right; exact Hc].
Qed.

(** A right row too short for the right columns makes the pass fail. *)
Lemma emit_row_short (k la ra : list value) (r : Dataset) :
  dict_keys r = K ->
  (length on <= length ra < length (on ++ rrest))%nat ->
  emit_row on (on ++ lrest) (on ++ rrest) k la ra r = Err IndexError.
Proof.
  intros Hr [Hlo Hhi]. unfold emit_row.
  destruct (foldM_invariant
              (fun r ic => v <- index k (fst ic) ;; col_append r (snd ic) v)
              (fun r => dict_keys r = K) IndexError (enumerate on) r)
    as [[r1 [E1 H1]]|E1]; [|exact Hr| |rewrite E1; reflexivity].
  { intros s' ic Hic Hs'. apply (emit_cells_step on k false s' ic); [|exact Hic|exact Hs'].
    intros c Hc. apply in_or_app. left. exact Hc. }
  rewrite E1. cbn [bind].
  destruct (foldM_invariant
              (fun r ic => if mem (snd ic) on then Ok r
                           else v <- index la (fst ic) ;; col_append r (snd ic) v)
              (fun r => dict_keys r = K) IndexError (enumerate (on ++ lrest)) r1)
    as [[r2 [E2 H2]]|E2]; [|exact H1| |rewrite E2; reflexivity].
  { intros s' ic Hic Hs'.
    apply (emit_cells_step (on ++ lrest) la true s' ic); [|exact Hic|exact Hs'].
    intros c Hc. rewrite app_assoc. apply in_or_app. left. exact Hc. }
  rewrite E2. cbn [bind].
  apply (foldM_fails _ (fun r => dict_keys r = K)); [| |exact H2].
  - intros s' ic Hic Hs'.
    apply (emit_cells_step (on ++ rrest) ra true s' ic); [|exact Hic|exact Hs'].
    intros c Hc. apply in_app_or in Hc. apply in_or_app.
    destruct Hc as [Hc|Hc]; [left; exact Hc|right; apply in_or_app; right; exact Hc].
  - destruct (nth_error (on ++ rrest) (length ra)) as [c|] eqn:Ec;
      [|apply nth_error_None in Ec; lia].
    exists (length ra, c). split; [apply enumerate_In; exact Ec|].
    intros s' _. cbn [fst snd].
    assert (Hc : mem c on = false).
    { apply mem_false. intros Hin.
      rewrite nth_error_app2 in Ec by exact Hlo.
      apply nth_error_In in Ec.
      pose proof HsoR as Hnd. apply in_split in Hin. destruct Hin as [l1 [l2 Hl]].
      rewrite Hl, <- app_assoc in Hnd. apply NoDup_remove_2 in Hnd.
      apply Hnd. rewrite app_assoc. apply in_or_app. right. exact Ec. }
    rewrite Hc. unfold index.
    rewrite (proj2 (nth_error_None ra (length ra)) (Nat.le_refl _)). reflexivity.
Qed.

(** The loops of one key keep the columns of the table, or fail on an
    index. *)
Lemma emit_key_keys (r : Dataset)
    (klr : list value * (list (list value) * list (list value))) :
  dict_keys r = K ->
  (exists r', emit_key on (on ++ lrest) (on ++ rrest) r klr = Ok r' /\
              dict_keys r' = K) \/
  emit_key on (on ++ lrest) (on ++ rrest) r klr = Err IndexError.
Proof.
  intros Hr. unfold emit_key. apply foldM_invariant; [|exact Hr].
  intros s' la _ Hs'. apply foldM_invariant; [|exact Hs'].
  intros s'' ra _ Hs''. apply emit_row_keys. exact Hs''.
Qed.

(** A key with a left row and a right row that is too short fails. *)
Lemma emit_key_short (r : Dataset) (k : list value) (ls rs : list (list value)) :
  dict_keys r = K -> ls <> [] ->
  (exists ra, In ra rs /\ (length on <= length ra < length (on ++ rrest))%nat) ->
  emit_key on (on ++ lrest) (on ++ rrest) r (k, (ls, rs)) = Err IndexError.
Proof.
  intros Hr Hls [ra [Hra Hshort]]. unfold emit_key. cbn [fst snd].
  destruct ls as [|la ls]; [congruence|].
  apply (foldM_fails _ (fun r => dict_keys r = K)); [| |exact Hr].
  - intros s' la' _ Hs'. apply foldM_invariant; [|exact Hs'].
    intros s'' ra' _ Hs''. apply emit_row_keys. exact Hs''.
  - exists la. split; [left; reflexivity|]. intros s' Hs'.
    apply (foldM_fails _ (fun r => dict_keys r = K)); [| |exact Hs'].
    + intros s'' ra' _ Hs''. apply emit_row_keys. exact Hs''.
    + exists ra. split; [exact Hra|]. intros s'' Hs''.
      apply emit_row_short; assumption.
Qed.
End MergeFailure.

Lemma combine_map_In {A B C : Type} (f : A -> B) (g : A -> C) (l : list A) (x : A) :
  In x l -> In (x, (f x, g x)) (combine l (combine (map f l) (map g l))).
Proof.
  induction l as [|y l IH]; intros Hin; [contradiction|].
  destruct Hin as [->|Hin]; [left; reflexivity | right; apply IH; exact Hin].
Qed.

(** The pseudo-row has the width of the left table.  When the right table
    is wider and a left key has no right match, a left merge and a full
    merge read the pseudo-row at the position of a right column it does not
    have. *)
Lemma merge_pad_short (left right : Dataset) (on : list string) (how : string) :
  mergeableb left right on = true ->
  In how ["left"; "full"]%string ->
  pad_fitsb how left right on = false ->
  merge left right (Some on) how = Err IndexError.
Proof.
  intros Hm Hhow Hpad.
  destruct (mergeableb_spec left right on Hm)
    as [HvL [HvR [Hon [HinL [HinR [HposL [HposR [Hout [Hcmp Hhash]]]]]]]]].
  assert (Hhow4 : In how ["inner"; "left"; "right"; "full"]%string)
    by (destruct Hhow as [<-|[<-|[]]]; apply mem_In; reflexivity).
  assert (HhowR : mem how ["right"; "inner"]%string = false)
    by (destruct Hhow as [<-|[<-|[]]]; reflexivity).
  destruct (merge_loop left right on how Hm Hhow4)
    as [ak [sL [sR [Hmerge [Hs [Hk [HstL [HstR [HwL [HwR Hlen]]]]]]]]]].
  rewrite Hmerge.
  unfold pad_fitsb in Hpad. rewrite !orb_false_iff in Hpad.
  destruct Hpad as [[_ Hwide] Hkeys]. apply Nat.leb_gt in Hwide.
  rewrite <- (sort_order_length left on (proj1 HvL) Hon HinL) in Hwide.
  rewrite <- (sort_order_length right on (proj1 HvR) Hon HinR) in Hwide.
  assert (Hk0 : exists k0, In k0 (keys_of left on) /\ ~ In k0 (keys_of right on)).
  { revert Hkeys. generalize (keys_of left on) as lk.
    induction lk as [|k lk IH]; cbn [forallb]; intros H; [discriminate H|].
    apply andb_false_iff in H. destruct H as [H|H].
    - exists k. split; [left; reflexivity|]. intros Hin.
      apply existsb_tuple_In in Hin. congruence.
    - destruct (IH H) as [k0 [H1 H2]]. exists k0. split; [right; exact H1 | exact H2]. }
  destruct Hk0 as [k0 [HL HR]].
  apply (foldM_fails _ (fun r => dict_keys r = on ++ rest_of left on ++ rest_of right on)).
  - intros s' klr _ Hs'. apply emit_key_keys. exact Hs'.
  - exists (k0, (side how "left" (pad_row left on) on sL k0,
                 side how "right" (pad_row left on) on sR k0)).
    split.
    + apply combine_map_In. apply Hk. unfold key_in.
      destruct Hhow as [<-|[<-|[]]]; cbn; [exact HL | left; exact HL].
    + intros s' Hs'. apply emit_key_short.
      * apply (sort_order_nodup right on (proj1 HvR) Hon).
      * exact Hs'.
      * rewrite side_real; rewrite HstL; apply filter_has_key_some; exact HL.
      * exists (pad_row left on). split.
        -- rewrite side_pad; [left; reflexivity | exact HhowR |].
           rewrite HstR. apply filter_has_key_none. exact HR.
        -- unfold pad_row. rewrite repeat_length.
           unfold sort_order in *. rewrite length_app in *.
           fold (rest_of left on) in *. fold (rest_of right on) in *. lia.
  - apply merge_table_keys.
Qed.

(** C2: on two tables with a row each, keys Python can order and hash and no
    column shared outside the keys, when the pseudo-row fits, a left merge
    emits, for a left key without a right match, one output row per left row
    that carries the key, exactly one when one left row carries it, each
    made of that left row and the pseudo-row; a right merge does the same
    with the sides exchanged, and a full merge does both.  Every cell read
    from the pseudo-row is null.  The pseudo-row has the width of the left
    table for both sides: when it does not fit, that is on a wider right
    table with a left key that has no right match, the left merge and the
    full merge raise [IndexError] instead of padding; the last conjunct is
    one such input, a single left row against a single right row. *)
Theorem merge_null_padding (left right : Dataset) (on : list string) (k : list value) :
  mergeableb left right on = true ->
  (pad_fitsb "left" left right on = true ->
   In k (keys_of left on) -> ~ In k (keys_of right on) ->
   exists E,
     merge left right (Some on) "left" =
       Ok (merge_table on (rest_of left on) (rest_of right on)
             (sort_order left on) (sort_order right on) E) /\
     emitted_for k E =
       map (fun la => (k, (la, pad_row left on)))
           (filter (has_key (row_key on) k) (rows_in left (sort_order left on))) /\
     length (emitted_for k E) = key_count on k (rows_in left (sort_order left on))) /\
  (In k (keys_of right on) -> ~ In k (keys_of left on) ->
   exists E,
     merge left right (Some on) "right" =
       Ok (merge_table on (rest_of left on) (rest_of right on)
             (sort_order left on) (sort_order right on) E) /\
     emitted_for k E =
       map (fun ra => (k, (pad_row left on, ra)))
           (filter (has_key (row_key on) k) (rows_in right (sort_order right on)))) /\
  (pad_fitsb "full" left right on = true ->
   exists E,
     merge left right (Some on) "full" =
       Ok (merge_table on (rest_of left on) (rest_of right on)
             (sort_order left on) (sort_order right on) E) /\
     (In k (keys_of left on) -> ~ In k (keys_of right on) ->
      emitted_for k E =
        map (fun la => (k, (la, pad_row left on)))
            (filter (has_key (row_key on) k) (rows_in left (sort_order left on)))) /\
     (In k (keys_of right on) -> ~ In k (keys_of left on) ->
      emitted_for k E =
        map (fun ra => (k, (pad_row left on, ra)))
            (filter (has_key (row_key on) k) (rows_in right (sort_order right on))))) /\
  (forall cs c, cell_in cs (pad_row left on) c = VNone) /\
  (pad_fitsb "left" left right on = false ->
   merge left right (Some on) "left" = Err IndexError /\
   merge left right (Some on) "full" = Err IndexError) /\
  (let l := [("id", [VInt 1]); ("v", [VInt 10])]%string in
   let r := [("id", [VInt 2]); ("w", [VInt 20]); ("z", [VInt 30])]%string in
   keys_of l ["id"%string] = [[VInt 1]] /\ keys_of r ["id"%string] = [[VInt 2]] /\
   merge l r (Some ["id"%string]) "left" = Err IndexError /\
   merge l r (Some ["id"%string]) "full" = Err IndexError).
Proof.
  intros Hm. split; [|split; [|split; [|split; [|split]]]].
  - intros Hpad HL HR.
    destruct (merge_spec left right on "left" Hm) as [ak [Hmerge [Hs Hk]]];
      [apply mem_In; reflexivity | exact Hpad |].
    exists (merged on "left" left right ak). split; [exact Hmerge|].
    assert (Hin : In k ak) by (apply Hk; exact HL).
    rewrite (proj2 (merge_unmatched left right on "left" ak k Hs Hin) eq_refl HR).
    rewrite side_filter by reflexivity.
    split; [reflexivity | apply length_map].
  - intros HR HL.
    destruct (merge_spec left right on "right" Hm) as [ak [Hmerge [Hs Hk]]];
      [apply mem_In; reflexivity | reflexivity |].
    exists (merged on "right" left right ak). split; [exact Hmerge|].
    assert (Hin : In k ak) by (apply Hk; exact HR).
    rewrite (proj1 (merge_unmatched left right on "right" ak k Hs Hin) eq_refl HL).
    rewrite side_filter by reflexivity. reflexivity.
  - intros Hpad.
    destruct (merge_spec left right on "full" Hm) as [ak [Hmerge [Hs Hk]]];
      [apply mem_In; reflexivity | exact Hpad |].
    exists (merged on "full" left right ak). split; [exact Hmerge|]. split.
    + intros HL HR.
      assert (Hin : In k ak) by (apply Hk; left; exact HL).
      rewrite (proj2 (merge_unmatched left right on "full" ak k Hs Hin) eq_refl HR).
      rewrite side_real by (apply filter_has_key_some; exact HL). reflexivity.
    + intros HR HL.
      assert (Hin : In k ak) by (apply Hk; right; exact HR).
      rewrite (proj1 (merge_unmatched left right on "full" ak k Hs Hin) eq_refl HL).
      rewrite side_real by (apply filter_has_key_some; exact HR). reflexivity.
  - intros cs c. apply cell_in_nones.
  - intros Hpad. split.
    + apply (merge_pad_short left right on "left" Hm); [|exact Hpad].
      left. reflexivity.
    + apply (merge_pad_short left right on "full" Hm); [|exact Hpad].
      right. left. reflexivity.
  - repeat split; reflexivity.
Qed.

(** A left key without a right match that two left rows carry: the left
    merge has two output rows for it, one per left row. *)
Lemma merge_left_duplicate_key :
  let l := [("id", [VInt 1; VInt 1]); ("v", [VInt 10; VInt 11])]%string in
  let r := [("id", [VInt 2]); ("w", [VInt 20])]%string in
  keys_of l ["id"%string] = [[VInt 1]; [VInt 1]] /\
  keys_of r ["id"%string] = [[VInt 2]] /\
  merge l r (Some ["id"%string]) "left" =
    Ok [("id", [VInt 1; VInt 1]); ("v", [VInt 10; VInt 11]);
        ("w", [VNone; VNone])]%string.
Proof. repeat split; reflexivity. Qed.

Lemma group_by_grouping_cols_witness :
  group_by people ["id"; "zz"]%string None None = Err AssertionError /\
  group_by people [] None (Some "n"%string) =
    Ok (group_table [] (columns people) (Some "n"%string) (columns people)
          [([], rows people)]).
Proof.
  split.
  - apply (proj1 (group_by_grouping_cols people ["id"; "zz"]%string None None)).
    exists "zz"%string. split; [right; left; reflexivity|].
    intros H. apply mem_In in H. discriminate H.
  - apply (proj2 (group_by_grouping_cols people [] None (Some "n"%string))).
    + apply validb_valid. reflexivity.
    + apply Nat.ltb_lt. reflexivity.
    + apply nodupb_NoDup. reflexivity.
Defined.

Lemma merge_multiplicity_witness :
  (exists Ei,
     merge orders prices (Some ["id"%string]) "inner" =
       Ok (merge_table ["id"%string] (rest_of orders ["id"%string])
             (rest_of prices ["id"%string])
             (sort_order orders ["id"%string]) (sort_order prices ["id"%string]) Ei) /\
     forall k, length (emitted_for k Ei) =
               (key_count ["id"%string] k (rows_in orders (sort_order orders ["id"%string]))
                * key_count ["id"%string] k
                    (rows_in prices (sort_order prices ["id"%string])))%nat) /\
  (exists ti tl tr tf El,
     merge orders prices (Some ["id"%string]) "inner" = Ok ti /\
     merge orders prices (Some ["id"%string]) "left" = Ok tl /\
     merge orders prices (Some ["id"%string]) "right" = Ok tr /\
     merge orders prices (Some ["id"%string]) "full" = Ok tf /\
     tl = merge_table ["id"%string] (rest_of orders ["id"%string])
            (rest_of prices ["id"%string])
            (sort_order orders ["id"%string]) (sort_order prices ["id"%string]) El /\
     (forall la, In la (rows_in orders (sort_order orders ["id"%string])) ->
                 exists ra, In (row_key ["id"%string] la, (la, ra)) El) /\
     (Nat.max (record_length ti) (Nat.max (record_length tl) (record_length tr))
      <= record_length tf)%nat).
Proof.
  pose proof (merge_multiplicity orders prices ["id"%string] eq_refl) as [H1 [H2 _]].
  split; [exact H1 | apply H2; reflexivity].
Defined.

Lemma merge_null_padding_witness :
  (exists E,
     merge orders prices (Some ["id"%string]) "left" =
       Ok (merge_table ["id"%string] (rest_of orders ["id"%string])
             (rest_of prices ["id"%string])
             (sort_order orders ["id"%string]) (sort_order prices ["id"%string]) E) /\
     emitted_for [VInt 1] E =
       map (fun la => ([VInt 1], (la, pad_row orders ["id"%string])))
           (filter (has_key (row_key ["id"%string]) [VInt 1])
                   (rows_in orders (sort_order orders ["id"%string]))) /\
     length (emitted_for [VInt 1] E) =
       key_count ["id"%string] [VInt 1]
         (rows_in orders (sort_order orders ["id"%string]))) /\
  merge prices [("id", [VInt 1; VInt 2]); ("v", [VStr "a"; VStr "b"]);
                ("u", [VInt 0; VInt 0])]%string
        (Some ["id"%string]) "left" = Err IndexError.
Proof.
  split.
  - apply (proj1 (merge_null_padding orders prices ["id"%string] [VInt 1] eq_refl)).
    + reflexivity.
    + left. reflexivity.
    + intros [H|[H|[]]]; discriminate H.
  - apply (proj1 (proj2 (proj2 (proj2 (proj2
             (merge_null_padding prices
                [("id", [VInt 1; VInt 2]); ("v", [VStr "a"; VStr "b"]);
                 ("u", [VInt 0; VInt 0])]%string
                ["id"%string] [] eq_refl))))) eq_refl).
Defined.

(** * Proofs for the other operations *)

(** ** Reading columns *)

Lemma getitem_KeyError {V : Type} (d : dict V) (k : string) :
  ~ In k (dict_keys d) -> getitem d k = Err KeyError.
Proof.
  intros H. unfold getitem. apply dict_get_None in H. rewrite H. reflexivity.
Qed.

Lemma mapM_getitem_ok {B : Type} (t : Dataset) (f : string -> list value -> B)
    (cs : list string) :
  incl cs (columns t) ->
  mapM (fun c => v <- getitem t c ;; Ok (f c v)) cs = Ok (map (fun c => f c (col t c)) cs).
Proof.
  intros H. apply mapM_ok. intros c Hc. rewrite getitem_col by auto. reflexivity.
Qed.

Lemma mapM_getitems (t : Dataset) (cs : list string) :
  incl cs (columns t) -> mapM (getitem t) cs = Ok (map (col t) cs).
Proof. intros H. apply mapM_ok. intros c Hc. apply getitem_col. auto. Qed.

(** A comprehension whose body can only raise [e] raises it as soon as one
    element does. *)
Lemma mapM_raises {A B : Type} (f : A -> result B) (l : list A) (e : error) :
  (forall x, In x l -> (exists y, f x = Ok y) \/ f x = Err e) ->
  (exists x, In x l /\ f x = Err e) -> mapM f l = Err e.
Proof.
  induction l as [|a l IH]; simpl; intros Hall [x [Hin Hx]]; [contradiction|].
  destruct (Hall a (or_introl eq_refl)) as [[y Hy]|He].
  - rewrite Hy. simpl. rewrite IH; [reflexivity | auto |].
    destruct Hin as [<-|Hin]; [congruence | eauto].
  - rewrite He. reflexivity.
Qed.

Lemma mapM_getitem_missing {B : Type} (t : Dataset) (f : string -> list value -> B)
    (cs : list string) (c : string) :
  In c cs -> ~ In c (columns t) ->
  mapM (fun c => v <- getitem t c ;; Ok (f c v)) cs = Err KeyError.
Proof.
  intros Hin Hnc. apply mapM_raises.
  - intros x _. destruct (in_dec string_dec x (columns t)) as [Hx|Hx].
    + left. rewrite getitem_col by assumption. simpl. eauto.
    + right. rewrite getitem_KeyError by assumption. reflexivity.
  - exists c. split; [assumption|]. rewrite getitem_KeyError by assumption. reflexivity.
Qed.

(** ** Tables given column by column *)

Lemma table_columns (cs : list string) (g : string -> list value) :
  columns (map (fun c => (c, g c)) cs) = cs.
Proof.
  unfold columns, dict_keys. rewrite map_map. simpl. apply map_id.
Qed.

Lemma table_valid (cs : list string) (g : string -> list value) (n : nat) :
  NoDup cs -> (forall c, In c cs -> length (g c) = n) ->
  valid (map (fun c => (c, g c)) cs).
Proof.
  intros Hnd Hlen. split.
  - rewrite table_columns. exact Hnd.
  - exists n. apply Forall_forall. intros kv Hkv.
    apply in_map_iff in Hkv. destruct Hkv as [c [<- Hc]]. simpl. auto.
Qed.

Lemma table_col (cs : list string) (g : string -> list value) (c : string) :
  In c cs -> col (map (fun c => (c, g c)) cs) c = g c.
Proof.
  intros Hin. unfold col. induction cs as [|a cs IH]; [contradiction|].
  simpl. destruct (String.eqb_spec a c) as [->|Hne]; [reflexivity|].
  apply IH. destruct Hin; [contradiction | assumption].
Qed.

Lemma Dataset_init_table (cs : list string) (g : string -> list value) (n : nat) :
  NoDup cs -> (forall c, In c cs -> length (g c) = n) ->
  Dataset_init (dict_of_list (map (fun c => (c, g c)) cs)) = Ok (map (fun c => (c, g c)) cs).
Proof.
  intros Hnd Hlen.
  rewrite dict_of_list_nodup by (change (NoDup (columns (map (fun c => (c, g c)) cs)));
                                 rewrite table_columns; exact Hnd).
  apply Dataset_init_valid. apply table_valid with (n := n); assumption.
Qed.

(** ** select and drop *)

Lemma select_ok (self : Dataset) (names : list string) :
  valid self -> NoDup names -> incl names (columns self) ->
  select self names = Ok (map (fun c => (c, col self c)) names) /\
  valid (map (fun c => (c, col self c)) names).
Proof.
  intros Hv Hnd Hin. unfold select. rewrite mapM_getitem_ok by assumption. simpl.
  split.
  - apply Dataset_init_table with (n := height self); [assumption|].
    intros c Hc. apply col_length; auto.
  - apply table_valid with (n := height self); [assumption|].
    intros c Hc. apply col_length; auto.
Qed.

Lemma not_incl_In (names cs : list string) :
  ~ incl names cs -> exists c, In c names /\ ~ In c cs.
Proof.
  induction names as [|a names IH]; intros Hnot.
  - exfalso. apply Hnot. intros x [].
  - destruct (in_dec string_dec a cs) as [Ha|Ha].
    + destruct IH as [c [Hc Hn]].
      * intros Hincl. apply Hnot. intros x [<-|Hx]; auto.
      * exists c. split; [right|]; assumption.
    + exists a. split; [left; reflexivity | assumption].
Qed.

(** [select] returns the named columns, in the order of the names and with
    their cells untouched, when every name is a column; a name that is not a
    column raises [KeyError]. *)
Theorem select_columns (self : Dataset) (names : list string) :
  valid self -> NoDup names ->
  (incl names (columns self) ->
   select self names = Ok (map (fun c => (c, col self c)) names) /\
   valid (map (fun c => (c, col self c)) names)) /\
  (~ incl names (columns self) -> select self names = Err KeyError).
Proof.
  intros Hv Hnd. split.
  - intros Hin. apply select_ok; assumption.
  - intros Hnot. unfold select.
    destruct (not_incl_In names (columns self) Hnot) as [c [Hc Hn]].
    rewrite (mapM_getitem_missing self (fun c v => (c, v)) names c Hc Hn). reflexivity.
Qed.

Lemma select_columns_witness :
  select people ["y"; "id"]%string =
    Ok [("y", [VStr "a"; VStr "b"; VStr "c"]); ("id", [VInt 2; VInt 1; VInt 2])]%string /\
  select people ["y"; "z"]%string = Err KeyError.
Proof.
  assert (Hv : valid people) by (apply validb_valid; reflexivity).
  assert (Hnd : NoDup ["y"; "id"]%string) by (apply nodupb_NoDup; reflexivity).
  assert (Hnd' : NoDup ["y"; "z"]%string) by (apply nodupb_NoDup; reflexivity).
  split.
  - apply (proj1 (select_columns people ["y"; "id"]%string Hv Hnd)).
    apply inclb_incl. reflexivity.
  - apply (proj2 (select_columns people ["y"; "z"]%string Hv Hnd')).
    intros H. specialize (H "z"%string (or_intror (or_introl eq_refl))).
    simpl in H. repeat (destruct H as [H|H]; [discriminate|]). exact H.
Defined.

Lemma filter_map_cols (g : string -> list value) (p : string -> bool) (cs : list string) :
  map (fun c => (c, g c)) (filter p cs) =
  filter (fun kv => p (fst kv)) (map (fun c => (c, g c)) cs).
Proof.
  induction cs as [|c cs IH]; simpl; [reflexivity|].
  destruct (p c); simpl; rewrite IH; reflexivity.
Qed.

Lemma filter_table (t : Dataset) (p : string -> bool) :
  NoDup (columns t) ->
  map (fun c => (c, col t c)) (filter p (columns t)) = filter (fun kv => p (fst kv)) t.
Proof.
  intros Hnd. rewrite filter_map_cols. rewrite (table_eta t Hnd). reflexivity.
Qed.

Lemma filter_valid (t : Dataset) (p : string * list value -> bool) :
  valid t -> valid (filter p t).
Proof.
  intros [Hnd [n Hn]]. split.
  - clear Hn. unfold columns, dict_keys in *. induction t as [|kv t IH]; simpl; [constructor|].
    inversion Hnd as [|? ? Hnin Hnd']; subst.
    destruct (p kv); simpl; [|auto].
    constructor; [|auto].
    intros Hin. apply Hnin. apply in_map_iff in Hin. destruct Hin as [x [Hx Hin]].
    apply filter_In in Hin. apply in_map_iff. exists x. tauto.
  - exists n. apply Forall_forall. intros kv Hkv. apply filter_In in Hkv.
    rewrite Forall_forall in Hn. apply Hn. tauto.
Qed.

Lemma drop_eq (self : Dataset) (names : list string) :
  valid self ->
  drop self names = Ok (filter (fun kv => negb (mem (fst kv) names)) self).
Proof.
  intros Hv. unfold drop.
  rewrite mapM_getitem_ok by (intros c Hc; apply filter_In in Hc; tauto).
  simpl. rewrite filter_table by apply Hv.
  rewrite dict_of_list_nodup by (apply (filter_valid self _ Hv)).
  apply Dataset_init_valid. apply filter_valid. assumption.
Qed.

(** [drop] never fails on a table: it returns the columns whose name is not
    listed, in their order and with their cells untouched; names that are
    not columns are ignored, so dropping only such names returns the table
    itself. *)
Theorem drop_columns (self : Dataset) (names : list string) :
  valid self ->
  drop self names = Ok (filter (fun kv => negb (mem (fst kv) names)) self) /\
  ((forall c, In c names -> ~ In c (columns self)) -> drop self names = Ok self).
Proof.
  intros Hv. split; [apply drop_eq; assumption|].
  intros Hnone. rewrite drop_eq by assumption. apply f_equal.
  apply filter_all. intros [c v] Hin. simpl.
  apply negb_true_iff. apply mem_false. intros Hc.
  apply (Hnone c Hc). apply in_map_iff. exists (c, v). auto.
Qed.

Lemma drop_columns_witness :
  drop people ["x"; "z"]%string =
    Ok [("id", [VInt 2; VInt 1; VInt 2]); ("y", [VStr "a"; VStr "b"; VStr "c"])]%string.
Proof.
  assert (Hv : valid people) by (apply validb_valid; reflexivity).
  exact (proj1 (drop_columns people ["x"; "z"]%string Hv)).
Defined.

(** Selecting from a selection is selecting from the table: for names [b]
    among the names [a], [select(a).select(b)] is [select(b)]. *)
Theorem select_select (self : Dataset) (a b : list string) :
  valid self -> NoDup a -> incl a (columns self) -> NoDup b -> incl b a ->
  (t <- select self a ;; select t b) = select self b.
Proof.
  intros Hv Ha Hia Hb Hib.
  destruct (select_ok self a Hv Ha Hia) as [Ea Hva]. rewrite Ea. simpl.
  assert (Hib' : incl b (columns (map (fun c => (c, col self c)) a)))
    by (rewrite table_columns; exact Hib).
  destruct (select_ok _ b Hva Hb Hib') as [Eb _]. rewrite Eb.
  destruct (select_ok self b Hv Hb (fun x Hx => Hia x (Hib x Hx))) as [Eb' _].
  rewrite Eb'.
  apply f_equal. apply map_ext_in. intros c Hc. apply f_equal. apply table_col. auto.
Qed.

Lemma select_select_witness :
  (t <- select people ["y"; "id"]%string ;; select t ["id"]%string)
  = select people ["id"]%string.
Proof.
  assert (Hv : valid people) by (apply validb_valid; reflexivity).
  apply (select_select people ["y"; "id"]%string ["id"]%string Hv).
  - apply nodupb_NoDup; reflexivity.
  - apply inclb_incl; reflexivity.
  - apply nodupb_NoDup; reflexivity.
  - apply inclb_incl; reflexivity.
Defined.

Lemma mem_app (c : string) (a b : list string) : mem c (a ++ b) = mem c a || mem c b.
Proof. unfold mem. apply existsb_app. Qed.

(** Dropping in two steps is dropping at once: [drop(a).drop(b)] is
    [drop(a + b)]. *)
Theorem drop_drop (self : Dataset) (a b : list string) :
  valid self -> (t <- drop self a ;; drop t b) = drop self (a ++ b).
Proof.
  intros Hv. rewrite (drop_eq self a Hv). simpl.
  rewrite drop_eq by (apply filter_valid; assumption).
  rewrite (drop_eq self (a ++ b) Hv). apply f_equal.
  induction self as [|[c v] t IH]; simpl; [reflexivity|].
  assert (Hvt : valid t).
  { destruct Hv as [Hnd [n Hn]]. split.
    - inversion Hnd; assumption.
    - exists n. inversion Hn; assumption. }
  rewrite mem_app, negb_orb.
  destruct (mem c a); simpl; [apply IH; assumption|].
  destruct (mem c b); simpl; rewrite (IH Hvt); reflexivity.
Qed.

Lemma drop_drop_witness :
  (t <- drop people ["x"]%string ;; drop t ["id"]%string) = drop people ["x"; "id"]%string.
Proof.
  assert (Hv : valid people) by (apply validb_valid; reflexivity).
  exact (drop_drop people ["x"]%string ["id"]%string Hv).
Defined.

(** ** rename and rename_and_select *)

Lemma dict_get_Some_In {V : Type} (d : dict V) (k : string) (v : V) :
  dict_get d k = Some v -> In (k, v) d.
Proof.
  induction d as [|[k' v'] d IH]; simpl; [discriminate|].
  destruct (String.eqb_spec k' k) as [->|Hne]; intros H.
  - injection H as ->. left. reflexivity.
  - right. auto.
Qed.

Lemma rename_name_inverse (m : dict string) (cs : list string) (c : string) :
  NoDup (map snd m) -> (forall n, In n (map snd m) -> ~ In n cs) -> In c cs ->
  rename_name (inverse m) (rename_name m c) = c.
Proof.
  intros Hnd Hfresh Hc.
  assert (Hkeys : dict_keys (inverse m) = map snd m).
  { unfold inverse, dict_keys. rewrite map_map. reflexivity. }
  unfold rename_name at 2. destruct (dict_get m c) as [n|] eqn:E.
  - apply dict_get_Some_In in E. unfold rename_name.
    rewrite (dict_get_In (inverse m) n c).
    + reflexivity.
    + rewrite Hkeys. exact Hnd.
    + unfold inverse. apply in_map_iff. exists (c, n). auto.
  - unfold rename_name.
    assert (Hn : dict_get (inverse m) c = None).
    { apply dict_get_None. rewrite Hkeys. intros Hin. exact (Hfresh c Hin Hc). }
    rewrite Hn. reflexivity.
Qed.

Lemma rename_names_nodup (m : dict string) (cs : list string) :
  NoDup (map snd m) -> (forall n, In n (map snd m) -> ~ In n cs) -> NoDup cs ->
  NoDup (map (rename_name m) cs).
Proof.
  intros Hnd Hfresh Hcs.
  apply (NoDup_map_inv (rename_name (inverse m))).
  rewrite map_map.
  rewrite (map_ext_in _ (fun c => c)).
  - rewrite map_id. exact Hcs.
  - intros c Hc. apply rename_name_inverse with (cs := cs); assumption.
Qed.

(** Renaming back undoes a renaming: when the new names are distinct and
    none of them is a column of the table, [rename] with the inverted map
    returns the original table, names, order and cells. *)
Theorem rename_round_trip (self : Dataset) (rename_map : dict string) :
  valid self -> NoDup (map snd rename_map) ->
  (forall n, In n (map snd rename_map) -> ~ In n (columns self)) ->
  (t <- rename self rename_map ;; rename t (inverse rename_map)) = Ok self.
Proof.
  intros Hv Hnd Hfresh.
  assert (Hnames : map fst (renamed self rename_map)
                   = map (rename_name rename_map) (columns self)).
  { unfold renamed, columns, dict_keys. rewrite !map_map. reflexivity. }
  assert (Hv1 : valid (renamed self rename_map)).
  { split.
    - unfold columns, dict_keys. rewrite Hnames.
      apply rename_names_nodup; [assumption | assumption | apply Hv].
    - destruct Hv as [_ [n Hn]]. exists n. unfold renamed.
      apply Forall_forall. intros kv Hkv. apply in_map_iff in Hkv.
      destruct Hkv as [kv' [<- Hin]]. simpl.
      rewrite Forall_forall in Hn. auto. }
  rewrite rename_eq by assumption. simpl.
  rewrite dict_of_list_nodup by apply Hv1.
  rewrite rename_eq by assumption.
  assert (Hback : renamed (renamed self rename_map) (inverse rename_map) = self).
  { unfold renamed. rewrite map_map. simpl.
    rewrite <- (map_id self) at 2. apply map_ext_in. intros [c v] Hin. simpl.
    rewrite rename_name_inverse with (cs := columns self); auto.
    apply in_map_iff. exists (c, v). auto. }
  rewrite Hback. rewrite dict_of_list_nodup by apply Hv. reflexivity.
Qed.

Lemma rename_round_trip_witness :
  (t <- rename people [("x", "amount")]%string ;; rename t [("amount", "x")]%string)
  = Ok people.
Proof.
  assert (Hv : valid people) by (apply validb_valid; reflexivity).
  apply (rename_round_trip people [("x", "amount")]%string Hv).
  - repeat constructor. intros [].
  - intros n [<-|[]] H. simpl in H.
    repeat (destruct H as [H|H]; [discriminate|]). exact H.
Defined.

Lemma rename_name_In (m : dict string) (kv : string * string) :
  NoDup (dict_keys m) -> In kv m -> rename_name m (fst kv) = snd kv.
Proof.
  intros Hnd Hin. destruct kv as [k n]. unfold rename_name. simpl.
  rewrite (dict_get_In m k n Hnd Hin). reflexivity.
Qed.

(** [rename_and_select] keeps the columns that the map names, in the order
    of the map and under their new names; it is [select] on the old names
    followed by [rename]. *)
Theorem rename_and_select_columns (self : Dataset) (rename_map : dict string) :
  valid self -> NoDup (dict_keys rename_map) -> NoDup (map snd rename_map) ->
  incl (dict_keys rename_map) (columns self) ->
  rename_and_select self rename_map
    = Ok (map (fun kv => (snd kv, col self (fst kv))) rename_map) /\
  rename_and_select self rename_map
    = (t <- select self (dict_keys rename_map) ;; rename t rename_map).
Proof.
  intros Hv Hk Hn Hin.
  assert (Hvr : valid (map (fun kv => (snd kv, col self (fst kv))) rename_map)).
  { split.
    - unfold columns, dict_keys. rewrite map_map. simpl. exact Hn.
    - exists (height self). apply Forall_forall. intros kv Hkv.
      apply in_map_iff in Hkv. destruct Hkv as [[k n] [<- Hkn]]. simpl.
      apply col_length; [assumption|]. apply Hin.
      apply in_map_iff. exists (k, n). auto. }
  assert (E : rename_and_select self rename_map
              = Ok (map (fun kv => (snd kv, col self (fst kv))) rename_map)).
  { unfold rename_and_select.
    rewrite (mapM_ok _ (fun c => (rename_name rename_map c, col self c))).
    - simpl. unfold dict_keys. rewrite map_map.
      rewrite (map_ext_in _ (fun kv => (snd kv, col self (fst kv)))).
      + rewrite dict_of_list_nodup by apply Hvr. apply Dataset_init_valid. exact Hvr.
      + intros kv Hkv. rewrite rename_name_In by assumption. reflexivity.
    - intros c Hc. unfold getitem at 1, rename_name.
      destruct (dict_get rename_map c) eqn:Eg.
      + simpl. rewrite getitem_col by auto. reflexivity.
      + apply dict_get_None in Eg. contradiction. }
  split; [exact E|]. rewrite E.
  destruct (select_ok self (dict_keys rename_map) Hv Hk Hin) as [Es Hvs].
  rewrite Es. simpl.
  rewrite rename_eq by assumption.
  assert (Hren : renamed (map (fun c => (c, col self c)) (dict_keys rename_map)) rename_map
                 = map (fun kv => (snd kv, col self (fst kv))) rename_map).
  { unfold renamed, dict_keys. rewrite !map_map. simpl.
    apply map_ext_in. intros kv Hkv. rewrite rename_name_In by assumption. reflexivity. }
  rewrite Hren. rewrite dict_of_list_nodup by apply Hvr. reflexivity.
Qed.

Lemma rename_and_select_columns_witness :
  rename_and_select people [("y", "label"); ("id", "key")]%string
  = Ok [("label", [VStr "a"; VStr "b"; VStr "c"]); ("key", [VInt 2; VInt 1; VInt 2])]%string.
Proof.
  assert (Hv : valid people) by (apply validb_valid; reflexivity).
  apply (rename_and_select_columns people [("y", "label"); ("id", "key")]%string Hv).
  - apply nodupb_NoDup; reflexivity.
  - apply nodupb_NoDup; reflexivity.
  - apply inclb_incl; reflexivity.
Defined.

(** ** __with__ and the constant columns *)

Lemma existing_valid (self : Dataset) : NoDup (columns self) -> __existing__ self = Ok self.
Proof.
  intros Hnd. unfold __existing__, columns. rewrite (dict_items self Hnd). simpl.
  rewrite dict_of_list_nodup by exact Hnd. reflexivity.
Qed.

Lemma height_dict_set (self : Dataset) (name : string) (l : list value) :
  self <> [] -> length l = height self -> height (dict_set self name l) = height self.
Proof.
  intros Hne Hl. destruct self as [|[c v] t]; [contradiction|]. simpl in *.
  destruct (String.eqb c name); simpl; auto.
Qed.

Lemma dict_set_valid (self : Dataset) (name : string) (l : list value) :
  valid self -> self = [] \/ length l = height self -> valid (dict_set self name l).
Proof.
  intros [Hnd Hr] Hl. split; [apply dict_set_keys_nodup; exact Hnd|].
  destruct Hl as [->|Hl].
  - exists (length l). simpl. repeat constructor.
  - exists (height self).
    apply (dict_update_values (fun v => length v = height self) self [(name, l)]).
    + apply Forall_forall. intros kv Hkv.
      rewrite <- (record_length_height self Hr). apply column_height; assumption.
    + repeat constructor. exact Hl.
Qed.

Lemma with_one (self : Dataset) (name : string) (l : list value) :
  valid self -> self = [] \/ length l = height self ->
  __with__ self [(name, l)] = Ok (dict_set self name l).
Proof.
  intros Hv Hl. unfold __with__. rewrite existing_valid by apply Hv. simpl.
  change (dict_update self [(name, l)]) with (dict_set self name l).
  apply Dataset_init_valid. apply dict_set_valid; assumption.
Qed.

Lemma record_length_valid (self : Dataset) : valid self -> record_length self = height self.
Proof. intros [_ Hr]. apply record_length_height. exact Hr. Qed.

Lemma columns_dict_set (self : Dataset) (name : string) (l : list value) :
  columns (dict_set self name l) =
  if mem name (columns self) then columns self else columns self ++ [name].
Proof.
  destruct (mem name (columns self)) eqn:E.
  - apply mem_In in E. apply dict_set_keys_old. exact E.
  - apply mem_false in E. rewrite dict_set_new by exact E.
    unfold columns, dict_keys. rewrite map_app. reflexivity.
Qed.

Lemma with_constant_eq (self : Dataset) (v : value) (name : string) :
  valid self ->
  with_constant self v name = Ok (dict_set self name (repeat v (record_length self))) /\
  valid (dict_set self name (repeat v (record_length self))).
Proof.
  intros Hv.
  assert (Hl : self = [] \/ length (repeat v (record_length self)) = height self).
  { right. rewrite repeat_length. apply record_length_valid. exact Hv. }
  split; [apply with_one | apply dict_set_valid]; assumption.
Qed.

(** [with_constant] never fails on a table: the column [name] holds the
    value once per row, in place when [name] is already a column and as the
    last column otherwise; the table keeps its other columns. *)
Theorem with_constant_column (self : Dataset) (v : value) (name : string) :
  valid self ->
  with_constant self v name = Ok (dict_set self name (repeat v (record_length self))) /\
  valid (dict_set self name (repeat v (record_length self))) /\
  columns (dict_set self name (repeat v (record_length self))) =
    (if mem name (columns self) then columns self else columns self ++ [name]) /\
  (forall c, c <> name ->
     col (dict_set self name (repeat v (record_length self))) c = col self c).
Proof.
  intros Hv. destruct (with_constant_eq self v name Hv) as [E Hv'].
  split; [exact E|]. split; [exact Hv'|].
  split; [apply columns_dict_set|].
  intros c Hc. unfold col. rewrite dict_get_set_other by exact Hc. reflexivity.
Qed.

Lemma with_constant_column_witness :
  with_constant orders (VInt 0) "n"%string =
    Ok [("id", [VInt 1; VInt 2; VInt 2]); ("v", [VStr "a"; VStr "b"; VStr "c"]);
        ("n", [VInt 0; VInt 0; VInt 0])]%string.
Proof.
  assert (Hv : valid orders) by (apply validb_valid; reflexivity).
  exact (proj1 (with_constant_column orders (VInt 0) "n"%string Hv)).
Defined.

(** [with_id] raises [IndexError] on the table without columns; on any
    other table it sets the column [name] to the row numbers [0, 1, ...]. *)
Theorem with_id_column (self : Dataset) (name : string) :
  valid self ->
  (self = [] -> with_id self name = Err IndexError) /\
  (self <> [] ->
   with_id self name = Ok (dict_set self name (range (Z.of_nat (height self)))) /\
   col (dict_set self name (range (Z.of_nat (height self)))) name
     = map (fun i => VInt (Z.of_nat i)) (seq 0 (height self))).
Proof.
  intros Hv. split.
  - intros ->. reflexivity.
  - intros Hne. split.
    + unfold with_id, __entry_length__.
      destruct self as [|[c v] t] eqn:E; [contradiction|].
      rewrite <- E in *.
      assert (Hc : columns self = c :: columns t) by (rewrite E; reflexivity).
      rewrite Hc.
      rewrite getitem_col by (rewrite Hc; left; reflexivity). simpl.
      assert (Hcol : col self c = v).
      { rewrite E. unfold col. simpl. rewrite String.eqb_refl. reflexivity. }
      rewrite Hcol.
      assert (Hh : height self = length v) by (rewrite E; reflexivity).
      rewrite <- Hh. apply with_one; [assumption|]. right.
      unfold range. rewrite length_map, length_seq, Nat2Z.id. reflexivity.
    + unfold col. rewrite dict_get_set_same. unfold range. rewrite Nat2Z.id. reflexivity.
Qed.

Lemma with_id_column_witness :
  with_id [] "id"%string = Err IndexError /\
  with_id prices "row"%string =
    Ok [("id", [VInt 2; VInt 3]); ("w", [VInt 7; VInt 8]); ("row", [VInt 0; VInt 1])]%string.
Proof.
  split.
  - assert (Hv : valid []) by (apply validb_valid; reflexivity).
    exact (proj1 (with_id_column [] "id"%string Hv) eq_refl).
  - assert (Hv : valid prices) by (apply validb_valid; reflexivity).
    assert (Hne : prices <> []) by discriminate.
    exact (proj1 (proj2 (with_id_column prices "row"%string Hv) Hne)).
Defined.

Lemma record_length_dict_set (self : Dataset) (name : string) (v : value) :
  valid self ->
  record_length (dict_set self name (repeat v (record_length self))) = record_length self.
Proof.
  intros Hv.
  assert (Hl : length (repeat v (record_length self)) = height self).
  { rewrite repeat_length. apply record_length_valid. exact Hv. }
  rewrite (record_length_valid _ (dict_set_valid self name _ Hv (or_intror Hl))).
  rewrite (record_length_valid self Hv) at 2.
  destruct self as [|kv t].
  - simpl. reflexivity.
  - apply height_dict_set; [discriminate | exact Hl].
Qed.

Lemma with_constants_fold (self : Dataset) (input_dict : dict value)
    (kvs : list (string * value)) :
  valid self ->
  (forall kv, In kv kvs -> getitem input_dict (fst kv) = Ok (snd kv)) ->
  foldM (fun rtn key => v <- getitem input_dict key ;; with_constant rtn v key)
        (map fst kvs) self
  = Ok (dict_update self
          (map (fun kv => (fst kv, repeat (snd kv) (record_length self))) kvs)).
Proof.
  revert self. induction kvs as [|[k v] kvs IH]; intros self Hv Hget; [reflexivity|].
  pose proof (Hget (k, v) (or_introl eq_refl)) as Hk. simpl in Hk.
  simpl. rewrite Hk. simpl.
  destruct (with_constant_eq self v k Hv) as [E Hv']. rewrite E. simpl.
  rewrite IH; [|exact Hv'|intros kv Hkv; apply Hget; right; exact Hkv].
  rewrite record_length_dict_set by exact Hv. reflexivity.
Qed.

(** [with_constants] adds the constants one by one in the order of the
    dict: on a table it never fails, and every listed column holds its
    value once per row of the original table. *)
Theorem with_constants_columns (self : Dataset) (input_dict : dict value) :
  valid self -> NoDup (dict_keys input_dict) ->
  with_constants self input_dict
  = Ok (dict_update self
          (map (fun kv => (fst kv, repeat (snd kv) (record_length self))) input_dict)).
Proof.
  intros Hv Hnd. unfold with_constants, dict_keys.
  apply with_constants_fold; [exact Hv|].
  intros [k v] Hkv. simpl. unfold getitem.
  rewrite (dict_get_In input_dict k v Hnd Hkv). reflexivity.
Qed.

Lemma with_constants_columns_witness :
  with_constants prices [("unit", VStr "kg"); ("w", VInt 0)]%string =
    Ok [("id", [VInt 2; VInt 3]); ("w", [VInt 0; VInt 0]);
        ("unit", [VStr "kg"; VStr "kg"])]%string.
Proof.
  assert (Hv : valid prices) by (apply validb_valid; reflexivity).
  apply (with_constants_columns prices [("unit", VStr "kg"); ("w", VInt 0)]%string Hv).
  apply nodupb_NoDup; reflexivity.
Defined.

Lemma flat_map_repeat_one {A : Type} (l : list A) : flat_map (fun val => repeat val 1) l = l.
Proof. induction l as [|x l IH]; simpl; [reflexivity | apply f_equal; exact IH]. Qed.

Lemma concat_repeat_one {A : Type} (v : A) (n : nat) : concat (repeat [v] n) = repeat v n.
Proof. induction n as [|n IH]; simpl; [reflexivity | rewrite IH; reflexivity]. Qed.

(** The product with a table of one cell is a constant column: for a name
    that is not a column of the table, [full_outer_merge] with
    [{name: [v]}] returns what [with_constant(v, name)] returns. *)
Theorem full_outer_merge_one_cell (self : Dataset) (v : value) (name : string) :
  valid self -> ~ In name (columns self) ->
  full_outer_merge self [(name, [v])] = with_constant self v name.
Proof.
  intros Hv Hn.
  assert (Hvr : valid [(name, [v])]).
  { split; [repeat constructor; intros [] | exists 1%nat; repeat constructor]. }
  rewrite full_outer_merge_disjoint; [|assumption|assumption|].
  - destruct (with_constant_eq self v name Hv) as [E _]. rewrite E.
    rewrite dict_set_new by exact Hn. unfold cartesian.
    change (record_length [(name, [v])]) with 1%nat.
    rewrite (map_ext (fun kv : string * list value =>
                        (fst kv, flat_map (fun val => repeat val 1) (snd kv)))
                     (fun kv => kv))
      by (intros [c l]; cbn [fst snd]; rewrite flat_map_repeat_one; reflexivity).
    rewrite map_id. cbn [map fst snd]. rewrite concat_repeat_one. reflexivity.
  - intros c Hc [<-|[]]. contradiction.
Qed.

Lemma full_outer_merge_one_cell_witness :
  full_outer_merge prices [("n", [VInt 5])]%string = with_constant prices (VInt 5) "n"%string.
Proof.
  assert (Hv : valid prices) by (apply validb_valid; reflexivity).
  apply (full_outer_merge_one_cell prices (VInt 5) "n"%string Hv).
  intros H. simpl in H. repeat (destruct H as [H|H]; [discriminate|]). exact H.
Defined.

(** ** fill_none and replace *)

Lemma table_map (t : Dataset) (F : string -> list value -> list value) :
  NoDup (columns t) ->
  map (fun c => (c, F c (col t c))) (columns t) = map (fun kv => (fst kv, F (fst kv) (snd kv))) t.
Proof.
  intros Hnd. unfold columns, dict_keys. rewrite map_map.
  apply map_ext_in. intros [c v] Hin. simpl. rewrite (col_In t c v Hnd Hin). reflexivity.
Qed.

Lemma map_cells_columns (f : value -> value) (t : Dataset) :
  columns (map_cells f t) = columns t.
Proof. unfold map_cells, columns, dict_keys. rewrite map_map. reflexivity. Qed.

Lemma map_cells_valid (f : value -> value) (t : Dataset) : valid t -> valid (map_cells f t).
Proof.
  intros [Hnd [n Hn]]. split.
  - rewrite map_cells_columns. exact Hnd.
  - exists n. unfold map_cells. apply Forall_forall. intros kv Hkv.
    apply in_map_iff in Hkv. destruct Hkv as [kv' [<- Hin]]. simpl.
    rewrite length_map. rewrite Forall_forall in Hn. auto.
Qed.

Lemma map_cells_col (f : value -> value) (t : Dataset) (c : string) :
  col (map_cells f t) c = map f (col t c).
Proof.
  unfold col, map_cells. induction t as [|[k v] t IH]; simpl; [reflexivity|].
  destruct (String.eqb k c); [reflexivity | exact IH].
Qed.

Lemma fill_none_eq (self : Dataset) (v : value) :
  valid self -> fill_none self v = Ok (map_cells (fill v) self).
Proof.
  intros Hv. unfold fill_none.
  rewrite (mapM_getitem_ok self (fun c l => (c, map (fill v) l))) by apply incl_refl.
  simpl. rewrite (table_map self (fun _ l => map (fill v) l)) by apply Hv.
  change (map (fun kv : string * list value => (fst kv, map (fill v) (snd kv))) self)
    with (map_cells (fill v) self).
  rewrite dict_of_list_nodup by apply (map_cells_valid (fill v) self Hv).
  apply Dataset_init_valid. apply map_cells_valid. exact Hv.
Qed.

(** [fill_none] never fails on a table and keeps its columns: every [None]
    cell becomes the value, every other cell is untouched.  When the value
    is not [None] no [None] is left, and filling again changes nothing. *)
Theorem fill_none_cells (self : Dataset) (v : value) :
  valid self ->
  fill_none self v = Ok (map_cells (fill v) self) /\
  columns (map_cells (fill v) self) = columns self /\
  (v <> VNone ->
   (forall c x, In x (col (map_cells (fill v) self) c) -> x <> VNone) /\
   (forall w, fill_none (map_cells (fill v) self) w = Ok (map_cells (fill v) self))).
Proof.
  intros Hv. split; [apply fill_none_eq; exact Hv|].
  split; [apply map_cells_columns|].
  intros Hne.
  assert (Hfill : forall x, fill v x <> VNone).
  { intros x. destruct x; simpl; [exact Hne | discriminate..]. }
  split.
  - intros c x Hx. rewrite map_cells_col in Hx. apply in_map_iff in Hx.
    destruct Hx as [y [<- _]]. apply Hfill.
  - intros w. rewrite fill_none_eq by (apply map_cells_valid; exact Hv).
    apply f_equal. unfold map_cells. rewrite map_map. simpl.
    apply map_ext. intros [c l]. simpl. apply f_equal. rewrite map_map.
    apply map_ext. intros x. specialize (Hfill x).
    destruct (fill v x); [contradiction | reflexivity..].
Qed.

Lemma fill_none_cells_witness :
  fill_none [("a", [VNone; VInt 1]); ("b", [VStr "x"; VNone])]%string (VInt 0)
  = Ok [("a", [VInt 0; VInt 1]); ("b", [VStr "x"; VInt 0])]%string.
Proof.
  assert (Hv : valid [("a", [VNone; VInt 1]); ("b", [VStr "x"; VNone])]%string)
    by (apply validb_valid; reflexivity).
  exact (proj1 (fill_none_cells _ (VInt 0) Hv)).
Defined.

Lemma dict_ext {V : Type} (a b : dict V) :
  dict_keys a = dict_keys b -> NoDup (dict_keys a) ->
  (forall k, dict_get a k = dict_get b k) -> a = b.
Proof.
  revert b. induction a as [|[k v] a IH]; intros [|[k' v'] b]; simpl;
    intros Hk Hnd Hget; try discriminate; [reflexivity|].
  injection Hk as -> Hk. inversion Hnd as [|? ? Hnin Hnd']; subst.
  pose proof (Hget k') as Hh. rewrite String.eqb_refl in Hh. injection Hh as ->.
  f_equal. apply IH; [assumption | assumption |].
  intros k. specialize (Hget k).
  destruct (String.eqb_spec k' k) as [->|Hne]; [|exact Hget].
  assert (Ha : dict_get a k = None) by (apply dict_get_None; exact Hnin).
  assert (Hb : dict_get b k = None) by (apply dict_get_None; rewrite <- Hk; exact Hnin).
  congruence.
Qed.

Lemma dict_update_keys_old {V : Type} (d : dict V) (kvs : list (string * V)) :
  incl (map fst kvs) (dict_keys d) -> dict_keys (dict_update d kvs) = dict_keys d.
Proof.
  revert d. induction kvs as [|[k v] kvs IH]; simpl; intros d Hin; [reflexivity|].
  unfold dict_update in *. simpl.
  assert (Hk : dict_keys (dict_set d k v) = dict_keys d).
  { apply dict_set_keys_old. apply Hin. left. reflexivity. }
  rewrite IH; [exact Hk|]. rewrite Hk. intros x Hx. apply Hin. right. exact Hx.
Qed.

Lemma dict_get_table {V : Type} (cs : list string) (F : string -> V) (k : string) :
  dict_get (map (fun c => (c, F c)) cs) k = if mem k cs then Some (F k) else None.
Proof.
  induction cs as [|c cs IH]; simpl; [reflexivity|].
  rewrite String.eqb_sym.
  destruct (String.eqb_spec k c) as [->|Hne]; simpl; [reflexivity | exact IH].
Qed.

Lemma mem_rev (k : string) (cs : list string) : mem k (rev cs) = mem k cs.
Proof.
  destruct (mem k cs) eqn:E.
  - apply mem_In. apply mem_In in E. apply in_rev in E. exact E.
  - apply mem_false. apply mem_false in E. intros H. apply E. apply in_rev. exact H.
Qed.

Lemma dict_get_modify_cols (cs : list string) (f : string -> list value -> list value)
    (d : dict (list value)) (k : string) :
  dict_get (modify_cols cs f d) k =
  match dict_get d k with
  | Some v => Some (if mem k cs then f k v else v)
  | None => None
  end.
Proof.
  unfold modify_cols. induction d as [|[k' v'] d IH]; simpl; [reflexivity|].
  destruct (mem k' cs) eqn:E; simpl;
    destruct (String.eqb_spec k' k) as [->|Hne]; try exact IH; rewrite ?E; reflexivity.
Qed.

Lemma dict_get_rev {V : Type} (d : dict V) (k : string) :
  NoDup (dict_keys d) -> dict_get (rev d) k = dict_get d k.
Proof.
  intros Hnd. destruct (dict_get d k) as [v|] eqn:E.
  - apply dict_get_In.
    + unfold dict_keys. rewrite map_rev. apply NoDup_rev. exact Hnd.
    + apply in_rev. rewrite rev_involutive. apply dict_get_Some_In. exact E.
  - apply dict_get_None. apply dict_get_None in E.
    unfold dict_keys in *. rewrite map_rev. intros H. apply E. apply in_rev. exact H.
Qed.

(** A dict comprehension over names, then merged into [d]. *)
Lemma dict_update_comprehension (d : dict (list value)) (cs : list string)
    (F : string -> list value) :
  NoDup (dict_keys d) -> incl cs (dict_keys d) ->
  dict_update d (dict_of_list (map (fun c => (c, F c)) cs))
  = modify_cols cs (fun c _ => F c) d.
Proof.
  intros Hnd Hin.
  set (X := dict_of_list (map (fun c => (c, F c)) cs)).
  assert (HX : forall k, dict_get X k = if mem k cs then Some (F k) else None).
  { intros k. unfold X, dict_of_list. rewrite dict_get_update. rewrite <- map_rev.
    rewrite dict_get_table, mem_rev. destruct (mem k cs); reflexivity. }
  assert (HXnd : NoDup (dict_keys X)).
  { unfold X, dict_of_list. apply dict_update_keys_nodup. constructor. }
  assert (HXk : incl (map fst X) (dict_keys d)).
  { intros k Hk. apply Hin. apply mem_In.
    destruct (mem k cs) eqn:E; [reflexivity|].
    exfalso. specialize (HX k). rewrite E in HX. apply dict_get_None in HX.
    apply HX. exact Hk. }
  apply dict_ext.
  - rewrite modify_cols_keys. apply dict_update_keys_old. exact HXk.
  - rewrite dict_update_keys_old; [exact Hnd | exact HXk].
  - intros k. rewrite dict_get_update, dict_get_rev by exact HXnd.
    rewrite HX, dict_get_modify_cols.
    destruct (mem k cs) eqn:E.
    + apply mem_In in E. apply Hin in E.
      destruct (dict_get d k) eqn:Eg; [reflexivity|].
      apply dict_get_None in Eg. contradiction.
    + destruct (dict_get d k); reflexivity.
Qed.

Lemma modify_cols_valid (cs : list string) (f : string -> list value -> list value)
    (d : Dataset) :
  valid d -> (forall c l, length (f c l) = length l) -> valid (modify_cols cs f d).
Proof.
  intros [Hnd [n Hn]] Hlen. split.
  - unfold columns. rewrite modify_cols_keys. exact Hnd.
  - exists n. unfold modify_cols. apply Forall_forall. intros kv Hkv.
    apply in_map_iff in Hkv. destruct Hkv as [[c l] [<- Hin]]. simpl.
    rewrite Forall_forall in Hn. specialize (Hn (c, l) Hin). simpl in Hn.
    destruct (mem c cs); simpl; [rewrite Hlen|]; exact Hn.
Qed.

Lemma modify_cols_ext (cs : list string) (f g : string -> list value -> list value)
    (d : Dataset) :
  (forall c l, In (c, l) d -> f c l = g c l) -> modify_cols cs f d = modify_cols cs g d.
Proof.
  intros H. unfold modify_cols. apply map_ext_in. intros [c l] Hin. simpl.
  destruct (mem c cs); [rewrite (H c l Hin)|]; reflexivity.
Qed.

Lemma replace_names (self : Dataset) (mutation : value -> result value)
    (g : value -> value) (names : list string) :
  valid self -> (forall x, mutation x = Ok (g x)) -> incl names (columns self) ->
  (new <- mapM (fun name => l <- getitem self name ;;
                            l' <- mapM mutation l ;; Ok (name, l'))
               names ;;
   __with__ self (dict_of_list new))
  = Ok (modify_cols names (fun _ => map g) self).
Proof.
  intros Hv Hg Hin.
  rewrite (mapM_ok _ (fun c => (c, map g (col self c)))).
  - simpl. unfold __with__. rewrite existing_valid by apply Hv. simpl.
    rewrite (dict_update_comprehension self names (fun c => map g (col self c)))
      by (apply Hv || exact Hin).
    rewrite (modify_cols_ext names _ (fun _ => map g)).
    + apply Dataset_init_valid. apply modify_cols_valid; [exact Hv|].
      intros c l. apply length_map.
    + intros c l Hcl. rewrite (col_In self c l (proj1 Hv) Hcl). reflexivity.
  - intros c Hc. rewrite getitem_col by auto. simpl.
    rewrite (mapM_ok mutation g) by (intros; apply Hg). reflexivity.
Qed.

(** [replace] applies the mutation to every cell of the chosen columns and
    leaves the other columns, the column order and the number of rows as
    they are.  The chosen columns are the included names when given (then
    the excluded names are ignored), else the columns that are not
    excluded; with neither, the table is returned as it is.  An included
    name that is not a column raises [KeyError]. *)
Theorem replace_columns (self : Dataset) (mutation : value -> result value)
    (g : value -> value) :
  valid self -> (forall x, mutation x = Ok (g x)) ->
  (forall names excluded, incl names (columns self) ->
     replace self mutation (Some names) excluded
     = Ok (modify_cols names (fun _ => map g) self)) /\
  (forall names excluded, ~ incl names (columns self) ->
     replace self mutation (Some names) excluded = Err KeyError) /\
  (forall excluded,
     replace self mutation None (Some excluded)
     = Ok (modify_cols (filter (fun n => negb (mem n excluded)) (columns self))
                       (fun _ => map g) self)) /\
  replace self mutation None None = Ok self.
Proof.
  intros Hv Hg. split; [|split; [|split]].
  - intros names excluded Hin. unfold replace. apply replace_names; assumption.
  - intros names excluded Hnot. unfold replace.
    destruct (not_incl_In names (columns self) Hnot) as [c [Hc Hn]].
    rewrite (mapM_raises _ names KeyError); [reflexivity | |].
    + intros x _. destruct (in_dec string_dec x (columns self)) as [Hx|Hx].
      * left. rewrite getitem_col by assumption. simpl.
        rewrite (mapM_ok mutation g) by (intros; apply Hg). simpl. eauto.
      * right. rewrite getitem_KeyError by assumption. reflexivity.
    + exists c. split; [assumption|]. rewrite getitem_KeyError by assumption. reflexivity.
  - intros excluded. unfold replace. apply replace_names; [assumption..|].
    intros c Hc. apply filter_In in Hc. tauto.
  - reflexivity.
Qed.

Lemma replace_columns_witness :
  replace prices (fun x => Ok (fill (VInt 0) x)) (Some ["w"]%string) None
  = Ok (modify_cols ["w"]%string (fun _ => map (fill (VInt 0))) prices).
Proof.
  assert (Hv : valid prices) by (apply validb_valid; reflexivity).
  apply (proj1 (replace_columns prices (fun x => Ok (fill (VInt 0) x)) (fill (VInt 0))
                  Hv (fun x => eq_refl))).
  apply inclb_incl. reflexivity.
Defined.

(** ** apply and the mutate family *)

Lemma params_check (t : Dataset) (params : list string) :
  forallb (fun param => mem param (columns t)) params = true <-> incl params (columns t).
Proof.
  rewrite forallb_forall. split.
  - intros H c Hc. apply mem_In. auto.
  - intros H c Hc. apply mem_In. auto.
Qed.

Lemma apply_eq {R : Type} (self : Dataset) (func : callable value R) (g : list value -> R) :
  incl (parameters func) (columns self) ->
  (forall r, In r (rows_in self (parameters func)) -> call func r = Ok (g r)) ->
  apply self func = Ok (map g (rows_in self (parameters func))).
Proof.
  intros Hin Hg. unfold apply.
  rewrite (proj2 (params_check self (parameters func)) Hin).
  rewrite mapM_getitems by exact Hin. simpl.
  apply mapM_ok. exact Hg.
Qed.

Lemma apply_unknown {R : Type} (self : Dataset) (func : callable value R) :
  ~ incl (parameters func) (columns self) -> apply self func = Err AssertionError.
Proof.
  intros Hnot. unfold apply.
  destruct (forallb (fun param => mem param (columns self)) (parameters func)) eqn:E;
    [|reflexivity].
  exfalso. apply Hnot. apply params_check. exact E.
Qed.

Lemma rows_in_length (t : Dataset) (cs : list string) :
  valid t -> cs <> [] -> incl cs (columns t) -> length (rows_in t cs) = height t.
Proof.
  intros Hv Hne Hin. unfold rows_in. apply zip_star_length.
  - destruct cs; [contradiction | discriminate].
  - apply Forall_forall. intros l Hl. apply in_map_iff in Hl.
    destruct Hl as [c [<- Hc]]. apply col_length; auto.
Qed.

(** [mutate] calls the function once per row, on the cells of the columns
    its parameters name, and stores the results in the column [name] (the
    function's own name when none is given): in place when that column
    exists, as the last column otherwise.  A parameter that is not a column
    raises [AssertionError]. *)
Theorem mutate_column (self : Dataset) (mutation : callable value value)
    (name : option string) (g : list value -> value) :
  valid self ->
  (parameters mutation <> [] -> incl (parameters mutation) (columns self) ->
   (forall r, In r (rows_in self (parameters mutation)) -> call mutation r = Ok (g r)) ->
   mutate self mutation name
   = Ok (dict_set self (name_or name mutation)
                  (map g (rows_in self (parameters mutation)))) /\
   valid (dict_set self (name_or name mutation)
                   (map g (rows_in self (parameters mutation))))) /\
  (~ incl (parameters mutation) (columns self) ->
   mutate self mutation name = Err AssertionError).
Proof.
  intros Hv. split.
  - intros Hne Hin Hg. unfold mutate. rewrite (apply_eq self mutation g Hin Hg). simpl.
    assert (Hl : self = [] \/
                 length (map g (rows_in self (parameters mutation))) = height self).
    { right. rewrite length_map. apply rows_in_length; assumption. }
    split; [apply with_one | apply dict_set_valid]; assumption.
  - intros Hnot. unfold mutate. rewrite apply_unknown by exact Hnot. reflexivity.
Qed.

Lemma dict_set_In {V : Type} (d : dict V) (k : string) (v : V) : In (k, v) (dict_set d k v).
Proof. apply dict_get_Some_In. apply dict_get_set_same. Qed.

Lemma dict_set_other_In {V : Type} (d : dict V) (k k' : string) (v v' : V) :
  k' <> k -> In (k', v') d -> NoDup (dict_keys d) -> In (k', v') (dict_set d k v).
Proof.
  intros Hne Hin Hnd. apply dict_get_Some_In.
  rewrite dict_get_set_other by exact Hne. apply dict_get_In; assumption.
Qed.

Lemma with_short_column (self : Dataset) (name c : string) (l : list value) :
  valid self -> In c (columns self) -> c <> name -> length l <> height self ->
  __with__ self [(name, l)] = Err AssertionError.
Proof.
  intros Hv Hc Hne Hl. unfold __with__. rewrite existing_valid by apply Hv. simpl.
  change (dict_update self [(name, l)]) with (dict_set self name l).
  apply Dataset_init_not_rect. intros [n Hn]. rewrite Forall_forall in Hn.
  pose proof (Hn (name, l) (dict_set_In self name l)) as H1. simpl in H1.
  assert (Hin : In (c, col self c) self).
  { unfold col. destruct (dict_get self c) eqn:E.
    - apply dict_get_Some_In. exact E.
    - apply dict_get_None in E. contradiction. }
  pose proof (Hn (c, col self c)
                 (dict_set_other_In self name c l (col self c) Hne Hin (proj1 Hv))) as H2.
  simpl in H2. rewrite col_length in H2 by assumption. congruence.
Qed.

Lemma apply_no_parameters {R : Type} (self : Dataset) (func : callable value R) :
  parameters func = [] -> apply self func = Ok [].
Proof. intros H. unfold apply. rewrite H. reflexivity. Qed.

(** A function without parameters is never called: [apply] pairs it with
    no row at all.  So [mutate] with such a function fails with
    [AssertionError] on a table that has a row and another column, and
    [filter] with such a predicate returns the columns of the table without
    any row. *)
Theorem callable_without_parameters (self : Dataset) :
  valid self ->
  (forall (mutation : callable value value) (name : option string) (c : string),
     parameters mutation = [] -> (0 < height self)%nat ->
     In c (columns self) -> c <> name_or name mutation ->
     mutate self mutation name = Err AssertionError) /\
  (forall (filter_by : callable value returned) (var : option string),
     parameters filter_by = [] ->
     Dataset_filter self (inl filter_by) var = Ok (map (fun kv => (fst kv, [])) self)).
Proof.
  intros Hv. split.
  - intros mutation name c Hp Hh Hc Hne. unfold mutate.
    rewrite apply_no_parameters by exact Hp. simpl.
    apply with_short_column with (c := c); try assumption.
    simpl. lia.
  - intros filter_by var Hp. unfold Dataset_filter.
    rewrite apply_no_parameters by exact Hp. simpl.
    rewrite (mapM_getitem_ok self (fun c l => (c, map fst (filter (fun x : value * returned => truth (snd x)) (combine l [])))))
      by apply incl_refl.
    simpl.
    rewrite (map_ext _ (fun c => (c, @nil value)))
      by (intros c; rewrite combine_nil; reflexivity).
    assert (E : map (fun c => (c, @nil value)) (columns self)
                = map (fun kv : string * list value => (fst kv, @nil value)) self).
    { unfold columns, dict_keys. rewrite map_map. reflexivity. }
    rewrite <- E.
    apply Dataset_init_table with (n := 0%nat); [apply Hv | reflexivity].
Qed.

Lemma callable_without_parameters_witness :
  mutate prices {| __name__ := "one"; parameters := []; call := fun _ => Ok (VInt 1) |} None
  = Err AssertionError.
Proof.
  assert (Hv : valid prices) by (apply validb_valid; reflexivity).
  apply (proj1 (callable_without_parameters prices Hv) _ None "id"%string).
  - reflexivity.
  - simpl. lia.
  - simpl. auto.
  - discriminate.
Defined.

Lemma mutate_column_witness :
  mutate prices
    {| __name__ := "first_cell"; parameters := ["w"]%string;
       call := fun r => Ok (hd VNone r) |} None
  = Ok [("id", [VInt 2; VInt 3]); ("w", [VInt 7; VInt 8]);
        ("first_cell", [VInt 7; VInt 8])]%string.
Proof.
  assert (Hv : valid prices) by (apply validb_valid; reflexivity).
  apply (proj1 (mutate_column prices
                  {| __name__ := "first_cell"%string; parameters := ["w"]%string;
                     call := fun r => Ok (hd VNone r) |} None (hd VNone) Hv)).
  - discriminate.
  - apply inclb_incl. reflexivity.
  - intros r _. reflexivity.
Defined.

(** [long_mutate] calls the function once, on the whole columns its
    parameters name, and accepts exactly a list with one cell per row: that
    list becomes the column [name].  A list of another length, or a result
    that is not a list, raises [AssertionError]. *)
Theorem long_mutate_column (self : Dataset) (mutation : callable (list value) value)
    (name : option string) (r : value) :
  valid self -> incl (parameters mutation) (columns self) ->
  call mutation (map (col self) (parameters mutation)) = Ok r ->
  (forall l, r = VList l -> length l = record_length self ->
     long_mutate self mutation name = Ok (dict_set self (name_or name mutation) l)) /\
  (forall l, r = VList l -> length l <> record_length self ->
     long_mutate self mutation name = Err AssertionError) /\
  ((forall l, r <> VList l) -> long_mutate self mutation name = Err AssertionError).
Proof.
  intros Hv Hin Hcall.
  assert (E : long_apply self mutation = Ok r).
  { unfold long_apply. rewrite (proj2 (params_check self _) Hin).
    rewrite mapM_getitems by exact Hin. simpl. exact Hcall. }
  unfold long_mutate. rewrite E. simpl. split; [|split].
  - intros l -> Hl. rewrite Hl, Nat.eqb_refl.
    apply with_one; [exact Hv|]. right. rewrite Hl. apply record_length_valid. exact Hv.
  - intros l -> Hl. apply Nat.eqb_neq in Hl. rewrite Hl. reflexivity.
  - intros Hnl. destruct r; try reflexivity. exfalso. apply (Hnl l). reflexivity.
Qed.

Lemma long_mutate_column_witness :
  long_mutate prices
    {| __name__ := "backwards"; parameters := ["w"]%string;
       call := fun cols => Ok (VList (rev (hd [] cols))) |} None
  = Ok [("id", [VInt 2; VInt 3]); ("w", [VInt 7; VInt 8]);
        ("backwards", [VInt 8; VInt 7])]%string.
Proof.
  assert (Hv : valid prices) by (apply validb_valid; reflexivity).
  apply (proj1 (long_mutate_column prices
                  {| __name__ := "backwards"%string; parameters := ["w"]%string;
                     call := fun cols => Ok (VList (rev (hd [] cols))) |} None
                  (VList [VInt 8; VInt 7]) Hv
                  ltac:(apply inclb_incl; reflexivity) eq_refl) [VInt 8; VInt 7]);
    reflexivity.
Defined.

(** ** window_apply *)

Lemma between_lastn {A : Type} (l : list A) (i : nat) (window : Z) :
  (i < length l)%nat ->
  between l (Z.to_nat (Z.max 0 (Z.of_nat i - window + 1))) (i + 1)
  = lastn (Z.to_nat window) (firstn (i + 1) l).
Proof.
  intros Hi. unfold between, lastn.
  rewrite length_firstn, Nat.min_l by lia.
  destruct (Z_le_gt_dec window 0) as [Hw|Hw].
  - replace (Z.to_nat window) with 0%nat by lia.
    replace (i + 1 - Z.to_nat (Z.max 0 (Z.of_nat i - window + 1)))%nat with 0%nat by lia.
    rewrite Nat.sub_0_r. simpl.
    symmetry. apply skipn_all2. rewrite length_firstn. lia.
  - replace (Z.to_nat (Z.max 0 (Z.of_nat i - window + 1)))
      with (i + 1 - Z.to_nat window)%nat by lia.
    rewrite firstn_skipn_comm. f_equal. f_equal. lia.
Qed.

(** [window_apply] calls the function once per row [i], on the last
    [window] cells of the column up to and including row [i] (fewer at the
    start of the column, none when [window] is not positive);
    [window_mutate] stores the results as the column [name]. *)
Theorem window_apply_windows (self : Dataset) (func : callable (list value) value)
    (window : Z) (name : option string) (c : string) (g : list value -> value) :
  valid self -> parameters func = [c] -> In c (columns self) ->
  (forall w, call func [w] = Ok (g w)) ->
  window_apply self func window
  = Ok (map (fun i => g (lastn (Z.to_nat window) (firstn (i + 1) (col self c))))
            (seq 0 (height self))) /\
  window_mutate self func window name
  = Ok (dict_set self (name_or name func)
          (map (fun i => g (lastn (Z.to_nat window) (firstn (i + 1) (col self c))))
               (seq 0 (height self)))).
Proof.
  intros Hv Hp Hc Hg.
  assert (E : window_apply self func window
              = Ok (map (fun i => g (lastn (Z.to_nat window) (firstn (i + 1) (col self c))))
                        (seq 0 (height self)))).
  { unfold window_apply. rewrite Hp. simpl.
    rewrite (record_length_valid self Hv).
    apply mapM_ok. intros i Hi. apply in_seq in Hi.
    rewrite getitem_col by exact Hc. simpl. rewrite Hg.
    rewrite between_lastn; [reflexivity|].
    rewrite col_length by assumption. lia. }
  split; [exact E|].
  unfold window_mutate. rewrite E. simpl.
  apply with_one; [exact Hv|]. right. rewrite length_map, length_seq. reflexivity.
Qed.

Lemma window_apply_windows_witness :
  window_apply people
    {| __name__ := "w"; parameters := ["x"]%string; call := fun a => Ok (VList (hd [] a)) |} 2
  = Ok [VList [VInt 10]; VList [VInt 10; VInt 20]; VList [VInt 20; VInt 30]].
Proof.
  assert (Hv : valid people) by (apply validb_valid; reflexivity).
  apply (proj1 (window_apply_windows people
                  {| __name__ := "w"%string; parameters := ["x"]%string;
                     call := fun a => Ok (VList (hd [] a)) |} 2 None "x"%string
                  VList Hv eq_refl ltac:(simpl; auto) (fun w => eq_refl))).
Defined.

(** ** filter *)

Lemma keep_cons {A : Type} (x : A) (l : list A) (b : bool) (mask : list bool) :
  keep (x :: l) (b :: mask) = if b then x :: keep l mask else keep l mask.
Proof. unfold keep. simpl. destruct b; reflexivity. Qed.

Lemma keep_map {A B : Type} (f : A -> B) (l : list A) (mask : list bool) :
  keep (map f l) mask = map f (keep l mask).
Proof.
  revert mask. induction l as [|x l IH]; intros [|b mask]; try reflexivity.
  simpl map at 1. rewrite !keep_cons. destruct b; simpl; rewrite IH; reflexivity.
Qed.

Lemma keep_combine {A B : Type} (a : list A) (b : list B) (mask : list bool) :
  combine (keep a mask) (keep b mask) = keep (combine a b) mask.
Proof.
  revert b mask. induction a as [|x a IH]; intros b mask; [reflexivity|].
  destruct b as [|y b].
  - change (keep (@nil B) mask) with (@nil B). rewrite combine_nil. reflexivity.
  - destruct mask as [|m mask]; [reflexivity|].
    simpl combine at 2. rewrite !keep_cons. destruct m; simpl; rewrite IH; reflexivity.
Qed.

Lemma filter_keep {A : Type} (p : A -> bool) (l : list A) :
  filter p l = keep l (map p l).
Proof.
  induction l as [|x l IH]; [reflexivity|].
  simpl. rewrite keep_cons. destruct (p x); rewrite IH; reflexivity.
Qed.

Lemma keep_by {A B : Type} (q : B -> bool) (l : list A) (w : list B) :
  map fst (filter (fun x => q (snd x)) (combine l w)) = keep l (map q w).
Proof.
  revert w. induction l as [|x l IH]; intros [|y w]; try reflexivity.
  simpl. rewrite keep_cons. destruct (q y); simpl; rewrite IH; reflexivity.
Qed.

Lemma keep_length {A B : Type} (a : list A) (b : list B) (mask : list bool) :
  length a = length b -> length (keep a mask) = length (keep b mask).
Proof.
  revert b mask. induction a as [|x a IH]; intros [|y b] [|m mask] H;
    try reflexivity; try discriminate.
  rewrite !keep_cons. injection H as H. specialize (IH b mask H).
  destruct m; simpl; congruence.
Qed.

Lemma zip_star_keep (cols : list (list value)) (mask : list bool) :
  zip_star (map (fun c => keep c mask) cols) = keep (zip_star cols) mask.
Proof.
  induction cols as [|c cs IH]; [reflexivity|].
  destruct cs as [|c' cs].
  - simpl. rewrite keep_map. reflexivity.
  - change (map (fun c0 => keep c0 mask) (c :: c' :: cs))
      with (keep c mask :: keep c' mask :: map (fun c0 => keep c0 mask) cs).
    rewrite !zip_star_cons.
    change (keep c' mask :: map (fun c0 => keep c0 mask) cs)
      with (map (fun c0 => keep c0 mask) (c' :: cs)).
    rewrite IH. rewrite keep_combine, keep_map. reflexivity.
Qed.

Lemma cell_in_cons (c0 : string) (cs : list string) (x : value) (r : list value)
    (c : string) :
  cell_in (c0 :: cs) (x :: r) c = if String.eqb c0 c then x else cell_in cs r c.
Proof. unfold cell_in, cell. simpl. destruct (String.eqb c0 c); reflexivity. Qed.

Lemma col_cons (c0 : string) (v0 : list value) (t : Dataset) (c : string) :
  col ((c0, v0) :: t) c = if String.eqb c0 c then v0 else col t c.
Proof. unfold col. simpl. destruct (String.eqb c0 c); reflexivity. Qed.

Lemma rows_cell (t : Dataset) (c : string) :
  valid t -> In c (columns t) ->
  map (fun r => cell_in (columns t) r c) (rows t) = col t c.
Proof.
  intros [Hnd [n Hn]] Hc. unfold rows.
  induction t as [|[c0 v0] t IH]; [contradiction|].
  apply NoDup_cons_iff in Hnd. destruct Hnd as [Hnin Hnd'].
  pose proof (Forall_inv Hn) as Hv0. pose proof (Forall_inv_tail Hn) as Hn'.
  simpl in Hv0. clear Hn.
  destruct t as [|[c1 v1] t].
  - destruct Hc as [Hc|[]]. simpl in Hc. subst c0.
    rewrite col_cons, String.eqb_refl. simpl. rewrite map_map.
    rewrite (map_ext _ (fun x => x)); [apply map_id|].
    intros x. change (columns [(c, v0)]) with [c].
    rewrite cell_in_cons, String.eqb_refl. reflexivity.
  - change (map snd ((c0, v0) :: (c1, v1) :: t)) with (v0 :: v1 :: map snd t).
    rewrite zip_star_cons. rewrite map_map.
    change (columns ((c0, v0) :: (c1, v1) :: t)) with (c0 :: columns ((c1, v1) :: t)).
    assert (Hlen : length (zip_star (v1 :: map snd t)) = length v0).
    { apply zip_star_length; [discriminate|].
      change (v1 :: map snd t) with (map snd ((c1, v1) :: t)).
      apply Forall_forall. intros l Hl. apply in_map_iff in Hl.
      destruct Hl as [kv [<- Hkv]]. rewrite Hv0.
      rewrite Forall_forall in Hn'. apply Hn'. exact Hkv. }
    rewrite col_cons. destruct (String.eqb_spec c0 c) as [->|Hne].
    + rewrite (map_ext _ (fun xr : value * list value => fst xr)).
      * rewrite <- (map_map (fun xr => xr) fst). rewrite map_id.
        (* first projections of a full combine *)
        clear - Hlen. revert Hlen. generalize (zip_star (v1 :: map snd t)).
        induction v0 as [|x v0 IHv]; intros [|r rs] H; simpl in *;
          try discriminate; [reflexivity|]. f_equal. apply IHv. lia.
      * intros [x r]. simpl. rewrite cell_in_cons, String.eqb_refl. reflexivity.
    + destruct Hc as [Hc|Hc]; [simpl in Hc; contradiction|].
      specialize (IH Hnd' Hn' Hc).
      change (map snd ((c1, v1) :: t)) with (v1 :: map snd t) in IH.
      rewrite <- IH.
      rewrite (map_ext _ (fun xr : value * list value =>
                            cell_in (columns ((c1, v1) :: t)) (snd xr) c)).
      * rewrite <- (map_map snd (fun r => cell_in (columns ((c1, v1) :: t)) r c)).
        f_equal.
        clear - Hlen. revert Hlen. generalize (zip_star (v1 :: map snd t)).
        induction v0 as [|x v0 IHv]; intros [|r rs] H; simpl in *;
          try discriminate; [reflexivity|]. f_equal. apply IHv. lia.
      * intros [x r]. simpl. rewrite cell_in_cons.
        destruct (String.eqb_spec c0 c); [contradiction | reflexivity].
Qed.

Lemma keep_table_valid (self : Dataset) (mask : list bool) :
  valid self -> valid (map (fun kv => (fst kv, keep (snd kv) mask)) self).
Proof.
  intros [Hnd [n Hn]]. split.
  - unfold columns, dict_keys in *. rewrite map_map. exact Hnd.
  - destruct self as [|[c0 v0] t].
    + exists 0%nat. constructor.
    + exists (length (keep v0 mask)). apply Forall_forall. intros kv Hkv.
      apply in_map_iff in Hkv. destruct Hkv as [[c l] [<- Hin]]. simpl.
      apply keep_length. rewrite Forall_forall in Hn.
      pose proof (Hn (c, l) Hin) as H1. pose proof (Hn (c0, v0) (or_introl eq_refl)) as H2.
      simpl in H1, H2. congruence.
Qed.

Lemma keep_table_rows (self : Dataset) (mask : list bool) :
  rows (map (fun kv => (fst kv, keep (snd kv) mask)) self) = keep (rows self) mask.
Proof.
  unfold rows. rewrite map_map. simpl.
  rewrite <- (map_map snd (fun c => keep c mask)). apply zip_star_keep.
Qed.

Lemma keep_table_col (self : Dataset) (mask : list bool) (c : string) :
  col (map (fun kv => (fst kv, keep (snd kv) mask)) self) c = keep (col self c) mask.
Proof.
  unfold col. induction self as [|[k l] t IH]; simpl; [reflexivity|].
  destruct (String.eqb k c); [reflexivity | exact IH].
Qed.

Lemma keep_table_init (self : Dataset) (mask : list bool) :
  valid self ->
  Dataset_init
    (dict_of_list (map (fun c => (c, keep (col self c) mask)) (columns self)))
  = Ok (map (fun kv => (fst kv, keep (snd kv) mask)) self).
Proof.
  intros Hv.
  rewrite (table_map self (fun _ l => keep l mask)) by apply Hv.
  rewrite dict_of_list_nodup by apply (keep_table_valid self mask Hv).
  apply Dataset_init_valid. apply keep_table_valid. exact Hv.
Qed.

(** [filter] on a value keeps the rows whose cell in column [var] equals
    the value, in their order, and keeps every column; it never fails when
    [var] is a column.  When [var] is not a column it raises [KeyError],
    unless the table has no column at all. *)
Theorem filter_by_value (self : Dataset) (v : value) (var : string) :
  valid self ->
  (In var (columns self) ->
   exists t',
     Dataset_filter self (inr v) (Some var) = Ok t' /\
     valid t' /\ columns t' = columns self /\
     rows t' = filter (fun r => value_eqb (cell_in (columns self) r var) v) (rows self) /\
     (forall x, In x (col t' var) -> x = v)) /\
  (~ In var (columns self) -> self <> [] ->
   Dataset_filter self (inr v) (Some var) = Err KeyError).
Proof.
  intros Hv. split.
  - intros Hvar.
    set (mask := map (fun x => value_eqb x v) (col self var)).
    exists (map (fun kv => (fst kv, keep (snd kv) mask)) self).
    split; [|split; [|split; [|split]]].
    + unfold Dataset_filter.
      rewrite (mapM_ok _ (fun c => (c, keep (col self c) mask))).
      * simpl. apply keep_table_init. exact Hv.
      * intros c Hc. rewrite getitem_col by exact Hc. simpl.
        rewrite getitem_col by exact Hvar. simpl.
        rewrite (keep_by (fun x => value_eqb x v)). reflexivity.
    + apply keep_table_valid. exact Hv.
    + unfold columns, dict_keys. rewrite map_map. reflexivity.
    + rewrite keep_table_rows, filter_keep. f_equal. unfold mask.
      rewrite <- (rows_cell self var Hv Hvar). rewrite map_map. reflexivity.
    + intros x Hx. rewrite keep_table_col in Hx. unfold mask in Hx. rewrite <- filter_keep in Hx.
      apply filter_In in Hx. destruct Hx as [_ Hx]. apply value_eqb_eq. exact Hx.
  - intros Hnot Hne. unfold Dataset_filter.
    assert (Hbody : forall c, In c (columns self) ->
              (v0 <- getitem self c ;; w <- getitem self var ;;
               Ok (c, map fst (filter (fun x : value * value => value_eqb (snd x) v)
                                      (combine v0 w))))
              = Err KeyError).
    { intros c Hc. rewrite getitem_col by exact Hc. simpl.
      rewrite getitem_KeyError by exact Hnot. reflexivity. }
    rewrite (mapM_raises _ (columns self) KeyError); [reflexivity | |].
    + intros c Hc. right. apply Hbody. exact Hc.
    + destruct self as [|[c0 v0] t]; [contradiction|].
      exists c0. split; [left; reflexivity|]. apply Hbody. left. reflexivity.
Qed.

Lemma filter_by_value_witness :
  exists t',
    Dataset_filter people (inr (VInt 2)) (Some "id"%string) = Ok t' /\
    rows t' = [[VInt 2; VInt 10; VStr "a"]; [VInt 2; VInt 30; VStr "c"]] /\
    Dataset_filter people (inr (VInt 2)) (Some "z"%string) = Err KeyError.
Proof.
  assert (Hv : valid people) by (apply validb_valid; reflexivity).
  destruct (filter_by_value people (VInt 2) "id"%string Hv) as [Hin _].
  destruct (Hin ltac:(simpl; auto)) as [t' [E [_ [_ [Hrows _]]]]].
  exists t'. split; [exact E|]. split; [exact Hrows|].
  apply (proj2 (filter_by_value people (VInt 2) "z"%string Hv)).
  - intros H. simpl in H. repeat (destruct H as [H|H]; [discriminate|]). exact H.
  - discriminate.
Defined.

(** [filter] on a predicate calls it once per row, on the cells of the
    columns its parameters name, and keeps the rows for which it returned
    [True], in their order, with every column.  A call that returns
    anything but a [bool] makes [filter] raise [AssertionError]. *)
Theorem filter_by_callable (self : Dataset) (filter_by : callable value returned)
    (var : option string) (h : list value -> returned) :
  valid self -> incl (parameters filter_by) (columns self) ->
  (forall r, In r (rows_in self (parameters filter_by)) -> call filter_by r = Ok (h r)) ->
  ((forall r, In r (rows_in self (parameters filter_by)) -> is_bool (h r) = true) ->
   exists t',
     Dataset_filter self (inl filter_by) var = Ok t' /\
     valid t' /\ columns t' = columns self /\
     rows t' = keep (rows self)
                    (map (fun r => truth (h r)) (rows_in self (parameters filter_by)))) /\
  ((exists r, In r (rows_in self (parameters filter_by)) /\ is_bool (h r) = false) ->
   Dataset_filter self (inl filter_by) var = Err AssertionError).
Proof.
  intros Hv Hin Hcall.
  assert (E : apply self filter_by = Ok (map h (rows_in self (parameters filter_by))))
    by (apply apply_eq; assumption).
  split.
  - intros Hbool.
    set (mask := map (fun r => truth (h r)) (rows_in self (parameters filter_by))).
    exists (map (fun kv => (fst kv, keep (snd kv) mask)) self).
    split; [|split; [|split]].
    + unfold Dataset_filter. rewrite E. simpl.
      assert (Hall : forallb is_bool (map h (rows_in self (parameters filter_by))) = true).
      { apply forallb_forall. intros x Hx. apply in_map_iff in Hx.
        destruct Hx as [r [<- Hr]]. auto. }
      rewrite Hall.
      rewrite (mapM_ok _ (fun c => (c, keep (col self c) mask))).
      * simpl. apply keep_table_init. exact Hv.
      * intros c Hc. rewrite getitem_col by exact Hc. simpl.
        rewrite (keep_by truth). unfold mask. rewrite map_map. reflexivity.
    + apply keep_table_valid. exact Hv.
    + unfold columns, dict_keys. rewrite map_map. reflexivity.
    + apply keep_table_rows.
  - intros [r [Hr Hb]]. unfold Dataset_filter. rewrite E. simpl.
    assert (Hall : forallb is_bool (map h (rows_in self (parameters filter_by))) = false).
    { destruct (forallb is_bool (map h (rows_in self (parameters filter_by)))) eqn:F;
        [|reflexivity].
      rewrite forallb_forall in F. rewrite F in Hb; [discriminate|].
      apply in_map. exact Hr. }
    rewrite Hall. reflexivity.
Qed.

Lemma filter_by_callable_witness :
  exists t',
    Dataset_filter people
      (inl {| __name__ := "big"; parameters := ["x"]%string;
              call := fun r => Ok (match r with
                                   | [VInt z] => Bool (15 <? z)%Z
                                   | _ => Bool false
                                   end) |}) None = Ok t' /\
    rows t' = [[VInt 1; VInt 20; VStr "b"]; [VInt 2; VInt 30; VStr "c"]].
Proof.
  assert (Hv : valid people) by (apply validb_valid; reflexivity).
  destruct (filter_by_callable people
              {| __name__ := "big"%string; parameters := ["x"]%string;
                 call := fun r => Ok (match r with
                                      | [VInt z] => Bool (15 <? z)%Z
                                      | _ => Bool false
                                      end) |} None
              (fun r => match r with
                        | [VInt z] => Bool (15 <? z)%Z
                        | _ => Bool false
                        end) Hv
              ltac:(apply inclb_incl; reflexivity) (fun r _ => eq_refl)) as [Hall _].
  destruct Hall as [t' [E [_ [_ Hrows]]]].
  - intros r Hr. simpl in Hr.
    repeat (destruct Hr as [<-|Hr]; [reflexivity|]). contradiction.
  - exists t'. split; [exact E | exact Hrows].
Defined.

(** ** Sorted column names *)

Lemma name_key_lt (a b : string) : tuple_lt [VStr a] [VStr b] = Some (String.ltb a b).
Proof.
  unfold tuple_lt. simpl. destruct (String.eqb_spec a b) as [->|Hne]; [|reflexivity].
  destruct (String.ltb b b) eqn:E; [|reflexivity].
  pose proof (string_ltb_asym b b E). congruence.
Qed.

Lemma name_lt_asym (a b : string) : name_lt a b -> name_lt b a -> False.
Proof. unfold name_lt. intros H1 H2. apply string_ltb_asym in H1. congruence. Qed.

Lemma sorted_names_ok (l : list string) :
  exists s, sorted_names l = Ok s /\ Permutation l s /\
            (NoDup l -> StronglySorted name_lt s).
Proof.
  unfold sorted_names, sorted.
  destruct (isort_defined (fun x => [VStr x]) l) as [s Hs].
  { intros x y _ _. rewrite name_key_lt. discriminate. }
  exists s. split; [exact Hs|].
  pose proof (isort_perm _ l s Hs) as Hp. split; [exact Hp|].
  intros Hnd. pose proof (isort_sorted _ l s Hs) as Hsorted.
  assert (Hnds : NoDup s) by (eapply Permutation_NoDup; eassumption).
  clear Hs Hp Hnd. induction Hsorted as [|x s Hs IH Hx]; constructor.
  - apply IH. inversion Hnds; assumption.
  - inversion Hnds as [|? ? Hnin _]; subst.
    rewrite Forall_forall in *. intros y Hy. specialize (Hx y Hy).
    unfold le_by, key_le in Hx. destruct Hx as [Hx|Hx].
    + injection Hx as ->. contradiction.
    + rewrite name_key_lt in Hx. injection Hx as Hx. exact Hx.
Qed.

Lemma strictly_sorted_unique (a b : list string) :
  StronglySorted name_lt a -> StronglySorted name_lt b ->
  (forall x, In x a <-> In x b) -> a = b.
Proof.
  intros Ha. revert b. induction Ha as [|x a Ha IH Hx]; intros b Hb Hsame.
  - destruct b as [|y b]; [reflexivity|].
    exfalso. apply (proj2 (Hsame y)). left. reflexivity.
  - destruct Hb as [|y b Hb Hy].
    + exfalso. apply (proj1 (Hsame x)). left. reflexivity.
    + rewrite Forall_forall in Hx, Hy.
      assert (Hxy : x = y).
      { destruct (proj1 (Hsame x) (or_introl eq_refl)) as [->|Hxb]; [reflexivity|].
        destruct (proj2 (Hsame y) (or_introl eq_refl)) as [->|Hya]; [reflexivity|].
        exfalso. apply (name_lt_asym x y); auto. }
      subst y. f_equal. apply IH; [exact Hb|].
      intros z. split; intros Hz.
      * destruct (proj1 (Hsame z) (or_intror Hz)) as [<-|Hzb]; [|exact Hzb].
        exfalso. apply (name_lt_asym x x); auto.
      * destruct (proj2 (Hsame z) (or_intror Hz)) as [<-|Hza]; [|exact Hza].
        exfalso. apply (name_lt_asym x x); auto.
Qed.

Lemma sorted_names_same (a b : list string) (sa sb : list string) :
  NoDup a -> NoDup b -> sorted_names a = Ok sa -> sorted_names b = Ok sb ->
  (sa = sb <-> Permutation a b).
Proof.
  intros Ha Hb Ea Eb.
  destruct (sorted_names_ok a) as [sa' [Ea' [Pa Sa]]].
  destruct (sorted_names_ok b) as [sb' [Eb' [Pb Sb]]].
  assert (sa' = sa) by congruence. assert (sb' = sb) by congruence. subst sa' sb'.
  split.
  - intros ->. eapply Permutation_trans; [exact Pa|]. apply Permutation_sym. exact Pb.
  - intros Hp. apply strictly_sorted_unique; [auto | auto |].
    intros x. split; intros Hx.
    + eapply Permutation_in; [exact Pb|]. eapply Permutation_in; [exact Hp|].
      eapply Permutation_in; [apply Permutation_sym; exact Pa | exact Hx].
    + eapply Permutation_in; [exact Pa|].
      eapply Permutation_in; [apply Permutation_sym; exact Hp|].
      eapply Permutation_in; [apply Permutation_sym; exact Pb | exact Hx].
Qed.

(** ** stack *)

Lemma names_eqb_eq (a b : list string) : names_eqb a b = true <-> a = b.
Proof.
  unfold names_eqb. destruct (list_eq_dec string_dec a b); split; congruence.
Qed.

Lemma list_sum_heights (ds : list Dataset) (c : string) :
  (forall d, In d ds -> valid d /\ In c (columns d)) ->
  length (concat (map (fun d => col d c) ds)) = list_sum (map record_length ds).
Proof.
  induction ds as [|d ds IH]; intros H; [reflexivity|].
  simpl. rewrite length_app, IH by (intros d' Hd'; apply H; right; exact Hd').
  destruct (H d (or_introl eq_refl)) as [Hv Hc].
  rewrite col_length by assumption. rewrite (record_length_valid d Hv). reflexivity.
Qed.

Lemma stack_checks (first : Dataset) (rest : list Dataset) :
  Forall valid (first :: rest) ->
  exists cols,
    sorted_names (columns first) = Ok cols /\
    Permutation (columns first) cols /\ StronglySorted name_lt cols /\
    mapM (fun y => s <- sorted_names (columns y) ;; Ok (names_eqb cols s)) (first :: rest)
    = Ok (map (fun y => match sorted_names (columns y) with
                        | Ok s => names_eqb cols s
                        | Err _ => false
                        end) (first :: rest)) /\
    (forall y, In y (first :: rest) ->
       (match sorted_names (columns y) with
        | Ok s => names_eqb cols s
        | Err _ => false
        end = true <-> Permutation (columns first) (columns y))).
Proof.
  intros Hvalid.
  assert (Hvf : valid first) by (inversion Hvalid; assumption).
  destruct (sorted_names_ok (columns first)) as [cols [Ec [Pc Sc]]].
  exists cols. split; [exact Ec|]. split; [exact Pc|].
  split; [apply Sc; apply Hvf|]. split.
  - apply mapM_ok. intros y _.
    destruct (sorted_names_ok (columns y)) as [sy [Ey _]]. rewrite Ey. reflexivity.
  - intros y Hy.
    assert (Hvy : valid y) by (rewrite Forall_forall in Hvalid; auto).
    destruct (sorted_names_ok (columns y)) as [sy [Ey _]]. rewrite Ey.
    rewrite names_eqb_eq.
    apply sorted_names_same; [apply Hvf | apply Hvy | assumption | assumption].
Qed.

Lemma stack_other_columns (first : Dataset) (rest : list Dataset) :
  Forall valid (first :: rest) ->
  (exists y, In y rest /\ ~ Permutation (columns first) (columns y)) ->
  stack (first :: rest) = Err AssertionError.
Proof.
  intros Hvalid [y [Hy Hnp]].
  destruct (stack_checks first rest Hvalid) as [cols [Ec [_ [_ [Hm Hiff]]]]].
  unfold stack. rewrite Ec. cbn [bind]. rewrite Hm. cbn [bind].
  assert (Hall : forallb (fun b : bool => b)
                   (map (fun y => match sorted_names (columns y) with
                                  | Ok s => names_eqb cols s
                                  | Err _ => false
                                  end) (first :: rest)) = false).
  { destruct (forallb (fun b : bool => b) _) eqn:F; [|reflexivity].
    exfalso. apply Hnp. rewrite forallb_forall in F.
    assert (Hyin : In y (first :: rest)) by (right; exact Hy).
    apply (Hiff y Hyin). apply F. apply in_map_iff. exists y. auto. }
  rewrite Hall. reflexivity.
Qed.

Lemma stack_same_columns (first : Dataset) (rest : list Dataset) :
  Forall valid (first :: rest) ->
  (forall y, In y rest -> Permutation (columns first) (columns y)) ->
  exists cols,
    Permutation (columns first) cols /\ StronglySorted name_lt cols /\
    stack (first :: rest)
    = Ok (map (fun c => (c, concat (map (fun d => col d c) (first :: rest)))) cols) /\
    record_length
      (map (fun c => (c, concat (map (fun d => col d c) (first :: rest)))) cols)
    = list_sum (map record_length (first :: rest)).
Proof.
  intros Hvalid Hperm.
  destruct (stack_checks first rest Hvalid) as [cols [Ec [Pc [Sc [Hm Hiff]]]]].
  assert (Hvf : valid first) by (inversion Hvalid; assumption).
  remember (first :: rest) as ds eqn:E.
  assert (Hpall : forall y, In y ds -> Permutation (columns first) (columns y)).
  { intros y Hy. rewrite E in Hy. destruct Hy as [<-|Hy]; [apply Permutation_refl | auto]. }
  assert (Hcols : forall c d, In c cols -> In d ds -> valid d /\ In c (columns d)).
  { intros c d Hc Hd. split; [rewrite Forall_forall in Hvalid; auto|].
    eapply Permutation_in; [apply Hpall; exact Hd|].
    eapply Permutation_in; [apply Permutation_sym; exact Pc | exact Hc]. }
  assert (Hnd : NoDup cols) by (eapply Permutation_NoDup; [exact Pc | apply Hvf]).
  assert (Hlen : forall c, In c cols ->
            length (concat (map (fun d => col d c) ds)) = list_sum (map record_length ds)).
  { intros c Hc. apply list_sum_heights. intros d Hd. apply Hcols; assumption. }
  exists cols. split; [exact Pc|]. split; [exact Sc|]. split.
  - unfold stack. rewrite E at 1. cbv beta iota. rewrite Ec. cbn [bind].
    rewrite Hm. cbn [bind].
    assert (Hall : forallb (fun b : bool => b)
                     (map (fun y => match sorted_names (columns y) with
                                    | Ok s => names_eqb cols s
                                    | Err _ => false
                                    end) ds) = true).
    { apply forallb_forall. intros b Hb. apply in_map_iff in Hb.
      destruct Hb as [y [<- Hy]]. apply (Hiff y Hy). apply Hpall. exact Hy. }
    rewrite Hall.
    rewrite (mapM_ok _ (fun c => (c, concat (map (fun d => col d c) ds)))).
    + cbn [bind]. apply Dataset_init_table
        with (n := list_sum (map record_length ds)); assumption.
    + intros c Hc.
      rewrite (mapM_ok _ (fun d => col d c)); [reflexivity|].
      intros d Hd. apply getitem_col. apply Hcols; assumption.
  - rewrite record_length_valid
      by (apply table_valid with (n := list_sum (map record_length ds)); assumption).
    destruct cols as [|c0 cols].
    + simpl height. symmetry.
      assert (Hz : forall d, In d ds -> record_length d = 0%nat).
      { intros d Hd. specialize (Hpall d Hd).
        apply Permutation_sym, Permutation_nil in Pc.
        rewrite Pc in Hpall. apply Permutation_nil in Hpall.
        destruct d; [reflexivity | discriminate]. }
      clear - Hz. induction ds as [|d ds' IH]; [reflexivity|].
      simpl. rewrite (Hz d (or_introl eq_refl)). apply IH.
      intros d' Hd'. apply Hz. right. exact Hd'.
    + simpl height. apply Hlen. left. reflexivity.
Qed.

(** [stack] raises [IndexError] on the empty list and [AssertionError] when
    some table has not the columns of the first one.  On tables with the
    same columns it returns these columns in ascending order of their names,
    each holding the cells of the tables one after the other, so the result
    has as many rows as the tables together. *)
Theorem stack_columns (list_of_datasets : list Dataset) :
  Forall valid list_of_datasets ->
  (list_of_datasets = [] -> stack list_of_datasets = Err IndexError) /\
  (forall first rest, list_of_datasets = first :: rest ->
     (exists y, In y rest /\ ~ Permutation (columns first) (columns y)) ->
     stack list_of_datasets = Err AssertionError) /\
  (forall first rest, list_of_datasets = first :: rest ->
     (forall y, In y rest -> Permutation (columns first) (columns y)) ->
     exists cols,
       Permutation (columns first) cols /\ StronglySorted name_lt cols /\
       stack list_of_datasets
       = Ok (map (fun c => (c, concat (map (fun d => col d c) list_of_datasets))) cols) /\
       record_length
         (map (fun c => (c, concat (map (fun d => col d c) list_of_datasets))) cols)
       = list_sum (map record_length list_of_datasets)).
Proof.
  intros Hvalid. split; [intros ->; reflexivity|]. split.
  - intros first rest -> Hy. apply stack_other_columns; assumption.
  - intros first rest -> Hperm. apply stack_same_columns; assumption.
Qed.

Lemma stack_columns_witness :
  exists cols,
    stack [prices; [("w", [VInt 9]); ("id", [VInt 4])]%string]
    = Ok (map (fun c => (c, concat (map (fun d => col d c)
                                       [prices; [("w", [VInt 9]); ("id", [VInt 4])]%string])))
              cols).
Proof.
  assert (Hv : Forall valid [prices; [("w", [VInt 9]); ("id", [VInt 4])]%string]).
  { constructor; [apply validb_valid; reflexivity|].
    constructor; [apply validb_valid; reflexivity | constructor]. }
  destruct (proj2 (proj2 (stack_columns _ Hv)) prices
              [[("w", [VInt 9]); ("id", [VInt 4])]%string] eq_refl)
    as [cols [_ [_ [E _]]]].
  - intros y [<-|[]]. apply perm_swap.
  - exists cols. exact E.
Defined.

(** ** unique_by *)

(** [unique_by] returns the distinct rows of the named columns in strictly
    ascending order, under these names.  On a table without rows it returns
    the table without columns. *)
Theorem unique_by_rows (self : Dataset) (names : list string) :
  valid self -> incl names (columns self) ->
  (NoDup names -> names <> [] -> (0 < height self)%nat ->
   forallb (forallb hashable) (rows_in self names) = true ->
   all_comparable (rows_in self names) = true ->
   exists t',
     unique_by self names = Ok t' /\ columns t' = names /\ valid t' /\
     StronglySorted key_lt (rows t') /\
     (forall r, In r (rows t') <-> In r (rows_in self names))) /\
  (height self = 0%nat -> unique_by self names = Ok []).
Proof.
  intros Hv Hin. split.
  - intros Hnd Hne Hh Hhash Hcmp.
    pose proof (rows_in_length self names Hv Hne Hin) as Hlen.
    assert (Hdefined : exists s, isort (fun k : list value => k)
                                       (dedup (rows_in self names)) = Ok s).
    { apply isort_defined. intros x y Hx Hy.
      apply (proj1 (dedup_In _ _)) in Hx. apply (proj1 (dedup_In _ _)) in Hy.
      apply (proj1 (all_comparable_spec _) Hcmp); assumption. }
    destruct Hdefined as [s Hs].
    pose proof (isort_perm _ _ _ Hs) as Hperm.
    pose proof (isort_sorted _ _ _ Hs) as Hsorted.
    assert (Hnds : NoDup s).
    { eapply Permutation_NoDup; [exact Hperm | apply dedup_NoDup]. }
    assert (Hmem : forall r, In r s <-> In r (rows_in self names)).
    { intros r. split; intros H.
      - apply (proj1 (dedup_In _ _)).
        eapply Permutation_in; [apply Permutation_sym; exact Hperm | exact H].
      - eapply Permutation_in; [exact Hperm|]. apply (proj2 (dedup_In _ _)). exact H. }
    assert (Hsne : s <> []).
    { destruct (rows_in self names) as [|r0 rs] eqn:E; [simpl in Hlen; lia|].
      intros ->. apply (proj2 (Hmem r0)). left. reflexivity. }
    destruct names as [|n0 names'] eqn:En; [contradiction|]. rewrite <- En in *.
    assert (Hw : Forall (fun r => length r = S (length names')) s).
    { apply Forall_forall. intros r Hr. apply Hmem in Hr.
      pose proof (zip_star_width (map (col self) names)) as Hwd.
      rewrite Forall_forall in Hwd. unfold rows_in in Hr.
      rewrite (Hwd r Hr), length_map, En. reflexivity. }
    destruct (rebuilt_table names s (length names') Hnd
                ltac:(rewrite En; reflexivity) Hsne Hw) as [Hc [Hvt [Hr Hht]]].
    exists (combine names (zip_star s)).
    split; [|split; [exact Hc|split; [exact Hvt|split]]].
    + unfold unique_by. rewrite mapM_getitems by exact Hin. simpl.
      change (zip_star (map (col self) names)) with (rows_in self names).
      unfold set_of. rewrite Hhash. simpl. unfold sorted. rewrite Hs. simpl.
      rewrite dict_of_list_nodup by apply Hvt.
      apply Dataset_init_valid. exact Hvt.
    + rewrite Hr. apply sorted_strict; assumption.
    + intros r. rewrite Hr. apply Hmem.
  - intros Hh. unfold unique_by. rewrite mapM_getitems by exact Hin. simpl.
    assert (E : zip_star (map (col self) names) = []).
    { apply zip_star_nil_column. apply Forall_forall. intros l Hl.
      apply in_map_iff in Hl. destruct Hl as [c [<- Hc]].
      rewrite col_length by auto. exact Hh. }
    rewrite E. simpl. destruct names; reflexivity.
Qed.

Lemma unique_by_rows_witness :
  exists t',
    unique_by people ["id"]%string = Ok t' /\ columns t' = ["id"]%string /\
    StronglySorted key_lt (rows t').
Proof.
  assert (Hv : valid people) by (apply validb_valid; reflexivity).
  destruct (proj1 (unique_by_rows people ["id"]%string Hv
                     ltac:(apply inclb_incl; reflexivity)))
    as [t' [E [Hc [_ [Hs _]]]]].
  - apply nodupb_NoDup. reflexivity.
  - discriminate.
  - simpl. lia.
  - reflexivity.
  - reflexivity.
  - exists t'. auto.
Defined.

(** ** first *)

Lemma zip_star_hd (cols : list (list value)) :
  cols <> [] -> Forall (fun c => c <> []) cols ->
  exists rest, zip_star cols = map (hd VNone) cols :: rest.
Proof.
  induction cols as [|c cs IH]; intros Hne Hall; [contradiction|].
  inversion Hall as [|? ? Hc Hcs]; subst.
  destruct c as [|x c]; [contradiction|].
  destruct cs as [|c' cs].
  - simpl. eexists. reflexivity.
  - destruct (IH ltac:(discriminate) Hcs) as [rest Hrest].
    rewrite zip_star_cons, Hrest. simpl. eexists. reflexivity.
Qed.

(** [first] is the first record of the table; on a table that has columns
    but no row it raises [IndexError]. *)
Theorem first_record (self : Dataset) :
  valid self ->
  ((0 < height self)%nat ->
   exists r rest, records self = r :: rest /\ first self = Ok r) /\
  (self <> [] -> height self = 0%nat -> first self = Err IndexError).
Proof.
  intros Hv. split.
  - intros Hh.
    assert (Hne : self <> []) by (intros ->; simpl in Hh; lia).
    assert (Hcols : Forall (fun c : list value => c <> []) (map snd self)).
    { apply Forall_forall. intros l Hl. apply in_map_iff in Hl.
      destruct Hl as [kv [<- Hkv]].
      pose proof (column_height self kv (proj2 Hv) Hkv) as Hlen.
      rewrite (record_length_valid self Hv) in Hlen.
      intros E. rewrite E in Hlen. simpl in Hlen. lia. }
    destruct (zip_star_hd (map snd self)) as [rest Hrest]; [|exact Hcols|].
    { destruct self; [contradiction | discriminate]. }
    exists (combine (columns self) (map (hd VNone) (map snd self))).
    exists (map (fun row => combine (columns self) row) rest).
    split.
    + rewrite records_rows by apply Hv. unfold rows. rewrite Hrest. reflexivity.
    + unfold first.
      rewrite (mapM_ok _ (fun c => (c, hd VNone (col self c)))).
      * simpl.
        assert (E : map (fun c => (c, hd VNone (col self c))) (columns self)
                    = combine (columns self) (map (hd VNone) (map snd self))).
        { rewrite <- (map_snd_cols self (proj1 Hv)).
          induction (columns self) as [|c cs IHc]; simpl; [reflexivity|].
          rewrite IHc. reflexivity. }
        rewrite E. rewrite dict_of_list_nodup; [reflexivity|].
        change (NoDup (dict_keys (combine (columns self) (map (hd VNone) (map snd self))))).
        rewrite combine_keys
          by (unfold columns, dict_keys; rewrite !length_map; reflexivity).
        apply Hv.
      * intros c Hc. rewrite getitem_col by exact Hc. simpl.
        pose proof (col_length self c Hv Hc) as Hlen.
        destruct (col self c); [simpl in Hlen; lia | reflexivity].
  - intros Hne Hh. unfold first.
    rewrite (mapM_raises _ (columns self) IndexError); [reflexivity | |].
    + intros c Hc. right. rewrite getitem_col by exact Hc. simpl.
      pose proof (col_length self c Hv Hc) as Hlen.
      destruct (col self c); [reflexivity | simpl in Hlen; lia].
    + destruct self as [|[c0 v0] t]; [contradiction|].
      exists c0. split; [left; reflexivity|].
      rewrite getitem_col by (left; reflexivity). simpl.
      simpl in Hh. unfold col. simpl. rewrite String.eqb_refl.
      destruct v0; [reflexivity | discriminate].
Qed.

Lemma first_record_witness :
  first people = Ok [("id", VInt 2); ("x", VInt 10); ("y", VStr "a")]%string /\
  first no_rows = Err IndexError.
Proof.
  assert (Hv : valid people) by (apply validb_valid; reflexivity).
  assert (Hv' : valid no_rows) by (apply validb_valid; reflexivity).
  split.
  - destruct (proj1 (first_record people Hv) ltac:(simpl; lia)) as [r [rest [Hr E]]].
    injection Hr as <- _. exact E.
  - apply (proj2 (first_record no_rows Hv')); [discriminate | reflexivity].
Defined.

(** ** sort, twice *)

Lemma tuple_lt_refl (a : list value) : tuple_lt a a = Some false.
Proof.
  induction a as [|x a IH]; [reflexivity|].
  rewrite tuple_lt_cons, value_eqb_refl. exact IH.
Qed.

Lemma isort_sorted_id {A : Type} (key : A -> list value) (l : list A) :
  StronglySorted (le_by key) l -> isort key l = Ok l.
Proof.
  induction 1 as [|x l Hl IH Hx]; [reflexivity|].
  simpl. rewrite IH. simpl. destruct l as [|y l']; [reflexivity|].
  simpl. inversion Hx as [|? ? Hxy _]; subst.
  assert (E : tuple_lt (key y) (key x) = Some false).
  { destruct Hxy as [Heq|Hlt].
    - rewrite Heq. apply tuple_lt_refl.
    - apply tuple_lt_asym. exact Hlt. }
  rewrite E. reflexivity.
Qed.

Lemma sorted_again {A : Type} (key : A -> list value) (l s : list A) (reverse : bool) :
  sorted key l reverse = Ok s -> sorted key s reverse = Ok s.
Proof.
  unfold sorted. destruct reverse.
  - intros H. apply bind_ok in H. destruct H as [r [Hr Hs]]. injection Hs as <-.
    rewrite rev_involutive.
    rewrite (isort_sorted_id key r (isort_sorted key _ _ Hr)). reflexivity.
  - intros H. apply isort_sorted_id. apply (isort_sorted key _ _ H).
Qed.

(** Sorting a sorted table changes nothing: when [sort] returns a table,
    sorting that table again by the same names, in the same direction,
    returns it as it is, rows and column order. *)
Theorem sort_idempotent (self : Dataset) (names : list string) (reverse : bool)
    (t' : Dataset) :
  valid self -> NoDup names -> incl names (columns self) -> (0 < height self)%nat ->
  sort self names reverse = Ok t' -> sort t' names reverse = Ok t'.
Proof.
  intros Hv Hnd Hin Hh Hs.
  destruct (sort_ok self names reverse t' Hv Hnd Hin Hh Hs)
    as [s [Hsorted [Et [Hc [Hvt [Hr Hht]]]]]].
  assert (Hso : sort_order t' names = columns t').
  { unfold sort_order at 1. rewrite Hc. unfold sort_order.
    rewrite filter_rest; [reflexivity|].
    apply (sort_order_nodup self names (proj1 Hv) Hnd). }
  rewrite sort_eq; [|exact Hvt|exact Hnd| |lia].
  - rewrite Hso, rows_in_columns by apply Hvt. rewrite Hr.
    rewrite (sorted_again _ _ _ _ Hsorted). simpl.
    rewrite Hc. rewrite <- Et. reflexivity.
  - rewrite Hc. intros c Hc'. unfold sort_order. apply in_or_app. left. exact Hc'.
Qed.

Lemma sort_idempotent_witness :
  exists t', sort people ["id"]%string false = Ok t' /\ sort t' ["id"]%string false = Ok t'.
Proof.
  assert (Hv : valid people) by (apply validb_valid; reflexivity).
  eexists. split; [reflexivity|].
  apply (sort_idempotent people ["id"]%string false _ Hv).
  - apply nodupb_NoDup. reflexivity.
  - apply inclb_incl. reflexivity.
  - simpl. lia.
  - reflexivity.
Defined.

(** ** merge on names that are not columns *)

(** [merge] on a key name that is not a column of the left table raises
    [AssertionError]; so it does when the left table can be sorted and the
    name is missing on the right. *)
Theorem merge_unknown_key (self right : Dataset) (on : list string) (how : string) :
  In how ["inner"; "left"; "right"; "full"]%string ->
  ((exists g, In g on /\ ~ In g (columns self)) ->
   merge self right (Some on) how = Err AssertionError) /\
  ((exists t', sort self on false = Ok t') ->
   (exists g, In g on /\ ~ In g (columns right)) ->
   merge self right (Some on) how = Err AssertionError).
Proof.
  intros Hhow. apply mem_In in Hhow. split.
  - intros Hg. unfold merge. rewrite Hhow.
    rewrite (sort_unknown_name self on false Hg). reflexivity.
  - intros [t' Ht] Hg. unfold merge. rewrite Hhow. rewrite Ht. simpl.
    rewrite (sort_unknown_name right on false Hg). reflexivity.
Qed.

Lemma merge_unknown_key_witness :
  merge orders prices (Some ["v"]%string) "inner" = Err AssertionError.
Proof.
  apply (proj2 (merge_unknown_key orders prices ["v"]%string "inner"%string
                  ltac:(simpl; auto))).
  - eexists. reflexivity.
  - exists "v"%string. split; [left; reflexivity|].
    intros H. simpl in H. repeat (destruct H as [H|H]; [discriminate|]). exact H.
Defined.

(** ** slice *)

Lemma item_nat (l : list value) (a : nat) (x : value) :
  nth_error l a = Some x -> item l (Z.of_nat a) = [x].
Proof.
  intros H. unfold item.
  destruct (Z.ltb_spec (Z.of_nat a) 0) as [Hlt|_]; [lia|].
  rewrite Nat2Z.id, H. reflexivity.
Qed.

Lemma skipn_item (l : list value) (a : nat) :
  (a < length l)%nat ->
  exists x, nth_error l a = Some x /\ skipn a l = x :: skipn (S a) l.
Proof.
  revert a. induction l as [|y l IH]; intros a Ha; simpl in Ha; [lia|].
  destruct a as [|a].
  - exists y. split; reflexivity.
  - destruct (IH a ltac:(lia)) as [x [Hx Hs]]. exists x. split; [exact Hx|].
    simpl. simpl in Hs. exact Hs.
Qed.

Lemma flat_map_seq_shift {B : Type} (f : nat -> list B) (n : nat) :
  flat_map f (seq 1 n) = flat_map (fun i => f (S i)) (seq 0 n).
Proof. rewrite <- seq_shift. rewrite flat_map_concat_map, map_map, <- flat_map_concat_map. reflexivity. Qed.

Lemma flat_map_ext_seq {B : Type} (f g : nat -> list B) (a n : nat) :
  (forall i, (a <= i < a + n)%nat -> f i = g i) -> flat_map f (seq a n) = flat_map g (seq a n).
Proof.
  intros H. rewrite !flat_map_concat_map. f_equal. apply map_ext_in.
  intros i Hi. apply in_seq in Hi. apply H. exact Hi.
Qed.

Lemma items_forward (l : list value) (a n : nat) :
  (a + n <= length l)%nat ->
  flat_map (fun i => item l (Z.of_nat a + Z.of_nat i * 1)) (seq 0 n)
  = firstn n (skipn a l).
Proof.
  revert a. induction n as [|n IH]; intros a Ha; [reflexivity|].
  change (seq 0 (S n)) with (0%nat :: seq 1 n). cbn [flat_map].
  rewrite flat_map_seq_shift.
  destruct (skipn_item l a ltac:(lia)) as [x [Hx Hs]].
  rewrite Hs. cbn [firstn].
  assert (E0 : item l (Z.of_nat a + Z.of_nat 0 * 1) = [x]).
  { replace (Z.of_nat a + Z.of_nat 0 * 1)%Z with (Z.of_nat a) by lia.
    apply item_nat. exact Hx. }
  rewrite E0. cbn [app]. f_equal.
  rewrite <- (IH (S a)) by lia.
  apply flat_map_ext. intros i. f_equal. lia.
Qed.

Lemma item_app_l (l : list value) (x : value) (j : Z) :
  (j < Z.of_nat (length l))%Z -> item (l ++ [x]) j = item l j.
Proof.
  intros Hj. unfold item. destruct (Z.ltb_spec j 0) as [Hneg|Hpos]; [reflexivity|].
  rewrite nth_error_app1 by lia. reflexivity.
Qed.

Lemma items_backward (l : list value) :
  flat_map (fun i => item l (Z.of_nat (length l) - 1 + Z.of_nat i * -1)) (seq 0 (length l))
  = rev l.
Proof.
  induction l as [|x l IH] using rev_ind; [reflexivity|].
  rewrite rev_app_distr, length_app. simpl length. simpl rev. simpl app.
  replace (length l + 1)%nat with (S (length l)) by lia.
  change (seq 0 (S (length l))) with (0%nat :: seq 1 (length l)). cbn [flat_map].
  rewrite flat_map_seq_shift.
  assert (E0 : item (l ++ [x]) (Z.of_nat (S (length l)) - 1 + Z.of_nat 0 * -1) = [x]).
  { replace (Z.of_nat (S (length l)) - 1 + Z.of_nat 0 * -1)%Z
      with (Z.of_nat (length l)) by lia.
    apply item_nat. rewrite nth_error_app2, Nat.sub_diag by lia. reflexivity. }
  rewrite E0. cbn [app]. f_equal. rewrite <- IH.
  apply flat_map_ext_seq. intros i Hi.
  rewrite item_app_l by lia. f_equal. lia.
Qed.

(** Slices with the default step. *)
Lemma getslice_forward (l : list value) (start stop : option Z) :
  getslice l start stop None
  = Some (between l
            (Z.to_nat (match start with
                       | Some i => clip (Z.of_nat (length l)) 1 i
                       | None => 0%Z
                       end))
            (Z.to_nat (match stop with
                       | Some i => clip (Z.of_nat (length l)) 1 i
                       | None => Z.of_nat (length l)
                       end))).
Proof.
  unfold getslice, slice_indices. cbn [Z.eqb Z.ltb Z.compare].
  set (a := match start with
            | Some i => clip (Z.of_nat (length l)) 1 i
            | None => 0%Z
            end).
  set (b := match stop with
            | Some i => clip (Z.of_nat (length l)) 1 i
            | None => Z.of_nat (length l)
            end).
  assert (Hclip : forall i, (0 <= clip (Z.of_nat (length l)) 1 i <= Z.of_nat (length l))%Z).
  { intros i. unfold clip. cbn [Z.ltb Z.compare].
    destruct (Z.ltb_spec i 0); [destruct (Z.ltb_spec (i + Z.of_nat (length l)) 0)|
                                destruct (Z.leb_spec (Z.of_nat (length l)) i)]; lia. }
  assert (Ha : (0 <= a <= Z.of_nat (length l))%Z).
  { unfold a. destruct start; [apply Hclip | lia]. }
  assert (Hb : (0 <= b <= Z.of_nat (length l))%Z).
  { unfold b. destruct stop; [apply Hclip | lia]. }
  f_equal. unfold between.
  destruct (Z.ltb_spec a b) as [Hlt|Hge].
  - rewrite Z.div_1_r.
    replace (Z.to_nat (b - a - 1 + 1)) with (Z.to_nat b - Z.to_nat a)%nat by lia.
    rewrite <- (items_forward l (Z.to_nat a)) by lia.
    apply flat_map_ext. intros i. f_equal. lia.
  - replace (Z.to_nat b - Z.to_nat a)%nat with 0%nat by lia. reflexivity.
Qed.

Lemma getslice_all (l : list value) : getslice l None None None = Some l.
Proof.
  rewrite getslice_forward. unfold between. rewrite Nat2Z.id. simpl.
  rewrite Nat.sub_0_r, firstn_all. reflexivity.
Qed.

Lemma getslice_head (l : list value) (k : nat) :
  getslice l None (Some (Z.of_nat k)) None = Some (firstn k l).
Proof.
  rewrite getslice_forward. unfold between, clip. cbn [Z.ltb Z.compare]. simpl skipn.
  rewrite Nat.sub_0_r. f_equal.
  destruct (Z.ltb_spec (Z.of_nat k) 0) as [Hneg|_]; [lia|].
  destruct (Z.leb_spec (Z.of_nat (length l)) (Z.of_nat k)) as [Hge|Hlt].
  - rewrite Nat2Z.id. rewrite firstn_all. symmetry. apply firstn_all2. lia.
  - rewrite Nat2Z.id. reflexivity.
Qed.

Lemma getslice_tail (l : list value) (k : nat) :
  getslice l (Some (Z.of_nat k)) None None = Some (skipn k l).
Proof.
  rewrite getslice_forward. unfold between, clip. cbn [Z.ltb Z.compare]. f_equal.
  rewrite Nat2Z.id.
  destruct (Z.ltb_spec (Z.of_nat k) 0) as [Hneg|_]; [lia|].
  destruct (Z.leb_spec (Z.of_nat (length l)) (Z.of_nat k)) as [Hge|Hlt].
  - rewrite Nat2Z.id, Nat.sub_diag. simpl. symmetry. apply skipn_all2. lia.
  - rewrite Nat2Z.id. apply firstn_all2. rewrite length_skipn. lia.
Qed.

Lemma getslice_last (l : list value) (k : nat) :
  (0 < k)%nat -> getslice l (Some (- Z.of_nat k)%Z) None None = Some (lastn k l).
Proof.
  intros Hk. rewrite getslice_forward. unfold between, lastn, clip.
  cbn [Z.ltb Z.compare]. f_equal. rewrite Nat2Z.id.
  destruct (Z.ltb_spec (- Z.of_nat k) 0) as [_|Hpos]; [|lia].
  destruct (Z.ltb_spec (- Z.of_nat k + Z.of_nat (length l)) 0) as [Hneg|Hnn].
  - replace (length l - k)%nat with 0%nat by lia. simpl.
    rewrite Nat.sub_0_r. apply firstn_all.
  - replace (Z.to_nat (- Z.of_nat k + Z.of_nat (length l))) with (length l - k)%nat by lia.
    apply firstn_all2. rewrite length_skipn. lia.
Qed.

Lemma getslice_backwards (l : list value) : getslice l None None (Some (-1)%Z) = Some (rev l).
Proof.
  unfold getslice, slice_indices. cbn [Z.eqb Z.ltb Z.compare Z.opp].
  destruct (Z.ltb_spec (-1) (Z.of_nat (length l) - 1)) as [Hlt|Hge].
  - rewrite Z.div_1_r.
    replace (Z.to_nat (Z.of_nat (length l) - 1 - -1 - 1 + 1)) with (length l) by lia.
    rewrite items_backward. reflexivity.
  - destruct l; [reflexivity | simpl length in Hge; lia].
Qed.

Lemma slice_columns_cut (self : Dataset) (cols : list string) (start stop step : option Z)
    (cut : list value -> list value) :
  (forall l, getslice l start stop step = Some (cut l)) -> incl cols (columns self) ->
  slice_columns self cols start stop step
  = Some (Ok (map (fun c => (c, cut (col self c))) cols)).
Proof.
  intros Hcut. induction cols as [|c cols IH]; intros Hin; [reflexivity|].
  simpl. rewrite getitem_col by (apply Hin; left; reflexivity).
  rewrite Hcut. rewrite IH by (intros x Hx; apply Hin; right; exact Hx). reflexivity.
Qed.

Lemma map_columns_valid (f : list value -> list value) (self : Dataset) :
  valid self -> (forall l l', length l = length l' -> length (f l) = length (f l')) ->
  valid (map_columns f self).
Proof.
  intros [Hnd [n Hn]] Hlen. split.
  - unfold map_columns, columns, dict_keys in *. rewrite map_map. exact Hnd.
  - destruct self as [|[c0 v0] t].
    + exists 0%nat. constructor.
    + exists (length (f v0)). apply Forall_forall. intros kv Hkv.
      apply in_map_iff in Hkv. destruct Hkv as [[c l] [<- Hin]]. simpl.
      apply Hlen. rewrite Forall_forall in Hn.
      pose proof (Hn (c, l) Hin) as H1. pose proof (Hn (c0, v0) (or_introl eq_refl)) as H2.
      simpl in H1, H2. congruence.
Qed.

Lemma slice_cut (self : Dataset) (start stop step : option Z)
    (cut : list value -> list value) :
  valid self -> (forall l, getslice l start stop step = Some (cut l)) ->
  (forall l l', length l = length l' -> length (cut l) = length (cut l')) ->
  slice self start stop step = Some (Ok (map_columns cut self)).
Proof.
  intros Hv Hcut Hlen. unfold slice.
  rewrite (slice_columns_cut self (columns self) start stop step cut Hcut (incl_refl _)).
  simpl. rewrite (table_map self (fun _ l => cut l)) by apply Hv.
  change (map (fun kv : string * list value => (fst kv, cut (snd kv))) self)
    with (map_columns cut self).
  pose proof (map_columns_valid cut self Hv Hlen) as Hv'.
  rewrite dict_of_list_nodup by apply Hv'.
  rewrite Dataset_init_valid by exact Hv'. reflexivity.
Qed.

Lemma map_columns_id (f : list value -> list value) (self : Dataset) :
  (forall l, f l = l) -> map_columns f self = self.
Proof.
  intros H. unfold map_columns. rewrite <- (map_id self) at 2.
  apply map_ext. intros [c l]. simpl. rewrite H. reflexivity.
Qed.

(** [slice] cuts every column in the same way and keeps the columns.  With
    no argument it returns the table; [slice(None, k)] keeps the first [k]
    rows, [slice(k)] drops them, and [slice(-k)] keeps the last [k] rows
    (the whole table when it has fewer). *)
Theorem slice_head_and_tail (self : Dataset) (k : nat) :
  valid self ->
  slice self None None None = Some (Ok self) /\
  slice self None (Some (Z.of_nat k)) None = Some (Ok (map_columns (firstn k) self)) /\
  slice self (Some (Z.of_nat k)) None None = Some (Ok (map_columns (skipn k) self)) /\
  ((0 < k)%nat ->
   slice self (Some (- Z.of_nat k)%Z) None None = Some (Ok (map_columns (lastn k) self))).
Proof.
  intros Hv. split; [|split; [|split]].
  - rewrite (slice_cut self None None None (fun l => l) Hv getslice_all)
      by (intros; assumption).
    rewrite map_columns_id by reflexivity. reflexivity.
  - apply slice_cut; [exact Hv | intros l; apply getslice_head |].
    intros l l' H. rewrite !length_firstn, H. reflexivity.
  - apply slice_cut; [exact Hv | intros l; apply getslice_tail |].
    intros l l' H. rewrite !length_skipn, H. reflexivity.
  - intros Hk. apply slice_cut; [exact Hv | intros l; apply getslice_last; exact Hk |].
    intros l l' H. unfold lastn. rewrite !length_skipn, H. reflexivity.
Qed.

Lemma slice_head_and_tail_witness :
  slice people None (Some 2%Z) None
  = Some (Ok [("id", [VInt 2; VInt 1]); ("x", [VInt 10; VInt 20]);
              ("y", [VStr "a"; VStr "b"])]%string) /\
  slice people (Some (-1)%Z) None None
  = Some (Ok [("id", [VInt 2]); ("x", [VInt 30]); ("y", [VStr "c"])]%string).
Proof.
  assert (Hv : valid people) by (apply validb_valid; reflexivity).
  split.
  - exact (proj1 (proj2 (slice_head_and_tail people 2 Hv))).
  - exact (proj2 (proj2 (proj2 (slice_head_and_tail people 1 Hv))) ltac:(lia)).
Defined.

(** [slice] with step [-1] returns the rows in reverse order, and reversing
    twice gives the table back.  A zero step makes [slice] raise
    [ValueError] as soon as the table has a column; on the table without
    columns nothing is sliced and the empty table is returned. *)
Theorem slice_steps (self : Dataset) :
  valid self ->
  slice self None None (Some (-1)%Z) = Some (Ok (map_columns (@rev value) self)) /\
  slice (map_columns (@rev value) self) None None (Some (-1)%Z) = Some (Ok self) /\
  (forall start stop, self <> [] -> slice self start stop (Some 0%Z) = None) /\
  (forall start stop, slice [] start stop (Some 0%Z) = Some (Ok [])).
Proof.
  intros Hv.
  assert (Hlen : forall l l' : list value,
            length l = length l' -> length (rev l) = length (rev l'))
    by (intros l l' H; rewrite !length_rev; exact H).
  split; [|split; [|split]].
  - apply slice_cut; [exact Hv | apply getslice_backwards | exact Hlen].
  - rewrite (slice_cut _ None None (Some (-1)%Z) (@rev value)
               (map_columns_valid _ self Hv Hlen) getslice_backwards Hlen).
    f_equal. f_equal. unfold map_columns. rewrite map_map. simpl.
    rewrite <- (map_id self) at 2. apply map_ext. intros [c l]. simpl.
    rewrite rev_involutive. reflexivity.
  - intros start stop Hne. destruct self as [|[c v] t]; [contradiction|].
    unfold slice. simpl. unfold getitem. simpl. rewrite String.eqb_refl.
    reflexivity.
  - reflexivity.
Qed.

Lemma slice_steps_witness :
  slice prices None None (Some (-1)%Z)
  = Some (Ok [("id", [VInt 3; VInt 2]); ("w", [VInt 8; VInt 7])]%string) /\
  slice prices None None (Some 0%Z) = None.
Proof.
  assert (Hv : valid prices) by (apply validb_valid; reflexivity).
  split.
  - exact (proj1 (slice_steps prices Hv)).
  - apply (proj1 (proj2 (proj2 (slice_steps prices Hv)))). discriminate.
Defined.

(** ** headings_squish *)

Lemma squished_valid (self : Dataset) (gs : list string) (vn hn h : string) :
  valid self -> NoDup (gs ++ [hn; vn]) -> incl gs (columns self) -> In h (columns self) ->
  valid (squished self gs vn hn h) /\ height (squished self gs vn hn h) = height self.
Proof.
  intros Hv Hnd Hgs Hh.
  assert (Hlen : forall c, In c (gs ++ [hn; vn]) ->
            length (if String.eqb c hn then repeat (VStr h) (height self)
                    else if String.eqb c vn then col self h else col self c)
            = height self).
  { intros c Hc. destruct (String.eqb_spec c hn) as [->|Hn1]; [apply repeat_length|].
    destruct (String.eqb_spec c vn) as [->|Hn2]; [apply col_length; assumption|].
    apply col_length; [assumption|]. apply Hgs.
    apply in_app_or in Hc. destruct Hc as [Hc|[Hc|[Hc|[]]]]; congruence. }
  split.
  - unfold squished. apply table_valid with (n := height self); assumption.
  - unfold squished. destruct gs as [|g gs]; simpl.
    + rewrite String.eqb_refl. apply repeat_length.
    + apply (Hlen g). left. reflexivity.
Qed.

Lemma NoDup_app_disjoint {A : Type} (a b : list A) (x : A) :
  NoDup (a ++ b) -> In x a -> In x b -> False.
Proof.
  induction a as [|y a IH]; simpl; intros Hnd Ha Hb; [contradiction|].
  inversion Hnd as [|? ? Hnin Hnd']; subst.
  destruct Ha as [->|Ha]; [|auto].
  apply Hnin. apply in_or_app. right. exact Hb.
Qed.

Lemma squished_built (self : Dataset) (gs : list string) (vn hn h : string) :
  valid self -> NoDup (gs ++ [hn; vn]) -> incl gs (columns self) -> In h (columns self) ->
  (gs' <- mapM (fun g => v <- getitem self g ;; Ok (g, v)) gs ;;
   hs <- getitem self h ;;
   vs <- getitem self h ;;
   Dataset_init (dict_update (dict_of_list gs')
                   [(hn, repeat (VStr h) (length hs)); (vn, vs)]))
  = Ok (squished self gs vn hn h).
Proof.
  intros Hv Hnd Hgs Hh.
  rewrite mapM_getitem_ok by exact Hgs. cbn [bind].
  rewrite getitem_col by exact Hh. cbn [bind].
  rewrite col_length by assumption.
  assert (Hg : NoDup gs) by (apply NoDup_app_remove_r in Hnd; exact Hnd).
  assert (Hhv : hn <> vn).
  { apply NoDup_app_remove_l in Hnd. inversion Hnd as [|? ? Hnin _]; subst.
    intros ->. apply Hnin. left. reflexivity. }
  assert (Ekeys : map fst (map (fun c => (c, col self c)) gs) = gs).
  { rewrite map_map. simpl. apply map_id. }
  rewrite dict_of_list_nodup by (rewrite Ekeys; exact Hg).
  rewrite dict_update_new
    by (unfold dict_keys; rewrite Ekeys; exact Hnd).
  assert (E : map (fun c => (c, col self c)) gs
              ++ [(hn, repeat (VStr h) (height self)); (vn, col self h)]
              = squished self gs vn hn h).
  { unfold squished. rewrite map_app. f_equal.
    - apply map_ext_in. intros c Hc.
      destruct (String.eqb_spec c hn) as [->|_].
      { exfalso. apply (NoDup_app_disjoint gs [hn; vn] hn Hnd Hc). left. reflexivity. }
      destruct (String.eqb_spec c vn) as [->|_]; [|reflexivity].
      exfalso. apply (NoDup_app_disjoint gs [hn; vn] vn Hnd Hc). right. left. reflexivity.
    - simpl. rewrite !String.eqb_refl.
      destruct (String.eqb_spec vn hn) as [Heq|_]; [congruence | reflexivity]. }
  rewrite E. apply Dataset_init_valid.
  apply squished_valid; assumption.
Qed.

Lemma squished_col (self : Dataset) (gs : list string) (vn hn h c : string) :
  In c (gs ++ [hn; vn]) ->
  col (squished self gs vn hn h) c
  = if String.eqb c hn then repeat (VStr h) (height self)
    else if String.eqb c vn then col self h else col self c.
Proof.
  intros Hc. unfold squished.
  apply (table_col (gs ++ [hn; vn])
           (fun c => if String.eqb c hn then repeat (VStr h) (height self)
                     else if String.eqb c vn then col self h else col self c)).
  exact Hc.
Qed.

(** [headings_squish] stacks one table per heading: the grouping columns of
    the table, the heading once per row, and the cells of that column.  The
    result has the rows of the table once per heading; its columns come in
    ascending order of their names.  Without a heading it raises
    [IndexError]. *)
Theorem headings_squish_rows (self : Dataset) (grouping_cols headings : list string)
    (value_name heading_name : string) :
  valid self -> NoDup (grouping_cols ++ [heading_name; value_name]) ->
  incl grouping_cols (columns self) -> incl headings (columns self) ->
  (headings = [] ->
   headings_squish self grouping_cols headings value_name heading_name = Err IndexError) /\
  (headings <> [] ->
   exists t',
     headings_squish self grouping_cols headings value_name heading_name = Ok t' /\
     Permutation (grouping_cols ++ [heading_name; value_name]) (columns t') /\
     StronglySorted name_lt (columns t') /\
     (forall g, In g grouping_cols ->
        col t' g = concat (map (fun _ => col self g) headings)) /\
     col t' heading_name
       = concat (map (fun h => repeat (VStr h) (height self)) headings) /\
     col t' value_name = concat (map (col self) headings) /\
     record_length t' = (length headings * height self)%nat).
Proof.
  intros Hv Hnd Hgs Hhs.
  assert (Htables :
    mapM (fun h =>
            gs <- mapM (fun g => v <- getitem self g ;; Ok (g, v)) grouping_cols ;;
            hs <- getitem self h ;;
            vs <- getitem self h ;;
            Dataset_init
              (dict_update (dict_of_list gs)
                           [(heading_name, repeat (VStr h) (length hs));
                            (value_name, vs)]))
         headings
    = Ok (map (squished self grouping_cols value_name heading_name) headings)).
  { apply mapM_ok. intros h Hh. apply squished_built; auto. }
  split.
  - intros ->. reflexivity.
  - intros Hne. unfold headings_squish. rewrite Htables. cbn [bind].
    destruct headings as [|h0 hs]; [contradiction|].
    set (T := squished self grouping_cols value_name heading_name) in *.
    assert (Hvalid : Forall valid (map T (h0 :: hs))).
    { apply Forall_forall. intros d Hd. apply in_map_iff in Hd.
      destruct Hd as [h [<- Hh]]. apply squished_valid; auto. }
    assert (HcolsT : forall h, columns (T h) = grouping_cols ++ [heading_name; value_name]).
    { intros h. unfold T, squished. apply table_columns. }
    destruct (stack_same_columns (T h0) (map T hs)) as [cols [Pc [Sc [Es Hrl]]]].
    + exact Hvalid.
    + intros y Hy. apply in_map_iff in Hy. destruct Hy as [h [<- _]].
      rewrite !HcolsT. apply Permutation_refl.
    + change (T h0 :: map T hs) with (map T (h0 :: hs)) in Es, Hrl.
      rewrite HcolsT in Pc.
      eexists. split; [exact Es|].
      rewrite table_columns. split; [exact Pc|]. split; [exact Sc|].
      assert (Hcol : forall c, In c (grouping_cols ++ [heading_name; value_name]) ->
                col (map (fun c => (c, concat (map (fun d => col d c) (map T (h0 :: hs)))))
                         cols) c
                = concat (map (fun h => if String.eqb c heading_name
                                        then repeat (VStr h) (height self)
                                        else if String.eqb c value_name then col self h
                                        else col self c) (h0 :: hs))).
      { intros c Hc.
        rewrite (table_col cols (fun c => concat (map (fun d => col d c) (map T (h0 :: hs)))))
          by (eapply Permutation_in; [exact Pc | exact Hc]).
        rewrite map_map. f_equal. apply map_ext. intros h.
        apply squished_col. exact Hc. }
      assert (Hhv : heading_name <> value_name).
      { apply NoDup_app_remove_l in Hnd. inversion Hnd as [|? ? Hnin _]; subst.
        intros E. apply Hnin. left. symmetry. exact E. }
      split; [|split; [|split]].
      * intros g Hg. rewrite Hcol by (apply in_or_app; left; exact Hg).
        destruct (String.eqb_spec g heading_name) as [->|_].
        { exfalso. apply (NoDup_app_disjoint _ _ heading_name Hnd Hg). left. reflexivity. }
        destruct (String.eqb_spec g value_name) as [->|_]; [|reflexivity].
        exfalso. apply (NoDup_app_disjoint _ _ value_name Hnd Hg). right. left. reflexivity.
      * rewrite Hcol by (apply in_or_app; right; left; reflexivity).
        rewrite String.eqb_refl. reflexivity.
      * rewrite Hcol by (apply in_or_app; right; right; left; reflexivity).
        destruct (String.eqb_spec value_name heading_name) as [E|_]; [congruence|].
        rewrite String.eqb_refl. reflexivity.
      * rewrite Hrl. rewrite map_map.
        rewrite (map_ext_in _ (fun _ => height self)).
        -- clear. induction (h0 :: hs) as [|h l IH]; [reflexivity|].
           simpl. rewrite IH. reflexivity.
        -- intros h Hh.
           destruct (squished_valid self grouping_cols value_name heading_name h)
             as [Hvh Hhh]; auto.
           unfold T. rewrite (record_length_valid _ Hvh). exact Hhh.
Qed.

Lemma headings_squish_rows_witness :
  exists t',
    headings_squish people ["id"]%string ["x"; "y"]%string "value" "heading" = Ok t' /\
    col t' "value"%string
    = [VInt 10; VInt 20; VInt 30; VStr "a"; VStr "b"; VStr "c"] /\
    record_length t' = 6%nat.
Proof.
  assert (Hv : valid people) by (apply validb_valid; reflexivity).
  destruct (proj2 (headings_squish_rows people ["id"]%string ["x"; "y"]%string
                     "value"%string "heading"%string Hv
                     ltac:(apply nodupb_NoDup; reflexivity)
                     ltac:(apply inclb_incl; reflexivity)
                     ltac:(apply inclb_incl; reflexivity)))
    as [t' [E [_ [_ [_ [_ [Hval Hrl]]]]]]]; [discriminate|].
  exists t'. split; [exact E|]. split; [exact Hval | exact Hrl].
Defined.

(** ** __sanitise_column_name__ *)

Lemma chars_app (a b : string) : chars (a ++ b) = chars a ++ chars b.
Proof. induction a as [|c a IH]; simpl; [reflexivity|]. unfold chars in *. simpl. rewrite IH. reflexivity. Qed.

Lemma absentb_spec (k : ascii) (s : string) : absentb k s = true <-> ~ In k (chars s).
Proof.
  unfold absentb. rewrite negb_true_iff. split.
  - intros H Hin. assert (E : existsb (Ascii.eqb k) (chars s) = true).
    { apply existsb_exists. exists k. split; [exact Hin | apply Ascii.eqb_refl]. }
    congruence.
  - intros H. destruct (existsb (Ascii.eqb k) (chars s)) eqn:E; [|reflexivity].
    apply existsb_exists in E. destruct E as [x [Hx He]].
    apply Ascii.eqb_eq in He. subst x. contradiction.
Qed.

Lemma chars_cons (x : ascii) (s : string) : chars (String x s) = x :: chars s.
Proof. reflexivity. Qed.

Lemma prefix_head (k x : ascii) (rest s : string) :
  prefix (String k rest) (String x s) = if Ascii.eqb k x then prefix rest s else false.
Proof.
  simpl. destruct (ascii_dec k x) as [->|Hne].
  - rewrite Ascii.eqb_refl. reflexivity.
  - apply Ascii.eqb_neq in Hne. rewrite Hne. reflexivity.
Qed.

(** A replacement only brings in characters of the new text. *)
Lemma replace_from_chars (old new : string) (skip : nat) (s : string) (c : ascii) :
  In c (chars (replace_from old new skip s)) -> In c (chars s) \/ In c (chars new).
Proof.
  revert skip. induction s as [|x s IH]; intros skip H; [left; destruct skip; exact H|].
  cbn [replace_from] in H. rewrite chars_cons. destruct skip as [|k].
  - destruct (prefix old (String x s)).
    + rewrite chars_app in H. apply in_app_or in H. destruct H as [H|H]; [right; exact H|].
      destruct (IH _ H) as [H'|H']; [left; right; exact H' | right; exact H'].
    + rewrite chars_cons in H. destruct H as [H|H]; [left; left; exact H|].
      destruct (IH _ H) as [H'|H']; [left; right; exact H' | right; exact H'].
  - destruct (IH _ H) as [H'|H']; [left; right; exact H' | right; exact H'].
Qed.

(** Replacing a single character removes it. *)
Lemma replace_char_chars (k : ascii) (new s : string) (c : ascii) :
  In c (chars (str_replace (String k EmptyString) new s)) ->
  (In c (chars s) /\ c <> k) \/ In c (chars new).
Proof.
  unfold str_replace. induction s as [|x s IH]; intros H; [destruct H|].
  cbn [replace_from] in H. rewrite prefix_head in H. rewrite chars_cons.
  assert (Hp : prefix EmptyString s = true) by (destruct s; reflexivity).
  rewrite Hp in H. cbn [String.length Nat.sub] in H.
  destruct (Ascii.eqb_spec k x) as [->|Hne].
  - rewrite chars_app in H. apply in_app_or in H. destruct H as [H|H]; [right; exact H|].
    destruct (IH H) as [[H1 H2]|H']; [left; split; [right; exact H1 | exact H2] | right; exact H'].
  - rewrite chars_cons in H. destruct H as [H|H].
    + left. split; [left; exact H | congruence].
    + destruct (IH H) as [[H1 H2]|H'];
        [left; split; [right; exact H1 | exact H2] | right; exact H'].
Qed.

(** A text whose first character is absent is never found. *)
Lemma replace_absent (k : ascii) (rest new s : string) :
  ~ In k (chars s) -> str_replace (String k rest) new s = s.
Proof.
  unfold str_replace. induction s as [|x s IH]; intros H; [reflexivity|].
  cbn [replace_from]. rewrite prefix_head. rewrite chars_cons in H.
  destruct (Ascii.eqb_spec k x) as [->|Hne].
  - exfalso. apply H. left. reflexivity.
  - rewrite IH; [reflexivity|]. intros Hin. apply H. right. exact Hin.
Qed.

Lemma fold_keeps_absent (m : list (string * string)) (k : ascii) (s : string) :
  ~ In k (chars s) -> forallb (fun kv => absentb k (snd kv)) m = true ->
  ~ In k (chars (fold_left (fun s kv => str_replace (fst kv) (snd kv) s) m s)).
Proof.
  revert s. induction m as [|[old new] m IH]; intros s Hs Hm; [exact Hs|].
  simpl in Hm. apply andb_true_iff in Hm. destruct Hm as [Hnew Hm].
  simpl. apply IH; [|exact Hm].
  intros Hin. apply replace_from_chars in Hin. destruct Hin as [Hin|Hin]; [auto|].
  apply absentb_spec in Hnew. auto.
Qed.

Lemma fold_removes (pre post : list (string * string)) (k : ascii) (new s : string) :
  absentb k new = true -> forallb (fun kv => absentb k (snd kv)) post = true ->
  ~ In k (chars (fold_left (fun s kv => str_replace (fst kv) (snd kv) s)
                           (pre ++ (String k EmptyString, new) :: post) s)).
Proof.
  intros Hnew Hpost. rewrite fold_left_app. simpl.
  apply fold_keeps_absent; [|exact Hpost].
  intros Hin. apply replace_char_chars in Hin.
  destruct Hin as [[_ Hne]|Hin]; [congruence|].
  apply absentb_spec in Hnew. auto.
Qed.

Lemma fold_absent_id (m : list (string * string)) (s : string) :
  Forall (fun kv => match fst kv with
                    | String k _ => ~ In k (chars s)
                    | EmptyString => False
                    end) m ->
  fold_left (fun s kv => str_replace (fst kv) (snd kv) s) m s = s.
Proof.
  induction m as [|[old new] m IH]; intros H; [reflexivity|].
  inversion H as [|? ? Hk Hm]; subst. simpl in Hk. simpl.
  destruct old as [|k rest]; [contradiction|].
  rewrite replace_absent by exact Hk. apply IH. exact Hm.
Qed.

Lemma fold_chars (m : list (string * string)) (s : string) (c : ascii) :
  In c (chars (fold_left (fun s kv => str_replace (fst kv) (snd kv) s) m s)) ->
  In c (chars s) \/ exists kv, In kv m /\ In c (chars (snd kv)).
Proof.
  revert s. induction m as [|[old new] m IH]; intros s H; [left; exact H|].
  simpl in H. destruct (IH _ H) as [H'|[kv [Hkv Hc]]].
  - apply replace_from_chars in H'. destruct H' as [H'|H']; [left; exact H'|].
    right. exists (old, new). split; [left; reflexivity | exact H'].
  - right. exists kv. split; [right; exact Hkv | exact Hc].
Qed.

Lemma sanitised_specials (column_name : string) (c : ascii) :
  In c specials -> ~ In c (chars (__sanitise_column_name__ column_name)).
Proof.
  intros Hc. unfold __sanitise_column_name__, specials in Hc |- *.
  repeat (destruct Hc as [<-|Hc];
          [first
             [ apply (fold_removes (firstn 0 replace_map) (skipn 1 replace_map)
                        ":" EmptyString column_name); reflexivity
             | apply (fold_removes (firstn 1 replace_map) (skipn 2 replace_map)
                        " " "_" column_name); reflexivity
             | apply (fold_removes (firstn 2 replace_map) (skipn 3 replace_map)
                        ")" EmptyString column_name); reflexivity
             | apply (fold_removes (firstn 3 replace_map) (skipn 4 replace_map)
                        "(" "_" column_name); reflexivity
             | apply (fold_removes (firstn 4 replace_map) (skipn 5 replace_map)
                        "." "_" column_name); reflexivity
             | apply (fold_removes (firstn 5 replace_map) (skipn 6 replace_map)
                        "'" EmptyString column_name); reflexivity
             | apply (fold_removes (firstn 6 replace_map) (skipn 7 replace_map)
                        "%" "pct" column_name); reflexivity
             | apply (fold_removes (firstn 7 replace_map) (skipn 8 replace_map)
                        "+" "plus" column_name); reflexivity
             | apply (fold_removes (firstn 8 replace_map) (skipn 9 replace_map)
                        "-" "_" column_name); reflexivity
             | apply (fold_removes (firstn 10 replace_map) (skipn 11 replace_map)
                        "034" EmptyString column_name); reflexivity ]|]).
  contradiction.
Qed.

Lemma sanitise_clean (column_name : string) :
  (forall c, In c (chars column_name) -> ~ In c specials /\ c <> "239"%char) ->
  __sanitise_column_name__ column_name = column_name.
Proof.
  intros H. unfold __sanitise_column_name__. apply fold_absent_id.
  assert (Hs : forall k, In k specials -> ~ In k (chars column_name)).
  { intros k Hk Hin. apply (proj1 (H k Hin)). exact Hk. }
  assert (Hb : ~ In "239"%char (chars column_name)).
  { intros Hin. apply (proj2 (H _ Hin)). reflexivity. }
  unfold replace_map, bom, double_quote.
  repeat (constructor; [first [exact Hb | apply Hs; simpl; tauto]|]).
  constructor.
Qed.

(** A sanitised name holds none of the characters
    [: space ) ( . ' % + -] and double quote.  A name without them (and
    without the lead byte of the byte order mark) is returned as it is, and
    sanitising an ASCII name twice is sanitising it once. *)
Theorem sanitise_column_name (column_name : string) :
  (forall c, In c specials -> ~ In c (chars (__sanitise_column_name__ column_name))) /\
  ((forall c, In c (chars column_name) -> ~ In c specials /\ c <> "239"%char) ->
   __sanitise_column_name__ column_name = column_name) /\
  ((forall c, In c (chars column_name) -> (nat_of_ascii c < 128)%nat) ->
   __sanitise_column_name__ (__sanitise_column_name__ column_name)
   = __sanitise_column_name__ column_name).
Proof.
  split; [intros c; apply sanitised_specials|].
  split; [apply sanitise_clean|].
  intros Hascii. apply sanitise_clean. intros c Hc. split.
  - intros Hs. exact (sanitised_specials column_name c Hs Hc).
  - intros ->. unfold __sanitise_column_name__ in Hc. apply fold_chars in Hc.
    destruct Hc as [Hc|[kv [Hkv Hc]]].
    + specialize (Hascii _ Hc).
      change (nat_of_ascii "239") with 239%nat in Hascii. lia.
    + unfold replace_map in Hkv. simpl in Hkv.
      repeat (destruct Hkv as [<-|Hkv];
              [simpl in Hc; repeat (destruct Hc as [Hc|Hc]; [discriminate|]); exact Hc|]).
      exact Hkv.
Qed.

Lemma sanitise_column_name_witness :
  __sanitise_column_name__ "Price (net) %"%string = "Price__net_pct"%string /\
  __sanitise_column_name__ "unit_price"%string = "unit_price"%string.
Proof.
  split; [reflexivity|].
  apply (proj1 (proj2 (sanitise_column_name "unit_price"%string))).
  intros c Hc. simpl in Hc.
  repeat (destruct Hc as [<-|Hc];
          [split; [intros H; simpl in H;
                   repeat (destruct H as [H|H]; [discriminate|]); exact H
                  | discriminate]|]).
  contradiction.
Defined.

(** ** column_stack *)

Lemma iter_list (v : value) : is_list v = true -> iter_value v = Ok (elements v).
Proof. destruct v; simpl; intros H; try discriminate. reflexivity. Qed.

Lemma map_const_repeat {A B : Type} (x : B) (l : list A) :
  map (fun _ => x) l = repeat x (length l).
Proof. induction l as [|a l IH]; simpl; [reflexivity | rewrite IH; reflexivity]. Qed.

Lemma stretch_cells (c n : list value) :
  forallb is_list n = true ->
  mapM (fun vr : value * value => res <- iter_value (snd vr) ;; Ok (map (fun _ => fst vr) res))
       (combine c n)
  = Ok (map (fun vr => repeat (fst vr) (length (elements (snd vr)))) (combine c n)).
Proof.
  intros Hn. apply mapM_ok. intros [v r] Hin. simpl.
  rewrite iter_list.
  - simpl. rewrite map_const_repeat. reflexivity.
  - rewrite forallb_forall in Hn. apply Hn. apply in_combine_r in Hin. exact Hin.
Qed.

Lemma stretch_length (c n : list value) :
  length c = length n -> length (stretch c n) = length (flat_map elements n).
Proof.
  unfold stretch. revert n. induction c as [|x c IH]; intros [|y n] H;
    try discriminate; [reflexivity|].
  simpl. rewrite !length_app, repeat_length. f_equal. apply IH. simpl in H. lia.
Qed.

Lemma enumerate_fst {A : Type} (l : list A) : map fst (enumerate l) = seq 0 (length l).
Proof.
  unfold enumerate. generalize 0%nat. induction l as [|x l IH]; intros n; [reflexivity|].
  simpl. rewrite IH. reflexivity.
Qed.

Lemma enumerate_length {A : Type} (l : list A) : length (enumerate l) = length l.
Proof. rewrite <- (length_map snd). rewrite enumerate_snd. reflexivity. Qed.

Lemma stacked_triples (n : list value) :
  forallb is_list n = true ->
  mapM (fun rec =>
          items <- iter_value rec ;;
          Ok (map (fun iv : nat * value =>
                     (VInt (Z.of_nat (fst iv)), snd iv, VInt (Z.of_nat (length items))))
                  (enumerate items)))
       n
  = Ok (map (fun rec =>
               map (fun iv : nat * value =>
                      (VInt (Z.of_nat (fst iv)), snd iv,
                       VInt (Z.of_nat (length (elements rec)))))
                   (enumerate (elements rec)))
            n).
Proof.
  intros Hn. apply mapM_ok. intros rec Hin.
  rewrite iter_list by (rewrite forallb_forall in Hn; auto). reflexivity.
Qed.

Lemma triples_values (n : list value) :
  map (fun t : value * value * value => snd (fst t))
      (concat (map (fun rec =>
                      map (fun iv : nat * value =>
                             (VInt (Z.of_nat (fst iv)), snd iv,
                              VInt (Z.of_nat (length (elements rec)))))
                          (enumerate (elements rec)))
                   n))
  = flat_map elements n.
Proof.
  induction n as [|rec n IH]; [reflexivity|].
  simpl. rewrite map_app, IH. f_equal.
  rewrite map_map. simpl. apply enumerate_snd.
Qed.

Lemma triples_lengths (n : list value) :
  map snd
      (concat (map (fun rec =>
                      map (fun iv : nat * value =>
                             (VInt (Z.of_nat (fst iv)), snd iv,
                              VInt (Z.of_nat (length (elements rec)))))
                          (enumerate (elements rec)))
                   n))
  = flat_map (fun l => repeat (VInt (Z.of_nat (length (elements l))))
                              (length (elements l))) n.
Proof.
  induction n as [|rec n IH]; [reflexivity|].
  simpl. rewrite map_app, IH. f_equal.
  rewrite map_map. simpl. rewrite map_const_repeat, enumerate_length. reflexivity.
Qed.

Lemma triples_indexes (n : list value) :
  map (fun t : value * value * value => fst (fst t))
      (concat (map (fun rec =>
                      map (fun iv : nat * value =>
                             (VInt (Z.of_nat (fst iv)), snd iv,
                              VInt (Z.of_nat (length (elements rec)))))
                          (enumerate (elements rec)))
                   n))
  = flat_map (fun l => map (fun i => VInt (Z.of_nat i)) (seq 0 (length (elements l)))) n.
Proof.
  induction n as [|rec n IH]; [reflexivity|].
  simpl. rewrite map_app, IH. f_equal.
  rewrite map_map. simpl.
  rewrite <- (map_map fst (fun i => VInt (Z.of_nat i))). rewrite enumerate_fst. reflexivity.
Qed.

Lemma stacked_lengths (name : string) (new_name save_len enumeration : option string)
    (n : list value) :
  Forall (fun kv : string * list value => length (snd kv) = length (flat_map elements n))
         (stacked name new_name save_len enumeration n).
Proof.
  assert (H1 : forall m : list value,
            length (flat_map (fun l => repeat (VInt (Z.of_nat (length (elements l))))
                                              (length (elements l))) m)
            = length (flat_map elements m)).
  { induction m as [|r m IH]; [reflexivity|]. simpl.
    rewrite !length_app, repeat_length, IH. reflexivity. }
  assert (H2 : forall m : list value,
            length (flat_map (fun l => map (fun i => VInt (Z.of_nat i))
                                           (seq 0 (length (elements l)))) m)
            = length (flat_map elements m)).
  { induction m as [|r m IH]; [reflexivity|]. simpl.
    rewrite !length_app, length_map, length_seq, IH. reflexivity. }
  specialize (H1 n). specialize (H2 n).
  unfold stacked.
  set (P := fun v : list value => length v = length (flat_map elements n)).
  assert (Hbase : forall k, Forall (fun kv : string * list value => P (snd kv))
                                   [(k, flat_map elements n)]).
  { intros k. constructor; [reflexivity | constructor]. }
  assert (Hset : forall (d : dict (list value)) k v,
            Forall (fun kv : string * list value => P (snd kv)) d -> P v ->
            Forall (fun kv : string * list value => P (snd kv)) (dict_set d k v)).
  { intros d k v Hd Hv.
    apply (dict_update_values P d [(k, v)] Hd). constructor; [exact Hv | constructor]. }
  destruct enumeration as [e|]; destruct save_len as [s|];
    repeat (apply Hset; [|assumption]); apply Hbase.
Qed.

Lemma dict_update_nonempty {V : Type} (d : dict V) (kvs : list (string * V)) :
  kvs <> [] -> dict_update d kvs <> [].
Proof.
  intros Hne E.
  destruct kvs as [|[k v] kvs]; [contradiction|].
  assert (Hk : In k (dict_keys (dict_update d ((k, v) :: kvs)))).
  { destruct (in_dec string_dec k (dict_keys (dict_update d ((k, v) :: kvs))))
      as [Hin|Hn]; [exact Hin|].
    exfalso. apply dict_get_None in Hn.
    rewrite dict_get_update in Hn.
    destruct (dict_get (rev ((k, v) :: kvs)) k) eqn:Eg; [discriminate|].
    apply dict_get_None in Eg. apply Eg. unfold dict_keys. rewrite map_rev.
    apply -> in_rev. left. reflexivity. }
  rewrite E in Hk. destruct Hk.
Qed.

Lemma dict_set_nonempty {V : Type} (d : dict V) (k : string) (v : V) : dict_set d k v <> [].
Proof.
  destruct d as [|[k' v'] d]; simpl; [discriminate|].
  destruct (String.eqb k' k); discriminate.
Qed.

Lemma stacked_nonempty (name : string) (new_name save_len enumeration : option string)
    (n : list value) :
  stacked name new_name save_len enumeration n <> [].
Proof.
  unfold stacked. destruct enumeration as [e|]; [apply dict_set_nonempty|].
  destruct save_len as [s|]; [apply dict_set_nonempty | discriminate].
Qed.

Lemma stacked_table_valid (self : Dataset) (name : string)
    (new_name save_len enumeration : option string) :
  valid self -> In name (columns self) ->
  valid (stacked_table self name new_name save_len enumeration) /\
  record_length (stacked_table self name new_name save_len enumeration)
  = length (flat_map elements (col self name)).
Proof.
  intros Hv Hname.
  set (N := length (flat_map elements (col self name))).
  assert (Hnd : NoDup (dict_keys (stacked_table self name new_name save_len enumeration))).
  { unfold stacked_table. apply dict_update_keys_nodup.
    change (NoDup (columns (map (fun c => (c, stretch (col self c) (col self name)))
                               (filter (fun c => negb (substring_of c name)) (columns self))))).
    rewrite table_columns. apply NoDup_filter. apply Hv. }
  assert (Hlen : Forall (fun kv : string * list value => length (snd kv) = N)
                        (stacked_table self name new_name save_len enumeration)).
  { unfold stacked_table.
    apply (dict_update_values (fun v => length v = N)).
    - apply Forall_forall. intros kv Hkv. apply in_map_iff in Hkv.
      destruct Hkv as [c [<- Hc]]. simpl. apply filter_In in Hc. destruct Hc as [Hc _].
      apply stretch_length. rewrite !col_length by assumption. reflexivity.
    - apply stacked_lengths. }
  assert (Hvalid : valid (stacked_table self name new_name save_len enumeration)).
  { split; [exact Hnd | exists N; exact Hlen]. }
  split; [exact Hvalid|].
  rewrite (record_length_valid _ Hvalid).
  destruct (stacked_table self name new_name save_len enumeration) as [|[c0 v0] t] eqn:E.
  - exfalso. unfold stacked_table in E.
    apply (dict_update_nonempty _ _ (stacked_nonempty name new_name save_len enumeration
                                       (col self name)) E).
  - simpl. inversion Hlen; subst. assumption.
Qed.

Lemma dict_update_In_keys {V : Type} (d : dict V) (kvs : list (string * V)) (k : string) :
  In k (dict_keys (dict_update d kvs)) <-> In k (dict_keys d) \/ In k (map fst kvs).
Proof.
  assert (Hrev : dict_get (rev kvs) k = None <-> ~ In k (map fst kvs)).
  { rewrite dict_get_None. unfold dict_keys. rewrite map_rev. split; intros H Hin; apply H.
    - apply -> in_rev. exact Hin.
    - apply in_rev. exact Hin. }
  split.
  - intros Hin.
    destruct (in_dec string_dec k (dict_keys d)) as [Hd|Hd]; [left; exact Hd|].
    destruct (in_dec string_dec k (map fst kvs)) as [Hk|Hk]; [right; exact Hk|].
    exfalso. revert Hin. apply dict_get_None. rewrite dict_get_update.
    rewrite (proj2 Hrev Hk). apply dict_get_None. exact Hd.
  - intros H.
    destruct (in_dec string_dec k (dict_keys (dict_update d kvs))) as [Hin|Hn]; [exact Hin|].
    exfalso. apply dict_get_None in Hn. rewrite dict_get_update in Hn.
    destruct (dict_get (rev kvs) k) eqn:E in Hn; [discriminate|].
    destruct H as [H|H].
    + apply dict_get_None in Hn. contradiction.
    + apply (proj1 Hrev E). exact H.
Qed.

(** On a column of lists that hold at least one element between them,
    [column_stack] returns one row per element: the stacked column holds the
    elements in order, every column it keeps has each cell repeated once
    per element of the list beside it, and the optional columns hold the
    length of the list each element comes from and its position there.  The
    columns of the result are the new ones and the columns of the table
    whose name does not occur inside [name]. *)
Theorem column_stack_rows (self : Dataset) (name : string)
    (new_name save_len enumeration : option string) :
  valid self -> In name (columns self) ->
  forallb is_list (col self name) = true ->
  flat_map elements (col self name) <> [] ->
  column_stack self name new_name save_len enumeration
  = Some (Ok (stacked_table self name new_name save_len enumeration)) /\
  valid (stacked_table self name new_name save_len enumeration) /\
  record_length (stacked_table self name new_name save_len enumeration)
  = length (flat_map elements (col self name)) /\
  (forall c, In c (columns (stacked_table self name new_name save_len enumeration)) <->
             (In c (columns self) /\ substring_of c name = false) \/
             In c (dict_keys (stacked name new_name save_len enumeration (col self name)))).
Proof.
  intros Hv Hname Hlists Hne.
  destruct (stacked_table_valid self name new_name save_len enumeration Hv Hname)
    as [Hvalid Hrl].
  split; [|split; [exact Hvalid | split; [exact Hrl|]]].
  2:{ intros c. unfold stacked_table, columns. rewrite dict_update_In_keys.
      change (dict_keys (map (fun c0 => (c0, stretch (col self c0) (col self name)))
                             (filter (fun c0 => negb (substring_of c0 name)) (dict_keys self))))
        with (columns (map (fun c0 => (c0, stretch (col self c0) (col self name)))
                           (filter (fun c0 => negb (substring_of c0 name)) (dict_keys self)))).
      rewrite table_columns. rewrite filter_In, negb_true_iff. reflexivity. }
  unfold column_stack.
  rewrite (mapM_ok _ (fun c => (c, stretch (col self c) (col self name)))).
  2:{ intros c Hc. apply filter_In in Hc. destruct Hc as [Hc _].
      rewrite getitem_col by exact Hc. cbn [bind].
      rewrite getitem_col by exact Hname. cbn [bind].
      rewrite stretch_cells by exact Hlists. cbn [bind].
      unfold stretch. rewrite flat_map_concat_map. reflexivity. }
  cbn [bind]. rewrite getitem_col by exact Hname. cbn [bind].
  rewrite stacked_triples by exact Hlists. cbn [bind].
  pose proof (triples_values (col self name)) as Tv.
  pose proof (triples_lengths (col self name)) as Tl.
  pose proof (triples_indexes (col self name)) as Ti.
  destruct (concat _) as [|t ts] eqn:Et in Tv, Tl, Ti |- *.
  - exfalso. apply Hne. symmetry. exact Tv.
  - rewrite Tv, Tl, Ti.
    rewrite dict_of_list_nodup
      by (change (NoDup (columns (map (fun c => (c, stretch (col self c) (col self name)))
                                      (filter (fun c => negb (substring_of c name))
                                              (columns self)))));
          rewrite table_columns; apply NoDup_filter; apply Hv).
    f_equal. apply Dataset_init_valid. exact Hvalid.
Qed.

Lemma column_stack_rows_witness :
  column_stack
    [("a", [VInt 1; VInt 2]); ("data", [VList [VInt 5; VInt 6]; VList [VInt 7]]);
     ("k", [VStr "x"; VStr "y"])]%string
    "data" None (Some "n"%string) None
  = Some (Ok [("k", [VStr "x"; VStr "x"; VStr "y"]); ("data", [VInt 5; VInt 6; VInt 7]);
              ("n", [VInt 2; VInt 2; VInt 1])]%string).
Proof.
  assert (Hv : valid [("a", [VInt 1; VInt 2]);
                      ("data", [VList [VInt 5; VInt 6]; VList [VInt 7]]);
                      ("k", [VStr "x"; VStr "y"])]%string)
    by (apply validb_valid; reflexivity).
  apply (proj1 (column_stack_rows _ "data"%string None (Some "n"%string) None Hv
                  ltac:(simpl; auto) eq_refl ltac:(discriminate))).
Defined.

Lemma mapM_ok_or_raises {A B : Type} (f : A -> result B) (l : list A) (e : error) :
  (forall x, In x l -> (exists y, f x = Ok y) \/ f x = Err e) ->
  (exists ys, mapM f l = Ok ys) \/ mapM f l = Err e.
Proof.
  induction l as [|a l IH]; intros H; [left; eexists; reflexivity|].
  simpl. destruct (H a (or_introl eq_refl)) as [[y Hy]|He].
  - rewrite Hy. simpl.
    destruct (IH (fun x Hx => H x (or_intror Hx))) as [[ys Hys]|Hr].
    + rewrite Hys. left. eexists. reflexivity.
    + rewrite Hr. right. reflexivity.
  - rewrite He. right. reflexivity.
Qed.

Lemma iter_value_cases (v : value) :
  (exists l, iter_value v = Ok l) \/ iter_value v = Err TypeError.
Proof. destruct v; simpl; eauto. Qed.

(** [column_stack] raises [KeyError] when [name] is not a column,
    [TypeError] when a cell of that column is [None] or a number, and
    [ValueError] when the column holds lists without any element between
    them, for one on a table without rows. *)
Theorem column_stack_errors (self : Dataset) (name : string)
    (new_name save_len enumeration : option string) :
  valid self ->
  (~ In name (columns self) ->
   column_stack self name new_name save_len enumeration = Some (Err KeyError)) /\
  (In name (columns self) ->
   (exists v, In v (col self name) /\ (v = VNone \/ exists z, v = VInt z)) ->
   column_stack self name new_name save_len enumeration = Some (Err TypeError)) /\
  (In name (columns self) -> forallb is_list (col self name) = true ->
   flat_map elements (col self name) = [] ->
   column_stack self name new_name save_len enumeration = None).
Proof.
  intros Hv. split; [|split].
  - intros Hn. unfold column_stack.
    destruct (filter (fun c => negb (substring_of c name)) (columns self))
      as [|c0 kept] eqn:Ek.
    + simpl. rewrite getitem_KeyError by exact Hn. reflexivity.
    + assert (Hc0 : In c0 (columns self)).
      { assert (H : In c0 (c0 :: kept)) by (left; reflexivity).
        rewrite <- Ek in H. apply filter_In in H. tauto. }
      simpl. rewrite getitem_col by exact Hc0. simpl.
      rewrite getitem_KeyError by exact Hn. reflexivity.
  - intros Hname [v [Hin Hbad]]. unfold column_stack.
    assert (Hiter : iter_value v = Err TypeError).
    { destruct Hbad as [->|[z ->]]; reflexivity. }
    match goal with
    | |- context [mapM ?f (filter ?p (columns self))] =>
        destruct (mapM_ok_or_raises f (filter p (columns self)) TypeError) as [[ys Hys]|Hr]
    end.
    + intros c Hc. apply filter_In in Hc. destruct Hc as [Hc _].
      rewrite getitem_col by exact Hc. cbn [bind].
      rewrite getitem_col by exact Hname. cbn [bind].
      match goal with
      | |- context [mapM ?g (combine ?a ?b)] =>
          destruct (mapM_ok_or_raises g (combine a b) TypeError) as [[zs Hzs]|Hz]
      end.
      * intros [x r] _. simpl. destruct (iter_value_cases r) as [[l Hl]|Hl];
          rewrite Hl; simpl; eauto.
      * rewrite Hzs. left. simpl. eauto.
      * rewrite Hz. right. reflexivity.
    + rewrite Hys. cbn [bind]. rewrite getitem_col by exact Hname. cbn [bind].
      rewrite (mapM_raises _ (col self name) TypeError); [reflexivity | |].
      * intros r _. destruct (iter_value_cases r) as [[l Hl]|Hl]; rewrite Hl; simpl; eauto.
      * exists v. split; [exact Hin|]. rewrite Hiter. reflexivity.
    + rewrite Hr. reflexivity.
  - intros Hname Hlists Hempty. unfold column_stack.
    rewrite (mapM_ok _ (fun c => (c, stretch (col self c) (col self name)))).
    2:{ intros c Hc. apply filter_In in Hc. destruct Hc as [Hc _].
        rewrite getitem_col by exact Hc. cbn [bind].
        rewrite getitem_col by exact Hname. cbn [bind].
        rewrite stretch_cells by exact Hlists. cbn [bind].
        unfold stretch. rewrite flat_map_concat_map. reflexivity. }
    cbn [bind]. rewrite getitem_col by exact Hname. cbn [bind].
    rewrite stacked_triples by exact Hlists. cbn [bind].
    pose proof (triples_values (col self name)) as Tv.
    destruct (concat _) as [|t ts] eqn:Et in Tv |- *; [reflexivity|].
    rewrite Hempty in Tv. discriminate.
Qed.

Lemma column_stack_errors_witness :
  column_stack no_rows "x" None None None = None /\
  column_stack people "x" None None None = Some (Err TypeError) /\
  column_stack people "z" None None None = Some (Err KeyError).
Proof.
  assert (Hv : valid people) by (apply validb_valid; reflexivity).
  assert (Hv' : valid no_rows) by (apply validb_valid; reflexivity).
  split; [|split].
  - apply (proj2 (proj2 (column_stack_errors no_rows "x"%string None None None Hv')));
      [simpl; auto | reflexivity | reflexivity].
  - apply (proj1 (proj2 (column_stack_errors people "x"%string None None None Hv)));
      [simpl; auto|].
    exists (VInt 10). split; [simpl; auto | right; eexists; reflexivity].
  - apply (proj1 (column_stack_errors people "z"%string None None None Hv)).
    intros H. simpl in H. repeat (destruct H as [H|H]; [discriminate|]). exact H.
Defined.

(** ** column_squish *)

Lemma mapM_map {A B C : Type} (f : B -> result C) (g : A -> B) (l : list A) :
  mapM f (map g l) = mapM (fun x => f (g x)) l.
Proof.
  induction l as [|x l IH]; [reflexivity|]. simpl. rewrite IH. reflexivity.
Qed.

Lemma mapM_ext_in {A B : Type} (f g : A -> result B) (l : list A) :
  (forall x, In x l -> f x = g x) -> mapM f l = mapM g l.
Proof.
  induction l as [|x l IH]; intros H; [reflexivity|].
  simpl. rewrite (H x (or_introl eq_refl)).
  rewrite IH by (intros y Hy; apply H; right; exact Hy). reflexivity.
Qed.

(** Reading two cells of every record is reading the two columns side by
    side. *)
Lemma records_two_cells {B : Type} (t : Dataset) (h v : string)
    (G : value -> value -> result B) :
  valid t -> In h (columns t) -> In v (columns t) ->
  mapM (fun rec => hl <- getitem rec h ;; vl <- getitem rec v ;; G hl vl) (records t)
  = mapM (fun p => G (fst p) (snd p)) (combine (col t h) (col t v)).
Proof.
  intros Hv Hh Hvv.
  rewrite records_rows by apply Hv. rewrite mapM_map.
  rewrite <- (rows_cell t h Hv Hh), <- (rows_cell t v Hv Hvv).
  assert (E : combine (map (fun r => cell_in (columns t) r h) (rows t))
                      (map (fun r => cell_in (columns t) r v) (rows t))
              = map (fun r => (cell_in (columns t) r h, cell_in (columns t) r v)) (rows t)).
  { induction (rows t) as [|r rs IH]; [reflexivity|]. simpl. rewrite IH. reflexivity. }
  rewrite E, mapM_map. apply mapM_ext_in. intros r Hr.
  pose proof (rows_width t) as Hw. rewrite Forall_forall in Hw.
  rewrite !getitem_cell by (auto using Hw). reflexivity.
Qed.

Lemma col_app_l (a b : Dataset) (c : string) :
  In c (columns a) -> col (a ++ b) c = col a c.
Proof.
  intros Hc. unfold col. induction a as [|[k x] a IH]; [contradiction|].
  simpl. destruct (String.eqb_spec k c) as [->|Hne]; [reflexivity|].
  apply IH. destruct Hc as [Hc|Hc]; [simpl in Hc; contradiction | exact Hc].
Qed.

Lemma sub_eta (t s : Dataset) :
  NoDup (columns t) -> incl s t -> map (fun c => (c, col t c)) (dict_keys s) = s.
Proof.
  intros Hnd Hin. unfold dict_keys. rewrite map_map.
  rewrite <- (map_id s) at 2. apply map_ext_in. intros [c x] Hc. simpl.
  rewrite (col_In t c x Hnd (Hin _ Hc)). reflexivity.
Qed.

Lemma append_inj (p a b : string) : (p ++ a)%string = (p ++ b)%string -> a = b.
Proof.
  induction p as [|c p IH]; simpl; intros H; [exact H|].
  injection H as H. auto.
Qed.

Lemma unique_strings (l : list string) :
  exists u, unique (map VStr l) = map VStr u /\ NoDup u /\ (forall x, In x u <-> In x l).
Proof.
  induction l as [|x l [u [Eu [Hnd Hin]]]].
  - exists []. split; [reflexivity|]. split; [constructor | tauto].
  - change (unique (map VStr (x :: l)))
      with (if existsb (value_eqb (VStr x)) (map VStr l)
            then unique (map VStr l) else VStr x :: unique (map VStr l)).
    destruct (existsb (value_eqb (VStr x)) (map VStr l)) eqn:E.
    + exists u. split; [exact Eu|]. split; [exact Hnd|].
      intros y. rewrite Hin. simpl. split; [auto|]. intros [<-|H]; [|exact H].
      apply existsb_exists in E. destruct E as [z [Hz Ez]].
      apply in_map_iff in Hz. destruct Hz as [w [<- Hw]].
      apply value_eqb_eq in Ez. injection Ez as ->. exact Hw.
    + exists (x :: u). split; [rewrite Eu; reflexivity|]. split.
      * constructor; [|exact Hnd]. intros Hx. apply Hin in Hx.
        assert (F : existsb (value_eqb (VStr x)) (map VStr l) = true).
        { apply existsb_exists. exists (VStr x). split; [apply in_map; exact Hx|].
          apply value_eqb_refl. }
        congruence.
      * intros y. simpl. rewrite Hin. tauto.
Qed.

Lemma insert_map {A B : Type} (f : A -> B) (key : B -> list value) (x : A) (l : list A) :
  insert key (f x) (map f l)
  = match insert (fun a => key (f a)) x l with
    | Ok s => Ok (map f s)
    | Err e => Err e
    end.
Proof.
  induction l as [|y l IH]; [reflexivity|].
  simpl. destruct (tuple_lt (key (f y)) (key (f x))) as [[|]|]; try reflexivity.
  rewrite IH. destruct (insert (fun a => key (f a)) x l); reflexivity.
Qed.

Lemma isort_map {A B : Type} (f : A -> B) (key : B -> list value) (l : list A) :
  isort key (map f l)
  = match isort (fun a => key (f a)) l with
    | Ok s => Ok (map f s)
    | Err e => Err e
    end.
Proof.
  induction l as [|x l IH]; [reflexivity|].
  simpl. rewrite IH. destruct (isort (fun a => key (f a)) l) as [s|e]; [|reflexivity].
  simpl. apply insert_map.
Qed.

Lemma combine_map2 {A B C D : Type} (f : A -> C) (g : B -> D) (a : list A) (b : list B) :
  combine (map f a) (map g b) = map (fun p => (f (fst p), g (snd p))) (combine a b).
Proof.
  revert b. induction a as [|x a IH]; intros [|y b]; try reflexivity.
  simpl. rewrite IH. reflexivity.
Qed.

Lemma combine_same {A B C : Type} (f : A -> B) (g : A -> C) (l : list A) :
  combine (map f l) (map g l) = map (fun x => (f x, g x)) l.
Proof. induction l as [|x l IH]; [reflexivity|]. simpl. rewrite IH. reflexivity. Qed.

Lemma squish_column (t : Dataset) (h v : string) (heading : value)
    (HL VL : list (list value)) :
  valid t -> In h (columns t) -> In v (columns t) ->
  col t h = map VList HL -> col t v = map VList VL ->
  mapM (fun rec =>
          hl <- getitem rec h ;;
          vl <- getitem rec v ;;
          hs <- iter_value hl ;;
          vs <- iter_value vl ;;
          Ok (next_value heading (combine hs vs)))
       (records t)
  = Ok (map (fun p => next_value heading (combine (fst p) (snd p))) (combine HL VL)).
Proof.
  intros Hv Hh Hvv Eh Ev.
  rewrite (records_two_cells t h v
             (fun hl vl => hs <- iter_value hl ;; vs <- iter_value vl ;;
                           Ok (next_value heading (combine hs vs))) Hv Hh Hvv).
  rewrite Eh, Ev, combine_map2, mapM_map. apply mapM_ok. intros p _. reflexivity.
Qed.

Lemma squish_fold (h v prefix : string) (HL VL : list (list value)) (hs : list string) :
  forall t : Dataset,
  valid t -> In h (columns t) -> In v (columns t) ->
  col t h = map VList HL -> col t v = map VList VL ->
  Forall (fun kv : string * list value => length (snd kv) = length (combine HL VL)) t ->
  NoDup (columns t ++ map (fun s => (prefix ++ s)%string) hs) ->
  foldM (fun rtn heading =>
           column <- mapM (fun rec =>
                             hl <- getitem rec h ;;
                             vl <- getitem rec v ;;
                             hs <- iter_value hl ;;
                             vs <- iter_value vl ;;
                             Ok (next_value heading (combine hs vs)))
                          (records rtn) ;;
           name <- str_add prefix heading ;;
           Ok (dict_set rtn name column))
        (map VStr hs) t
  = Ok (t ++ map (fun s => ((prefix ++ s)%string,
                            map (fun p => next_value (VStr s) (combine (fst p) (snd p)))
                                (combine HL VL)))
                 hs).
Proof.
  induction hs as [|s hs IH]; intros t Hv Hh Hvv Eh Ev Hlen Hnd.
  - simpl. rewrite app_nil_r. reflexivity.
  - cbn [map foldM].
    rewrite (squish_column t h v (VStr s) HL VL Hv Hh Hvv Eh Ev). cbn [bind str_add].
    set (column := map (fun p => next_value (VStr s) (combine (fst p) (snd p)))
                       (combine HL VL)).
    assert (Hfresh : ~ In (prefix ++ s)%string (dict_keys t)).
    { intros Hin. apply (NoDup_app_disjoint _ _ _ Hnd Hin). left. reflexivity. }
    rewrite dict_set_new by exact Hfresh.
    assert (Hcols : columns (t ++ [((prefix ++ s)%string, column)])
                    = columns t ++ [(prefix ++ s)%string]).
    { unfold columns, dict_keys. rewrite map_app. reflexivity. }
    assert (Hnd' : NoDup (columns (t ++ [((prefix ++ s)%string, column)])
                          ++ map (fun s0 => (prefix ++ s0)%string) hs)).
    { rewrite Hcols, <- app_assoc. exact Hnd. }
    assert (Hlen' : Forall (fun kv : string * list value =>
                              length (snd kv) = length (combine HL VL))
                           (t ++ [((prefix ++ s)%string, column)])).
    { apply Forall_app. split; [exact Hlen|].
      constructor; [|constructor]. simpl. unfold column. apply length_map. }
    rewrite IH.
    + rewrite <- app_assoc. reflexivity.
    + split; [|eexists; exact Hlen'].
      apply NoDup_app_remove_r in Hnd'. exact Hnd'.
    + rewrite Hcols. apply in_or_app. left. exact Hh.
    + rewrite Hcols. apply in_or_app. left. exact Hvv.
    + rewrite col_app_l by exact Hh. exact Eh.
    + rewrite col_app_l by exact Hvv. exact Ev.
    + exact Hlen'.
    + exact Hnd'.
Qed.

Lemma squish_headings (hnames : list string) :
  exists u hs,
    set_of_values (map VStr hnames) = Ok (map VStr u) /\
    sorted (fun x => [x]) (map VStr u) false = Ok (map VStr hs) /\
    StronglySorted name_lt hs /\ NoDup hs /\ (forall s, In s hs <-> In s hnames).
Proof.
  destruct (unique_strings hnames) as [u [Eu [Hnd Hin]]].
  destruct (sorted_names_ok u) as [hs [Es [Hp Hs]]].
  exists u, hs. split; [|split; [|split; [|split]]].
  - unfold set_of_values.
    assert (Hh : forallb hashable (map VStr hnames) = true).
    { apply forallb_forall. intros x Hx. apply in_map_iff in Hx.
      destruct Hx as [s [<- _]]. reflexivity. }
    rewrite Hh, Eu. reflexivity.
  - unfold sorted. rewrite (isort_map VStr (fun x => [x]) u).
    unfold sorted_names, sorted in Es. rewrite Es. reflexivity.
  - apply Hs. exact Hnd.
  - eapply Permutation_NoDup; [exact Hp | exact Hnd].
  - intros s. rewrite <- Hin. split; intros H.
    + eapply Permutation_in; [apply Permutation_sym; exact Hp | exact H].
    + eapply Permutation_in; [exact Hp | exact H].
Qed.

Lemma NoDup_map_injective {A B : Type} (f : A -> B) (l : list A) :
  (forall a b, f a = f b -> a = b) -> NoDup l -> NoDup (map f l).
Proof.
  intros Hinj. induction 1 as [|x l Hx Hl IH]; simpl; constructor; [|exact IH].
  intros Hin. apply in_map_iff in Hin. destruct Hin as [y [E Hy]].
  apply Hinj in E. subst y. contradiction.
Qed.

(** [column_squish] is the pivot of the table: one row per distinct tuple of
    the grouping columns, in ascending order, and one column per distinct
    heading, in ascending order and named by the prefix and the heading,
    after the grouping columns.  A cell holds the value of the first row of
    its group (in the order of the table) that carries its heading, and
    [None] when the group has no such row. *)
Theorem column_squish_pivot (self : Dataset) (grouping_cols : list string)
    (headings values prefix : string) (hnames : list string) :
  valid self -> (0 < height self)%nat ->
  NoDup grouping_cols -> incl grouping_cols (columns self) ->
  In headings (columns self) -> In values (columns self) ->
  NoDup (grouping_cols ++ [headings; values]) ->
  all_comparable (keys_of self grouping_cols) = true ->
  col self headings = map VStr hnames ->
  (forall s, In s hnames ->
             ~ In (prefix ++ s)%string (grouping_cols ++ [headings; values])) ->
  exists ks hs,
    StronglySorted key_lt ks /\ (forall k, In k ks <-> In k (keys_of self grouping_cols)) /\
    StronglySorted name_lt hs /\ (forall s, In s hs <-> In s hnames) /\
    column_squish self grouping_cols headings values prefix
    = Ok (pivot_table self grouping_cols headings values prefix ks hs).
Proof.
  intros Hv Hh Hgs Hgin Hhead Hval Hnd Hcmp Hcells Hfresh.
  destruct (sort_defined self grouping_cols Hv Hgs Hgin Hh Hcmp) as [sorts Hsorts].
  assert (Hnd0 : NoDup (grouping_cols ++ [headings; values] ++ count_col None))
    by (simpl; exact Hnd).
  destruct (group_by_sorted self grouping_cols (Some [headings; values]) None sorts
              Hv Hgs Hgin Hh Hnd0) as [ks [Egb [Hks Hkeys]]].
  { intros c [<-|[<-|[]]]; assumption. }
  { exact Hsorts. }
  destruct (squish_headings hnames) as [u [hs [Eset [Esort [Hhs [Hhsnd Hhsin]]]]]].
  exists ks, hs. split; [exact Hks|]. split; [exact Hkeys|].
  split; [exact Hhs|]. split; [exact Hhsin|].
  set (rest := filter (fun col => negb (mem col grouping_cols)) (columns self)).
  change (sort_order self grouping_cols) with (grouping_cols ++ rest) in *.
  change (others self grouping_cols (Some [headings; values])) with [headings; values] in Egb.
  set (inp := rows_in self (grouping_cols ++ rest)) in *.
  set (R := groups_of grouping_cols ks inp) in *.
  set (T0 := group_table grouping_cols [headings; values] None (grouping_cols ++ rest) R) in *.
  set (ch := fun r : list value => cell_in (grouping_cols ++ rest) r headings).
  set (cv := fun r : list value => cell_in (grouping_cols ++ rest) r values).
  set (HL := map (fun kg : group => map ch (snd kg)) R).
  set (VL := map (fun kg : group => map cv (snd kg)) R).
  destruct (group_table_valid grouping_cols [headings; values] None (grouping_cols ++ rest) R
              Hnd0) as [HvT0 HlenT0].
  fold T0 in HvT0, HlenT0.
  assert (HcolsT0 : columns T0 = grouping_cols ++ [headings; values]).
  { unfold T0, columns. rewrite group_table_keys. simpl. reflexivity. }
  assert (Hcomb : combine HL VL = map (fun kg : group => (map ch (snd kg), map cv (snd kg))) R).
  { unfold HL, VL. apply combine_same. }
  assert (HhT0 : In headings (columns T0)).
  { rewrite HcolsT0. apply in_or_app. right. left. reflexivity. }
  assert (HvT0' : In values (columns T0)).
  { rewrite HcolsT0. apply in_or_app. right. right. left. reflexivity. }
  assert (EhT0 : col T0 headings = map VList HL).
  { unfold T0. rewrite (col_group_other grouping_cols rest [headings; values] None Hnd0 R)
      by (left; reflexivity).
    unfold HL. rewrite map_map. reflexivity. }
  assert (EvT0 : col T0 values = map VList VL).
  { unfold T0. rewrite (col_group_other grouping_cols rest [headings; values] None Hnd0 R)
      by (right; left; reflexivity).
    unfold VL. rewrite map_map. reflexivity. }
  assert (HlenT0' : Forall (fun kv : string * list value =>
                              length (snd kv) = length (combine HL VL)) T0).
  { rewrite Hcomb, length_map. exact HlenT0. }
  set (names := map (fun s => (prefix ++ s)%string) hs).
  assert (Hnames : NoDup (columns T0 ++ names)).
  { rewrite HcolsT0. apply NoDup_app.
    - exact Hnd.
    - unfold names. apply NoDup_map_injective; [|exact Hhsnd].
      intros a b E. apply (append_inj prefix). exact E.
    - intros c Hc Hn. unfold names in Hn. apply in_map_iff in Hn.
      destruct Hn as [s [<- Hs]]. apply (Hfresh s); [apply Hhsin; exact Hs | exact Hc]. }
  set (extra := map (fun s => ((prefix ++ s)%string,
                               map (fun p => next_value (VStr s) (combine (fst p) (snd p)))
                                   (combine HL VL))) hs).
  pose proof (squish_fold headings values prefix HL VL hs T0 HvT0 HhT0 HvT0' EhT0 EvT0
                HlenT0' Hnames) as Efold.
  fold extra in Efold.
  assert (Enames : mapM (str_add prefix) (map VStr hs) = Ok names).
  { rewrite mapM_map. apply mapM_ok. intros s _. reflexivity. }
  assert (Hkextra : dict_keys extra = names).
  { unfold extra, names, dict_keys. rewrite map_map. reflexivity. }
  assert (HcolsTn : columns (T0 ++ extra) = columns T0 ++ names).
  { unfold columns, dict_keys. rewrite map_app. f_equal. exact Hkextra. }
  assert (HvTn : valid (T0 ++ extra)).
  { split; [rewrite HcolsTn; exact Hnames|].
    exists (length (combine HL VL)). apply Forall_app. split; [exact HlenT0'|].
    unfold extra. apply Forall_forall. intros kv Hkv. apply in_map_iff in Hkv.
    destruct Hkv as [s [<- _]]. simpl. apply length_map. }
  unfold column_squish.
  rewrite (proj2 (mem_In headings (columns self)) Hhead).
  rewrite (proj2 (mem_In values (columns self)) Hval).
  rewrite Egb. cbn [bind].
  rewrite getitem_col by exact Hhead. cbn [bind].
  rewrite Hcells, Eset. cbn [bind]. rewrite Esort. cbn [bind].
  rewrite Efold. cbn [bind]. rewrite Enames. cbn [bind].
  assert (Hsel : NoDup (grouping_cols ++ names)).
  { rewrite HcolsT0 in Hnames. rewrite <- app_assoc in Hnames.
    apply NoDup_app_remove_l in Hnames as Hn2.
    apply NoDup_app.
    - exact Hgs.
    - apply NoDup_app_remove_l in Hn2. exact Hn2.
    - intros c Hc Hn. apply (NoDup_app_disjoint _ _ c Hnames Hc).
      apply in_or_app. right. exact Hn. }
  assert (Hselin : incl (grouping_cols ++ names) (columns (T0 ++ extra))).
  { rewrite HcolsTn, HcolsT0. intros c Hc. apply in_app_or in Hc.
    destruct Hc as [Hc|Hc]; apply in_or_app; [left; apply in_or_app; left | right]; exact Hc. }
  destruct (select_ok (T0 ++ extra) (grouping_cols ++ names) HvTn Hsel Hselin) as [Es _].
  rewrite Es. apply f_equal.
  set (A := map (fun ig : nat * string =>
                   (snd ig, map (fun kg : group => nth (fst ig) (fst kg) VNone) R))
                (enumerate grouping_cols)).
  assert (HkA : dict_keys A = grouping_cols).
  { unfold A, dict_keys. rewrite map_map. simpl. apply enumerate_snd. }
  rewrite map_app.
  rewrite <- HkA at 1. rewrite <- Hkextra.
  rewrite (sub_eta (T0 ++ extra) A (proj1 HvTn)).
  2:{ intros x Hx. apply in_or_app. left. unfold T0, group_table. fold A.
      apply in_or_app. left. exact Hx. }
  rewrite (sub_eta (T0 ++ extra) extra (proj1 HvTn))
    by (intros x Hx; apply in_or_app; right; exact Hx).
  unfold pivot_table. f_equal.
  - unfold A. apply map_ext. intros [i g]. simpl. f_equal.
    unfold R, groups_of. rewrite map_map. reflexivity.
  - unfold extra. apply map_ext. intros s. f_equal.
    rewrite Hcomb. unfold R, groups_of. rewrite !map_map. apply map_ext. intros k.
    simpl. unfold found. rewrite combine_same. reflexivity.
Qed.

Lemma column_squish_pivot_witness :
  exists ks hs,
    column_squish
      [("id", [VInt 2; VInt 1; VInt 2; VInt 1]);
       ("kind", [VStr "b"; VStr "a"; VStr "a"; VStr "a"]);
       ("amount", [VInt 10; VInt 20; VInt 30; VInt 40])]%string
      ["id"]%string "kind" "amount" "n_"
    = Ok (pivot_table
            [("id", [VInt 2; VInt 1; VInt 2; VInt 1]);
             ("kind", [VStr "b"; VStr "a"; VStr "a"; VStr "a"]);
             ("amount", [VInt 10; VInt 20; VInt 30; VInt 40])]%string
            ["id"]%string "kind" "amount" "n_" ks hs).
Proof.
  assert (Hv : valid [("id", [VInt 2; VInt 1; VInt 2; VInt 1]);
                      ("kind", [VStr "b"; VStr "a"; VStr "a"; VStr "a"]);
                      ("amount", [VInt 10; VInt 20; VInt 30; VInt 40])]%string)
    by (apply validb_valid; reflexivity).
  destruct (column_squish_pivot _ ["id"]%string "kind"%string "amount"%string "n_"%string
              ["b"; "a"; "a"; "a"]%string Hv)
    as [ks [hs [_ [_ [_ [_ E]]]]]].
  - simpl. lia.
  - apply nodupb_NoDup. reflexivity.
  - apply inclb_incl. reflexivity.
  - simpl. auto.
  - simpl. auto.
  - apply nodupb_NoDup. reflexivity.
  - reflexivity.
  - reflexivity.
  - intros s Hs H. simpl in Hs.
    repeat (destruct Hs as [<-|Hs];
            [simpl in H; repeat (destruct H as [H|H]; [discriminate|]); exact H|]).
    exact Hs.
  - exists ks, hs. exact E.
Defined.
